(** * Greaseweazle: disk-format descriptions and the IBM FM track codec

    A shallow embedding of [greaseweazle/codec/formats.py] and
    [greaseweazle/codec/ibm/fm.py], and the properties of the two modules
    that the specification states.

    Python integers are unbounded and are modelled by [Z]; [str] values are
    modelled by [string] (documents are taken to be ASCII); a raised
    exception is the left injection of a sum type. *)

From Stdlib Require Import ZArith Ascii String DecimalString Permutation.
From stdpp Require Import gmap strings list.

Local Open Scope string_scope.
Local Open Scope list_scope.
Local Open Scope Z_scope.

(** ** Exceptions *)

(** The exception classes that the modelled code can raise.  [Fatal] is
    [greaseweazle.error.Fatal]; the others are Python built-ins.  Every
    exception carries [args[0]], its message. *)
Inductive exn : Type :=
| Fatal (msg : string)
| ValueError (msg : string)
| TypeError (msg : string)
| IndexError (msg : string)
| AttributeError (msg : string)
| ZeroDivisionError (msg : string)
| StopIteration.

Definition exn_msg (e : exn) : string :=
  match e with
  | Fatal m | ValueError m | TypeError m | IndexError m | AttributeError m
  | ZeroDivisionError m => m
  | StopIteration => ""
  end.

(** [err.args = (s + err.args[0],) + err.args[1:]]: the class is kept and
    the message is prefixed.  An exception without arguments has no
    [args[0]]. *)
Definition exn_prefix (s : string) (e : exn) : exn :=
  match e with
  | Fatal m => Fatal (s +:+ m)
  | ValueError m => ValueError (s +:+ m)
  | TypeError m => TypeError (s +:+ m)
  | IndexError m => IndexError (s +:+ m)
  | AttributeError m => AttributeError (s +:+ m)
  | ZeroDivisionError m => ZeroDivisionError (s +:+ m)
  | StopIteration => IndexError "tuple index out of range"
  end.

Definition res (A : Type) : Type := exn + A.

Definition raise {A} (e : exn) : res A := inl e.

#[global] Instance res_ret : MRet res := fun A a => inr a.
#[global] Instance res_bind : MBind res := fun A B k m =>
  match m with
  | inl e => inl e
  | inr a => k a
  end.

#[global] Instance res_fmap : FMap res := fun A B f m =>
  match m with
  | inl e => inl e
  | inr a => inr (f a)
  end.

Definition ret {A} (a : A) : res A := inr a.

(** [error.check(pred, desc)]: raise [Fatal(desc)] unless [pred]. *)
Definition check (pred : bool) (desc : string) : res unit :=
  if pred then ret tt else raise (Fatal desc).

Definition is_ok {A} (r : res A) : bool :=
  match r with inr _ => true | inl _ => false end.

(** ** Text primitives: the [str] methods and [re] patterns the parser uses *)

Module Text.

Definition code (c : ascii) : N := N_of_ascii c.

Definition between (lo hi : N) (c : ascii) : bool :=
  ((lo <=? code c) && (code c <=? hi))%N.

(** [\d] *)
Definition is_digit (c : ascii) : bool := between 48 57 c.
(** [\s], also what [str.strip] removes *)
Definition is_space (c : ascii) : bool :=
  between 9 13 c || between 28 32 c.
Definition is_alpha (c : ascii) : bool :=
  between 65 90 c || between 97 122 c.
(** [\w] *)
Definition is_word (c : ascii) : bool :=
  is_alpha c || is_digit c || Ascii.eqb c "_".

Definition one_of (s : string) (c : ascii) : bool :=
  existsb (Ascii.eqb c) (list_ascii_of_string s).

(** [[\w,.-]] *)
Definition is_name_char (c : ascii) : bool := is_word c || one_of ",.-" c.
(** digits, comma, dot, star, dash *)
Definition is_spec_char (c : ascii) : bool := is_digit c || one_of ",.*-" c.
(** [[a-zA-Z0-9:,._-]] *)
Definition is_key_char (c : ascii) : bool :=
  is_alpha c || is_digit c || one_of ":,._-" c.
(** the same with the star *)
Definition is_tval_char (c : ascii) : bool :=
  is_key_char c || Ascii.eqb c "*".

(** The longest prefix whose characters satisfy [p], and the rest: a
    greedy [[class]*]. *)
Fixpoint span (p : ascii -> bool) (s : string) : string * string :=
  match s with
  | EmptyString => (EmptyString, EmptyString)
  | String c s' =>
      if p c then let '(a, b) := span p s' in (String c a, b)
      else (EmptyString, s)
  end.

(** A greedy [[class]+]: fails on an empty run. *)
Definition span1 (p : ascii -> bool) (s : string) : option (string * string) :=
  match span p s with
  | (EmptyString, _) => None
  | r => Some r
  end.

(** A literal at the start of the subject. *)
Fixpoint literal (lit s : string) : option string :=
  match lit, s with
  | EmptyString, _ => Some s
  | String a lit', String b s' =>
      if Ascii.eqb a b then literal lit' s' else None
  | String _ _, EmptyString => None
  end.

Fixpoint rstrip_if (p : ascii -> bool) (s : string) : string :=
  match s with
  | EmptyString => EmptyString
  | String c s' =>
      match rstrip_if p s' with
      | EmptyString => if p c then EmptyString else String c EmptyString
      | r => String c r
      end
  end.

(** [str.strip()] *)
Definition strip (s : string) : string :=
  rstrip_if is_space (snd (span is_space s)).

(** The text of a line without leading blanks and without the comment
    that a hash sign starts, stripped: group 1 of the comment pattern,
    then [strip()]. *)
Definition strip_comment (l : string) : string :=
  strip (fst (span (fun c => negb (Ascii.eqb c "#")) (snd (span is_space l)))).

(** [str.split(',')]: every comma separates, empty fields are kept. *)
Fixpoint split_comma (s : string) : list string :=
  match s with
  | EmptyString => [EmptyString]
  | String c s' =>
      if Ascii.eqb c ","
      then EmptyString :: split_comma s'
      else match split_comma s' with
           | [] => [String c EmptyString]
           | x :: xs => String c x :: xs
           end
  end.

Definition digit_val (c : ascii) : Z := Z.of_N (code c) - 48.

(** The value of a run of decimal digits. *)
Definition digits_val (s : string) : Z :=
  fold_left (fun acc c => 10 * acc + digit_val c) (list_ascii_of_string s) 0.

(** Digit groups separated by single underscores, as [int()] accepts. *)
Fixpoint int_body (s : string) (prev_digit : bool) (acc : Z) : option Z :=
  match s with
  | EmptyString => if prev_digit then Some acc else None
  | String c s' =>
      if is_digit c then int_body s' true (10 * acc + digit_val c)
      else if Ascii.eqb c "_" && prev_digit
           then match s' with
                | String d _ => if is_digit d then int_body s' false acc else None
                | EmptyString => None
                end
           else None
  end.

(** [int(val)] on an ASCII string without surrounding blanks: an optional
    sign and a decimal literal; [ValueError] otherwise.  The literal may
    have any number of digits: the bound that recent interpreters put on
    it (4300 digits unless configured otherwise) is not part of the
    model. *)
Definition int (val : string) : res Z :=
  let bad := ValueError ("invalid literal for int() with base 10: '" +:+ val +:+ "'") in
  match val with
  | String "-" s' =>
      match int_body s' false 0 with Some v => ret (- v) | None => raise bad end
  | String "+" s' =>
      match int_body s' false 0 with Some v => ret v | None => raise bad end
  | _ =>
      match int_body val false 0 with Some v => ret v | None => raise bad end
  end.

(** [str(n)] and ['%d' % n] *)
Definition str (n : Z) : string := NilZero.string_of_int (Z.to_int n).

(** The disk pattern: the word disk, blanks, a run of name characters;
    gives [group(1)]. *)
Definition disk_match (t : string) : option string :=
  r ← literal "disk" t;
  '(_, r) ← span1 is_space r;
  '(name, _) ← span1 is_name_char r;
  Some name.

(** The tracks pattern: the word tracks, blanks, a run of specifier
    characters, blanks, a run of name characters; gives
    [(group(1), group(2))]. *)
Definition tracks_match (t : string) : option (string * string) :=
  r ← literal "tracks" t;
  '(_, r) ← span1 is_space r;
  '(spec, r) ← span1 is_spec_char r;
  '(_, r) ← span1 is_space r;
  '(fmt, _) ← span1 is_name_char r;
  Some (spec, fmt).

(** The key=value pattern: a run of key characters, blanks, an equals
    sign, blanks, a run of value characters; gives
    [(group(1), group(2))]. *)
Definition keyval_match (is_val : ascii -> bool) (t : string)
  : option (string * string) :=
  '(key, r) ← span1 is_key_char t;
  r ← literal "=" (snd (span is_space r));
  '(val, _) ← span1 is_val (snd (span is_space r));
  Some (key, val).

(** The track-specifier pattern: digits, optionally a dash and digits,
    optionally a dot and 0 or 1; gives the three groups, the optional
    ones being [None] when they do not take part.  The match is not
    anchored at the end of [x]. *)
Definition t_match (x : string) : option (string * option string * option string) :=
  '(s, r) ← span1 is_digit x;
  let '(e, r) :=
    match r with
    | String "-" r' =>
        match span1 is_digit r' with
        | Some (e, r'') => (Some e, r'')
        | None => (None, r)
        end
    | _ => (None, r)
    end in
  let h :=
    match r with
    | String "." (String c _) =>
        if one_of "01" c then Some (String c EmptyString) else None
    | _ => None
    end in
  Some (s, e, h).

(** The run-length pattern: digits, a star, digits; gives
    [(group(1), group(2))]. *)
Definition run_match (x : string) : option (string * string) :=
  '(n, r) ← span1 is_digit x;
  r ← literal "*" r;
  '(l, _) ← span1 is_digit r;
  Some (n, l).

End Text.

(** ** formats.py *)

Module Formats.
Import Text.

(** What [formats.py] imports from modules that are outside the two
    embedded files: the Amiga track template (created for the format name
    [amiga.amigados]), and the [default_revs] constants of the codecs,
    whose maximum [DiskConfig.default_revs] takes. *)
Class Externals := {
  AmigaDOSTrackConfig : Type;
  amiga_init : string -> AmigaDOSTrackConfig;
  amiga_add_param : AmigaDOSTrackConfig -> string -> string -> res AmigaDOSTrackConfig;
  amiga_finalise : AmigaDOSTrackConfig -> res AmigaDOSTrackConfig;
  Revs : Type;
  revs_max : Revs -> Revs -> Revs;
  mfm_default_revs : Revs;
  amiga_default_revs : Revs;
}.

(** *** class IBMTrackConfig *)

Record IBMTrackConfig := {
  secs : Z;
  sz : list Z;
  id : Z;
  h : option Z;
  format_name : string;
  interleave : Z;
  cskew : Z;
  hskew : Z;
  rpm : Z;
  gap1 : option Z;
  gap2 : option Z;
  gap3 : option Z;
  gap4a : option Z;
  iam : bool;
  rate : Z;
  finalised : bool;
}.

Definition IBMTrackConfig_init (format_name : string) : IBMTrackConfig :=
  {| secs := 0; sz := []; id := 1; h := None; format_name := format_name;
     interleave := 1; cskew := 0; hskew := 0; rpm := 300;
     gap1 := None; gap2 := None; gap3 := None; gap4a := None;
     iam := true; rate := 0; finalised := false |}.

Definition set_secs v (t : IBMTrackConfig) :=
  {| secs := v; sz := sz t; id := id t; h := h t; format_name := format_name t;
     interleave := interleave t; cskew := cskew t; hskew := hskew t; rpm := rpm t;
     gap1 := gap1 t; gap2 := gap2 t; gap3 := gap3 t; gap4a := gap4a t;
     iam := iam t; rate := rate t; finalised := finalised t |}.
Definition set_sz v (t : IBMTrackConfig) :=
  {| secs := secs t; sz := v; id := id t; h := h t; format_name := format_name t;
     interleave := interleave t; cskew := cskew t; hskew := hskew t; rpm := rpm t;
     gap1 := gap1 t; gap2 := gap2 t; gap3 := gap3 t; gap4a := gap4a t;
     iam := iam t; rate := rate t; finalised := finalised t |}.
Definition set_id v (t : IBMTrackConfig) :=
  {| secs := secs t; sz := sz t; id := v; h := h t; format_name := format_name t;
     interleave := interleave t; cskew := cskew t; hskew := hskew t; rpm := rpm t;
     gap1 := gap1 t; gap2 := gap2 t; gap3 := gap3 t; gap4a := gap4a t;
     iam := iam t; rate := rate t; finalised := finalised t |}.
Definition set_h v (t : IBMTrackConfig) :=
  {| secs := secs t; sz := sz t; id := id t; h := v; format_name := format_name t;
     interleave := interleave t; cskew := cskew t; hskew := hskew t; rpm := rpm t;
     gap1 := gap1 t; gap2 := gap2 t; gap3 := gap3 t; gap4a := gap4a t;
     iam := iam t; rate := rate t; finalised := finalised t |}.
Definition set_interleave v (t : IBMTrackConfig) :=
  {| secs := secs t; sz := sz t; id := id t; h := h t; format_name := format_name t;
     interleave := v; cskew := cskew t; hskew := hskew t; rpm := rpm t;
     gap1 := gap1 t; gap2 := gap2 t; gap3 := gap3 t; gap4a := gap4a t;
     iam := iam t; rate := rate t; finalised := finalised t |}.
Definition set_cskew v (t : IBMTrackConfig) :=
  {| secs := secs t; sz := sz t; id := id t; h := h t; format_name := format_name t;
     interleave := interleave t; cskew := v; hskew := hskew t; rpm := rpm t;
     gap1 := gap1 t; gap2 := gap2 t; gap3 := gap3 t; gap4a := gap4a t;
     iam := iam t; rate := rate t; finalised := finalised t |}.
Definition set_hskew v (t : IBMTrackConfig) :=
  {| secs := secs t; sz := sz t; id := id t; h := h t; format_name := format_name t;
     interleave := interleave t; cskew := cskew t; hskew := v; rpm := rpm t;
     gap1 := gap1 t; gap2 := gap2 t; gap3 := gap3 t; gap4a := gap4a t;
     iam := iam t; rate := rate t; finalised := finalised t |}.
Definition set_rpm v (t : IBMTrackConfig) :=
  {| secs := secs t; sz := sz t; id := id t; h := h t; format_name := format_name t;
     interleave := interleave t; cskew := cskew t; hskew := hskew t; rpm := v;
     gap1 := gap1 t; gap2 := gap2 t; gap3 := gap3 t; gap4a := gap4a t;
     iam := iam t; rate := rate t; finalised := finalised t |}.
Definition set_gap1 v (t : IBMTrackConfig) :=
  {| secs := secs t; sz := sz t; id := id t; h := h t; format_name := format_name t;
     interleave := interleave t; cskew := cskew t; hskew := hskew t; rpm := rpm t;
     gap1 := v; gap2 := gap2 t; gap3 := gap3 t; gap4a := gap4a t;
     iam := iam t; rate := rate t; finalised := finalised t |}.
Definition set_gap2 v (t : IBMTrackConfig) :=
  {| secs := secs t; sz := sz t; id := id t; h := h t; format_name := format_name t;
     interleave := interleave t; cskew := cskew t; hskew := hskew t; rpm := rpm t;
     gap1 := gap1 t; gap2 := v; gap3 := gap3 t; gap4a := gap4a t;
     iam := iam t; rate := rate t; finalised := finalised t |}.
Definition set_gap3 v (t : IBMTrackConfig) :=
  {| secs := secs t; sz := sz t; id := id t; h := h t; format_name := format_name t;
     interleave := interleave t; cskew := cskew t; hskew := hskew t; rpm := rpm t;
     gap1 := gap1 t; gap2 := gap2 t; gap3 := v; gap4a := gap4a t;
     iam := iam t; rate := rate t; finalised := finalised t |}.
Definition set_gap4a v (t : IBMTrackConfig) :=
  {| secs := secs t; sz := sz t; id := id t; h := h t; format_name := format_name t;
     interleave := interleave t; cskew := cskew t; hskew := hskew t; rpm := rpm t;
     gap1 := gap1 t; gap2 := gap2 t; gap3 := gap3 t; gap4a := v;
     iam := iam t; rate := rate t; finalised := finalised t |}.
Definition set_iam v (t : IBMTrackConfig) :=
  {| secs := secs t; sz := sz t; id := id t; h := h t; format_name := format_name t;
     interleave := interleave t; cskew := cskew t; hskew := hskew t; rpm := rpm t;
     gap1 := gap1 t; gap2 := gap2 t; gap3 := gap3 t; gap4a := gap4a t;
     iam := v; rate := rate t; finalised := finalised t |}.
Definition set_rate v (t : IBMTrackConfig) :=
  {| secs := secs t; sz := sz t; id := id t; h := h t; format_name := format_name t;
     interleave := interleave t; cskew := cskew t; hskew := hskew t; rpm := rpm t;
     gap1 := gap1 t; gap2 := gap2 t; gap3 := gap3 t; gap4a := gap4a t;
     iam := iam t; rate := v; finalised := finalised t |}.
Definition set_finalised v (t : IBMTrackConfig) :=
  {| secs := secs t; sz := sz t; id := id t; h := h t; format_name := format_name t;
     interleave := interleave t; cskew := cskew t; hskew := hskew t; rpm := rpm t;
     gap1 := gap1 t; gap2 := gap2 t; gap3 := gap3 t; gap4a := gap4a t;
     iam := iam t; rate := rate t; finalised := v |}.

(** [key in [...]] *)
Definition key_in (key : string) (keys : list string) : bool :=
  existsb (String.eqb key) keys.

Definition in_range (lo v hi : Z) : bool := (lo <=? v) && (v <=? hi).

(** The [while True] loop of the ['bps'] case: the size code [s] with
    [n == 128 << s], tried for [s = 0 .. 6]; the check after [s += 1]
    fails when [s] reaches 7.  [fuel] counts the codes still to try. *)
Fixpoint size_code (fuel : nat) (n s : Z) : res Z :=
  if n =? Z.shiftl 128 s then ret s
  else match fuel with
       | O => raise (Fatal "bps value out of range")
       | S fuel' => size_code fuel' n (s + 1)
       end.

(** One element [x] of [val.split(',')] in the ['bps'] case: the size
    code, repeated [l] times. *)
Definition bps_element (x : string) : res (list Z) :=
  nl ← match run_match x with
       | Some (n, l) => ret (digits_val n, digits_val l)
       | None => n ← int x; ret (n, 1)
       end;
  s ← size_code 6 nl.1 0;
  ret (replicate (Z.to_nat nl.2) s).

Fixpoint bps_elements (xs : list string) (acc : list Z) : res (list Z) :=
  match xs with
  | [] => ret acc
  | x :: xs' => ss ← bps_element x; bps_elements xs' (acc ++ ss)
  end.

Definition IBMTrackConfig_add_param (t : IBMTrackConfig) (key val : string)
  : res IBMTrackConfig :=
  if String.eqb key "secs" then
    v ← int val;
    check (in_range 0 v 256) (key +:+ " out of range");;
    ret (set_secs v t)
  else if String.eqb key "bps" then
    ss ← bps_elements (split_comma val) [];
    ret (set_sz ss t)
  else if String.eqb key "interleave" then
    v ← int val;
    check (in_range 1 v 255) (key +:+ " out of range");;
    ret (set_interleave v t)
  else if key_in key ["id"; "cskew"; "hskew"] then
    v ← int val;
    check (in_range 0 v 255) (key +:+ " out of range");;
    ret (if String.eqb key "id" then set_id v t
         else if String.eqb key "cskew" then set_cskew v t
         else set_hskew v t)
  else if key_in key ["gap1"; "gap2"; "gap3"; "gap4a"; "h"] then
    v ← (if String.eqb val "auto" then ret None
         else v ← int val;
              check (in_range 0 v 255) (key +:+ " out of range");;
              ret (Some v));
    ret (if String.eqb key "gap1" then set_gap1 v t
         else if String.eqb key "gap2" then set_gap2 v t
         else if String.eqb key "gap3" then set_gap3 v t
         else if String.eqb key "gap4a" then set_gap4a v t
         else set_h v t)
  else if String.eqb key "iam" then
    check (key_in val ["yes"; "no"]) "bad iam value";;
    ret (set_iam (String.eqb val "yes") t)
  else if key_in key ["rate"; "rpm"] then
    v ← int val;
    check (in_range 1 v 2000) (key +:+ " out of range");;
    ret (if String.eqb key "rate" then set_rate v t else set_rpm v t)
  else raise (Fatal ("unrecognised track option " +:+ key)).

Definition is_None {A} (o : option A) : bool :=
  match o with None => true | Some _ => false end.

Definition IBMTrackConfig_finalise (t : IBMTrackConfig) : res IBMTrackConfig :=
  if finalised t then ret t
  else
    check (iam t || is_None (gap1 t)) "gap1 specified but no iam";;
    check ((secs t =? 0) || negb (length (sz t) =? 0)%nat)
          "sector size not specified";;
    ret (set_finalised true t).

(** [range(n)] and [range(s, e)] *)
Definition range (n : Z) : list Z := Z.of_nat <$> seq 0 (Z.to_nat n).
Definition range_from (s e : Z) : list Z := (fun i => s + i) <$> range (e - s).

(** *** class DiskConfig

    [track_map] maps a position to a track template.  The templates are
    objects that several positions share and that [add_param] mutates
    after they have been entered in the map, so the map holds handles
    into a store of templates. *)

Record DiskConfig := {
  cyls : option Z;
  heads : option Z;
  step : Z;
  track_map : gmap (Z * Z) nat;
}.

Definition DiskConfig_init : DiskConfig :=
  {| cyls := None; heads := None; step := 1; track_map := ∅ |}.

Definition set_track_map (m : gmap (Z * Z) nat) (d : DiskConfig) : DiskConfig :=
  {| cyls := cyls d; heads := heads d; step := step d; track_map := m |}.

Definition DiskConfig_add_param (d : DiskConfig) (key val : string)
  : res DiskConfig :=
  if String.eqb key "cyls" then
    v ← int val;
    check (in_range 1 v 255) (key +:+ " out of range");;
    ret {| cyls := Some v; heads := heads d; step := step d;
           track_map := track_map d |}
  else if String.eqb key "heads" then
    v ← int val;
    check (in_range 1 v 2) (key +:+ " out of range");;
    ret {| cyls := cyls d; heads := Some v; step := step d;
           track_map := track_map d |}
  else if String.eqb key "step" then
    v ← int val;
    check (in_range 1 v 4) (key +:+ " out of range");;
    ret {| cyls := cyls d; heads := heads d; step := v;
           track_map := track_map d |}
  else raise (Fatal ("unrecognised disk option: " +:+ key)).

Definition DiskConfig_finalise (d : DiskConfig) : res unit :=
  check (negb (is_None (cyls d))) "missing cyls";;
  check (negb (is_None (heads d))) "missing heads".

Definition none_gt : exn :=
  TypeError "'>' not supported between instances of 'NoneType' and 'int'".

Definition trackset (d : DiskConfig) : res string :=
  match cyls d, heads d with
  | Some c, Some hd =>
      let s := "c=0" in
      let s := if 1 <? c then s +:+ "-" +:+ str (c - 1) else s in
      let s := s +:+ ":h=0" in
      let s := if 1 <? hd then s +:+ "-" +:+ str (hd - 1) else s in
      let s := if 1 <? step d then s +:+ ":step=" +:+ str (step d) else s in
      ret s
  | _, _ => raise none_gt
  end.

Section Parser.
Context `{Externals}.

(** A track template is of one of the two classes that
    [mk_track_config] instantiates. *)
Inductive TrackConfig :=
| IBM (t : IBMTrackConfig)
| Amiga (t : AmigaDOSTrackConfig).

Definition TrackConfig_add_param (t : TrackConfig) (key val : string)
  : res TrackConfig :=
  match t with
  | IBM t => IBM <$> IBMTrackConfig_add_param t key val
  | Amiga t => Amiga <$> amiga_add_param t key val
  end.

Definition TrackConfig_finalise (t : TrackConfig) : res TrackConfig :=
  match t with
  | IBM t => IBM <$> IBMTrackConfig_finalise t
  | Amiga t => Amiga <$> amiga_finalise t
  end.

(** The class attribute [default_revs] of a template. *)
Definition TrackConfig_default_revs (t : TrackConfig) : Revs :=
  match t with
  | IBM _ => mfm_default_revs
  | Amiga _ => amiga_default_revs
  end.

Definition mk_track_config (format_name : string) : res TrackConfig :=
  if key_in format_name ["amiga.amigados"] then
    ret (Amiga (amiga_init format_name))
  else if key_in format_name ["ibm.mfm"; "ibm.fm"] then
    ret (IBM (IBMTrackConfig_init format_name))
  else raise (Fatal ("unrecognised format name: " +:+ format_name)).

(** [max(xs)] *)
Definition py_max (xs : list Revs) : res Revs :=
  match xs with
  | [] => raise (ValueError "max() arg is an empty sequence")
  | x :: xs' => ret (foldl revs_max x xs')
  end.

(** [DiskConfig.default_revs]: the maximum over
    [track_map.values()], each handle resolved in the store. *)
Definition DiskConfig_default_revs (store : list TrackConfig) (d : DiskConfig)
  : res Revs :=
  py_max (omap (fun kv : Z * Z * nat =>
                  TrackConfig_default_revs <$> store !! kv.2)
               (map_to_list (track_map d))).

(** *** class Format

    [tracks] keeps the set description that [trackset()] gives to
    [util.TrackSet]; [templates] is the store in which the handles of
    [fmt] are resolved. *)
Record Format := {
  fmt : DiskConfig;
  templates : list TrackConfig;
  default_revs : Revs;
  tracks : string;
}.

Definition Format_init (store : list TrackConfig) (d : DiskConfig) : res Format :=
  revs ← DiskConfig_default_revs store d;
  ts ← trackset d;
  ret {| fmt := d; templates := store; default_revs := revs; tracks := ts |}.

(** *** get_format *)

Inductive ParseMode := Outer | Disk | Track.

(** The local variables of [get_format] that live across lines, and
    the store of the templates created so far. *)
Record State := {
  parse_mode : ParseMode;
  active : bool;
  disk_config : option DiskConfig;
  track_config : option nat;
  store : list TrackConfig;
}.

Definition State_init : State :=
  {| parse_mode := Outer; active := false; disk_config := None;
     track_config := None; store := [] |}.

Definition none_attr (a : string) : exn :=
  AttributeError ("'NoneType' object has no attribute '" +:+ a +:+ "'").

(** The ['*'] element: every position of the disk that is not yet in
    the map receives the template [tc]. *)
Definition assign_star (ncyl nhead : Z) (tc : nat) (m : gmap (Z * Z) nat)
  : gmap (Z * Z) nat :=
  foldl (fun m c =>
           foldl (fun m hd =>
                    if decide ((c, hd) ∈ dom m) then m else <[(c, hd) := tc]> m)
                 m (range nhead))
        m (range ncyl).

(** The positions that an element [C[-C2][.H]] names, or the error it
    raises. *)
Definition spec_positions (ncyl nhead : Z) (x : string) : res (list (Z * Z)) :=
  match t_match x with
  | None => raise (Fatal "bad track specifier")
  | Some (s, e, hd) =>
      let s := digits_val s in
      let e := match e with None => s | Some e => digits_val e end in
      hs ← match hd with
           | None => ret (range nhead)
           | Some hd =>
               check (digits_val hd <? nhead) "head out of range";;
               ret [digits_val hd]
           end;
      check ((0 <=? s) && (s <? ncyl) && (0 <=? e) && (e <? ncyl) && (s <=? e))
            "cylinder out of range";;
      ret (c ← range_from s (e + 1); hd ← hs; [(c, hd)])
  end.

(** An element other than ['*']: every position it names receives the
    template [tc]. *)
Definition assign_range (ncyl nhead : Z) (tc : nat) (m : gmap (Z * Z) nat)
           (x : string) : res (gmap (Z * Z) nat) :=
  ps ← spec_positions ncyl nhead x;
  ret (foldl (fun m p => <[p := tc]> m) m ps).

(** One element [x] of [tracks_match.group(1).split(',')]. *)
Definition assign_spec (ncyl nhead : Z) (tc : nat) (m : gmap (Z * Z) nat)
           (x : string) : res (gmap (Z * Z) nat) :=
  if String.eqb x "*" then ret (assign_star ncyl nhead tc m)
  else assign_range ncyl nhead tc m x.

Fixpoint assign_specs (ncyl nhead : Z) (tc : nat) (m : gmap (Z * Z) nat)
         (xs : list string) : res (gmap (Z * Z) nat) :=
  match xs with
  | [] => ret m
  | x :: xs' =>
      m' ← assign_spec ncyl nhead tc m x;
      assign_specs ncyl nhead tc m' xs'
  end.

Definition set_mode (pm : ParseMode) (st : State) : State :=
  {| parse_mode := pm; active := active st; disk_config := disk_config st;
     track_config := track_config st; store := store st |}.

(** The body of the [try] block for one line [l]: the state after the
    line, or the exception that the line raises. *)
Definition process_line (name : string) (st : State) (l : string) : res State :=
  let t := strip_comment l in
  if String.eqb t "" then ret st
  else match parse_mode st with
  | Outer =>
      match disk_match t with
      | None => raise (Fatal "syntax error")
      | Some n =>
          let act := String.eqb n name in
          ret {| parse_mode := Disk; active := act;
                 disk_config := if act then Some DiskConfig_init
                                else disk_config st;
                 track_config := track_config st; store := store st |}
      end
  | Disk =>
      if String.eqb t "end" then
        ret {| parse_mode := Outer; active := false;
               disk_config := disk_config st;
               track_config := track_config st; store := store st |}
      else match tracks_match t with
      | Some (spec, fmt_name) =>
          if negb (active st) then ret (set_mode Track st)
          else match disk_config st with
          | None => raise (none_attr "cyls")
          | Some d =>
              check (negb (is_None (cyls d))) "missing cyls";;
              check (negb (is_None (heads d))) "missing heads";;
              tc ← mk_track_config fmt_name;
              let hnd := length (store st) in
              m ← assign_specs (default 0 (cyls d)) (default 0 (heads d))
                               hnd (track_map d) (split_comma spec);
              ret {| parse_mode := Track; active := active st;
                     disk_config := Some (set_track_map m d);
                     track_config := Some hnd;
                     store := store st ++ [tc] |}
          end
      | None =>
          if negb (active st) then ret st
          else match keyval_match is_key_char t with
          | None => raise (Fatal "syntax error")
          | Some (key, val) =>
              match disk_config st with
              | None => raise (none_attr "add_param")
              | Some d =>
                  d' ← DiskConfig_add_param d key val;
                  ret {| parse_mode := parse_mode st; active := active st;
                         disk_config := Some d';
                         track_config := track_config st;
                         store := store st |}
              end
          end
      end
  | Track =>
      if String.eqb t "end" then
        match track_config st with
        | None => ret (set_mode Disk st)
        | Some hnd =>
            match store st !! hnd with
            | None => raise (none_attr "finalise")
            | Some tc =>
                tc' ← TrackConfig_finalise tc;
                ret {| parse_mode := Disk; active := active st;
                       disk_config := disk_config st;
                       track_config := None;
                       store := <[hnd := tc']> (store st) |}
            end
        end
      else if negb (active st) then ret st
      else match keyval_match is_tval_char t with
      | None => raise (Fatal "syntax error")
      | Some (key, val) =>
          match track_config st ≫= fun hnd => store st !! hnd with
          | None => raise (none_attr "add_param")
          | Some tc =>
              tc' ← TrackConfig_add_param tc key val;
              ret {| parse_mode := parse_mode st; active := active st;
                     disk_config := disk_config st;
                     track_config := track_config st;
                     store := alter (fun _ => tc') (default O (track_config st))
                                    (store st) |}
          end
      end
  end.

(** ["%s, line %d: " % (cfg, linenr)] *)
Definition line_prefix (cfg : string) (linenr : Z) : string :=
  cfg +:+ ", line " +:+ str linenr +:+ ": ".

(** The [for linenr, l in enumerate(lines, start=1)] loop with its
    [except] clause, from line number [linenr] on: an exception of a
    line is re-raised with the prefix of that line. *)
Fixpoint parse_lines (name cfg : string) (linenr : Z) (lines : list string)
         (st : State) : res State :=
  match lines with
  | [] => ret st
  | l :: lines' =>
      match process_line name st l with
      | inl err => raise (exn_prefix (line_prefix cfg linenr) err)
      | inr st' => parse_lines name cfg (linenr + 1) lines' st'
      end
  end.

(** [get_format(name, cfg)], given the pair [(lines, cfg)] that
    [get_cfg_lines] has read.  [None] is Python's [None]. *)
Definition get_format (name : string) (lines : list string) (cfg : string)
  : res (option Format) :=
  st ← parse_lines name cfg 1 lines State_init;
  match disk_config st with
  | None => ret None
  | Some d =>
      DiskConfig_finalise d;;
      f ← Format_init (store st) d;
      ret (Some f)
  end.

End Parser.

(** An instance for documents that only use the IBM formats: a
    placeholder Amiga template without parameters, and integer revolution
    counts. *)
Definition ibm_only (revs : Z) : Externals :=
  {| AmigaDOSTrackConfig := unit;
     amiga_init := fun _ => tt;
     amiga_add_param := fun _ key _ =>
       raise (Fatal ("unrecognised track option " +:+ key));
     amiga_finalise := fun t => ret t;
     Revs := Z;
     revs_max := Z.max;
     mfm_default_revs := revs;
     amiga_default_revs := revs |}.

(** *** print_formats *)

(** The disk pattern of [print_formats], matched against a whole line:
    blanks, the word disk, blanks, a run of name characters; gives
    [group(1)]. *)
Definition disk_line_match (l : string) : option string :=
  disk_match (snd (span is_space l)).

(** [list.sort()] on strings: a stable sort by code points. *)
Fixpoint insert_str (x : string) (l : list string) : list string :=
  match l with
  | [] => [x]
  | y :: l' => if String.ltb x y then x :: l else y :: insert_str x l'
  end.

Definition sort_str (l : list string) : list string :=
  foldl (fun acc x => insert_str x acc) [] l.

(** [sep.join(l)] *)
Fixpoint join (sep : string) (l : list string) : string :=
  match l with
  | [] => ""
  | [x] => x
  | x :: l' => x +:+ sep +:+ join sep l'
  end.

Definition newline : string := String "010" "".

(** The list [formats] of [print_formats] after [formats.sort()], given
    the lines that [get_cfg_lines] has read. *)
Definition listed_formats (lines : list string) : list string :=
  sort_str (omap (fun l => (fun n => "  " +:+ n) <$> disk_line_match l) lines).

(** [print_formats]: the entries that are not empty, one a line. *)
Definition print_formats (lines : list string) : string :=
  join newline (filter (fun s => s ≠ "") (listed_formats lines)).

End Formats.

(** ** The area model

    [fm.py] takes the classes [IAM], [IDAM], [DAM] and [Sector] and the
    function [decode] from the sibling module [mfm.py]. *)

(** [bytes] values: a list of integers, each in [range(256)]. *)
Abbreviation bytes := (list Z).

Module IAM.
(** Modelled from the spec: the class [IAM] of [mfm.py], an area with a
    start and an end offset in bit-cells and no checksum. *)
Record t := { start : Z; end_ : Z }.

(** [a.delta(p)] *)
Definition delta (p : Z) (a : t) : t :=
  {| start := start a - p; end_ := end_ a - p |}.

#[global] Instance eq_dec : EqDecision t.
Proof. solve_decision. Defined.
End IAM.

Module IDAM.
(** Modelled from the spec: the class [IDAM] of [mfm.py], an area with
    offsets, a checksum (0 = valid) and the cylinder, head, sector-id
    and size-code of the ID field. *)
Record t := { start : Z; end_ : Z; crc : Z; c : Z; h : Z; r : Z; n : Z }.

Definition delta (p : Z) (a : t) : t :=
  {| start := start a - p; end_ := end_ a - p; crc := crc a;
     c := c a; h := h a; r := r a; n := n a |}.

Definition set_crc (v : Z) (a : t) : t :=
  {| start := start a; end_ := end_ a; crc := v;
     c := c a; h := h a; r := r a; n := n a |}.

#[global] Instance eq_dec : EqDecision t.
Proof. solve_decision. Defined.
End IDAM.

Module DAM.
(** Modelled from the spec: the class [DAM] of [mfm.py], an area with
    offsets, a checksum, the mark byte and the payload ([None] when the
    constructor is given no [data]). *)
Record t := { start : Z; end_ : Z; crc : Z; mark : Z; data : option bytes }.

Definition delta (p : Z) (a : t) : t :=
  {| start := start a - p; end_ := end_ a - p; crc := crc a;
     mark := mark a; data := data a |}.

Definition set_crc (v : Z) (a : t) : t :=
  {| start := start a; end_ := end_ a; crc := v;
     mark := mark a; data := data a |}.

Definition set_data (v : option bytes) (a : t) : t :=
  {| start := start a; end_ := end_ a; crc := crc a;
     mark := mark a; data := v |}.

#[global] Instance eq_dec : EqDecision t.
Proof. solve_decision. Defined.
End DAM.

Module Sector.
(** Modelled from the spec: the class [Sector] of [mfm.py], the pair of
    an IDAM and a DAM, itself an area that starts with the IDAM, ends
    with the DAM and has their checksums combined. *)
Record t := { start : Z; end_ : Z; crc : Z; idam : IDAM.t; dam : DAM.t }.

(** [Sector(idam, dam)] *)
Definition make (i : IDAM.t) (d : DAM.t) : t :=
  {| start := IDAM.start i; end_ := DAM.end_ d;
     crc := Z.lor (IDAM.crc i) (DAM.crc d); idam := i; dam := d |}.

Definition delta (p : Z) (a : t) : t :=
  {| start := start a - p; end_ := end_ a - p; crc := crc a;
     idam := IDAM.delta p (idam a); dam := DAM.delta p (dam a) |}.

Definition set_crc (v : Z) (a : t) : t :=
  {| start := start a; end_ := end_ a; crc := v; idam := idam a; dam := dam a |}.
Definition set_idam (v : IDAM.t) (a : t) : t :=
  {| start := start a; end_ := end_ a; crc := crc a; idam := v; dam := dam a |}.
Definition set_dam (v : DAM.t) (a : t) : t :=
  {| start := start a; end_ := end_ a; crc := crc a; idam := idam a; dam := v |}.

(** Modelled from the spec: [==] on areas is the equality of all their
    attributes, payload bytes included. *)
#[global] Instance eq_dec : EqDecision t.
Proof. solve_decision. Defined.
End Sector.

(** An element of the list [areas] of [decode_raw]. *)
Inductive Area :=
| AreaIAM (a : IAM.t)
| AreaIDAM (a : IDAM.t)
| AreaDAM (a : DAM.t)
| AreaSector (a : Sector.t).

Definition Area_start (a : Area) : Z :=
  match a with
  | AreaIAM a => IAM.start a
  | AreaIDAM a => IDAM.start a
  | AreaDAM a => DAM.start a
  | AreaSector a => Sector.start a
  end.

Definition Area_delta (p : Z) (a : Area) : Area :=
  match a with
  | AreaIAM a => AreaIAM (IAM.delta p a)
  | AreaIDAM a => AreaIDAM (IDAM.delta p a)
  | AreaDAM a => AreaDAM (DAM.delta p a)
  | AreaSector a => AreaSector (Sector.delta p a)
  end.

(** ** fm.py *)

Module FM.

(** *** Bit arrays and byte strings *)

(** A [bitarray(endian='big')]. *)
Abbreviation bitarray := (list bool).

Definition bit (x : Z) (i : Z) : Z := Z.land (Z.shiftr x i) 1.

(** [struct.pack('>H', x)] *)
Definition pack_H (x : Z) : bytes := [Z.shiftr x 8; Z.land x 255].

(** The eight bits of a byte, most significant first. *)
Definition byte_bits (x : Z) : bitarray :=
  (fun i => Z.testbit x (7 - Z.of_nat i)) <$> seq 0 8.

(** [bitarray.frombytes] *)
Definition frombytes (dat : bytes) : bitarray := dat ≫= byte_bits.

Definition bits_val (bs : bitarray) : Z :=
  foldl (fun acc (b : bool) => 2 * acc + (if b then 1 else 0)) 0 bs.

(** [bitarray.tobytes]: eight bits a byte, the last byte padded with
    zero bits.  [fuel] bounds the number of bytes. *)
Fixpoint tobytes_aux (fuel : nat) (bs : bitarray) : bytes :=
  match fuel, bs with
  | _, [] => []
  | O, _ => []
  | S fuel', _ =>
      bits_val (take 8 (bs ++ replicate 7 false)) :: tobytes_aux fuel' (drop 8 bs)
  end.
Definition tobytes (bs : bitarray) : bytes := tobytes_aux (length bs) bs.

(** [bits[a:b]] for [0 <= a]. *)
Definition slice (bs : bitarray) (a b : Z) : bitarray :=
  take (Z.to_nat (b - a)) (drop (Z.to_nat a) bs).

Fixpoint is_prefix (pat bs : bitarray) : bool :=
  match pat, bs with
  | [], _ => true
  | p :: pat', b :: bs' => Bool.eqb p b && is_prefix pat' bs'
  | _ :: _, [] => false
  end.

(** [bits.itersearch(pat)]: the offsets of all the occurrences of [pat],
    ascending; [offs] is the offset of the head of [bs]. *)
Fixpoint itersearch_from (pat : bitarray) (offs : Z) (bs : bitarray) : list Z :=
  match bs with
  | [] => []
  | _ :: bs' =>
      (if is_prefix pat bs then [offs] else [])
        ++ itersearch_from pat (offs + 1) bs'
  end.
Definition itersearch (pat bs : bitarray) : list Z := itersearch_from pat 0 bs.

(** *** The FM bit codec *)

(** The loop of [sync] and of [encode_list]: clock bit, then data bit,
    from the most significant bit down. *)
Definition interleave_bits (clk dat : Z) : Z :=
  foldl (fun x i =>
           let x := Z.lor (Z.shiftl x 1) (bit clk (7 - i)) in
           Z.lor (Z.shiftl x 1) (bit dat (7 - i)))
        0 (Formats.range 8).

Definition sync (dat : Z) (clk : Z) : bytes := pack_H (interleave_bits clk dat).

Definition sync_prefix : bitarray :=
  take (16 + 10) (frombytes ([170; 170] ++ sync 248 199)).

Definition iam_sync_bytes : bytes := sync 252 215.
Definition iam_sync : bitarray := frombytes ([170; 170] ++ iam_sync_bytes).

(** [encode_list[x]]: every clock bit is 1. *)
Definition encode_list (x : Z) : Z :=
  foldl (fun y i =>
           let y := Z.lor (Z.shiftl y 1) 1 in
           Z.lor (Z.shiftl y 1) (bit x (7 - i)))
        0 (Formats.range 8).

Definition encode (dat : bytes) : bytes := dat ≫= fun x => pack_H (encode_list x).

(** The data bits of a 16-bit cell [w]: its bits 14, 12, .., 0. *)
Definition decode_word (w : Z) : Z :=
  foldl (fun acc i => Z.lor (Z.shiftl acc 1) (bit w (2 * (7 - i))))
        0 (Formats.range 8).

(** Modelled from the spec: [mfm.decode], which extracts the
    odd-position (data) bits of every 16-bit cell, a cell being two
    bytes of [dat]; a trailing single byte is dropped. *)
Fixpoint decode (dat : bytes) : bytes :=
  match dat with
  | x :: y :: dat' => decode_word (Z.lor (Z.shiftl x 8) y) :: decode dat'
  | _ => []
  end.

(** *** CRC-16/CCITT-FALSE

    [crc16 = crcmod.predefined.Crc('crc-ccitt-false')]: polynomial
    0x11021, initial value 0xffff, not reflected, no final XOR. *)
Definition crc_shift (crc : Z) : Z :=
  if Z.testbit crc 15
  then Z.land (Z.lxor (Z.shiftl crc 1) 4129) 65535
  else Z.land (Z.shiftl crc 1) 65535.

Definition crc_update (crc : Z) (b : Z) : Z :=
  Nat.iter 8 crc_shift (Z.lxor crc (Z.shiftl b 8)).

(** [crc16.new(b).crcValue] *)
Definition crc16 (b : bytes) : Z := foldl crc_update 65535 b.

(** [bytes(l)]: [ValueError] unless every element is in [range(256)]. *)
Definition mk_bytes (l : list Z) : res bytes :=
  if forallb (fun x => (0 <=? x) && (x <? 256)) l then ret l
  else raise (ValueError "bytes must be in range(0, 256)").

(** *** class IBM_FM *)

Definition IAM_mark : Z := 252.
Definition IDAM_mark : Z := 254.
Definition DAM_mark : Z := 251.
Definition DDAM_mark : Z := 248.
Definition gap_presync : Z := 6.
Definition gapbyte : Z := 255.

(** An [IBM_FM_Formatted] object.  [__init__] sets the first six
    attributes; [from_format] sets the others.  [time_per_rev] is the
    float [60 / rpm] and [clock] the float [time_per_rev / tracklen_bc];
    the record keeps the two integers they are computed from.

    An attribute that was never set cannot be read.  [has_format] tells
    whether the attributes [nsec] .. [gap_4a] are set, which only
    [from_format] does; [has_clock] whether [time_per_rev] and [clock]
    are, which [from_format] does, and [verify_track] for its scratch
    copy.  The methods that read them raise [AttributeError]
    otherwise. *)
Record Track := {
  cyl : Z;
  head : Z;
  sectors : list Sector.t;
  iams : list IAM.t;
  raw_iams : list IAM.t;
  raw_sectors : list Sector.t;
  nsec : Z;
  id0 : Z;
  sz : list Z;
  interleave : Z;
  cskew : Z;
  hskew : Z;
  h : Z;
  gap_1 : option Z;
  gap_2 : Z;
  gap_3 : Z;
  gap_4a : Z;
  rpm : Z;
  tracklen_bc : Z;
  has_format : bool;
  has_clock : bool;
}.

(** [IBM_FM_Formatted(cyl, head)] *)
Definition Track_init (cyl head : Z) : Track :=
  {| cyl := cyl; head := head; sectors := []; iams := [];
     raw_iams := []; raw_sectors := [];
     nsec := 0; id0 := 0; sz := []; interleave := 0; cskew := 0; hskew := 0;
     h := 0; gap_1 := None; gap_2 := 0; gap_3 := 0; gap_4a := 0;
     rpm := 0; tracklen_bc := 0; has_format := false; has_clock := false |}.

(** Reading an attribute that the object does not have. *)
Definition no_attr (a : string) : exn :=
  AttributeError ("'IBM_FM_Formatted' object has no attribute '" +:+ a +:+ "'").

Definition set_lists (ss : list Sector.t) (is_ : list IAM.t)
           (ri : list IAM.t) (rs : list Sector.t) (t : Track) : Track :=
  {| cyl := cyl t; head := head t; sectors := ss; iams := is_;
     raw_iams := ri; raw_sectors := rs;
     nsec := nsec t; id0 := id0 t; sz := sz t; interleave := interleave t;
     cskew := cskew t; hskew := hskew t; h := h t; gap_1 := gap_1 t;
     gap_2 := gap_2 t; gap_3 := gap_3 t; gap_4a := gap_4a t;
     rpm := rpm t; tracklen_bc := tracklen_bc t;
     has_format := has_format t; has_clock := has_clock t |}.

Definition set_sectors (ss : list Sector.t) (t : Track) : Track :=
  set_lists ss (iams t) (raw_iams t) (raw_sectors t) t.

(** [has_sec] and [nr_missing] *)
Definition has_sec (ss : list Sector.t) (sec_id : nat) : res bool :=
  match ss !! sec_id with
  | Some s => ret (Sector.crc s =? 0)
  | None => raise (IndexError "list index out of range")
  end.

Definition nr_missing (ss : list Sector.t) : Z :=
  Z.of_nat (length (filter (fun x => Sector.crc x ≠ 0) ss)).

(** [l.sort(key=...)]: a stable sort; an element goes behind the
    elements whose key is not greater. *)
Fixpoint insert_by {A} (key : A -> Z) (x : A) (l : list A) : list A :=
  match l with
  | [] => [x]
  | y :: l' => if key x <? key y then x :: l else y :: insert_by key x l'
  end.

Definition sort_by {A} (key : A -> Z) (l : list A) : list A :=
  foldl (fun acc x => insert_by key x acc) [] l.

(** **** decode_raw, step 1: the areas of the dump *)

(** The first loop: an IAM behind every occurrence of [iam_sync]. *)
Definition scan_iams (bits : bitarray) : list Area :=
  (fun offs => let offs := offs + 16 in
               AreaIAM {| IAM.start := offs; IAM.end_ := offs + 1 * 16 |})
    <$> itersearch iam_sync bits.

(** [decode(bits[a:b].tobytes())] *)
Definition decode_bits (bits : bitarray) (a b : Z) : bytes :=
  decode (tobytes (slice bits a b)).

Definition byte_at (b : bytes) (i : nat) : Z := default 0 (b !! i).

(** The body of the second loop for one occurrence [offs] of
    [sync_prefix]; the state is the list [areas] and the pending
    [idam]. *)
Definition scan_mark (bits : bitarray) (st : list Area * option IDAM.t)
           (offs : Z) : list Area * option IDAM.t :=
  let '(areas, idam) := st in
  let len := Z.of_nat (length bits) in
  let offs := offs + 16 in
  if len <? offs + 1 * 16 then st
  else
    let mark := byte_at (decode_bits bits offs (offs + 1 * 16)) 0 in
    let clock := byte_at (decode_bits bits (offs - 1) (offs + 1 * 16 - 1)) 0 in
    if negb (clock =? 199) then st
    else if mark =? IDAM_mark then
      let '(s, e) := (offs, offs + 7 * 16) in
      if len <? e then st
      else
        let b := decode_bits bits s e in
        let crc := crc16 b in
        let areas := match idam with
                     | Some i => areas ++ [AreaIDAM i]
                     | None => areas
                     end in
        (areas, Some {| IDAM.start := s; IDAM.end_ := e; IDAM.crc := crc;
                        IDAM.c := byte_at b 1; IDAM.h := byte_at b 2;
                        IDAM.r := byte_at b 3; IDAM.n := byte_at b 4 |})
    else if (mark =? DAM_mark) || (mark =? DDAM_mark) then
      let lone := AreaDAM {| DAM.start := offs; DAM.end_ := offs + 4 * 16;
                             DAM.crc := 65535; DAM.mark := mark;
                             DAM.data := None |} in
      match idam with
      | None => (areas ++ [lone], None)
      | Some i =>
          if 1000 <? IDAM.end_ i - offs then (areas ++ [lone], None)
          else
            let sz := Z.shiftl 128 (IDAM.n i) in
            let '(s, e) := (offs, offs + (1 + sz + 2) * 16) in
            if len <? e then st
            else
              let b := decode_bits bits s e in
              let crc := crc16 b in
              let dam := {| DAM.start := s; DAM.end_ := e; DAM.crc := crc;
                            DAM.mark := mark;
                            DAM.data := Some (take (length b - 3) (drop 1 b)) |} in
              (areas ++ [AreaSector (Sector.make i dam)], None)
      end
    else st.

(** The areas found in [bits], in the order of the list [areas] before
    it is sorted. *)
Definition scan_areas (bits : bitarray) : list Area :=
  let '(areas, idam) :=
    foldl (scan_mark bits) (scan_iams bits, None) (itersearch sync_prefix bits) in
  match idam with
  | Some i => areas ++ [AreaIDAM i]
  | None => areas
  end.

(** **** decode_raw, step 2: offsets within the track *)

(** The loop over the sorted areas.  [p] is the start of the current
    revolution, [n] its end ([None] is [float('inf')]) and [index] what
    the iterator over [raw.revolutions] has not yet given. *)
Fixpoint track_offsets (p : Z) (n : option Z) (index : list Z)
         (areas : list Area) : list Area :=
  match areas with
  | [] => []
  | a :: areas' =>
      match n with
      | Some nv =>
          if nv <=? Area_start a then
            match index with
            | r :: index' =>
                Area_delta nv a :: track_offsets nv (Some (nv + r)) index' areas'
            | [] =>
                Area_delta nv a :: track_offsets nv None [] areas'
            end
          else Area_delta p a :: track_offsets p n index areas'
      | None => Area_delta p a :: track_offsets p n index areas'
      end
  end.

(** **** decode_raw, step 3: the deduped lists *)

(** The first element of [l], with its index, whose start is fewer than
    1000 bit-cells away from [start]. *)
Fixpoint find_near {A} (start_of : A -> Z) (start : Z) (i : nat) (l : list A)
  : option (nat * A) :=
  match l with
  | [] => None
  | s :: l' =>
      if Z.abs (start_of s - start) <? 1000 then Some (i, s)
      else find_near start_of start (S i) l'
  end.

Definition add_iam (iams : list IAM.t) (a : IAM.t) : list IAM.t :=
  match find_near IAM.start (IAM.start a) 0 iams with
  | Some _ => iams
  | None => iams ++ [a]
  end.

Definition add_sector (sectors : list Sector.t) (a : Sector.t) : list Sector.t :=
  match find_near Sector.start (Sector.start a) 0 sectors with
  | Some (i, s) =>
      if negb (Sector.crc s =? 0) && (Sector.crc a =? 0)
      then <[i := a]> sectors
      else sectors
  | None => sectors ++ [a]
  end.

(** The body of the third loop; the state is [(self.iams, self.sectors)]. *)
Definition dedup_area (st : list IAM.t * list Sector.t) (a : Area)
  : list IAM.t * list Sector.t :=
  match a with
  | AreaIAM a => (add_iam st.1 a, st.2)
  | AreaSector a => (st.1, add_sector st.2 a)
  | _ => st
  end.

Definition dedup (st : list IAM.t * list Sector.t) (areas : list Area)
  : list IAM.t * list Sector.t :=
  foldl dedup_area st areas.

(** [IBM_FM.decode_raw] on the lists [(self.iams, self.sectors)].  The
    capture is given as [raw.get_all_data()] and [raw.revolutions] give
    it: the bits and the lengths of the revolutions. *)
Definition IBM_FM_decode_raw (st : list IAM.t * list Sector.t)
           (bits : bitarray) (revolutions : list Z)
  : res (list IAM.t * list Sector.t) :=
  let areas := sort_by Area_start (scan_areas bits) in
  match revolutions with
  | [] => raise StopIteration
  | n :: index =>
      let areas := track_offsets 0 (Some n) index areas in
      ret (dedup st (sort_by Area_start areas))
  end.

(** **** raw_track *)

(** [heapq.merge(self.iams, self.sectors, key=lambda x: x.start)]: on
    equal keys the element of the first list comes first. *)
Fixpoint merge_areas (is_ : list IAM.t) (ss : list Sector.t) : list Area :=
  let fix inner (ss : list Sector.t) : list Area :=
    match is_, ss with
    | [], _ => AreaSector <$> ss
    | _, [] => AreaIAM <$> is_
    | i :: is', s :: ss' =>
        if Sector.start s <? IAM.start i
        then AreaSector s :: inner ss'
        else AreaIAM i :: merge_areas is' ss
    end in
  inner ss.

(** [encode(bytes([self.gapbyte] * gap))] followed by
    [encode(bytes(self.gap_presync))], for the area that starts at bit
    [start], behind the [t] written so far. *)
Definition pre_mark (t : bytes) (start : Z) : bytes :=
  let start := start / 16 - gap_presync in
  let gap := Z.max (start - Z.of_nat (length t) / 2) 0 in
  t ++ encode (replicate (Z.to_nat gap) gapbyte)
    ++ encode (replicate (Z.to_nat gap_presync) 0).

(** A field with its checksum: the sync cell of the mark byte, then the
    other bytes and the two checksum bytes encoded. *)
Definition emit_field (t : bytes) (field : bytes) : bytes :=
  let field := field ++ pack_H (crc16 field) in
  t ++ sync (byte_at field 0) 199 ++ encode (drop 1 field).

(** The body of the loop of [raw_track] for one area. *)
Definition emit_area (t : bytes) (a : Area) : res bytes :=
  match a with
  | AreaIAM a =>
      ret (pre_mark t (IAM.start a) ++ iam_sync_bytes)
  | AreaSector a =>
      let t := pre_mark t (Sector.start a) in
      let i := Sector.idam a in
      idam ← mk_bytes [IDAM_mark; IDAM.c i; IDAM.h i; IDAM.r i; IDAM.n i];
      let t := emit_field t idam in
      let t := pre_mark t (DAM.start (Sector.dam a)) in
      m ← mk_bytes [DAM.mark (Sector.dam a)];
      match DAM.data (Sector.dam a) with
      | None => raise (TypeError "can't concat NoneType to bytes")
      | Some data => ret (emit_field t (m ++ data))
      end
  | _ => ret t
  end.

Fixpoint emit_areas (t : bytes) (areas : list Area) : res bytes :=
  match areas with
  | [] => ret t
  | a :: areas' => t' ← emit_area t a; emit_areas t' areas'
  end.

(** [raw_track]: the byte string [t] that becomes the [bits] of the
    [MasterTrack].  [tlen] is [int((self.time_per_rev / self.clock) // 16)],
    which the source computes on floats, behind the loop over the
    areas. *)
Definition raw_track (tlen : Z) (t : Track) : res bytes :=
  b ← emit_areas [] (merge_areas (iams t) (sectors t));
  if has_clock t then
    let gap := Z.max (tlen - Z.of_nat (length b) / 2) 0 in
    ret (b ++ encode (replicate (Z.to_nat gap) gapbyte))
  else raise (no_attr "time_per_rev").

(** *** class IBM_FM_Formatted *)

Definition GAP_1 : Z := 26.
Definition GAP_2 : Z := 11.
Definition GAP_3 : list Z := [27; 42; 58; 138; 255; 255; 255; 255].

Definition same_id (s r : Sector.t) : bool :=
  (IDAM.c (Sector.idam s) =? IDAM.c (Sector.idam r))
  && (IDAM.h (Sector.idam s) =? IDAM.h (Sector.idam r))
  && (IDAM.r (Sector.idam s) =? IDAM.r (Sector.idam r))
  && (IDAM.n (Sector.idam s) =? IDAM.n (Sector.idam r)).

(** The body of the inner loop of [decode_raw]: what the raw sector [r]
    does to the expected sector [s]. *)
Definition match_sector (r s : Sector.t) : Sector.t :=
  if same_id s r then
    let s := Sector.set_idam (IDAM.set_crc 0 (Sector.idam s)) s in
    if (DAM.crc (Sector.dam r) =? 0) && negb (DAM.crc (Sector.dam s) =? 0)
    then Sector.set_crc 0
           (Sector.set_dam
              (DAM.set_data (DAM.data (Sector.dam r))
                 (DAM.set_crc 0 (Sector.dam s))) s)
    else s
  else s.

(** The outer loop: the raw sectors with a valid ID field, in order. *)
Definition match_raw (raw : list Sector.t) (ss : list Sector.t) : list Sector.t :=
  foldl (fun ss r =>
           if negb (IDAM.crc (Sector.idam r) =? 0) then ss
           else match_sector r <$> ss)
        ss raw.

(** [IBM_FM_Formatted.decode_raw]; the report of the unexpected sectors
    on the console is left out.  [IBM_FM.decode_raw] starts with the
    [RawTrack] that it makes of the flux, with [self.time_per_rev] and
    [self.clock]. *)
Definition decode_raw (t : Track) (bits : bitarray) (revolutions : list Z)
  : res Track :=
  if has_clock t then
    raw ← IBM_FM_decode_raw (raw_iams t, raw_sectors t) bits revolutions;
    ret (set_lists (match_raw raw.2 (sectors t)) (iams t) raw.1 raw.2 t)
  else raise (no_attr "time_per_rev").

(** [128 << s.idam.n], for a size code that is not negative: the sectors
    of a constructed track have passed [shl_128], which raises on a
    negative code, and those of a decoded one carry a byte. *)
Definition sector_size (s : Sector.t) : Z := Z.shiftl 128 (IDAM.n (Sector.idam s)).

(** [tdat[a:b]] for [0 <= a <= b] *)
Definition byte_slice (tdat : bytes) (a b : Z) : bytes :=
  take (Z.to_nat (b - a)) (drop (Z.to_nat a) tdat).

Fixpoint fill_sectors (tdat : bytes) (pos : Z) (ss : list Sector.t)
  : list Sector.t :=
  match ss with
  | [] => []
  | s :: ss' =>
      let size := sector_size s in
      Sector.set_crc 0
        (Sector.set_idam (IDAM.set_crc 0 (Sector.idam s))
           (Sector.set_dam
              (DAM.set_data (Some (byte_slice tdat pos (pos + size)))
                 (DAM.set_crc 0 (Sector.dam s))) s))
        :: fill_sectors tdat (pos + size) ss'
  end.

Definition set_img_track (t : Track) (tdat : bytes) : Track * Z :=
  let ss := sort_by (fun x => IDAM.r (Sector.idam x)) (sectors t) in
  let totsize := foldl (fun x y => x + sector_size y) 0 ss in
  let tdat := if Z.of_nat (length tdat) <? totsize
              then tdat ++ replicate (Z.to_nat (totsize - Z.of_nat (length tdat))) 0
              else tdat in
  let ss := fill_sectors tdat 0 ss in
  (set_sectors (sort_by Sector.start ss) t, totsize).

(** [tdat += s.dam.data] for the sectors [ss] in turn. *)
Fixpoint join_data (tdat : bytes) (ss : list Sector.t) : res bytes :=
  match ss with
  | [] => ret tdat
  | s :: ss' =>
      match DAM.data (Sector.dam s) with
      | Some d => join_data (tdat ++ d) ss'
      | None => raise (TypeError "can't concat NoneType to bytearray")
      end
  end.

Definition get_img_track (t : Track) : res bytes :=
  join_data [] (sort_by (fun x => IDAM.r (Sector.idam x)) (sectors t)).

(** The scratch copy of [verify_track]: a new object with the clock of
    the track, copies of its index marks, and copies of its sectors
    with the checksums 0xffff. *)
Definition readback_track (t : Track) : Track :=
  set_lists
    ((fun x => Sector.make (IDAM.set_crc 65535 (Sector.idam x))
                           (DAM.set_crc 65535 (Sector.dam x))) <$> sectors t)
    (iams t) [] []
    {| cyl := cyl t; head := head t; sectors := []; iams := [];
       raw_iams := []; raw_sectors := [];
       nsec := 0; id0 := 0; sz := []; interleave := 0; cskew := 0; hskew := 0;
       h := 0; gap_1 := None; gap_2 := 0; gap_3 := 0; gap_4a := 0;
       rpm := rpm t; tracklen_bc := tracklen_bc t;
       has_format := false; has_clock := has_clock t |}.

(** [verify_track], on the capture that [decode_raw] gets from the
    flux.  The copy of the clock, [readback_track.clock = self.clock],
    is the first attribute that is read. *)
Definition verify_track (t : Track) (bits : bitarray) (revolutions : list Z)
  : res bool :=
  if has_clock t then
    rb ← decode_raw (readback_track t) bits revolutions;
    if negb (nr_missing (sectors rb) =? 0) then ret false
    else ret (bool_decide (sectors t = sectors rb))
  else raise (no_attr "clock").

(** **** construct_sectors *)

(** The [while sec_map[pos] != -1] loop: the first free slot from [pos]
    on, cyclically.  [fuel] bounds the number of tests; [None] means
    that the fuel ran out. *)
Fixpoint next_free (fuel : nat) (sec_map : list Z) (nsec pos : Z) : option Z :=
  match fuel with
  | O => None
  | S fuel' =>
      if bool_decide (sec_map !! Z.to_nat pos = Some (-1)) then Some pos
      else next_free fuel' sec_map nsec ((pos + 1) mod nsec)
  end.

(** The [for i in range(self.nsec)] loop that fills [sec_map], for the
    values [is_] of [i] that are left. *)
Fixpoint fill_map (fuel : nat) (nsec interleave : Z) (is_ : list Z)
         (sec_map : list Z) (pos : Z) : option (list Z) :=
  match is_ with
  | [] => Some sec_map
  | i :: is' =>
      pos ← next_free fuel sec_map nsec pos;
      fill_map fuel nsec interleave is'
               (<[Z.to_nat pos := i]> sec_map) ((pos + interleave) mod nsec)
  end.

(** The logical sector map in rotational order: slot to sector. *)
Definition sector_map (fuel : nat) (nsec cyl head cskew hskew interleave : Z)
  : option (list Z) :=
  let sec_map := replicate (Z.to_nat nsec) (-1) in
  let pos := if nsec =? 0 then 0 else (cyl * cskew + head * hskew) mod nsec in
  fill_map fuel nsec interleave (Formats.range nsec) sec_map pos.

(** [128 << n]: a negative shift count is an error. *)
Definition shl_128 (n : Z) : res Z :=
  if n <? 0 then raise (ValueError "negative shift count")
  else ret (Z.shiftl 128 n).

(** [sec_n] *)
Definition sec_n (sz : list Z) (i : Z) : res Z :=
  match (if i <? Z.of_nat (length sz) then sz !! Z.to_nat i else last sz) with
  | Some v => ret v
  | None => raise (IndexError "list index out of range")
  end.

Definition bad_sector : bytes :=
  (fun c => Z.of_N (N_of_ascii c)) <$> list_ascii_of_string "-=[BAD SECTOR]=-".

(** The second loop of [construct_sectors], for the slots whose sectors
    are [secs]; the state is [(self.sectors, pos)]. *)
Fixpoint layout_sectors (t : Track) (secs : list Z) (ss : list Sector.t) (pos : Z)
  : res (list Sector.t) :=
  match secs with
  | [] => ret ss
  | sec :: secs' =>
      let pos := pos + gap_presync in
      n ← sec_n (sz t) sec;
      let idam := {| IDAM.start := pos * 16; IDAM.end_ := (pos + 7) * 16;
                     IDAM.crc := 65535; IDAM.c := cyl t; IDAM.h := h t;
                     IDAM.r := id0 t + sec; IDAM.n := n |} in
      let pos := pos + 7 + gap_2 t + gap_presync in
      size ← shl_128 n;
      let dam := {| DAM.start := pos * 16; DAM.end_ := (pos + 1 + size + 2) * 16;
                    DAM.crc := 65535; DAM.mark := DAM_mark;
                    DAM.data := Some (mjoin (replicate (Z.to_nat (size / 16))
                                                       bad_sector)) |} in
      layout_sectors t secs' (ss ++ [Sector.make idam dam])
                     (pos + 1 + size + 2 + gap_3 t)
  end.

(** [construct_sectors], given the sector map. *)
Definition construct_layout (t : Track) (sec_map : list Z) : res Track :=
  let pos := gap_4a t in
  let '(is_, pos) :=
    match gap_1 t with
    | Some g =>
        let pos := pos + gap_presync in
        ([{| IAM.start := pos * 16; IAM.end_ := (pos + 1) * 16 |}], pos + 1 + g)
    | None => (iams t, pos)
    end in
  ss ← layout_sectors t sec_map (sectors t) pos;
  ret (set_lists ss is_ (raw_iams t) (raw_sectors t) t).

(** [construct_sectors]; [None] when the search for a free slot runs
    out of [fuel].  [self.nsec] is the first attribute that is read. *)
Definition construct_sectors (fuel : nat) (t : Track) : option (res Track) :=
  if has_format t then
    construct_layout t
      <$> sector_map fuel (nsec t) (cyl t) (head t) (cskew t) (hskew t) (interleave t)
  else Some (raise (no_attr "nsec")).

(** **** from_format *)

Definition div_zero : exn := ZeroDivisionError "integer division or modulo by zero".

(** [a // b] *)
Definition floordiv (a b : Z) : res Z :=
  if b =? 0 then raise div_zero else ret (a / b).

(** [maxlen] in round [i] of the rate loop. *)
Definition maxlen (rpm i : Z) : res Z :=
  q ← floordiv (50000 * 300) rpm;
  ret (Z.shiftl q i + 5000).

(** The [for i in range(2)] loop over the rounds [is_] that are left:
    the value of [i] when the loop ends, [i0] being its value so far. *)
Fixpoint rate_loop (tracklen rpm : Z) (is_ : list Z) (i0 : Z) : res Z :=
  match is_ with
  | [] => ret i0
  | i :: is' =>
      m ← maxlen rpm i;
      if tracklen <? m then ret i else rate_loop tracklen rpm is' i
  end.

(** The data rate that [from_format] uses. *)
Definition select_rate (rate rpm tracklen : Z) : res Z :=
  if rate =? 0 then
    i ← rate_loop tracklen rpm (Formats.range 2) 0;
    ret (Z.shiftl 125 i)
  else ret rate.

Fixpoint sum_sizes (sz : list Z) (is_ : list Z) (tracklen : Z) : res Z :=
  match is_ with
  | [] => ret tracklen
  | i :: is' =>
      n ← sec_n sz i;
      size ← shl_128 n;
      sum_sizes sz is' (tracklen + size)
  end.

(** The attributes that [from_format] computes before it calls
    [construct_sectors].  The last two are floats:
    [time_per_rev = 60 / rpm], which is reached with [rpm != 0] only,
    and [clock = time_per_rev / tracklen_bc]. *)
Definition from_format_attrs (config : Formats.IBMTrackConfig) (cyl head : Z)
  : res Track :=
  let nsec := Formats.secs config in
  let sz := Formats.sz config in
  let h := default head (Formats.h config) in
  let gap_1 := if Formats.iam config
               then Some (default GAP_1 (Formats.gap1 config)) else None in
  let gap_2 := default GAP_2 (Formats.gap2 config) in
  let gap_3 := default 0 (Formats.gap3 config) in
  let gap_4a := default (if Formats.iam config then 40 else 16)
                        (Formats.gap4a config) in
  let idx_sz := gap_4a in
  let idx_sz := match gap_1 with
                | Some g => idx_sz + (gap_presync + 1 + g)
                | None => idx_sz
                end in
  let idam_sz := gap_presync + 5 + 2 + gap_2 in
  let dam_sz_pre := gap_presync + 1 in
  let dam_sz_post := 2 + gap_3 in
  let tracklen := idx_sz + (idam_sz + dam_sz_pre + dam_sz_post) * nsec in
  tracklen ← sum_sizes sz (Formats.range nsec) tracklen;
  let tracklen := tracklen * 16 in
  let rpm := Formats.rpm config in
  rate ← select_rate (Formats.rate config) rpm tracklen;
  tracklen_bc ← floordiv (rate * 400 * 300) rpm;
  gt ← (if negb (nsec =? 0) && Formats.is_None (Formats.gap3 config) then
          let space := Z.max 0 (tracklen_bc - tracklen) in
          no ← sec_n sz 0;
          match GAP_3 !! Z.to_nat no with
          | None => raise (IndexError "list index out of range")
          | Some g =>
              let gap_3 := Z.min (space / (16 * nsec)) g in
              ret (gap_3, tracklen + 16 * nsec * gap_3)
          end
        else ret (gap_3, tracklen));
  let '(gap_3, tracklen) := gt in
  let tracklen_bc := Z.max tracklen_bc tracklen in
  if tracklen_bc =? 0 then raise (ZeroDivisionError "float division by zero")
  else
  ret {| cyl := cyl; head := head; sectors := []; iams := [];
         raw_iams := []; raw_sectors := [];
         nsec := nsec; id0 := Formats.id config; sz := sz;
         interleave := Formats.interleave config;
         cskew := Formats.cskew config; hskew := Formats.hskew config;
         h := h; gap_1 := gap_1; gap_2 := gap_2; gap_3 := gap_3;
         gap_4a := gap_4a; rpm := rpm; tracklen_bc := tracklen_bc;
         has_format := true; has_clock := true |}.

(** [from_format]; [None] when [construct_sectors] runs out of [fuel]. *)
Definition from_format (fuel : nat) (config : Formats.IBMTrackConfig) (cyl head : Z)
  : option (res Track) :=
  match from_format_attrs config cyl head with
  | inl e => Some (inl e)
  | inr t => construct_sectors fuel t
  end.

End FM.

(** * Properties of formats.py *)

Module FormatsProps.
Import Text Formats.

Ltac unfold_res :=
  unfold mbind, res_bind, mret, res_ret, fmap, res_fmap, ret, raise, check in *.

(** ** Finalising a track template *)

Definition gap1_error : exn := Fatal "gap1 specified but no iam".

(** C9: the finalisation of a track template, which [get_format] runs
    once for every template, at the [end] of its section, on a template
    that is not yet finalised.  It raises the fatal error
    [gap1 specified but no iam] exactly when [gap1] is set to a value
    and the index mark is disabled; with the index mark enabled or
    [gap1] unset it does not fail on this check.  (A second [finalise]
    of the same template returns at its guard.) *)
Theorem finalise_gap1_error_iff (t : IBMTrackConfig) :
  IBMTrackConfig_finalise t = inl gap1_error
  ↔ finalised t = false ∧ gap1 t ≠ None ∧ iam t = false.
Proof.
  unfold IBMTrackConfig_finalise, gap1_error. unfold_res.
  destruct (finalised t), (iam t), (gap1 t) as [g|]; simpl;
    try (split; [discriminate | intros (? & ? & ?); congruence]).
  - destruct (_ || _); simpl; split; intros; try discriminate.
    all: destruct H as (_ & _ & ?); discriminate.
  - destruct (_ || _); simpl; split; intros; try discriminate.
    all: destruct H as (_ & _ & ?); discriminate.
  - split; [intros _; repeat split; congruence | reflexivity].
  - destruct (_ || _); simpl; split; intros; try discriminate.
    all: destruct H as (_ & ? & _); congruence.
Qed.

(** ** The tracks directive *)

Section Tracks.
Context `{Externals}.

Definition on_disk (ncyl nhead : Z) (pos : Z * Z) : Prop :=
  0 ≤ pos.1 < ncyl ∧ 0 ≤ pos.2 < nhead.

Lemma elem_of_range (n i : Z) : i ∈ range n ↔ 0 ≤ i < n.
Proof.
  unfold range. rewrite list_elem_of_fmap. split.
  - intros (k & -> & Hk). apply elem_of_seq in Hk. lia.
  - intros Hi. exists (Z.to_nat i). split; [lia|].
    apply elem_of_seq. lia.
Qed.

Lemma assign_star_inner_lookup (c : Z) (tc : nat) (hs : list Z)
      (m : gmap (Z * Z) nat) (pos : Z * Z) :
  foldl (fun m hd => if decide ((c, hd) ∈ dom m) then m else <[(c, hd) := tc]> m)
        m hs !! pos
  = match m !! pos with
    | Some v => Some v
    | None => if decide (pos.1 = c ∧ pos.2 ∈ hs) then Some tc else None
    end.
Proof.
  revert m. induction hs as [|hd hs IH]; intros m; cbn [foldl].
  - destruct (m !! pos); [done|]. rewrite decide_False; [done|].
    intros [_ Hd]. by apply elem_of_nil in Hd.
  - rewrite IH. clear IH.
    destruct (decide ((c, hd) ∈ dom m)) as [Hin|Hin].
    + destruct (m !! pos) eqn:Hm; [done|].
      destruct (decide (pos.1 = c ∧ pos.2 ∈ hs)) as [[Hc Hh]|Hn].
      * rewrite decide_True; [done|]. split; [done|]. by apply list_elem_of_further.
      * rewrite decide_False; [done|]. intros [Hc Hel].
        apply elem_of_cons in Hel as [Hel|Hel]; [|by apply Hn].
        apply elem_of_dom in Hin as [v Hv].
        destruct pos as [pc ph]; simpl in *; subst. congruence.
    + destruct (decide ((c, hd) = pos)) as [<-|Hne].
      * rewrite lookup_insert_eq.
        apply not_elem_of_dom in Hin. rewrite Hin. simpl.
        rewrite decide_True; [done|]. split; [done|]. apply list_elem_of_here.
      * rewrite lookup_insert_ne by done.
        destruct (m !! pos) eqn:Hm; [done|].
        destruct (decide (pos.1 = c ∧ pos.2 ∈ hs)) as [[Hc Hh]|Hn].
        -- rewrite decide_True; [done|]. split; [done|]. by apply list_elem_of_further.
        -- rewrite decide_False; [done|]. intros [Hc Hel].
           apply elem_of_cons in Hel as [Hel|Hel]; [|by apply Hn].
           apply Hne. destruct pos; simpl in *; by subst.
Qed.

Lemma assign_star_outer_lookup (tc : nat) (cs hs : list Z)
      (m : gmap (Z * Z) nat) (pos : Z * Z) :
  foldl (fun m c =>
           foldl (fun m hd =>
                    if decide ((c, hd) ∈ dom m) then m else <[(c, hd) := tc]> m)
                 m hs) m cs !! pos
  = match m !! pos with
    | Some v => Some v
    | None => if decide (pos.1 ∈ cs ∧ pos.2 ∈ hs) then Some tc else None
    end.
Proof.
  revert m. induction cs as [|c cs IH]; intros m; cbn [foldl].
  - destruct (m !! pos); [done|]. rewrite decide_False; [done|].
    intros [Hd _]. by apply elem_of_nil in Hd.
  - rewrite IH, assign_star_inner_lookup. clear IH.
    destruct (m !! pos); [done|].
    destruct (decide (pos.1 = c ∧ pos.2 ∈ hs)) as [[Hc Hh]|Hn].
    + rewrite decide_True; [done|]. split; [|done]. subst. apply list_elem_of_here.
    + destruct (decide (pos.1 ∈ cs ∧ pos.2 ∈ hs)) as [[Hc Hh]|Hn'].
      * rewrite decide_True; [done|]. split; [|done]. by apply list_elem_of_further.
      * rewrite decide_False; [done|]. intros [Hc Hh].
        apply elem_of_cons in Hc as [Hc|Hc]; [by apply Hn|by apply Hn'].
Qed.

(** What a ['*'] element does to the map, position by position. *)
Lemma assign_star_lookup (ncyl nhead : Z) (tc : nat)
      (m : gmap (Z * Z) nat) (pos : Z * Z) :
  assign_star ncyl nhead tc m !! pos
  = match m !! pos with
    | Some v => Some v
    | None => if decide (on_disk ncyl nhead pos) then Some tc else None
    end.
Proof.
  unfold assign_star. rewrite assign_star_outer_lookup.
  destruct (m !! pos); [done|]. unfold on_disk.
  destruct (decide (pos.1 ∈ range ncyl ∧ pos.2 ∈ range nhead)) as [[Hc Hh]|Hn].
  - rewrite decide_True; [done|]. by rewrite <- !elem_of_range.
  - rewrite decide_False; [done|]. by rewrite <- !elem_of_range.
Qed.

Lemma assign_positions_lookup (tc : nat) (ps : list (Z * Z))
      (m : gmap (Z * Z) nat) (pos : Z * Z) :
  foldl (fun m p => <[p := tc]> m) m ps !! pos
  = if decide (pos ∈ ps) then Some tc else m !! pos.
Proof.
  revert m. induction ps as [|p ps IH]; intros m; cbn [foldl].
  - rewrite decide_False; [done|]. apply not_elem_of_nil.
  - rewrite IH. destruct (decide (pos ∈ ps)) as [Hin|Hin].
    + rewrite decide_True; [done|]. by apply list_elem_of_further.
    + destruct (decide (p = pos)) as [->|Hne].
      * rewrite lookup_insert_eq, decide_True; [done|]. apply list_elem_of_here.
      * rewrite lookup_insert_ne by done. rewrite decide_False; [done|].
        intros [->|?]%elem_of_cons; done.
Qed.

(** The position [pos] is named by an element of [xs] other than
    ['*']. *)
Definition named (ncyl nhead : Z) (xs : list string) (pos : Z * Z) : Prop :=
  ∃ x ps, x ∈ xs ∧ x ≠ "*" ∧ spec_positions ncyl nhead x = inr ps ∧ pos ∈ ps.

(** A position that already has the template of the directive keeps
    it to the end of the directive. *)
Lemma assign_specs_keeps_own (ncyl nhead : Z) (tc : nat) (xs : list string)
      (m m' : gmap (Z * Z) nat) (pos : Z * Z) :
  assign_specs ncyl nhead tc m xs = inr m' →
  m !! pos = Some tc → m' !! pos = Some tc.
Proof.
  revert m. induction xs as [|x xs IH]; intros m Hrun Hm; cbn [assign_specs] in Hrun.
  - by injection Hrun as <-.
  - unfold_res. destruct (assign_spec ncyl nhead tc m x) as [e|m1] eqn:Hx; [done|].
    apply (IH _ Hrun). unfold assign_spec in Hx.
    destruct (String.eqb x "*").
    + injection Hx as <-. by rewrite assign_star_lookup, Hm.
    + unfold assign_range in Hx. unfold_res.
      destruct (spec_positions ncyl nhead x) as [e|ps]; [done|].
      injection Hx as <-. rewrite assign_positions_lookup.
      by destruct (decide (pos ∈ ps)).
Qed.

(** The effect of a whole tracks directive on one position. *)
Lemma assign_specs_lookup (ncyl nhead : Z) (tc : nat) (xs : list string)
      (m m' : gmap (Z * Z) nat) (pos : Z * Z) :
  assign_specs ncyl nhead tc m xs = inr m' →
  (named ncyl nhead xs pos → m' !! pos = Some tc)
  ∧ (¬ named ncyl nhead xs pos →
     m' !! pos = match m !! pos with
                 | Some v => Some v
                 | None => if decide ("*" ∈ xs ∧ on_disk ncyl nhead pos)
                           then Some tc else None
                 end).
Proof.
  revert m. induction xs as [|x xs IH]; intros m Hrun; cbn [assign_specs] in Hrun.
  - injection Hrun as <-. split.
    + intros (x & ps & Hx & _). by apply elem_of_nil in Hx.
    + intros _. destruct (m !! pos); [done|].
      rewrite decide_False; [done|]. intros [Hx _]. by apply elem_of_nil in Hx.
  - unfold_res. destruct (assign_spec ncyl nhead tc m x) as [e|m1] eqn:Hx; [done|].
    destruct (IH _ Hrun) as [IHn IHu]. clear IH.
    unfold assign_spec in Hx. destruct (String.eqb_spec x "*") as [->|Hne].
    + (* the wildcard *)
      injection Hx as <-.
      assert (Hiff : named ncyl nhead ("*" :: xs) pos ↔ named ncyl nhead xs pos).
      { split; intros (y & ps & Hy & Hny & Hps & Hin); exists y, ps.
        - apply elem_of_cons in Hy as [->|Hy]; done.
        - split; [by apply list_elem_of_further|done]. }
      split; [intros Hn%Hiff; by apply IHn|].
      intros Hn. rewrite IHu by (by rewrite <- Hiff).
      rewrite assign_star_lookup. destruct (m !! pos); [done|].
      destruct (decide (on_disk ncyl nhead pos)) as [Hd|Hd].
      * rewrite decide_True; [done|]. split; [apply list_elem_of_here|done].
      * destruct (decide ("*" ∈ xs ∧ on_disk ncyl nhead pos)) as [[? ?]|?]; [done|].
        rewrite decide_False; [done|]. intros [_ ?]. done.
    + (* an explicit element *)
      unfold assign_range in Hx. unfold_res.
      destruct (spec_positions ncyl nhead x) as [e|ps] eqn:Hps; [done|].
      injection Hx as <-.
      destruct (decide (pos ∈ ps)) as [Hin|Hin].
      * assert (Hnamed : named ncyl nhead (x :: xs) pos).
        { exists x, ps. split; [apply list_elem_of_here|done]. }
        split; [|done]. intros _.
        apply (assign_specs_keeps_own _ _ _ _ _ _ _ Hrun).
        rewrite assign_positions_lookup, decide_True; done.
      * assert (Hiff : named ncyl nhead (x :: xs) pos ↔ named ncyl nhead xs pos).
        { split; intros (y & qs & Hy & Hny & Hqs & Hq); exists y, qs.
          - apply elem_of_cons in Hy as [->|Hy]; [|done].
            rewrite Hps in Hqs. injection Hqs as <-. done.
          - split; [by apply list_elem_of_further|done]. }
        split; [intros Hn%Hiff; by apply IHn|].
        intros Hn. rewrite IHu by (by rewrite <- Hiff).
        rewrite assign_positions_lookup, decide_False by done.
        destruct (m !! pos); [done|].
        destruct (decide ("*" ∈ xs ∧ on_disk ncyl nhead pos)) as [[Hs Hd]|Hd].
        -- rewrite decide_True; [done|]. split; [by apply list_elem_of_further|done].
        -- rewrite decide_False; [done|]. intros [Hs ?]. apply Hd. split; [|done].
           apply elem_of_cons in Hs as [Hs|Hs]; [by subst|done].
Qed.

(** C4, as the code has it: through one tracks directive a position
    that already has a template keeps it, unless an element other than
    ['*'] names the position; then the template of the directive
    replaces it.  A ['*'] element never replaces a template. *)
Theorem tracks_directive_keeps_unless_named
        (ncyl nhead : Z) (tc : nat) (xs : list string)
        (m m' : gmap (Z * Z) nat) (pos : Z * Z) (v : nat) :
  assign_specs ncyl nhead tc m xs = inr m' →
  m !! pos = Some v →
  (¬ named ncyl nhead xs pos → m' !! pos = Some v)
  ∧ (named ncyl nhead xs pos → m' !! pos = Some tc).
Proof.
  intros Hrun Hm.
  destruct (assign_specs_lookup _ _ _ _ _ _ pos Hrun) as [Hn Hu].
  split; [|done]. intros Hnot. by rewrite (Hu Hnot), Hm.
Qed.

Lemma tracks_directive_keeps_unless_named_witness :
  let m : gmap (Z * Z) nat := <[(1, 0) := 0%nat]> (<[(0, 0) := 0%nat]> ∅) in
  let m' : gmap (Z * Z) nat := <[(0, 0) := 1%nat]> m in
  assign_specs 2 1 1 m ["0"; "*"] = inr m'
  ∧ m !! (1, 0) = Some 0%nat
  ∧ (¬ named 2 1 ["0"; "*"] (1, 0) → m' !! (1, 0) = Some 0%nat)
  ∧ (named 2 1 ["0"; "*"] (1, 0) → m' !! (1, 0) = Some 1%nat).
Proof.
  intros m m'.
  assert (Hrun : assign_specs 2 1 1 m ["0"; "*"] = inr m')
    by (vm_compute; reflexivity).
  assert (Hm : m !! (1, 0) = Some 0%nat) by reflexivity.
  split; [exact Hrun|]. split; [exact Hm|].
  exact (tracks_directive_keeps_unless_named 2 1 1 ["0"; "*"] m m' (1, 0) 0%nat
           Hrun Hm).
Defined.

(** ** Errors of get_format *)

Lemma parse_lines_error (name cfg : string) (lines : list string) :
  ∀ (k : Z) (st : State) (e : exn),
    parse_lines name cfg k lines st = inl e →
    ∃ (n : nat) (l : string) (st' : State) (e0 : exn),
      lines !! n = Some l
      ∧ parse_lines name cfg k (take n lines) st = inr st'
      ∧ process_line name st' l = inl e0
      ∧ e = exn_prefix (line_prefix cfg (k + Z.of_nat n)) e0.
Proof.
  induction lines as [|l lines IH]; intros k st e Hrun; cbn [parse_lines] in Hrun.
  - discriminate.
  - destruct (process_line name st l) as [e0|st1] eqn:Hl.
    + injection Hrun as <-. exists 0%nat, l, st, e0.
      repeat split; try done. by rewrite Z.add_0_r.
    + destruct (IH _ _ _ Hrun) as (n & l' & st' & e0 & Hn & Hpre & Hstep & ->).
      exists (S n), l', st', e0. repeat split; try done.
      * cbn [take parse_lines]. by rewrite Hl.
      * do 2 f_equal. lia.
Qed.

Lemma trackset_ok (d : DiskConfig) :
  is_None (cyls d) = false → is_None (heads d) = false → is_ok (trackset d) = true.
Proof. unfold trackset. by destruct (cyls d), (heads d). Qed.

Definition max_error : exn := ValueError "max() arg is an empty sequence".

(** The exception with which [get_format] ends when the loop has
    ended in the state [st] with the disk configuration [d]. *)
Lemma get_format_after_loop (name cfg : string) (lines : list string)
      (st : State) (d : DiskConfig) (e : exn) :
  parse_lines name cfg 1 lines State_init = inr st →
  disk_config st = Some d →
  get_format name lines cfg = inl e →
  (cyls d = None ∧ e = Fatal "missing cyls")
  ∨ (heads d = None ∧ e = Fatal "missing heads")
  ∨ e = max_error.
Proof.
  intros Hrun Hd. unfold get_format. unfold_res. rewrite Hrun, Hd.
  unfold DiskConfig_finalise. unfold_res.
  destruct (cyls d) eqn:Hc; simpl; [|intros [= <-]; by left].
  destruct (heads d) eqn:Hh; simpl; [|intros [= <-]; right; by left].
  unfold Format_init. unfold_res.
  destruct (DiskConfig_default_revs (store st) d) as [e1|revs] eqn:Hrev.
  - intros [= <-]. right; right. unfold DiskConfig_default_revs, py_max in Hrev.
    destruct (omap _ _); [|done]. by injection Hrev as <-.
  - pose proof (trackset_ok d) as Hts. rewrite Hc, Hh in Hts.
    specialize (Hts eq_refl eq_refl). by destruct (trackset d).
Qed.

(** C6, as the code has it: an exception that a line raises is
    re-raised with the document identifier and the 1-based number of
    that line put before its message, and depends on no later line;
    the only other exceptions are those raised after the loop, by
    [DiskConfig.finalise] and by the construction of the [Format], and
    they carry no such prefix.  In every case no [Format] comes back. *)
Theorem get_format_error_sources (name cfg : string) (lines : list string) (e : exn) :
  get_format name lines cfg = inl e →
  (∃ (n : nat) (l : string) (st : State) (e0 : exn),
      lines !! n = Some l
      ∧ parse_lines name cfg 1 (take n lines) State_init = inr st
      ∧ process_line name st l = inl e0
      ∧ e = exn_prefix (cfg +:+ ", line " +:+ str (Z.of_nat n + 1) +:+ ": ") e0)
  ∨ (∃ (st : State) (d : DiskConfig),
        parse_lines name cfg 1 lines State_init = inr st
        ∧ disk_config st = Some d
        ∧ ((cyls d = None ∧ e = Fatal "missing cyls")
           ∨ (heads d = None ∧ e = Fatal "missing heads")
           ∨ e = max_error)).
Proof.
  intros Hget.
  destruct (parse_lines name cfg 1 lines State_init) as [e1|st] eqn:Hrun.
  - left. assert (e1 = e) as ->.
    { unfold get_format in Hget. unfold_res. rewrite Hrun in Hget. congruence. }
    destruct (parse_lines_error _ _ _ _ _ _ Hrun)
      as (n & l & st' & e0 & Hn & Hpre & Hstep & ->).
    exists n, l, st', e0. repeat split; try done.
    unfold line_prefix. by rewrite Z.add_comm.
  - right. destruct (disk_config st) as [d|] eqn:Hd.
    + exists st, d. repeat split; try done.
      by apply (get_format_after_loop name cfg lines st d).
    + unfold get_format in Hget. unfold_res. by rewrite Hrun, Hd in Hget.
Qed.

(** C10 (amended): when the loop ends with a disk configuration whose
    track map is empty, [get_format] raises: it returns neither a
    [Format] nor [None].  With [cyls] and [heads] set,
    [DiskConfig.finalise] passes and the construction of the [Format]
    raises the [ValueError] of [max] on an empty sequence.  With [cyls]
    or [heads] missing the construction is not reached:
    [DiskConfig.finalise] raises [missing cyls] or [missing heads]. *)
Theorem get_format_without_tracks (name cfg : string) (lines : list string)
        (st : State) (d : DiskConfig) :
  parse_lines name cfg 1 lines State_init = inr st →
  disk_config st = Some d →
  track_map d = ∅ →
  get_format name lines cfg
  = inl (match cyls d, heads d with
         | None, _ => Fatal "missing cyls"
         | Some _, None => Fatal "missing heads"
         | Some _, Some _ => max_error
         end)
  ∧ (cyls d ≠ None → heads d ≠ None →
     DiskConfig_finalise d = inr tt
     ∧ Format_init (store st) d = inl max_error
     ∧ get_format name lines cfg = inl max_error).
Proof.
  intros Hrun Hd Hm.
  assert (HF : Format_init (store st) d = inl max_error).
  { unfold Format_init, DiskConfig_default_revs. rewrite Hm, map_to_list_empty.
    reflexivity. }
  assert (Hget : get_format name lines cfg
                 = inl (match cyls d, heads d with
                        | None, _ => Fatal "missing cyls"
                        | Some _, None => Fatal "missing heads"
                        | Some _, Some _ => max_error
                        end)).
  { unfold get_format. unfold_res. rewrite Hrun, Hd.
    unfold DiskConfig_finalise. unfold_res.
    destruct (cyls d); simpl; [|done]. destruct (heads d); simpl; [|done].
    by rewrite HF. }
  split; [exact Hget|]. intros Hc Hh. rewrite Hget.
  unfold DiskConfig_finalise. unfold_res.
  destruct (cyls d); [|done]. destruct (heads d); [|done]. done.
Qed.

End Tracks.

(** The concrete documents below only use the IBM formats. *)
Definition ibm2 : Externals := ibm_only 2.
#[local] Existing Instance ibm2.

Definition overwrite_doc : list string :=
  ["disk d"; "cyls = 2"; "heads = 1";
   "tracks 0-1 ibm.fm"; "end";
   "tracks 0 ibm.mfm"; "end";
   "end"].

(** C4 as stated fails: the directive of line 4 gives position (0, 0)
    the first template, and the directive of line 6, which names
    cylinder 0, replaces it by the second one. *)
Lemma explicit_tracks_directive_overwrites :
  ∃ (st : State) (d : DiskConfig) (f : Format),
    parse_lines "d" "x.cfg" 1 (take 5 overwrite_doc) State_init
    = inr st
    ∧ disk_config st = Some d
    ∧ track_map d !! (0, 0) = Some 0%nat
    ∧ get_format "d" overwrite_doc "x.cfg" = inr (Some f)
    ∧ track_map (fmt f) !! (0, 0) = Some 1%nat
    ∧ (templates f !! 0%nat ≠ templates f !! 1%nat).
Proof.
  do 3 eexists. split; [vm_compute; reflexivity|].
  split; [reflexivity|]. split; [reflexivity|].
  split; [vm_compute; reflexivity|]. split; [reflexivity|]. discriminate.
Qed.

(** C6 as stated fails: the missing [cyls] that [DiskConfig.finalise]
    finds after the last line is reported without the name of the
    document and without a line number. *)
Lemma final_finalise_error_not_annotated :
  get_format "d" ["disk d"; "end"] "x.cfg"
  = inl (Fatal "missing cyls")
  ∧ ¬ ∃ (linenr : Z) (msg : string),
        "missing cyls" = line_prefix "x.cfg" linenr +:+ msg.
Proof.
  split; [reflexivity|]. intros (linenr & msg & Heq). discriminate Heq.
Qed.

(** A template with [iam = no] and [gap1 = 5], as [add_param] makes
    it: its [finalise] raises the gap1 error, and so does [get_format]
    at the [end] of its section, line 7 of this document. *)
Definition gap1_doc : list string :=
  ["disk d"; "cyls = 40"; "heads = 1";
   "tracks * ibm.fm"; "iam = no"; "gap1 = 5"; "end";
   "end"].

Lemma finalise_gap1_error_iff_witness :
  ∃ c0 c : IBMTrackConfig,
    IBMTrackConfig_add_param (IBMTrackConfig_init "ibm.fm") "iam" "no" = inr c0
    ∧ IBMTrackConfig_add_param c0 "gap1" "5" = inr c
    ∧ (finalised c = false ∧ gap1 c ≠ None ∧ iam c = false)
    ∧ IBMTrackConfig_finalise c = inl gap1_error
    ∧ get_format "d" gap1_doc "x.cfg"
      = inl (Fatal "x.cfg, line 7: gap1 specified but no iam").
Proof.
  do 2 eexists.
  split; [reflexivity|]. split; [reflexivity|].
  match goal with |- ?A ∧ _ => assert (Hc : A) by (repeat split; discriminate) end.
  split; [exact Hc|].
  split; [exact (proj2 (finalise_gap1_error_iff _) Hc)|].
  vm_compute. reflexivity.
Defined.

Lemma get_format_without_tracks_witness :
  let lines := ["disk d"; "cyls = 40"; "heads = 1"; "end"] in
  let d := {| cyls := Some 40; heads := Some 1; step := 1; track_map := ∅ |} in
  let st := {| parse_mode := Outer; active := false; disk_config := Some d;
               track_config := None; store := [] |} in
  parse_lines "d" "x.cfg" 1 lines State_init = inr st
  ∧ disk_config st = Some d
  ∧ track_map d = ∅
  ∧ get_format "d" lines "x.cfg" = inl max_error
  ∧ DiskConfig_finalise d = inr tt
  ∧ Format_init (store st) d = inl max_error.
Proof.
  intros lines d st.
  assert (Hrun : parse_lines "d" "x.cfg" 1 lines State_init = inr st)
    by reflexivity.
  split; [exact Hrun|]. split; [reflexivity|]. split; [reflexivity|].
  destruct (get_format_without_tracks "d" "x.cfg" lines st d Hrun eq_refl eq_refl)
    as [Hget Hset].
  split; [exact Hget|].
  destruct (Hset ltac:(discriminate) ltac:(discriminate)) as (Hfin & Hinit & _).
  split; [exact Hfin|exact Hinit].
Defined.

(** C10 as stated fails: the disk block of this document assigns no
    position and sets neither [cyls] nor [heads]; the exception of
    [get_format] is the [missing cyls] of [DiskConfig.finalise], and the
    construction of the [Format], with its [max] of an empty sequence,
    is not reached. *)
Lemma empty_disk_block_reports_missing_cyls :
  ∃ (st : State) (d : DiskConfig),
    parse_lines "d" "x.cfg" 1 ["disk d"; "end"] State_init = inr st
    ∧ disk_config st = Some d
    ∧ track_map d = ∅
    ∧ DiskConfig_finalise d = inl (Fatal "missing cyls")
    ∧ get_format "d" ["disk d"; "end"] "x.cfg" = inl (Fatal "missing cyls")
    ∧ Fatal "missing cyls" ≠ max_error.
Proof.
  do 2 eexists. split; [reflexivity|]. split; [reflexivity|].
  split; [reflexivity|]. split; [reflexivity|]. split; [reflexivity|]. discriminate.
Qed.

Lemma get_format_error_sources_witness :
  let lines := ["disk d"; "cyls = 300"] in
  get_format "d" lines "x.cfg"
  = inl (Fatal "x.cfg, line 2: cyls out of range")
  ∧ ((∃ (n : nat) (l : string) (st : State) (e0 : exn),
         lines !! n = Some l
         ∧ parse_lines "d" "x.cfg" 1 (take n lines) State_init = inr st
         ∧ process_line "d" st l = inl e0
         ∧ Fatal "x.cfg, line 2: cyls out of range"
           = exn_prefix ("x.cfg" +:+ ", line " +:+ str (Z.of_nat n + 1) +:+ ": ") e0)
     ∨ (∃ (st : State) (d : DiskConfig),
           parse_lines "d" "x.cfg" 1 lines State_init = inr st
           ∧ disk_config st = Some d
           ∧ ((cyls d = None ∧ Fatal "x.cfg, line 2: cyls out of range" = Fatal "missing cyls")
              ∨ (heads d = None
                 ∧ Fatal "x.cfg, line 2: cyls out of range" = Fatal "missing heads")
              ∨ Fatal "x.cfg, line 2: cyls out of range" = max_error))).
Proof.
  intros lines.
  assert (Hget : get_format "d" lines "x.cfg"
                 = inl (Fatal "x.cfg, line 2: cyls out of range")) by reflexivity.
  split; [exact Hget|].
  exact (get_format_error_sources "d" "x.cfg" lines _ Hget).
Defined.

End FormatsProps.

(** * Properties of fm.py *)

Module FMProps.
Import FM.
Import FormatsProps.

(** ** Offsets within the track *)

Definition iam_at (offs : Z) : Area :=
  AreaIAM {| IAM.start := offs; IAM.end_ := offs + 16 |}.

(** The caller-supplied boundaries: the starts of the revolutions. *)
Definition boundaries (revolutions : list Z) : list Z :=
  (fun k => foldr Z.add 0 (take k revolutions)) <$> seq 0 (length revolutions).

(** C7 fails on the code.  With three revolutions of 100 bit-cells, an
    area at offset 50 and the next one at offset 250, the loop moves on
    by one revolution only: the second area is counted from boundary
    100 and gets offset 150, although the greatest boundary that is not
    behind it is 200. *)
Theorem track_offsets_skips_one_revolution_only :
  boundaries [100; 100; 100] = [0; 100; 200]
  ∧ track_offsets 0 (Some 100) [100; 100] [iam_at 50; iam_at 250]
    = [iam_at 50; iam_at 150]
  ∧ Area_delta 200 (iam_at 250) = iam_at 50.
Proof. repeat split. Qed.

(** ** The data rate *)

(** The candidate of round [i] accommodates the track: [tracklen] is
    below the maximum length of that round. *)
Definition fits (rpm tracklen i : Z) : Prop :=
  tracklen < Z.shiftl (50000 * 300 / rpm) i + 5000.

Definition candidate (i : Z) : Z := Z.shiftl 125 i.

(** C8, as the code has it: an explicit rate is used unchanged; for
    rate 0 the two candidates 125 and 250 are tried in this order and
    the first that accommodates the track is taken; when neither does,
    the rate is 250 all the same. *)
Theorem select_rate_spec (rate rpm tracklen : Z) :
  rpm ≠ 0 →
  (rate ≠ 0 → select_rate rate rpm tracklen = inr rate)
  ∧ (rate = 0 →
     (fits rpm tracklen 0 → select_rate rate rpm tracklen = inr (candidate 0))
     ∧ (¬ fits rpm tracklen 0 → fits rpm tracklen 1 →
        select_rate rate rpm tracklen = inr (candidate 1))
     ∧ (¬ fits rpm tracklen 0 → ¬ fits rpm tracklen 1 →
        select_rate rate rpm tracklen = inr (candidate 1))).
Proof.
  intros Hrpm. unfold select_rate, fits. split.
  - intros Hrate. by rewrite (proj2 (Z.eqb_neq _ _) Hrate).
  - intros ->. cbn [Z.eqb]. change (Formats.range 2) with [0; 1].
    cbn [rate_loop]. unfold maxlen, floordiv. unfold_res.
    rewrite (proj2 (Z.eqb_neq _ _) Hrpm).
    repeat split.
    + intros Hfit. by rewrite (proj2 (Z.ltb_lt _ _) Hfit).
    + intros Hn0 Hfit. destruct (Z.ltb_spec tracklen (Z.shiftl (50000 * 300 / rpm) 0 + 5000)); [done|].
      by rewrite (proj2 (Z.ltb_lt _ _) Hfit).
    + intros Hn0 Hn1. destruct (Z.ltb_spec tracklen (Z.shiftl (50000 * 300 / rpm) 0 + 5000)); [done|].
      by destruct (Z.ltb_spec tracklen (Z.shiftl (50000 * 300 / rpm) 1 + 5000)).
Qed.

Lemma select_rate_spec_witness :
  300 ≠ 0
  ∧ (0 ≠ 0 → select_rate 0 300 79648 = inr 0)
  ∧ (0 = 0 →
     (fits 300 79648 0 → select_rate 0 300 79648 = inr (candidate 0))
     ∧ (¬ fits 300 79648 0 → fits 300 79648 1 →
        select_rate 0 300 79648 = inr (candidate 1))
     ∧ (¬ fits 300 79648 0 → ¬ fits 300 79648 1 →
        select_rate 0 300 79648 = inr (candidate 1))).
Proof.
  assert (H : 300 ≠ 0) by lia.
  split; [exact H|]. exact (select_rate_spec 0 300 79648 H).
Defined.

(** C8 as stated fails: a single sector of 8192 bytes makes a track of
    132768 bit-cells, which neither candidate accommodates at 300 rpm,
    and the rate is 250. *)
Lemma select_rate_when_nothing_fits :
  sum_sizes [6] (Formats.range 1)
            (40 + (6 + 1 + 26) + ((6 + 5 + 2 + 11) + (6 + 1) + (2 + 0)) * 1)
  = inr 8298
  ∧ 8298 * 16 = 132768
  ∧ ¬ fits 300 132768 0 ∧ ¬ fits 300 132768 1
  ∧ select_rate 0 300 132768 = inr 250.
Proof.
  unfold fits. repeat split; try reflexivity; intros H; vm_compute in H; discriminate H.
Qed.

(** ** The deduped lists *)

Lemma find_near_None {A} (start_of : A → Z) (start : Z) (i : nat) (l : list A) :
  Forall (fun s => 1000 ≤ Z.abs (start_of s - start)) l →
  find_near start_of start i l = None.
Proof.
  revert i. induction l as [|s l IH]; intros i Hl; cbn [find_near]; [done|].
  inversion Hl as [|? ? Hs Hl']; subst.
  destruct (Z.ltb_spec (Z.abs (start_of s - start)) 1000); [lia|]. by apply IH.
Qed.

Lemma find_near_lookup {A} (start_of : A → Z) (start : Z) (i j : nat)
      (l : list A) (s : A) :
  find_near start_of start i l = Some (j, s) →
  (i ≤ j)%nat ∧ l !! (j - i)%nat = Some s.
Proof.
  revert i. induction l as [|x l IH]; intros i; cbn [find_near]; [done|].
  destruct (Z.abs (start_of x - start) <? 1000).
  - intros [= <- <-]. split; [lia|]. by rewrite Nat.sub_diag.
  - intros [Hle Hl]%IH. split; [lia|].
    replace (j - i)%nat with (S (j - S i)) by lia. done.
Qed.

(** A valid entry of the sector list stays where it is when an area is
    added. *)
Lemma add_sector_keeps_valid (ss : list Sector.t) (a : Sector.t) (i : nat) (s : Sector.t) :
  ss !! i = Some s → Sector.crc s = 0 → add_sector ss a !! i = Some s.
Proof.
  intros Hi Hs. unfold add_sector.
  destruct (find_near Sector.start (Sector.start a) 0 ss) as [[j s']|] eqn:Hf.
  - destruct (negb (Sector.crc s' =? 0) && (Sector.crc a =? 0)) eqn:Hc; [|done].
    apply find_near_lookup in Hf as [_ Hj]. rewrite Nat.sub_0_r in Hj.
    destruct (decide (i = j)) as [->|Hne].
    + rewrite Hi in Hj. injection Hj as <-. rewrite Hs in Hc. done.
    + by rewrite list_lookup_insert_ne.
  - by apply lookup_app_l_Some.
Qed.

Lemma dedup_keeps_valid (areas : list Area) :
  ∀ (st : list IAM.t * list Sector.t) (i : nat) (s : Sector.t),
    st.2 !! i = Some s → Sector.crc s = 0 → (dedup st areas).2 !! i = Some s.
Proof.
  unfold dedup. induction areas as [|a areas IH]; intros st i s Hi Hs; [done|].
  cbn [foldl]. apply IH; [|done].
  destruct a; simpl; try done. by apply add_sector_keeps_valid.
Qed.

(** An area that is not valid takes the place of no entry: it is
    dropped when an entry is near, and appended otherwise. *)
Lemma add_sector_invalid (ss : list Sector.t) (b : Sector.t) :
  Sector.crc b ≠ 0 →
  add_sector ss b
  = match find_near Sector.start (Sector.start b) 0 ss with
    | Some _ => ss
    | None => ss ++ [b]
    end.
Proof.
  intros Hb. unfold add_sector.
  destruct (find_near _ _ _ _) as [[i s]|]; [|done].
  rewrite (proj2 (Z.eqb_neq (Sector.crc b) 0)) by done. by rewrite andb_false_r.
Qed.

Lemma find_near_app_l {A} (start_of : A → Z) (start : Z) (l l' : list A) :
  ∀ i x, find_near start_of start i l = Some x →
         find_near start_of start i (l ++ l') = Some x.
Proof.
  induction l as [|s l IH]; intros i x; cbn [find_near app]; [done|].
  destruct (Z.abs (start_of s - start) <? 1000); [done|]. apply IH.
Qed.

Lemma find_near_app_r {A} (start_of : A → Z) (start : Z) (l : list A) (a : A) :
  ∀ i, find_near start_of start i l = None →
       Z.abs (start_of a - start) < 1000 →
       find_near start_of start i (l ++ [a]) = Some ((i + length l)%nat, a).
Proof.
  induction l as [|s l IH]; intros i; cbn [find_near app].
  - intros _ Ha. destruct (Z.ltb_spec (Z.abs (start_of a - start)) 1000); [|lia].
    do 2 f_equal. simpl. lia.
  - destruct (Z.abs (start_of s - start) <? 1000); [done|]. intros Hl Ha.
    rewrite IH by done. do 2 f_equal. simpl. lia.
Qed.

(** C3 (amended): two detections [a], valid, and [b], not valid, whose
    starts are fewer than 1000 bit-cells apart, are merged into any
    sector list [ss], in either order.  The entry that decides is the
    first entry of [ss] within 1000 bit-cells of [a].  When there is
    none, [a] is appended and [b] is not kept.  When it is not valid,
    [a] takes its place.  When it is valid, it stays, and [a] is dropped
    as its duplicate: the list then is [ss], or [ss] with [b] behind it
    when no entry is near [b].  And no sequence of areas replaces a
    valid entry of the list. *)
Theorem dedup_prefers_valid (is_ : list IAM.t) (ss : list Sector.t) (a b : Sector.t) :
  Z.abs (Sector.start a - Sector.start b) < 1000 →
  Sector.crc a = 0 →
  Sector.crc b ≠ 0 →
  let r1 := (dedup (is_, ss) [AreaSector a; AreaSector b]).2 in
  let r2 := (dedup (is_, ss) [AreaSector b; AreaSector a]).2 in
  (find_near Sector.start (Sector.start a) 0 ss = None →
   r1 = ss ++ [a] ∧ r2 = ss ++ [a])
  ∧ (∀ i s, find_near Sector.start (Sector.start a) 0 ss = Some (i, s) →
            Sector.crc s ≠ 0 →
            r1 !! i = Some a ∧ r2 !! i = Some a)
  ∧ (∀ i s, find_near Sector.start (Sector.start a) 0 ss = Some (i, s) →
            Sector.crc s = 0 →
            r1 !! i = Some s ∧ r2 = r1 ∧ (r1 = ss ∨ r1 = ss ++ [b]))
  ∧ ∀ (st : list IAM.t * list Sector.t) (areas : list Area) (i : nat) (s : Sector.t),
      st.2 !! i = Some s → Sector.crc s = 0 → (dedup st areas).2 !! i = Some s.
Proof.
  intros Hab Ha Hb r1 r2. unfold r1, r2, dedup. cbn [foldl dedup_area fst snd].
  pose proof (add_sector_invalid ss b Hb) as Hbss.
  split; [|split; [|split]].
  - intros Hnone.
    assert (Hadd : add_sector ss a = ss ++ [a]) by (unfold add_sector; by rewrite Hnone).
    split.
    + rewrite Hadd, add_sector_invalid by done.
      destruct (find_near Sector.start (Sector.start b) 0 ss) as [x|] eqn:Hfb.
      * by rewrite (find_near_app_l _ _ ss [a] 0 x Hfb).
      * by rewrite (find_near_app_r _ _ ss a 0) by (done || lia).
    + rewrite Hbss. destruct (find_near Sector.start (Sector.start b) 0 ss); [done|].
      unfold add_sector. rewrite (find_near_app_r _ _ ss b 0) by (done || lia).
      rewrite Ha, (proj2 (Z.eqb_neq _ _) Hb). cbn [negb andb Z.eqb].
      replace (0 + length ss)%nat with (length ss + 0)%nat by lia.
      by rewrite insert_app_r.
  - intros i s Hf Hs.
    pose proof (find_near_lookup _ _ _ _ _ _ Hf) as [_ Hi].
    rewrite Nat.sub_0_r in Hi. pose proof (lookup_lt_Some _ _ _ Hi) as Hlt.
    assert (Hrepl : ∀ l, add_sector (ss ++ l) a = <[i := a]> (ss ++ l)).
    { intros l. unfold add_sector.
      rewrite (find_near_app_l _ _ ss l 0 _ Hf).
      by rewrite Ha, (proj2 (Z.eqb_neq _ _) Hs). }
    split.
    + pose proof (Hrepl []) as Hrepl0. rewrite app_nil_r in Hrepl0.
      rewrite Hrepl0, add_sector_invalid by done.
      destruct (find_near _ _ _ (<[i := a]> ss)).
      * by apply list_lookup_insert_eq.
      * apply lookup_app_l_Some. by apply list_lookup_insert_eq.
    + rewrite Hbss. destruct (find_near Sector.start (Sector.start b) 0 ss).
      * pose proof (Hrepl []) as Hrepl0. rewrite app_nil_r in Hrepl0.
        rewrite Hrepl0. by apply list_lookup_insert_eq.
      * rewrite Hrepl. apply list_lookup_insert_eq. rewrite length_app. lia.
  - intros i s Hf Hs.
    pose proof (find_near_lookup _ _ _ _ _ _ Hf) as [_ Hi].
    rewrite Nat.sub_0_r in Hi.
    assert (Hkeep : ∀ l, add_sector (ss ++ l) a = ss ++ l).
    { intros l. unfold add_sector.
      rewrite (find_near_app_l _ _ ss l 0 _ Hf).
      by rewrite Hs. }
    pose proof (Hkeep []) as Hkeep0. rewrite app_nil_r in Hkeep0.
    rewrite Hkeep0, Hbss.
    destruct (find_near Sector.start (Sector.start b) 0 ss).
    + rewrite Hkeep0. split; [done|]. split; [done|by left].
    + rewrite Hkeep. split; [by apply lookup_app_l_Some|]. split; [done|by right].
  - intros st areas. apply dedup_keeps_valid.
Qed.

Definition sector_at (start crc : Z) : Sector.t :=
  Sector.make
    {| IDAM.start := start; IDAM.end_ := start + 112; IDAM.crc := crc;
       IDAM.c := 0; IDAM.h := 0; IDAM.r := 1; IDAM.n := 0 |}
    {| DAM.start := start + 384; DAM.end_ := start + 2480; DAM.crc := 0;
       DAM.mark := 251; DAM.data := Some [] |}.

(** A list with a detection of another sector, and one that is not
    valid of the sector that [a] and [b] are detections of. *)
Lemma dedup_prefers_valid_witness :
  let a := sector_at 1264 0 in
  let b := sector_at 1270 4660 in
  let other := sector_at 10912 0 in
  let old := sector_at 1300 4660 in
  Z.abs (Sector.start a - Sector.start b) < 1000
  ∧ Sector.crc a = 0
  ∧ Sector.crc b ≠ 0
  ∧ find_near Sector.start (Sector.start a) 0 [other; old] = Some (1%nat, old)
  ∧ Sector.crc old ≠ 0
  ∧ (dedup ([], [other; old]) [AreaSector a; AreaSector b]).2 !! 1%nat = Some a
  ∧ (dedup ([], [other; old]) [AreaSector b; AreaSector a]).2 !! 1%nat = Some a.
Proof.
  intros a b other old.
  assert (Hab : Z.abs (Sector.start a - Sector.start b) < 1000) by (simpl; lia).
  assert (Ha : Sector.crc a = 0) by reflexivity.
  assert (Hb : Sector.crc b ≠ 0) by (intros Hb; vm_compute in Hb; discriminate Hb).
  assert (Hf : find_near Sector.start (Sector.start a) 0 [other; old]
               = Some (1%nat, old)) by reflexivity.
  assert (Ho : Sector.crc old ≠ 0) by (intros Ho; vm_compute in Ho; discriminate Ho).
  pose proof (dedup_prefers_valid [] [other; old] a b Hab Ha Hb) as (_ & Hrepl & _).
  destruct (Hrepl 1%nat old Hf Ho) as [H1 H2].
  repeat split; assumption.
Defined.

(** C3 as stated fails: the list holds a valid detection at bit-cell
    1000; [a] is a valid detection 900 bit-cells behind it and [b] one
    that is not valid, 200 bit-cells behind [a] and so 1100 behind the
    entry of the list.  In either order [a] is dropped as a duplicate
    of the entry and [b] is appended: the list that comes back holds
    the detection that is not valid and not the valid one. *)
Lemma valid_detection_dropped_as_duplicate :
  let first := sector_at 1000 0 in
  let a := sector_at 1900 0 in
  let b := sector_at 2100 4660 in
  Z.abs (Sector.start a - Sector.start b) < 1000
  ∧ Sector.crc a = 0
  ∧ Sector.crc b ≠ 0
  ∧ dedup ([], [first]) [AreaSector a; AreaSector b] = ([], [first; b])
  ∧ dedup ([], [first]) [AreaSector b; AreaSector a] = ([], [first; b])
  ∧ a ∉ [first; b].
Proof.
  intros first a b.
  split; [simpl; lia|]. split; [reflexivity|].
  split; [intros Hb; vm_compute in Hb; discriminate Hb|].
  split; [reflexivity|]. split; [reflexivity|].
  intros Hin. apply elem_of_cons in Hin as [Hin|Hin]; [discriminate Hin|].
  apply list_elem_of_singleton in Hin. discriminate Hin.
Qed.

(** ** The sector map *)

Section SectorMap.
Variables (nsec interleave : Z).
Hypothesis nsec_pos : 0 < nsec.

(** A free slot [d] steps ahead of [pos] is found with more than [d]
    units of fuel. *)
Lemma next_free_ahead (sec_map : list Z) (d : nat) :
  ∀ (fuel : nat) (pos : Z),
    (d < fuel)%nat →
    0 ≤ pos < nsec →
    sec_map !! Z.to_nat ((pos + Z.of_nat d) mod nsec) = Some (-1) →
    ∃ q, next_free fuel sec_map nsec pos = Some q
         ∧ 0 ≤ q < nsec ∧ sec_map !! Z.to_nat q = Some (-1).
Proof.
  induction d as [|d IH]; intros fuel pos Hfuel Hpos Hfree;
    (destruct fuel as [|fuel]; [lia|]); cbn [next_free].
  - rewrite Z.add_0_r, Z.mod_small in Hfree by done.
    rewrite bool_decide_eq_true_2 by done. eauto.
  - case_bool_decide as Hhere; [eauto|].
    apply IH; [lia|by apply Z.mod_pos_bound|].
    rewrite Zplus_mod_idemp_l.
    replace (pos + 1 + Z.of_nat d) with (pos + Z.of_nat (S d)) by lia. done.
Qed.

Lemma next_free_found (fuel : nat) (sec_map : list Z) (pos : Z) :
  length sec_map = Z.to_nat nsec →
  (Z.to_nat nsec ≤ fuel)%nat →
  0 ≤ pos < nsec →
  -1 ∈ sec_map →
  ∃ q, next_free fuel sec_map nsec pos = Some q
       ∧ 0 ≤ q < nsec ∧ sec_map !! Z.to_nat q = Some (-1).
Proof.
  intros Hlen Hfuel Hpos [p Hp]%list_elem_of_lookup.
  pose proof (lookup_lt_Some _ _ _ Hp) as Hlt.
  apply (next_free_ahead sec_map (Z.to_nat ((Z.of_nat p - pos) mod nsec))).
  - pose proof (Z.mod_pos_bound (Z.of_nat p - pos) nsec nsec_pos). lia.
  - done.
  - rewrite Z2Nat.id by (apply Z.mod_pos_bound; lia).
    rewrite Zplus_mod_idemp_r.
    replace (pos + (Z.of_nat p - pos)) with (Z.of_nat p) by lia.
    rewrite Z.mod_small by lia. by rewrite Nat2Z.id.
Qed.

Lemma insert_free_slot (sec_map : list Z) (q k j : nat) :
  sec_map !! q = Some (-1) →
  sec_map ≡ₚ (Z.of_nat <$> seq 0 k) ++ replicate (S j) (-1) →
  <[q := Z.of_nat k]> sec_map ≡ₚ (Z.of_nat <$> seq 0 (S k)) ++ replicate j (-1).
Proof.
  intros Hq Hperm.
  pose proof (lookup_lt_Some _ _ _ Hq) as Hlt.
  rewrite insert_take_drop by done.
  rewrite <- (take_drop_middle _ _ _ Hq) in Hperm.
  rewrite seq_S, fmap_app. cbn [fmap list_fmap Nat.add].
  rewrite <- Permutation_middle. rewrite <- app_assoc. cbn [app].
  rewrite <- Permutation_middle. constructor.
  rewrite <- Permutation_middle in Hperm. cbn [replicate] in Hperm.
  rewrite <- Permutation_middle in Hperm.
  by apply Permutation_cons_inv in Hperm.
Qed.

(** The loop that fills the map ends, with more than [nsec - 1] units
    of fuel for every search, and leaves a permutation of the sector
    numbers. *)
Lemma fill_map_permutation (fuel : nat) (j : nat) :
  ∀ (k : nat) (sec_map : list Z) (pos : Z),
    (k + j)%nat = Z.to_nat nsec →
    (Z.to_nat nsec ≤ fuel)%nat →
    0 ≤ pos < nsec →
    sec_map ≡ₚ (Z.of_nat <$> seq 0 k) ++ replicate j (-1) →
    ∃ m, fill_map fuel nsec interleave (Z.of_nat <$> seq k j) sec_map pos = Some m
         ∧ m ≡ₚ Formats.range nsec.
Proof.
  induction j as [|j IH]; intros k sec_map pos Hkj Hfuel Hpos Hperm.
  - exists sec_map. split; [done|]. unfold Formats.range.
    rewrite app_nil_r in Hperm. by replace (Z.to_nat nsec) with k by lia.
  - cbn [seq fmap list_fmap fill_map].
    assert (Hlen : length sec_map = Z.to_nat nsec).
    { rewrite Hperm, length_app, length_fmap, length_seq, length_replicate. lia. }
    assert (Hfree : -1 ∈ sec_map).
    { rewrite Hperm. apply elem_of_app. right. apply list_elem_of_here. }
    destruct (next_free_found fuel sec_map pos Hlen Hfuel Hpos Hfree)
      as (q & -> & Hq & Hslot).
    cbn [mbind option_bind].
    apply (IH (S k)); [lia|done|by apply Z.mod_pos_bound|].
    by apply insert_free_slot.
Qed.
End SectorMap.

(** C2: for a sector count of at least 1 and any interleave and
    skews, the loop that builds the sector map ends (as soon as every
    search for a free slot may test [nsec] slots) and the map is a
    bijection between the rotational slots and the sector numbers
    0 .. nsec - 1: it has [nsec] slots and every number is in exactly
    one of them. *)
Theorem sector_map_bijection (fuel : nat) (nsec cyl head cskew hskew interleave : Z) :
  1 ≤ nsec →
  (Z.to_nat nsec ≤ fuel)%nat →
  ∃ m : list Z,
    sector_map fuel nsec cyl head cskew hskew interleave = Some m
    ∧ m ≡ₚ Formats.range nsec
    ∧ length m = Z.to_nat nsec
    ∧ ∀ i : Z, 0 ≤ i < nsec →
        ∃ slot : nat, m !! slot = Some i
                      ∧ ∀ slot' : nat, m !! slot' = Some i → slot' = slot.
Proof.
  intros Hn Hfuel. unfold sector_map.
  rewrite (proj2 (Z.eqb_neq nsec 0)) by lia.
  destruct (fill_map_permutation nsec interleave ltac:(lia) fuel (Z.to_nat nsec)
              0%nat (replicate (Z.to_nat nsec) (-1))
              ((cyl * cskew + head * hskew) mod nsec))
    as (m & Hm & Hperm); [lia|done|apply Z.mod_pos_bound; lia|done|].
  exists m. split; [exact Hm|]. split; [exact Hperm|].
  assert (Hnd : NoDup m).
  { rewrite Hperm. unfold Formats.range.
    apply (NoDup_fmap_2 _), NoDup_seq. }
  split.
  - rewrite Hperm. unfold Formats.range. by rewrite length_fmap, length_seq.
  - intros i Hi.
    assert (Hin : i ∈ m) by (rewrite Hperm; by apply elem_of_range).
    apply list_elem_of_lookup in Hin as [slot Hslot].
    exists slot. split; [done|]. intros slot' Hslot'.
    by apply (NoDup_lookup m slot' slot i).
Qed.

Lemma sector_map_bijection_witness :
  1 ≤ 9
  ∧ (Z.to_nat 9 ≤ 9)%nat
  ∧ ∃ m : list Z,
      sector_map 9 9 10 0 0 0 2 = Some m
      ∧ m ≡ₚ Formats.range 9
      ∧ length m = Z.to_nat 9
      ∧ ∀ i : Z, 0 ≤ i < 9 →
          ∃ slot : nat, m !! slot = Some i
                        ∧ ∀ slot' : nat, m !! slot' = Some i → slot' = slot.
Proof.
  assert (H1 : 1 ≤ 9) by lia.
  assert (H2 : (Z.to_nat 9 ≤ 9)%nat) by (simpl; lia).
  split; [exact H1|]. split; [exact H2|].
  exact (sector_map_bijection 9 9 10 0 0 0 2 H1 H2).
Defined.

(** ** Writing a track and reading it back

    The bits that [raw_track] writes are a sequence of 16-bit cells, each
    the interleaving of a clock byte and a data byte. *)


Definition cell : Type := Z * Z.
Definition cell_bytes (c : cell) : bytes := pack_H (interleave_bits c.1 c.2).
Definition cells_bytes (cs : list cell) : bytes := cs ≫= cell_bytes.
Definition clock_bits (cs : list cell) : bitarray := cs ≫= fun c => byte_bits c.1.
Definition data_bits (cs : list cell) : bitarray := cs ≫= fun c => byte_bits c.2.
Fixpoint inter (C D : bitarray) : bitarray :=
  match C, D with
  | c :: C', d :: D' => c :: d :: inter C' D'
  | _, _ => []
  end.
Definition is_byte (x : Z) : Prop := 0 ≤ x < 256.
Definition is_clock (x : Z) : Prop := x = 255 ∨ x = 199 ∨ x = 215.
Definition ok_cell (c : cell) : Prop := is_clock c.1 ∧ is_byte c.2.

Lemma byte_cases (P : Z → bool) :
  forallb P (Formats.range 256) = true → ∀ x, is_byte x → P x = true.
Proof.
  intros HP x Hx. rewrite forallb_forall in HP. apply HP.
  apply list_elem_of_In, elem_of_range. exact Hx.
Qed.

Lemma cell_bits_data (clk : Z) :
  is_clock clk →
  ∀ dat, is_byte dat →
    frombytes (cell_bytes (clk, dat)) = inter (byte_bits clk) (byte_bits dat).
Proof.
  intros Hclk dat Hdat.
  apply (bool_decide_eq_true_1 _).
  revert dat Hdat. 
  apply (byte_cases (fun dat => bool_decide
     (frombytes (cell_bytes (clk, dat)) = inter (byte_bits clk) (byte_bits dat)))).
  destruct Hclk as [-> | [-> | ->]]; vm_compute; reflexivity.
Qed.


Lemma inter_app (C1 D1 C2 D2 : bitarray) :
  length C1 = length D1 →
  inter (C1 ++ C2) (D1 ++ D2) = inter C1 D1 ++ inter C2 D2.
Proof.
  revert D1. induction C1 as [|c C1 IH]; intros [|d D1] Hlen; try done.
  cbn [app inter]. rewrite IH; [done|]. simpl in Hlen. lia.
Qed.

Lemma length_byte_bits (x : Z) : length (byte_bits x) = 8%nat.
Proof. reflexivity. Qed.

Lemma length_clock_bits (cs : list cell) : length (clock_bits cs) = (8 * length cs)%nat.
Proof.
  induction cs as [|c cs IH]; [done|]. unfold clock_bits in *.
  rewrite bind_cons, length_app, IH, length_byte_bits. simpl. lia.
Qed.

Lemma length_data_bits (cs : list cell) : length (data_bits cs) = (8 * length cs)%nat.
Proof.
  induction cs as [|c cs IH]; [done|]. unfold data_bits in *.
  rewrite bind_cons, length_app, IH, length_byte_bits. simpl. lia.
Qed.

(** The bits of a track are its clock bits and its data bits in turn. *)
Lemma cells_bits (cs : list cell) :
  Forall ok_cell cs →
  frombytes (cells_bytes cs) = inter (clock_bits cs) (data_bits cs).
Proof.
  induction 1 as [|[clk dat] cs [Hclk Hdat] Hcs IH]; [done|].
  unfold cells_bytes, frombytes, clock_bits, data_bits in *.
  rewrite !bind_cons, bind_app, inter_app by done.
  rewrite <- IH. f_equal. by apply cell_bits_data.
Qed.

(** *** Searching a pattern in interleaved streams *)

(** The occurrences of the pattern [inter PC PD] in [inter C D]: at an
    even offset the clock bits carry [PC] and the data bits [PD]; at an
    odd offset it is the other way round, the clock bits being one
    ahead.  [de] and [do] are the two tests on the data bits. *)
Fixpoint stream_hits (PC PD : bitarray) (de do : bitarray → bool)
         (o : Z) (C D : bitarray) : list Z :=
  match C, D with
  | _ :: C', _ :: D' =>
      (if is_prefix PC C && de D then [o] else [])
        ++ (if is_prefix PD C' && do D then [o + 1] else [])
        ++ stream_hits PC PD de do (o + 2) C' D'
  | _, _ => []
  end.

Lemma is_prefix_inter (PC PD C D : bitarray) :
  length PC = length PD → length C = length D →
  is_prefix (inter PC PD) (inter C D) = is_prefix PC C && is_prefix PD D.
Proof.
  revert PD C D. induction PC as [|pc PC IH]; intros [|pd PD] C D HP HC; try done.
  destruct C as [|c C], D as [|d D]; try done.
  cbn [inter is_prefix]. rewrite IH by (simpl in *; lia).
  destruct (Bool.eqb pc c), (Bool.eqb pd d), (is_prefix PC C); done.
Qed.

Lemma is_prefix_inter_odd (PC PD C D : bitarray) (d : bool) :
  length PC = length PD → length C = length D →
  is_prefix (inter PC PD) (d :: inter C D) = is_prefix PD C && is_prefix PC (d :: D).
Proof.
  revert PD C D d. induction PC as [|pc PC IH]; intros [|pd PD] C D d HP HC; try done.
  destruct C as [|c C], D as [|d' D]; try done.
  - cbn [inter is_prefix]. by destruct (Bool.eqb pc d).
  - cbn [inter is_prefix]. rewrite IH by (simpl in *; lia).
    cbn [is_prefix].
    destruct (Bool.eqb pc d), (Bool.eqb pd c), (is_prefix PD C); done.
Qed.

Lemma itersearch_inter (PC PD : bitarray) :
  length PC = length PD →
  ∀ (C D : bitarray) (o : Z),
    length C = length D →
    itersearch_from (inter PC PD) o (inter C D)
    = stream_hits PC PD (is_prefix PD) (is_prefix PC) o C D.
Proof.
  intros HP. induction C as [|c C IH]; intros [|d D] o HC; try done.
  cbn [inter itersearch_from stream_hits].
  rewrite IH by (simpl in HC; lia).
  change (c :: d :: inter C D) with (inter (c :: C) (d :: D)).
  rewrite is_prefix_inter by done.
  rewrite is_prefix_inter_odd by (done || (simpl in HC; lia)).
  replace (o + 1 + 1) with (o + 2) by lia.
  done.
Qed.

(** *** From the streams to the cells *)

(** A scan over the cells: [hit] looks at the cells from the current one
    on; an occurrence is reported at the first bit of the cell. *)
Fixpoint cell_scan (hit : list cell → bool) (o : Z) (cs : list cell) : list Z :=
  match cs with
  | [] => []
  | _ :: cs' => (if hit cs then [o] else []) ++ cell_scan hit (o + 16) cs'
  end.

Lemma stream_hits_byte (PC PD : bitarray) (de do : bitarray → bool) (o : Z)
      (k7 k6 k5 k4 k3 k2 k1 k0 b7 b6 b5 b4 b3 b2 b1 b0 : bool) (C D : bitarray) :
  stream_hits PC PD de do o
    (k7 :: k6 :: k5 :: k4 :: k3 :: k2 :: k1 :: k0 :: C)
    (b7 :: b6 :: b5 :: b4 :: b3 :: b2 :: b1 :: b0 :: D)
  = (if is_prefix PC (k7 :: k6 :: k5 :: k4 :: k3 :: k2 :: k1 :: k0 :: C)
        && de (b7 :: b6 :: b5 :: b4 :: b3 :: b2 :: b1 :: b0 :: D) then [o] else [])
    ++ (if is_prefix PD (k6 :: k5 :: k4 :: k3 :: k2 :: k1 :: k0 :: C)
           && do (b7 :: b6 :: b5 :: b4 :: b3 :: b2 :: b1 :: b0 :: D) then [o + 1] else [])
    ++ (if is_prefix PC (k6 :: k5 :: k4 :: k3 :: k2 :: k1 :: k0 :: C)
           && de (b6 :: b5 :: b4 :: b3 :: b2 :: b1 :: b0 :: D) then [o + 2] else [])
    ++ (if is_prefix PD (k5 :: k4 :: k3 :: k2 :: k1 :: k0 :: C)
           && do (b6 :: b5 :: b4 :: b3 :: b2 :: b1 :: b0 :: D) then [o + 2 + 1] else [])
    ++ (if is_prefix PC (k5 :: k4 :: k3 :: k2 :: k1 :: k0 :: C)
           && de (b5 :: b4 :: b3 :: b2 :: b1 :: b0 :: D) then [o + 2 + 2] else [])
    ++ (if is_prefix PD (k4 :: k3 :: k2 :: k1 :: k0 :: C)
           && do (b5 :: b4 :: b3 :: b2 :: b1 :: b0 :: D) then [o + 2 + 2 + 1] else [])
    ++ (if is_prefix PC (k4 :: k3 :: k2 :: k1 :: k0 :: C)
           && de (b4 :: b3 :: b2 :: b1 :: b0 :: D) then [o + 2 + 2 + 2] else [])
    ++ (if is_prefix PD (k3 :: k2 :: k1 :: k0 :: C)
           && do (b4 :: b3 :: b2 :: b1 :: b0 :: D) then [o + 2 + 2 + 2 + 1] else [])
    ++ (if is_prefix PC (k3 :: k2 :: k1 :: k0 :: C)
           && de (b3 :: b2 :: b1 :: b0 :: D) then [o + 2 + 2 + 2 + 2] else [])
    ++ (if is_prefix PD (k2 :: k1 :: k0 :: C)
           && do (b3 :: b2 :: b1 :: b0 :: D) then [o + 2 + 2 + 2 + 2 + 1] else [])
    ++ (if is_prefix PC (k2 :: k1 :: k0 :: C)
           && de (b2 :: b1 :: b0 :: D) then [o + 2 + 2 + 2 + 2 + 2] else [])
    ++ (if is_prefix PD (k1 :: k0 :: C)
           && do (b2 :: b1 :: b0 :: D) then [o + 2 + 2 + 2 + 2 + 2 + 1] else [])
    ++ (if is_prefix PC (k1 :: k0 :: C)
           && de (b1 :: b0 :: D) then [o + 2 + 2 + 2 + 2 + 2 + 2] else [])
    ++ (if is_prefix PD (k0 :: C)
           && do (b1 :: b0 :: D) then [o + 2 + 2 + 2 + 2 + 2 + 2 + 1] else [])
    ++ (if is_prefix PC (k0 :: C)
           && de (b0 :: D) then [o + 2 + 2 + 2 + 2 + 2 + 2 + 2] else [])
    ++ (if is_prefix PD C
           && do (b0 :: D) then [o + 2 + 2 + 2 + 2 + 2 + 2 + 2 + 1] else [])
    ++ stream_hits PC PD de do (o + 2 + 2 + 2 + 2 + 2 + 2 + 2 + 2) C D.
Proof. reflexivity. Qed.

(** The clock part of [sync_prefix] and its data part. *)
Definition sync_PC : bitarray := replicate 10 true ++ replicate 3 false.
Definition sync_PD : bitarray := replicate 8 false ++ replicate 5 true.
(** The same for [iam_sync]. *)
Definition iam_PC : bitarray := replicate 8 true ++ byte_bits 215.
Definition iam_PD : bitarray := replicate 8 false ++ byte_bits 252.

Lemma sync_prefix_inter : sync_prefix = inter sync_PC sync_PD.
Proof. reflexivity. Qed.
Lemma iam_sync_inter : iam_sync = inter iam_PC iam_PD.
Proof. reflexivity. Qed.

(** The clocks of a sync mark behind a plain cell. *)
Definition mark_clocks (clk : Z) (cs : list cell) : bool :=
  match cs with
  | (k0, _) :: (k1, _) :: _ => (k0 =? 255) && (k1 =? clk)
  | _ => false
  end.

Lemma byte_bits_eta (x : Z) :
  byte_bits x = [Z.testbit x 7; Z.testbit x 6; Z.testbit x 5; Z.testbit x 4;
                 Z.testbit x 3; Z.testbit x 2; Z.testbit x 1; Z.testbit x 0].
Proof. reflexivity. Qed.

Ltac clock_cases H :=
  destruct H as [-> | [-> | ->]].

Lemma sync_stream_cells (de do : bitarray → bool) (cs : list cell) :
  Forall (fun c => is_clock c.1) cs →
  ∀ o : Z,
    stream_hits sync_PC sync_PD de do o (clock_bits cs) (data_bits cs)
    = cell_scan (fun cs => mark_clocks 199 cs && de (data_bits cs)) o cs.
Proof.
  induction 1 as [|[clk dat] cs Hclk Hcs IH]; intros o; [done|].
  cbn [cell_scan]. rewrite <- IH. clear IH.
  change (clock_bits ((clk, dat) :: cs)) with (byte_bits clk ++ clock_bits cs).
  change (data_bits ((clk, dat) :: cs)) with (byte_bits dat ++ data_bits cs).
  rewrite (byte_bits_eta dat), (byte_bits_eta clk). cbn [app].
  rewrite stream_hits_byte.
  replace (o + 16) with (o + 2 + 2 + 2 + 2 + 2 + 2 + 2 + 2) by lia.
  generalize (stream_hits sync_PC sync_PD de do (o + 2 + 2 + 2 + 2 + 2 + 2 + 2 + 2)
                (clock_bits cs) (data_bits cs)) as R.
  generalize (data_bits cs) as DD. intros DD R.
  cbn [fst] in Hclk.
  destruct cs as [|[clk1 dat1] [|[clk2 dat2] cs]].
  - clock_cases Hclk; reflexivity.
  - inversion Hcs as [|? ? Hclk1 _]; subst. cbn [fst] in Hclk1.
    clock_cases Hclk; clock_cases Hclk1; reflexivity.
  - inversion Hcs as [|? ? Hclk1 Hcs']; subst. cbn [fst] in Hclk1.
    inversion Hcs' as [|? ? Hclk2 _]; subst. cbn [fst] in Hclk2.
    change (clock_bits ((clk1, dat1) :: (clk2, dat2) :: cs))
      with (byte_bits clk1 ++ byte_bits clk2 ++ clock_bits cs).
    generalize (clock_bits cs) as CC. intros CC.
    clock_cases Hclk; clock_cases Hclk1; clock_cases Hclk2; reflexivity.
Qed.

Lemma iam_stream_cells (de do : bitarray → bool) (cs : list cell) :
  Forall (fun c => is_clock c.1) cs →
  ∀ o : Z,
    stream_hits iam_PC iam_PD de do o (clock_bits cs) (data_bits cs)
    = cell_scan (fun cs => mark_clocks 215 cs && de (data_bits cs)) o cs.
Proof.
  induction 1 as [|[clk dat] cs Hclk Hcs IH]; intros o; [done|].
  cbn [cell_scan]. rewrite <- IH. clear IH.
  change (clock_bits ((clk, dat) :: cs)) with (byte_bits clk ++ clock_bits cs).
  change (data_bits ((clk, dat) :: cs)) with (byte_bits dat ++ data_bits cs).
  rewrite (byte_bits_eta dat), (byte_bits_eta clk). cbn [app].
  rewrite stream_hits_byte.
  replace (o + 16) with (o + 2 + 2 + 2 + 2 + 2 + 2 + 2 + 2) by lia.
  generalize (stream_hits iam_PC iam_PD de do (o + 2 + 2 + 2 + 2 + 2 + 2 + 2 + 2)
                (clock_bits cs) (data_bits cs)) as R.
  generalize (data_bits cs) as DD. intros DD R.
  cbn [fst] in Hclk.
  destruct cs as [|[clk1 dat1] [|[clk2 dat2] cs]].
  - clock_cases Hclk; reflexivity.
  - inversion Hcs as [|? ? Hclk1 _]; subst. cbn [fst] in Hclk1.
    clock_cases Hclk; clock_cases Hclk1; reflexivity.
  - inversion Hcs as [|? ? Hclk1 Hcs']; subst. cbn [fst] in Hclk1.
    inversion Hcs' as [|? ? Hclk2 _]; subst. cbn [fst] in Hclk2.
    change (clock_bits ((clk1, dat1) :: (clk2, dat2) :: cs))
      with (byte_bits clk1 ++ byte_bits clk2 ++ clock_bits cs).
    generalize (clock_bits cs) as CC. intros CC.
    clock_cases Hclk; clock_cases Hclk1; clock_cases Hclk2; reflexivity.
Qed.

Lemma is_prefix_app (P1 P2 l1 l2 : bitarray) :
  length P1 = length l1 →
  is_prefix (P1 ++ P2) (l1 ++ l2) = is_prefix P1 l1 && is_prefix P2 l2.
Proof.
  revert l1. induction P1 as [|p P1 IH]; intros [|b l1] Hlen; try done.
  cbn [app is_prefix]. rewrite IH by (simpl in Hlen; lia).
  by rewrite andb_assoc.
Qed.

Lemma is_prefix_app_short (P l1 l2 : bitarray) :
  (length P ≤ length l1)%nat → is_prefix P (l1 ++ l2) = is_prefix P l1.
Proof.
  revert l1. induction P as [|p P IH]; intros [|b l1] Hlen; try done.
  - simpl in Hlen. lia.
  - cbn [app is_prefix]. rewrite IH by (simpl in Hlen; lia). done.
Qed.

Lemma byte_bits_zero (d : Z) :
  is_byte d → is_prefix (replicate 8 false) (byte_bits d) = (d =? 0).
Proof.
  intros Hd. apply (bool_decide_eq_true_1 _). revert d Hd.
  apply (byte_cases (fun d => bool_decide
    (is_prefix (replicate 8 false) (byte_bits d) = (d =? 0)))).
  vm_compute. reflexivity.
Qed.

Lemma byte_bits_top5 (d : Z) :
  is_byte d → is_prefix (replicate 5 true) (byte_bits d) = (248 <=? d).
Proof.
  intros Hd. apply (bool_decide_eq_true_1 _). revert d Hd.
  apply (byte_cases (fun d => bool_decide
    (is_prefix (replicate 5 true) (byte_bits d) = (248 <=? d)))).
  vm_compute. reflexivity.
Qed.

Lemma byte_bits_iam (d : Z) :
  is_byte d → is_prefix (byte_bits 252) (byte_bits d) = (d =? 252).
Proof.
  intros Hd. apply (bool_decide_eq_true_1 _). revert d Hd.
  apply (byte_cases (fun d => bool_decide
    (is_prefix (byte_bits 252) (byte_bits d) = (d =? 252)))).
  vm_compute. reflexivity.
Qed.

(** A mark behind a presync byte: a plain cell with data 0, then a cell
    with the clock [clk] and a mark byte that [P] accepts. *)
Definition mark_hit (clk : Z) (P : Z → bool) (cs : list cell) : bool :=
  match cs with
  | (k0, d0) :: (k1, d1) :: _ => (k0 =? 255) && (k1 =? clk) && ((d0 =? 0) && P d1)
  | _ => false
  end.

Lemma cell_scan_ext (hit1 hit2 : list cell → bool) (cs : list cell) :
  Forall ok_cell cs →
  (∀ cs', Forall ok_cell cs' → hit1 cs' = hit2 cs') →
  ∀ o, cell_scan hit1 o cs = cell_scan hit2 o cs.
Proof.
  intros Hcs Hext. induction Hcs as [|c cs Hc Hcs IH]; intros o; [done|].
  cbn [cell_scan]. rewrite IH. rewrite (Hext (c :: cs)); [done|]. by constructor.
Qed.

Lemma Forall_ok_clock (cs : list cell) :
  Forall ok_cell cs → Forall (fun c => is_clock c.1) cs.
Proof. intros H. eapply Forall_impl; [exact H|]. by intros c [? ?]. Qed.

(** The occurrences of [sync_prefix] in a track of cells: in front of
    every cell with clock 0xc7 and a mark byte from 0xf8 on that follows a
    presync byte. *)
Lemma itersearch_sync (cs : list cell) (o : Z) :
  Forall ok_cell cs →
  itersearch_from sync_prefix o (frombytes (cells_bytes cs))
  = cell_scan (mark_hit 199 (fun d => 248 <=? d)) o cs.
Proof.
  intros Hcs. rewrite cells_bits, sync_prefix_inter by done.
  rewrite itersearch_inter by (done || by rewrite length_clock_bits, length_data_bits).
  rewrite sync_stream_cells by by apply Forall_ok_clock.
  apply cell_scan_ext; [done|]. clear. intros cs Hcs.
  destruct cs as [|[k0 d0] [|[k1 d1] cs]]; try done.
  cbn [mark_clocks mark_hit]. destruct ((k0 =? 255) && (k1 =? 199)); [|done].
  cbn [andb]. inversion Hcs as [|? ? [_ H0] Hcs']; subst.
  inversion Hcs' as [|? ? [_ H1] _]; subst. cbn [snd] in *.
  change (data_bits ((k0, d0) :: (k1, d1) :: cs))
    with (byte_bits d0 ++ byte_bits d1 ++ data_bits cs).
  unfold sync_PD. rewrite is_prefix_app by done.
  rewrite is_prefix_app_short by (simpl; lia).
  by rewrite byte_bits_zero, byte_bits_top5.
Qed.

(** The occurrences of [iam_sync]: in front of every cell with clock
    0xd7 and data 0xfc that follows a presync byte. *)
Lemma itersearch_iam (cs : list cell) (o : Z) :
  Forall ok_cell cs →
  itersearch_from iam_sync o (frombytes (cells_bytes cs))
  = cell_scan (mark_hit 215 (fun d => d =? 252)) o cs.
Proof.
  intros Hcs. rewrite cells_bits, iam_sync_inter by done.
  rewrite itersearch_inter by (done || by rewrite length_clock_bits, length_data_bits).
  rewrite iam_stream_cells by by apply Forall_ok_clock.
  apply cell_scan_ext; [done|]. clear. intros cs Hcs.
  destruct cs as [|[k0 d0] [|[k1 d1] cs]]; try done.
  cbn [mark_clocks mark_hit]. destruct ((k0 =? 255) && (k1 =? 215)); [|done].
  cbn [andb]. inversion Hcs as [|? ? [_ H0] Hcs']; subst.
  inversion Hcs' as [|? ? [_ H1] _]; subst. cbn [snd] in *.
  change (data_bits ((k0, d0) :: (k1, d1) :: cs))
    with (byte_bits d0 ++ byte_bits d1 ++ data_bits cs).
  unfold iam_PD. rewrite is_prefix_app by done.
  rewrite is_prefix_app_short by (simpl; lia).
  by rewrite byte_bits_zero, byte_bits_iam.
Qed.

(** *** Reading the cells back *)

Definition bits_of (cs : list cell) : bitarray := frombytes (cells_bytes cs).

Lemma frombytes_app (a b : bytes) : frombytes (a ++ b) = frombytes a ++ frombytes b.
Proof. unfold frombytes. apply bind_app. Qed.

Lemma length_frombytes (b : bytes) : length (frombytes b) = (8 * length b)%nat.
Proof.
  induction b as [|x b IH]; [done|]. unfold frombytes in *.
  rewrite bind_cons, length_app, IH, length_byte_bits. simpl. lia.
Qed.

Lemma length_cell_bytes (c : cell) : length (cell_bytes c) = 2%nat.
Proof. reflexivity. Qed.

Lemma cells_bytes_app (a b : list cell) :
  cells_bytes (a ++ b) = cells_bytes a ++ cells_bytes b.
Proof. unfold cells_bytes. apply bind_app. Qed.

Lemma length_cells_bytes (cs : list cell) :
  length (cells_bytes cs) = (2 * length cs)%nat.
Proof.
  induction cs as [|c cs IH]; [done|]. unfold cells_bytes in *.
  rewrite bind_cons, length_app, IH, length_cell_bytes. simpl. lia.
Qed.

Lemma bits_of_app (a b : list cell) : bits_of (a ++ b) = bits_of a ++ bits_of b.
Proof. unfold bits_of. by rewrite cells_bytes_app, frombytes_app. Qed.

Lemma length_bits_of (cs : list cell) : length (bits_of cs) = (16 * length cs)%nat.
Proof. unfold bits_of. rewrite length_frombytes, length_cells_bytes. lia. Qed.

Lemma bits_val_byte (x : Z) : is_byte x → bits_val (byte_bits x) = x.
Proof.
  intros Hx. apply Z.eqb_eq. revert x Hx.
  apply (byte_cases (fun x => bits_val (byte_bits x) =? x)).
  vm_compute. reflexivity.
Qed.

Lemma tobytes_aux_frombytes (bs : bytes) :
  Forall is_byte bs →
  ∀ fuel : nat, (length bs ≤ fuel)%nat → tobytes_aux fuel (frombytes bs) = bs.
Proof.
  induction 1 as [|x bs Hx Hbs IH]; intros fuel Hfuel.
  - by destruct fuel.
  - destruct fuel as [|fuel]; [simpl in Hfuel; lia|].
    change (frombytes (x :: bs)) with (byte_bits x ++ frombytes bs).
    rewrite byte_bits_eta. cbn [app tobytes_aux take drop].
    rewrite <- byte_bits_eta, bits_val_byte by done.
    rewrite IH by (simpl in Hfuel; lia). done.
Qed.

Lemma tobytes_frombytes (bs : bytes) :
  Forall is_byte bs → tobytes (frombytes bs) = bs.
Proof.
  intros Hbs. unfold tobytes. apply tobytes_aux_frombytes; [done|].
  rewrite length_frombytes. lia.
Qed.

Lemma cell_bytes_range (c : cell) : ok_cell c → Forall is_byte (cell_bytes c).
Proof.
  destruct c as [clk dat]. intros [Hclk Hdat]. cbn [fst snd] in *.
  assert (forallb (fun x => (0 <=? x) && (x <? 256)) (cell_bytes (clk, dat)) = true)
    as Hall.
  { revert dat Hdat.
    apply (byte_cases (fun dat =>
      forallb (fun x => (0 <=? x) && (x <? 256)) (cell_bytes (clk, dat)))).
    clock_cases Hclk; vm_compute; reflexivity. }
  rewrite forallb_forall in Hall. apply Forall_forall. intros x Hx.
  apply list_elem_of_In, Hall in Hx. unfold is_byte. lia.
Qed.

Lemma cells_bytes_range (cs : list cell) :
  Forall ok_cell cs → Forall is_byte (cells_bytes cs).
Proof.
  induction 1 as [|c cs Hc Hcs IH]; [constructor|].
  unfold cells_bytes in *. rewrite bind_cons. apply Forall_app.
  split; [by apply cell_bytes_range|done].
Qed.

Lemma decode_word_cell (clk dat : Z) :
  is_clock clk → is_byte dat →
  decode_word (Z.lor (Z.shiftl (Z.shiftr (interleave_bits clk dat) 8) 8)
                     (Z.land (interleave_bits clk dat) 255)) = dat.
Proof.
  intros Hclk Hdat. apply Z.eqb_eq. revert dat Hdat.
  apply (byte_cases (fun dat =>
    decode_word (Z.lor (Z.shiftl (Z.shiftr (interleave_bits clk dat) 8) 8)
                       (Z.land (interleave_bits clk dat) 255)) =? dat)).
  clock_cases Hclk; vm_compute; reflexivity.
Qed.

Lemma decode_cons (x y : Z) (rest : bytes) :
  decode (x :: y :: rest) = decode_word (Z.lor (Z.shiftl x 8) y) :: decode rest.
Proof. reflexivity. Qed.

Lemma decode_cell (c : cell) (rest : bytes) :
  ok_cell c → decode (cell_bytes c ++ rest) = c.2 :: decode rest.
Proof.
  destruct c as [clk dat]. intros [Hclk Hdat]. cbn [fst snd] in *.
  unfold cell_bytes, pack_H. cbn [fst snd app].
  rewrite decode_cons. f_equal. by apply decode_word_cell.
Qed.

(** Decoding the bytes of a list of cells gives their data bytes. *)
Lemma decode_cells (cs : list cell) : Forall ok_cell cs → decode (cells_bytes cs) = cs.*2.
Proof.
  induction 1 as [|c cs Hc Hcs IH]; [done|].
  unfold cells_bytes in *. rewrite bind_cons, decode_cell by done.
  by rewrite IH.
Qed.

(** [k] cells read from a cell boundary. *)
Lemma decode_bits_cells (pre rest : list cell) (k : nat) :
  Forall ok_cell rest → (k ≤ length rest)%nat →
  decode_bits (bits_of (pre ++ rest))
              (16 * Z.of_nat (length pre))
              (16 * Z.of_nat (length pre) + Z.of_nat k * 16)
  = (take k rest).*2.
Proof.
  intros Hrest Hk. unfold decode_bits, slice.
  rewrite bits_of_app.
  rewrite drop_app_length' by (rewrite length_bits_of; lia).
  rewrite <- (take_drop k rest) at 1. rewrite bits_of_app.
  rewrite take_app_length' by (rewrite length_bits_of, length_take; lia).
  unfold bits_of. rewrite tobytes_frombytes.
  - apply decode_cells. by apply Forall_take.
  - apply cells_bytes_range. by apply Forall_take.
Qed.

(** The clock byte of a mark cell that follows a presync byte, as
    [scan_mark] reads it: from one bit before the cell. *)
Lemma decode_bits_clock (pre rest : list cell) (clk dat : Z) :
  is_clock clk → is_byte dat →
  byte_at (decode_bits (bits_of (pre ++ (255, 0) :: (clk, dat) :: rest))
                       (16 * Z.of_nat (length pre) + 16 - 1)
                       (16 * Z.of_nat (length pre) + 16 + 1 * 16 - 1)) 0
  = clk.
Proof.
  intros Hclk Hdat. unfold decode_bits, slice.
  rewrite bits_of_app.
  replace (Z.to_nat (16 * Z.of_nat (length pre) + 16 - 1))
    with (length (bits_of pre) + 15)%nat by (rewrite length_bits_of; lia).
  rewrite <- drop_drop, drop_app_length.
  replace (Z.to_nat _) with 16%nat by lia.
  change ((255, 0) :: (clk, dat) :: rest) with ([(255, 0)] ++ [(clk, dat)] ++ rest).
  rewrite !bits_of_app.
  generalize (bits_of rest) as R. intros R.
  assert (byte_at (decode (tobytes (take 16 (drop 15 (bits_of [(255, 0)]
                                                      ++ bits_of [(clk, dat)]))))) 0
          = clk) as Hbyte.
  { apply Z.eqb_eq. revert dat Hdat.
    apply (byte_cases (fun dat =>
      byte_at (decode (tobytes (take 16 (drop 15 (bits_of [(255, 0)]
                                                  ++ bits_of [(clk, dat)]))))) 0
      =? clk)).
    clock_cases Hclk; vm_compute; reflexivity. }
  rewrite <- Hbyte at 2. do 3 f_equal.
Qed.

(** *** The checksum of a field with its checksum *)

Lemma crc_shift_range (x : Z) : 0 ≤ crc_shift x < 65536.
Proof.
  unfold crc_shift. change 65535 with (Z.ones 16).
  destruct (Z.testbit x 15); rewrite Z.land_ones by lia;
    apply Z.mod_pos_bound; lia.
Qed.

Lemma crc_update_range (crc b : Z) : 0 ≤ crc_update crc b < 65536.
Proof. unfold crc_update. cbn [Nat.iter]. apply crc_shift_range. Qed.

Lemma crc16_range (b : bytes) : 0 ≤ crc16 b < 65536.
Proof.
  unfold crc16. induction b as [|x b IH] using rev_ind; [simpl; lia|].
  rewrite foldl_app. cbn [foldl]. apply crc_update_range.
Qed.

Lemma crc_residue_bytes (hi lo : Z) :
  is_byte hi → is_byte lo → crc_update (crc_update (256 * hi + lo) hi) lo = 0.
Proof.
  intros Hhi Hlo. apply Z.eqb_eq. revert lo Hlo.
  apply (byte_cases (fun lo => crc_update (crc_update (256 * hi + lo) hi) lo =? 0)).
  revert hi Hhi.
  apply (byte_cases (fun hi => forallb
    (fun lo => crc_update (crc_update (256 * hi + lo) hi) lo =? 0) (Formats.range 256))).
  vm_compute. reflexivity.
Qed.

Lemma pack_H_split (x : Z) :
  0 ≤ x < 65536 →
  is_byte (Z.shiftr x 8) ∧ is_byte (Z.land x 255)
  ∧ x = 256 * Z.shiftr x 8 + Z.land x 255.
Proof.
  intros Hx. rewrite Z.shiftr_div_pow2 by lia.
  change 255 with (Z.ones 8). rewrite Z.land_ones by lia.
  change (2 ^ 8) with 256. unfold is_byte.
  pose proof (Z.div_mod x 256 ltac:(lia)).
  pose proof (Z.mod_pos_bound x 256 ltac:(lia)).
  assert (0 ≤ x / 256 < 256) by (split; [apply Z.div_pos; lia|apply Z.div_lt_upper_bound; lia]).
  lia.
Qed.

(** The checksum over a field followed by its own checksum is 0. *)
Lemma crc16_residue (field : bytes) : crc16 (field ++ pack_H (crc16 field)) = 0.
Proof.
  pose proof (crc16_range field) as Hr.
  destruct (pack_H_split _ Hr) as (Hhi & Hlo & Heq).
  unfold crc16 at 1. rewrite foldl_app. fold (crc16 field).
  unfold pack_H. cbn [foldl]. rewrite Heq at 1.
  by apply crc_residue_bytes.
Qed.

Lemma pack_H_range (x : Z) : 0 ≤ x < 65536 → Forall is_byte (pack_H x).
Proof.
  intros Hx. destruct (pack_H_split _ Hx) as (Hhi & Hlo & _).
  unfold pack_H. apply Forall_cons. split; [done|]. apply Forall_cons. split; [done|].
  apply Forall_nil. done.
Qed.

(** *** The cells that raw_track writes *)

(** Cells with the clock 0xff: encoded bytes. *)
Definition plain (bs : bytes) : list cell := (fun x => (255, x)) <$> bs.

(** The filler and the first five presync bytes in front of a mark. *)
Definition lead (gap : nat) : list cell := plain (replicate gap 255 ++ replicate 5 0).

(** The cells of a field: the sync cell of its mark byte, then the other
    bytes and the checksum. *)
Definition field_cells (m : Z) (body : bytes) : list cell :=
  (199, m) :: plain (body ++ pack_H (crc16 (m :: body))).

Lemma encode_list_plain (x : Z) : is_byte x → encode_list x = interleave_bits 255 x.
Proof.
  intros Hx. apply Z.eqb_eq. revert x Hx.
  apply (byte_cases (fun x => encode_list x =? interleave_bits 255 x)).
  vm_compute. reflexivity.
Qed.

Lemma encode_plain (bs : bytes) : Forall is_byte bs → encode bs = cells_bytes (plain bs).
Proof.
  induction 1 as [|x bs Hx Hbs IH]; [done|].
  unfold encode, cells_bytes, plain in *. rewrite fmap_cons, !bind_cons, IH.
  f_equal.
Qed.

Lemma plain_app (a b : bytes) : plain (a ++ b) = plain a ++ plain b.
Proof. unfold plain. apply fmap_app. Qed.

Lemma length_plain (bs : bytes) : length (plain bs) = length bs.
Proof. unfold plain. apply length_fmap. Qed.

Lemma plain_ok (bs : bytes) : Forall is_byte bs → Forall ok_cell (plain bs).
Proof.
  intros Hbs. unfold plain. apply Forall_fmap.
  eapply Forall_impl; [exact Hbs|]. intros x Hx. split; [by left|done].
Qed.

Lemma replicate_byte (n : nat) (x : Z) : is_byte x → Forall is_byte (replicate n x).
Proof. intros Hx. by apply Forall_replicate. Qed.

Lemma lead_ok (gap : nat) : Forall ok_cell (lead gap).
Proof.
  unfold lead. apply plain_ok, Forall_app.
  split; apply replicate_byte; unfold is_byte; lia.
Qed.

Lemma length_lead (gap : nat) : length (lead gap) = (gap + 5)%nat.
Proof. unfold lead. by rewrite length_plain, length_app, !length_replicate. Qed.

Lemma field_cells_ok (m : Z) (body : bytes) :
  is_byte m → Forall is_byte body → Forall ok_cell (field_cells m body).
Proof.
  intros Hm Hbody. unfold field_cells. apply Forall_cons. split.
  - split; [right; by left|done].
  - apply plain_ok, Forall_app. split; [done|]. apply pack_H_range, crc16_range.
Qed.

Lemma length_field_cells (m : Z) (body : bytes) :
  length (field_cells m body) = (length body + 3)%nat.
Proof.
  unfold field_cells. cbn [length]. rewrite length_plain, length_app. simpl. lia.
Qed.

(** [pre_mark] puts the filler and the six presync bytes behind the
    cells written so far. *)
Lemma pre_mark_cells (pre : list cell) (start : Z) :
  pre_mark (cells_bytes pre) start
  = cells_bytes (pre ++ lead (Z.to_nat (start / 16 - 6 - Z.of_nat (length pre)))
                     ++ [(255, 0)]).
Proof.
  unfold pre_mark, gap_presync, gapbyte.
  rewrite length_cells_bytes.
  replace (Z.of_nat (2 * length pre) / 2) with (Z.of_nat (length pre))
    by (rewrite Nat2Z.inj_mul, Z.mul_comm, Z.div_mul; lia).
  rewrite !encode_plain by (apply replicate_byte; unfold is_byte; lia).
  rewrite !cells_bytes_app. f_equal. rewrite <- !cells_bytes_app. f_equal.
  unfold lead. rewrite plain_app, <- app_assoc.
  f_equal; try reflexivity; do 2 f_equal; lia.
Qed.

Lemma emit_field_cells (pre : list cell) (m : Z) (body : bytes) :
  is_byte m → Forall is_byte body →
  emit_field (cells_bytes pre) (m :: body) = cells_bytes (pre ++ field_cells m body).
Proof.
  intros Hm Hbody. unfold emit_field, field_cells.
  cbn [app byte_at lookup list_lookup default drop].
  rewrite encode_plain
    by (apply Forall_app; split; [done|apply pack_H_range, crc16_range]).
  rewrite cells_bytes_app. f_equal.
Qed.

(** *** Tracks that are laid out in cells *)

Definition idam_body (i : IDAM.t) : bytes := [IDAM.c i; IDAM.h i; IDAM.r i; IDAM.n i].

Definition dam_data (d : DAM.t) : bytes := default [] (DAM.data d).

(** An index mark behind [n] cells: it starts on a cell boundary and
    leaves room for the presync bytes. *)
Definition good_iam (n : Z) (a : IAM.t) : Prop :=
  IAM.start a mod 16 = 0
  ∧ n + 6 ≤ IAM.start a / 16
  ∧ IAM.end_ a = IAM.start a + 1 * 16.

(** A sector behind [n] cells: both fields start on cell boundaries and
    leave room for their presync bytes, the offsets of the areas are those
    of the fields, the ID bytes and the payload are bytes, and the payload
    has the length that the size code announces. *)
Definition good_sector (n : Z) (s : Sector.t) : Prop :=
  let i := Sector.idam s in
  let d := Sector.dam s in
  Sector.start s = IDAM.start i
  ∧ Sector.end_ s = DAM.end_ d
  ∧ IDAM.start i mod 16 = 0
  ∧ n + 6 ≤ IDAM.start i / 16
  ∧ IDAM.end_ i = IDAM.start i + 7 * 16
  ∧ DAM.start d mod 16 = 0
  ∧ IDAM.start i / 16 + 7 + 6 ≤ DAM.start d / 16
  ∧ DAM.end_ d = DAM.start d + (1 + Z.shiftl 128 (IDAM.n i) + 2) * 16
  ∧ Forall is_byte (idam_body i)
  ∧ (DAM.mark d = DAM_mark ∨ DAM.mark d = DDAM_mark)
  ∧ (∃ data, DAM.data d = Some data)
  ∧ Forall is_byte (dam_data d)
  ∧ Z.of_nat (length (dam_data d)) = Z.shiftl 128 (IDAM.n i).

(** The number of cells behind an area. *)
Definition area_end (a : Area) : Z :=
  match a with
  | AreaIAM a => IAM.start a / 16 + 1
  | AreaSector s => DAM.start (Sector.dam s) / 16 + 1 + Z.of_nat (length (dam_data (Sector.dam s))) + 2
  | _ => 0
  end.

Fixpoint good (n : Z) (areas : list Area) : Prop :=
  match areas with
  | [] => True
  | a :: areas' =>
      match a with
      | AreaIAM i => good_iam n i
      | AreaSector s => good_sector n s
      | _ => False
      end ∧ good (area_end a) areas'
  end.

(** The cells of an area behind [n] cells. *)
Definition area_cells (n : Z) (a : Area) : list cell :=
  match a with
  | AreaIAM a =>
      lead (Z.to_nat (IAM.start a / 16 - 6 - n)) ++ [(255, 0); (215, 252)]
  | AreaSector s =>
      let i := Sector.idam s in
      let d := Sector.dam s in
      lead (Z.to_nat (Sector.start s / 16 - 6 - n))
        ++ [(255, 0)] ++ field_cells IDAM_mark (idam_body i)
        ++ lead (Z.to_nat (DAM.start d / 16 - 6 - (Sector.start s / 16 + 7)))
        ++ [(255, 0)] ++ field_cells (DAM.mark d) (dam_data d)
  | _ => []
  end.

Fixpoint track_cells (n : Z) (areas : list Area) : list cell :=
  match areas with
  | [] => []
  | a :: areas' => area_cells n a ++ track_cells (area_end a) areas'
  end.

Lemma length_area_cells (n : Z) (a : Area) :
  0 ≤ n → good n [a] → Z.of_nat (length (area_cells n a)) = area_end a - n.
Proof.
  intros Hn [Hgood _]. destruct a as [a| | |s]; try done.
  - destruct Hgood as (Hmod & Hle & Hend). unfold area_cells, area_end.
    rewrite length_app, length_lead. simpl. lia.
  - destruct Hgood as (Hs & He & Hm1 & Hle1 & Hiend & Hm2 & Hle2 & Hdend & Hib
                      & Hmark & Hdata & Hdb & Hlen).
    unfold area_cells, area_end. cbn zeta.
    rewrite !length_app, !length_lead, !length_field_cells. cbn [length idam_body].
    rewrite Hs. lia.
Qed.

Lemma area_cells_ok (n : Z) (a : Area) : good n [a] → Forall ok_cell (area_cells n a).
Proof.
  intros [Hgood _]. destruct a as [a| | |s]; try done.
  - unfold area_cells. apply Forall_app. split; [apply lead_ok|].
    apply Forall_cons. split; [split; [by left|unfold is_byte; simpl; lia]|].
    apply Forall_cons. split; [|apply Forall_nil; done].
    split; [right; by right|unfold is_byte; simpl; lia].
  - destruct Hgood as (Hs & He & Hm1 & Hle1 & Hiend & Hm2 & Hle2 & Hdend & Hib
                      & Hmark & Hdata & Hdb & Hlen).
    unfold area_cells. cbn zeta.
    assert (Hpre : ok_cell (255, 0)) by (split; [by left|unfold is_byte; simpl; lia]).
    repeat (apply Forall_app; split); try apply lead_ok.
    + apply Forall_cons. split; [done|apply Forall_nil; done].
    + apply field_cells_ok; [unfold is_byte, IDAM_mark; lia|done].
    + apply Forall_cons. split; [done|apply Forall_nil; done].
    + apply field_cells_ok; [|done].
      unfold is_byte, DAM_mark, DDAM_mark in *. lia.
Qed.

(** What [emit_area] writes for an area of a laid-out track. *)
Lemma emit_area_cells (pre : list cell) (a : Area) :
  good (Z.of_nat (length pre)) [a] →
  emit_area (cells_bytes pre) a
  = inr (cells_bytes (pre ++ area_cells (Z.of_nat (length pre)) a)).
Proof.
  intros [Hgood _]. destruct a as [a| | |s]; try done.
  - unfold emit_area, area_cells. rewrite pre_mark_cells.
    unfold ret. f_equal. rewrite !cells_bytes_app. rewrite <- !app_assoc. reflexivity.
  - destruct Hgood as (Hs & He & Hm1 & Hle1 & Hiend & Hm2 & Hle2 & Hdend & Hib
                      & Hmark & [data Hdata] & Hdb & Hlen).
    unfold emit_area, area_cells. cbn zeta. rewrite pre_mark_cells.
    unfold mk_bytes.
    change [IDAM_mark; IDAM.c (Sector.idam s); IDAM.h (Sector.idam s);
            IDAM.r (Sector.idam s); IDAM.n (Sector.idam s)]
      with (IDAM_mark :: idam_body (Sector.idam s)).
    assert (Hall : ∀ l, Forall is_byte l →
                        forallb (fun x => (0 <=? x) && (x <? 256)) l = true).
    { intros l Hl. apply forallb_forall. intros x Hx%list_elem_of_In.
      rewrite Forall_forall in Hl. specialize (Hl x Hx). unfold is_byte in Hl. lia. }
    assert (Hm : is_byte (DAM.mark (Sector.dam s)))
      by (unfold is_byte, DAM_mark, DDAM_mark in *; lia).
    rewrite (Hall (IDAM_mark :: idam_body (Sector.idam s)))
      by (apply Forall_cons; split; [unfold is_byte, IDAM_mark; lia|done]).
    rewrite (Hall [DAM.mark (Sector.dam s)])
      by (apply Forall_cons; split; [done|apply Forall_nil; done]).
    unfold_res. rewrite Hdata.
    rewrite emit_field_cells by (done || unfold is_byte, IDAM_mark; lia).
    rewrite pre_mark_cells.
    unfold dam_data in *. rewrite Hdata in *. cbn [default] in *.
    cbn [app]. rewrite emit_field_cells by done.
    do 2 f_equal. rewrite <- !app_assoc. do 4 f_equal.
    rewrite !length_app, length_lead, length_field_cells. cbn [length idam_body].
    do 2 f_equal. rewrite Hs in *. lia.
Qed.

Lemma track_cells_ok (areas : list Area) :
  ∀ n, good n areas → Forall ok_cell (track_cells n areas).
Proof.
  induction areas as [|a areas IH]; intros n Hgood; [constructor|].
  cbn [track_cells]. destruct Hgood as [Ha Hrest]. apply Forall_app. split.
  - by apply area_cells_ok.
  - by apply IH.
Qed.

Lemma good_nonneg (n : Z) (a : Area) : 0 ≤ n → good n [a] → 0 ≤ area_end a.
Proof.
  intros Hn [Hgood _]. destruct a as [a| | |s]; try done.
  - destruct Hgood as (_ & ? & _). simpl. lia.
  - destruct Hgood as (_ & _ & _ & ? & _ & _ & ? & _). simpl. lia.
Qed.

(** What the loop of [raw_track] writes for a laid-out track. *)
Lemma emit_areas_cells (areas : list Area) :
  ∀ pre : list cell,
    good (Z.of_nat (length pre)) areas →
    emit_areas (cells_bytes pre) areas
    = inr (cells_bytes (pre ++ track_cells (Z.of_nat (length pre)) areas)).
Proof.
  induction areas as [|a areas IH]; intros pre Hgood.
  - cbn [emit_areas track_cells]. by rewrite app_nil_r.
  - destruct Hgood as [Ha Hrest]. cbn [emit_areas track_cells]. unfold_res.
    rewrite emit_area_cells by done.
    assert (Hlen : Z.of_nat (length (pre ++ area_cells (Z.of_nat (length pre)) a))
                   = area_end a).
    { rewrite length_app, Nat2Z.inj_add, length_area_cells by (done || lia). lia. }
    rewrite IH by (by rewrite Hlen). rewrite Hlen. by rewrite <- app_assoc.
Qed.

(** *** The marks that decode_raw finds *)

Lemma decode_bits_at_mark (pre rest : list cell) (k : Z) :
  Forall ok_cell rest → 0 ≤ k ≤ Z.of_nat (length rest) →
  decode_bits (bits_of (pre ++ (255, 0) :: rest))
              (16 * Z.of_nat (length pre) + 16)
              (16 * Z.of_nat (length pre) + 16 + k * 16)
  = (take (Z.to_nat k) rest).*2.
Proof.
  intros Hrest Hk.
  change (pre ++ (255, 0) :: rest) with (pre ++ [(255, 0)] ++ rest).
  rewrite app_assoc.
  replace (16 * Z.of_nat (length pre) + 16)
    with (16 * Z.of_nat (length (pre ++ [(255, 0)])))
    by (rewrite length_app; simpl; lia).
  rewrite <- (Z2Nat.id k) at 1 by lia.
  apply decode_bits_cells; [done|lia].
Qed.

Lemma plain_snd (bs : bytes) : (plain bs).*2 = bs.
Proof.
  unfold plain. rewrite <- list_fmap_compose. induction bs as [|x bs IH]; [done|].
  cbn [fmap list_fmap]. by rewrite IH.
Qed.

(** The bytes of a field, read from its mark on. *)
Lemma decode_bits_field (pre rest : list cell) (m : Z) (body : bytes) (k : Z) :
  is_byte m → Forall is_byte body → Forall ok_cell rest →
  k = Z.of_nat (length body) + 3 →
  decode_bits (bits_of (pre ++ (255, 0) :: field_cells m body ++ rest))
              (16 * Z.of_nat (length pre) + 16)
              (16 * Z.of_nat (length pre) + 16 + k * 16)
  = (m :: body) ++ pack_H (crc16 (m :: body)).
Proof.
  intros Hm Hbody Hrest ->.
  rewrite decode_bits_at_mark.
  - rewrite take_app_length' by (rewrite length_field_cells; lia).
    unfold field_cells. cbn [fmap list_fmap snd]. by rewrite plain_snd.
  - apply Forall_app. split; [by apply field_cells_ok|done].
  - rewrite length_app, length_field_cells. lia.
Qed.

Lemma decode_bits_mark (pre rest : list cell) (m : Z) (body : bytes) :
  is_byte m → Forall is_byte body → Forall ok_cell rest →
  byte_at (decode_bits (bits_of (pre ++ (255, 0) :: field_cells m body ++ rest))
                       (16 * Z.of_nat (length pre) + 16)
                       (16 * Z.of_nat (length pre) + 16 + 1 * 16)) 0
  = m.
Proof.
  intros Hm Hbody Hrest. rewrite decode_bits_at_mark.
  - reflexivity.
  - apply Forall_app. split; [by apply field_cells_ok|done].
  - rewrite length_app, length_field_cells. lia.
Qed.

Lemma decode_bits_field_clock (pre rest : list cell) (m : Z) (body : bytes) :
  is_byte m →
  byte_at (decode_bits (bits_of (pre ++ (255, 0) :: field_cells m body ++ rest))
                       (16 * Z.of_nat (length pre) + 16 - 1)
                       (16 * Z.of_nat (length pre) + 16 + 1 * 16 - 1)) 0
  = 199.
Proof.
  intros Hm. unfold field_cells. cbn [app].
  apply decode_bits_clock; [right; by left|done].
Qed.

Ltac ltb_false :=
  match goal with
  | |- context [?a <? ?b] => destruct (Z.ltb_spec a b) as [?|?]; [lia|]
  end.

(** The ID field behind a presync byte, when no ID field is pending. *)
Lemma scan_mark_idam (pre rest : list cell) (acc : list Area) (body : bytes) :
  length body = 4%nat → Forall is_byte body → Forall ok_cell rest →
  scan_mark (bits_of (pre ++ (255, 0) :: field_cells IDAM_mark body ++ rest))
            (acc, None) (16 * Z.of_nat (length pre))
  = (acc, Some {| IDAM.start := 16 * Z.of_nat (length pre) + 16;
                  IDAM.end_ := 16 * Z.of_nat (length pre) + 16 + 7 * 16;
                  IDAM.crc := 0;
                  IDAM.c := byte_at body 0; IDAM.h := byte_at body 1;
                  IDAM.r := byte_at body 2; IDAM.n := byte_at body 3 |}).
Proof.
  intros Hlen Hbody Hrest.
  assert (Hm : is_byte IDAM_mark) by (unfold is_byte, IDAM_mark; lia).
  unfold scan_mark. cbv zeta.
  rewrite decode_bits_mark, decode_bits_field_clock by done.
  rewrite (decode_bits_field pre rest IDAM_mark body 7) by (done || lia).
  rewrite length_bits_of, length_app. cbn [length].
  rewrite length_app, length_field_cells.
  ltb_false. cbn [Z.eqb Pos.eqb negb]. rewrite Z.eqb_refl.
  ltb_false.
  rewrite crc16_residue.
  destruct body as [|c [|h [|r [|n [|]]]]]; try done.
Qed.

(** The data field behind a presync byte, when the ID field [i] is
    pending and announces the size of the payload. *)
Lemma scan_mark_dam (pre rest : list cell) (acc : list Area) (i : IDAM.t)
      (m : Z) (data : bytes) :
  m = DAM_mark ∨ m = DDAM_mark →
  Forall is_byte data → Forall ok_cell rest →
  Z.of_nat (length data) = Z.shiftl 128 (IDAM.n i) →
  IDAM.end_ i ≤ 16 * Z.of_nat (length pre) + 16 + 1000 →
  scan_mark (bits_of (pre ++ (255, 0) :: field_cells m data ++ rest))
            (acc, Some i) (16 * Z.of_nat (length pre))
  = (acc ++ [AreaSector
               (Sector.make i
                  {| DAM.start := 16 * Z.of_nat (length pre) + 16;
                     DAM.end_ := 16 * Z.of_nat (length pre) + 16
                                 + (1 + Z.shiftl 128 (IDAM.n i) + 2) * 16;
                     DAM.crc := 0; DAM.mark := m; DAM.data := Some data |})],
     None).
Proof.
  intros Hmark Hdata Hrest Hlen Hend.
  assert (Hm : is_byte m) by (unfold is_byte, DAM_mark, DDAM_mark in *; lia).
  unfold scan_mark. cbv zeta.
  rewrite decode_bits_mark, decode_bits_field_clock by done.
  rewrite (decode_bits_field pre rest m data (1 + Z.shiftl 128 (IDAM.n i) + 2))
    by (done || lia).
  rewrite length_bits_of, length_app. cbn [length].
  rewrite length_app, length_field_cells.
  ltb_false. cbn [Z.eqb Pos.eqb negb].
  assert ((m =? IDAM_mark) = false) as ->
    by (apply Z.eqb_neq; unfold IDAM_mark, DAM_mark, DDAM_mark in *; lia).
  assert (((m =? DAM_mark) || (m =? DDAM_mark)) = true) as ->.
  { destruct Hmark as [-> | ->]; reflexivity. }
  ltb_false. ltb_false.
  rewrite crc16_residue.
  do 5 f_equal.
  cbn [app drop]. rewrite drop_0, take_app_length'; [done|].
  cbn [length]. rewrite length_app. simpl. lia.
Qed.

Definition sync_hit : list cell → bool := mark_hit 199 (fun d => 248 <=? d).
Definition iam_hit : list cell → bool := mark_hit 215 (fun d => d =? 252).

Definition is_plain (c : cell) : Prop := c.1 = 255.

(** The cells [rest] do not begin with a mark cell. *)
Definition plain_head (rest : list cell) : Prop :=
  match rest with
  | [] => True
  | c :: _ => is_plain c
  end.

Lemma plain_is_plain (bs : bytes) : Forall is_plain (plain bs).
Proof. unfold plain. apply Forall_fmap, Forall_true. done. Qed.

Lemma lead_is_plain (gap : nat) : Forall is_plain (lead gap).
Proof. apply plain_is_plain. Qed.

Lemma plain_head_app (ps rest : list cell) :
  Forall is_plain ps → plain_head rest → plain_head (ps ++ rest).
Proof. intros Hps Hrest. destruct ps as [|p ps]; [done|]. by inversion Hps. Qed.

Lemma plain_head_lead (gap : nat) (rest : list cell) : plain_head (lead gap ++ rest).
Proof.
  unfold lead. rewrite plain_app. destruct gap; reflexivity.
Qed.

(** No mark is found inside plain cells. *)
Lemma cell_scan_plain (clk : Z) (P : Z → bool) (ps rest : list cell) :
  clk ≠ 255 → Forall is_plain ps → plain_head rest →
  ∀ o, cell_scan (mark_hit clk P) o (ps ++ rest)
       = cell_scan (mark_hit clk P) (o + 16 * Z.of_nat (length ps)) rest.
Proof.
  intros Hclk Hps Hrest. induction Hps as [|[k0 d0] ps Hp Hps IH]; intros o.
  - cbn [app length]. f_equal. lia.
  - cbn [app cell_scan length]. rewrite IH.
    replace (o + 16 + 16 * Z.of_nat (length ps))
      with (o + 16 * Z.of_nat (S (length ps))) by lia.
    match goal with
    | |- context [mark_hit clk P ?l] => assert (mark_hit clk P l = false) as ->; [|done]
    end.
    pose proof (plain_head_app ps rest Hps Hrest) as Hhead.
    destruct (ps ++ rest) as [|[k1 d1] l]; [done|].
    cbn [mark_hit]. unfold plain_head, is_plain in Hhead. cbn [fst] in Hhead. subst k1.
    rewrite (proj2 (Z.eqb_neq 255 clk)) by lia. by rewrite andb_false_r.
Qed.

(** A mark cell behind plain cells and a presync byte. *)
Lemma cell_scan_at_mark (clk : Z) (P : Z → bool) (ps rest : list cell) (k1 d1 : Z) :
  clk ≠ 255 → Forall is_plain ps → k1 ≠ 255 →
  ∀ o, cell_scan (mark_hit clk P) o (ps ++ (255, 0) :: (k1, d1) :: rest)
       = (if (k1 =? clk) && P d1 then [o + 16 * Z.of_nat (length ps)] else [])
           ++ cell_scan (mark_hit clk P) (o + 16 * Z.of_nat (length ps) + 16 + 16) rest.
Proof.
  intros Hclk Hps Hk1 o. rewrite cell_scan_plain by done.
  cbn [cell_scan].
  assert (mark_hit clk P ((k1, d1) :: rest) = false) as H2.
  { destruct rest as [|[k2 d2] rest]; [done|]. cbn [mark_hit].
    by rewrite (proj2 (Z.eqb_neq k1 255)) by lia. }
  match goal with
  | |- context [mark_hit clk P ((?k1', ?d1') :: rest)] =>
      change (mark_hit clk P ((k1', d1') :: rest)) with (mark_hit clk P ((k1, d1) :: rest))
  end.
  rewrite H2. reflexivity.
Qed.

(** *** The areas of a laid-out track, read back *)

(** A sector whose checksums are all valid. *)
Definition valid_sector (s : Sector.t) : Sector.t :=
  Sector.set_crc 0
    (Sector.set_idam (IDAM.set_crc 0 (Sector.idam s))
       (Sector.set_dam (DAM.set_crc 0 (Sector.dam s)) s)).

(** The sectors among the areas, with valid checksums. *)
Definition read_sectors (areas : list Area) : list Area :=
  omap (fun a => match a with
                 | AreaSector s => Some (AreaSector (valid_sector s))
                 | _ => None
                 end) areas.

Lemma div16 (x k : Z) : x mod 16 = 0 → x / 16 = k → x = 16 * k.
Proof. intros Hm Hk. pose proof (Z.div_mod x 16 ltac:(lia)). lia. Qed.

Lemma scan_sector (pre rest : list cell) (s : Sector.t) (acc : list Area) :
  good_sector (Z.of_nat (length pre)) s →
  Forall ok_cell rest → plain_head rest →
  let all := pre ++ area_cells (Z.of_nat (length pre)) (AreaSector s) ++ rest in
  foldl (scan_mark (bits_of all)) (acc, None)
        (cell_scan sync_hit (16 * Z.of_nat (length pre))
                   (area_cells (Z.of_nat (length pre)) (AreaSector s) ++ rest))
  = foldl (scan_mark (bits_of all)) (acc ++ [AreaSector (valid_sector s)], None)
          (cell_scan sync_hit (16 * area_end (AreaSector s)) rest).
Proof.
  intros Hgood Hrest Hhead all.
  pose proof Hgood as (Hs & He & Hm1 & Hle1 & Hiend & Hm2 & Hle2 & Hdend & Hib
                      & Hmark & [data Hdata] & Hdb & Hlen).
  set (i := Sector.idam s) in *. set (d := Sector.dam s) in *.
  set (n := Z.of_nat (length pre)) in *.
  set (g1 := Z.to_nat (Sector.start s / 16 - 6 - n)).
  set (g2 := Z.to_nat (DAM.start d / 16 - 6 - (Sector.start s / 16 + 7))).
  assert (Hdd : dam_data d = data) by (unfold dam_data; by rewrite Hdata).
  (* the two fields in their surroundings *)
  set (rest1 := lead g2 ++ [(255, 0)] ++ field_cells (DAM.mark d) (dam_data d) ++ rest).
  set (pre2 := (pre ++ lead g1) ++ [(255, 0)]
                 ++ field_cells IDAM_mark (idam_body i) ++ lead g2).
  assert (Hall1 : all = (pre ++ lead g1) ++ (255, 0)
                          :: field_cells IDAM_mark (idam_body i) ++ rest1).
  { unfold all, area_cells, rest1. fold i d n g1 g2.
    rewrite <- !app_assoc. reflexivity. }
  assert (Hall2 : all = pre2 ++ (255, 0)
                          :: field_cells (DAM.mark d) (dam_data d) ++ rest).
  { unfold all, area_cells, pre2. fold i d n g1 g2.
    rewrite <- !app_assoc. reflexivity. }
  assert (Hlen1 : 16 * Z.of_nat (length (pre ++ lead g1)) + 16 = IDAM.start i).
  { rewrite length_app, length_lead. unfold g1. fold n. rewrite Hs.
    rewrite (div16 (IDAM.start i) _ Hm1 eq_refl) at 2. lia. }
  assert (Hlen2 : 16 * Z.of_nat (length pre2) + 16 = DAM.start d).
  { unfold pre2. rewrite !length_app, !length_lead, length_field_cells.
    cbn [length idam_body]. unfold g1, g2. fold n. rewrite Hs.
    rewrite (div16 (DAM.start d) _ Hm2 eq_refl) at 2. lia. }
  assert (Hm : is_byte (DAM.mark d))
    by (unfold is_byte, DAM_mark, DDAM_mark in *; lia).
  assert (Hok1 : Forall ok_cell rest1).
  { unfold rest1. repeat (apply Forall_app; split); try done; try apply lead_ok.
    - apply Forall_cons. split; [split; [by left|unfold is_byte; simpl; lia]|].
      apply Forall_nil. done.
    - by apply field_cells_ok. }
  (* the hits *)
  assert (Hhits :
    cell_scan sync_hit (16 * n) (area_cells n (AreaSector s) ++ rest)
    = [16 * Z.of_nat (length (pre ++ lead g1)); 16 * Z.of_nat (length pre2)]
        ++ cell_scan sync_hit (16 * area_end (AreaSector s)) rest).
  { unfold area_cells. fold i d n g1 g2. unfold sync_hit.
    rewrite <- !app_assoc. cbn [app field_cells].
    rewrite cell_scan_at_mark by (lia || apply lead_is_plain).
    change (248 <=? IDAM_mark) with true. cbn [Z.eqb Pos.eqb andb app].
    replace (16 * n + 16 * Z.of_nat (length (lead g1)))
      with (16 * Z.of_nat (length (pre ++ lead g1)))
      by (rewrite length_app; unfold n; lia).
    f_equal.
    rewrite (app_assoc (plain _) (lead g2)).
    rewrite cell_scan_at_mark;
      [|lia|apply Forall_app; split; [apply plain_is_plain|apply lead_is_plain]|lia].
    assert ((248 <=? DAM.mark d) = true) as ->
      by (apply Z.leb_le; unfold DAM_mark, DDAM_mark in *; lia).
    cbn [Z.eqb Pos.eqb andb app].
    replace (16 * Z.of_nat (length (pre ++ lead g1)) + 16 + 16
             + 16 * Z.of_nat (length (plain (idam_body i
                 ++ pack_H (crc16 (IDAM_mark :: idam_body i))) ++ lead g2)))
      with (16 * Z.of_nat (length pre2)).
    2:{ unfold pre2.
        rewrite !length_app, !length_lead, !length_plain, length_field_cells.
        rewrite !length_app. cbn [length idam_body pack_H]. lia. }
    f_equal.
    rewrite cell_scan_plain by (lia || done || apply plain_is_plain).
    f_equal. unfold area_end. fold d.
    rewrite length_plain, length_app. cbn [length pack_H].
    pose proof (div16 _ _ Hm2 eq_refl). lia. }
  fold n. rewrite Hhits. cbn [app foldl].
  assert (Hstep1 :
    scan_mark (bits_of all) (acc, None) (16 * Z.of_nat (length (pre ++ lead g1)))
    = (acc, Some (IDAM.set_crc 0 i))).
  { rewrite Hall1, scan_mark_idam by done. do 2 f_equal.
    unfold IDAM.set_crc. rewrite Hlen1, <- Hiend. reflexivity. }
  rewrite Hstep1.
  assert (Hstep2 :
    scan_mark (bits_of all) (acc, Some (IDAM.set_crc 0 i)) (16 * Z.of_nat (length pre2))
    = (acc ++ [AreaSector (valid_sector s)], None)).
  { rewrite Hall2.
    rewrite (scan_mark_dam pre2 rest acc _ (DAM.mark d) (dam_data d));
      [|done|done|done|by rewrite Hlen
       |unfold IDAM.set_crc; cbn [IDAM.end_];
        pose proof (div16 _ _ Hm1 eq_refl); pose proof (div16 _ _ Hm2 eq_refl); lia].
    do 3 f_equal.
    unfold valid_sector, Sector.make, Sector.set_crc, Sector.set_idam, Sector.set_dam,
      IDAM.set_crc, DAM.set_crc.
    cbn [IDAM.start IDAM.end_ IDAM.crc IDAM.n DAM.start DAM.end_ DAM.crc
         Sector.start Sector.end_ Sector.crc Sector.idam Sector.dam Z.lor].
    fold i d. rewrite Hlen2, Hdd, <- Hdata, <- Hdend, <- Hs, <- He.
    reflexivity. }
  rewrite Hstep2. reflexivity.
Qed.

(** The search for data marks goes over an index mark. *)
Lemma scan_iam_area (pre rest : list cell) (a : IAM.t) :
  plain_head rest →
  cell_scan sync_hit (16 * Z.of_nat (length pre))
            (area_cells (Z.of_nat (length pre)) (AreaIAM a) ++ rest)
  = cell_scan sync_hit
              (16 * (Z.of_nat (length pre)
                     + Z.of_nat (length (area_cells (Z.of_nat (length pre)) (AreaIAM a)))))
              rest.
Proof.
  intros Hhead. unfold area_cells, sync_hit.
  rewrite <- app_assoc. cbn [app].
  rewrite cell_scan_at_mark by (lia || apply lead_is_plain).
  cbn [Z.eqb Pos.eqb andb app]. f_equal.
  rewrite length_app. cbn [length]. lia.
Qed.

Lemma plain_head_track (n : Z) (areas : list Area) (tail : bytes) :
  good n areas → plain_head (track_cells n areas ++ plain tail).
Proof.
  destruct areas as [|a areas]; intros Hgood.
  - cbn [track_cells app]. destruct tail; [done|reflexivity].
  - destruct Hgood as [Ha _]. cbn [track_cells].
    destruct a as [a| | |s]; try done; unfold area_cells; cbn zeta;
      rewrite <- !app_assoc; apply plain_head_lead.
Qed.

Lemma length_pre_area (pre : list cell) (a : Area) :
  good (Z.of_nat (length pre)) [a] →
  Z.of_nat (length (pre ++ area_cells (Z.of_nat (length pre)) a)) = area_end a.
Proof.
  intros Hgood. rewrite length_app, Nat2Z.inj_add, length_area_cells by (done || lia).
  lia.
Qed.

(** The second loop of [decode_raw] on a laid-out track: it finds the
    sectors, in order, with valid checksums. *)
Lemma scan_track (tail : bytes) (areas : list Area) :
  Forall is_byte tail →
  ∀ (pre : list cell) (acc : list Area),
    good (Z.of_nat (length pre)) areas →
    foldl (scan_mark (bits_of (pre ++ track_cells (Z.of_nat (length pre)) areas
                                   ++ plain tail)))
          (acc, None)
          (cell_scan sync_hit (16 * Z.of_nat (length pre))
                     (track_cells (Z.of_nat (length pre)) areas ++ plain tail))
    = (acc ++ read_sectors areas, None).
Proof.
  intros Htail. induction areas as [|a areas IH]; intros pre acc Hgood.
  - cbn [track_cells app read_sectors omap list_omap]. rewrite app_nil_r.
    unfold sync_hit.
    rewrite <- (app_nil_r (plain tail)) at 2.
    rewrite cell_scan_plain by (lia || done || apply plain_is_plain).
    reflexivity.
  - destruct Hgood as [Ha Hrest].
    pose proof (length_pre_area pre a (conj Ha I)) as Hlen.
    pose proof (plain_head_track _ _ tail Hrest) as Hhead.
    assert (Hok : Forall ok_cell (track_cells (area_end a) areas ++ plain tail)).
    { apply Forall_app. split; [by apply track_cells_ok|by apply plain_ok]. }
    cbn [track_cells]. rewrite <- !app_assoc.
    specialize (IH (pre ++ area_cells (Z.of_nat (length pre)) a)).
    rewrite Hlen in IH. rewrite <- !app_assoc in IH.
    destruct a as [a| | |s]; try done.
    + rewrite scan_iam_area by done.
      cbn [read_sectors omap list_omap].
      change (omap _ areas) with (read_sectors areas).
      rewrite <- (IH acc Hrest). do 2 f_equal.
      rewrite <- Hlen, length_app. lia.
    + rewrite scan_sector by done.
      cbn [read_sectors omap list_omap].
      change (omap _ areas) with (read_sectors areas).
      rewrite (IH (acc ++ [AreaSector (valid_sector s)]) Hrest).
      by rewrite <- app_assoc.
Qed.

(** The index marks among the areas. *)
Definition read_iams (areas : list Area) : list Area :=
  omap (fun a => match a with
                 | AreaIAM i => Some (AreaIAM i)
                 | _ => None
                 end) areas.

(** The first loop of [decode_raw] on a laid-out track: it finds the
    index marks. *)
Lemma iam_track (tail : bytes) (areas : list Area) :
  ∀ pre : list cell,
    good (Z.of_nat (length pre)) areas →
    (fun offs => AreaIAM {| IAM.start := offs + 16; IAM.end_ := offs + 16 + 1 * 16 |})
      <$> cell_scan iam_hit (16 * Z.of_nat (length pre))
                    (track_cells (Z.of_nat (length pre)) areas ++ plain tail)
    = read_iams areas.
Proof.
  induction areas as [|a areas IH]; intros pre Hgood.
  - cbn [track_cells app read_iams omap list_omap]. unfold iam_hit.
    rewrite <- (app_nil_r (plain tail)).
    rewrite cell_scan_plain by (lia || done || apply plain_is_plain).
    reflexivity.
  - destruct Hgood as [Ha Hrest].
    pose proof (length_pre_area pre a (conj Ha I)) as Hlen.
    pose proof (plain_head_track _ _ tail Hrest) as Hhead.
    cbn [track_cells]. rewrite <- !app_assoc.
    specialize (IH (pre ++ area_cells (Z.of_nat (length pre)) a)).
    rewrite Hlen in IH. specialize (IH Hrest).
    cbn [read_iams omap list_omap]. change (omap _ areas) with (read_iams areas).
    rewrite <- IH. clear IH.
    destruct a as [a| | |s]; try done.
    + destruct Ha as (Hmod & Hle & Hend).
      unfold area_cells, iam_hit. rewrite <- app_assoc. cbn [app].
      rewrite cell_scan_at_mark by (lia || apply lead_is_plain).
      cbn [Z.eqb Pos.eqb andb app fmap list_fmap]. f_equal.
      * f_equal. rewrite length_lead.
        pose proof (div16 _ _ Hmod eq_refl).
        destruct a as [st en]. cbn [IAM.start IAM.end_] in *. f_equal; lia.
      * do 2 f_equal. rewrite <- Hlen. unfold area_cells.
        rewrite !length_app. cbn [length]. lia.
    + pose proof Ha as (Hs & He & Hm1 & Hle1 & Hiend & Hm2 & Hle2 & Hdend & Hib
                        & Hmark & [data Hdata] & Hdb & Hlen').
      unfold area_cells, iam_hit. cbn zeta. rewrite <- !app_assoc.
      cbn [app field_cells].
      rewrite cell_scan_at_mark by (lia || apply lead_is_plain).
      cbn [Z.eqb Pos.eqb andb app].
      rewrite (app_assoc (plain _) (lead _)).
      rewrite cell_scan_at_mark;
        [|lia|apply Forall_app; split; [apply plain_is_plain|apply lead_is_plain]|lia].
      cbn [Z.eqb Pos.eqb andb app].
      rewrite cell_scan_plain by (lia || done || apply plain_is_plain).
      do 2 f_equal. rewrite <- Hlen. unfold area_cells. cbn zeta.
      rewrite !length_app. cbn [length field_cells].
      rewrite !length_plain, !length_app. cbn [length]. lia.
Qed.

(** *** Sorting, offsets within the track and the deduped lists *)

Lemma insert_by_last {A} (key : A → Z) (x : A) (l : list A) :
  Forall (fun y => key y ≤ key x) l → insert_by key x l = l ++ [x].
Proof.
  induction 1 as [|y l Hy Hl IH]; [done|]. cbn [insert_by app].
  destruct (Z.ltb_spec (key x) (key y)); [lia|]. by rewrite IH.
Qed.

(** Every element of [l] has a key that is not below the keys in front
    of it. *)
Fixpoint ascending {A} (key : A → Z) (l : list A) : Prop :=
  match l with
  | [] => True
  | x :: l' => Forall (fun y => key x ≤ key y) l' ∧ ascending key l'
  end.

Lemma sort_by_ascending_acc {A} (key : A → Z) (l : list A) :
  ∀ acc, ascending key l →
         Forall (fun x => Forall (fun y => key y ≤ key x) acc) l →
         foldl (fun acc x => insert_by key x acc) acc l = acc ++ l.
Proof.
  induction l as [|x l IH]; intros acc Hasc Hacc; cbn [foldl].
  - by rewrite app_nil_r.
  - destruct Hasc as [Hx Hasc]. inversion Hacc as [|? ? Hxa Hacc']; subst.
    rewrite insert_by_last by done. rewrite IH; [by rewrite <- app_assoc|done|].
    rewrite Forall_forall in Hacc', Hx. apply Forall_forall. intros y Hy.
    apply Forall_app. split; [by apply Hacc'|].
    apply Forall_cons. split; [by apply Hx|apply Forall_nil; done].
Qed.

(** Sorting a list that is in order leaves it as it is. *)
Lemma sort_by_ascending {A} (key : A → Z) (l : list A) :
  ascending key l → sort_by key l = l.
Proof.
  intros Hasc. unfold sort_by. rewrite sort_by_ascending_acc; [done|done|].
  apply Forall_true. intros x. apply Forall_nil. done.
Qed.

Lemma Area_delta_0 (a : Area) : Area_delta 0 a = a.
Proof.
  destruct a as [[]|[]|[]|[? ? ? [] []]];
    unfold Area_delta, Sector.delta, IAM.delta, IDAM.delta, DAM.delta;
    cbn [IAM.start IAM.end_ IDAM.start IDAM.end_ IDAM.crc IDAM.c IDAM.h IDAM.r IDAM.n
         DAM.start DAM.end_ DAM.crc DAM.mark DAM.data
         Sector.start Sector.end_ Sector.crc Sector.idam Sector.dam];
    rewrite ?Z.sub_0_r; reflexivity.
Qed.

(** With a single revolution that holds all the areas, the offsets stay
    as they are. *)
Lemma track_offsets_one_revolution (n : Z) (areas : list Area) :
  Forall (fun a => Area_start a < n) areas →
  track_offsets 0 (Some n) [] areas = areas.
Proof.
  induction 1 as [|a areas Ha Hareas IH]; [done|]. cbn [track_offsets].
  destruct (Z.leb_spec n (Area_start a)); [lia|]. by rewrite Area_delta_0, IH.
Qed.

(** Sectors whose starts are at least 1000 bit-cells apart. *)
Fixpoint spaced (ss : list Sector.t) : Prop :=
  match ss with
  | [] => True
  | s :: ss' =>
      Forall (fun s' => Sector.start s + 1000 ≤ Sector.start s') ss' ∧ spaced ss'
  end.

Lemma dedup_sectors (ss : list Sector.t) :
  ∀ (is_ : list IAM.t) (acc : list Sector.t),
    spaced ss →
    Forall (fun s => Forall (fun x => Sector.start x + 1000 ≤ Sector.start s) acc) ss →
    dedup (is_, acc) (AreaSector <$> ss) = (is_, acc ++ ss).
Proof.
  unfold dedup. induction ss as [|s ss IH]; intros is_ acc Hsp Hacc.
  - cbn. by rewrite app_nil_r.
  - destruct Hsp as [Hs Hsp]. inversion Hacc as [|? ? Hsa Hacc']; subst.
    cbn [fmap list_fmap foldl dedup_area fst snd].
    unfold add_sector. rewrite find_near_None.
    + rewrite IH; [by rewrite <- app_assoc|done|].
      rewrite Forall_forall in Hacc', Hs. apply Forall_forall. intros y Hy.
      apply Forall_app. split; [by apply Hacc'|].
      apply Forall_cons. split; [by apply Hs|apply Forall_nil; done].
    + eapply Forall_impl; [exact Hsa|]. cbn. intros x Hx. lia.
Qed.

Lemma dedup_one_iam (i : IAM.t) (areas : list Area) :
  dedup ([], []) (AreaIAM i :: areas) = dedup ([i], []) areas.
Proof. reflexivity. Qed.

(** *** Reading a laid-out track back *)

Lemma area_start_end (n : Z) (a : Area) :
  good n [a] → 16 * n < Area_start a < 16 * area_end a.
Proof.
  intros [Hgood _]. destruct a as [a| | |s]; try done.
  - destruct Hgood as (Hmod & Hle & Hend).
    pose proof (div16 _ _ Hmod eq_refl). cbn [Area_start area_end]. lia.
  - destruct Hgood as (Hs & He & Hm1 & Hle1 & Hiend & Hm2 & Hle2 & _).
    pose proof (div16 _ _ Hm1 eq_refl). cbn [Area_start area_end]. lia.
Qed.

Lemma good_bounds (areas : list Area) :
  ∀ n, 0 ≤ n → good n areas →
       Forall (fun a => 16 * n < Area_start a
                        ∧ Area_start a < 16 * (n + Z.of_nat (length (track_cells n areas))))
              areas
       ∧ ascending Area_start areas.
Proof.
  induction areas as [|a areas IH]; intros n Hn Hgood; [by split|].
  destruct Hgood as [Ha Hrest].
  pose proof (area_start_end n a (conj Ha I)) as Hse.
  pose proof (length_area_cells n a Hn (conj Ha I)) as Hlen.
  pose proof (good_nonneg n a Hn (conj Ha I)) as Hnn.
  destruct (IH _ Hnn Hrest) as [Hb Hasc].
  cbn [track_cells ascending]. rewrite length_app, Nat2Z.inj_add.
  split; [apply Forall_cons; split; [lia|]|split; [|done]].
  - eapply Forall_impl; [exact Hb|]. cbn. intros b Hbb. lia.
  - eapply Forall_impl; [exact Hb|]. cbn. intros b Hbb. lia.
Qed.

Lemma shiftl_128_ge (n : Z) : 0 ≤ n → 128 ≤ Z.shiftl 128 n.
Proof.
  intros Hn. rewrite Z.shiftl_mul_pow2 by done.
  pose proof (Z.pow_pos_nonneg 2 n ltac:(lia) Hn). nia.
Qed.

Lemma good_spaced (ss : list Sector.t) :
  ∀ n, 0 ≤ n → good n (AreaSector <$> ss) → spaced ss.
Proof.
  induction ss as [|s ss IH]; intros n Hn Hgood; [done|].
  cbn [fmap list_fmap] in Hgood. destruct Hgood as [Hs Hrest].
  pose proof (good_nonneg n (AreaSector s) Hn (conj Hs I)) as Hnn.
  split; [|by apply (IH _ Hnn)].
  destruct (good_bounds _ _ Hnn Hrest) as [Hb _].
  destruct Hs as (Hst & He & Hm1 & Hle1 & Hiend & Hm2 & Hle2 & Hdend & Hib
                  & Hmark & Hdata & Hdb & Hlen).
  assert (0 ≤ IDAM.n (Sector.idam s)) as Hn0.
  { unfold idam_body in Hib. rewrite !Forall_cons in Hib.
    destruct Hib as (_ & _ & _ & [? _] & _). done. }
  pose proof (shiftl_128_ge _ Hn0).
  pose proof (div16 _ _ Hm1 eq_refl).
  rewrite Forall_fmap in Hb. eapply Forall_impl; [exact Hb|].
  cbn. intros s' [Hlo _]. lia.
Qed.

Definition valid_area (a : Area) : Area :=
  match a with
  | AreaSector s => AreaSector (valid_sector s)
  | a => a
  end.

Lemma Area_start_valid (a : Area) : Area_start (valid_area a) = Area_start a.
Proof. by destruct a. Qed.

Lemma read_split (is_ : list IAM.t) (ss : list Sector.t) :
  read_iams ((AreaIAM <$> is_) ++ (AreaSector <$> ss))
    ++ read_sectors ((AreaIAM <$> is_) ++ (AreaSector <$> ss))
  = (AreaIAM <$> is_) ++ (AreaSector <$> (valid_sector <$> ss)).
Proof.
  unfold read_iams, read_sectors. rewrite !omap_app. 
  assert (∀ l : list IAM.t,
            omap (fun a => match a with AreaIAM i => Some (AreaIAM i) | _ => None end)
                 (AreaIAM <$> l) = AreaIAM <$> l) as ->
    by (induction l as [|? ? IHl]; [done|]; cbn; by rewrite IHl).
  assert (∀ l : list Sector.t,
            omap (fun a => match a with AreaIAM i => Some (AreaIAM i) | _ => None end)
                 (AreaSector <$> l) = []) as ->
    by (induction l as [|? ? IHl]; [done|]; cbn; by rewrite IHl).
  assert (∀ l : list IAM.t,
            omap (fun a => match a with
                           | AreaSector s => Some (AreaSector (valid_sector s))
                           | _ => None end)
                 (AreaIAM <$> l) = []) as ->
    by (induction l as [|? ? IHl]; [done|]; cbn; by rewrite IHl).
  assert (∀ l : list Sector.t,
            omap (fun a => match a with
                           | AreaSector s => Some (AreaSector (valid_sector s))
                           | _ => None end)
                 (AreaSector <$> l) = AreaSector <$> (valid_sector <$> l)) as ->
    by (induction l as [|? ? IHl]; [done|]; cbn; by rewrite IHl).
  by rewrite app_nil_r.
Qed.

Lemma ascending_fmap {A B} (key : B → Z) (key' : A → Z) (f : A → B) (l : list A) :
  (∀ x, key (f x) = key' x) → ascending key' l → ascending key (f <$> l).
Proof.
  intros Hkey. induction l as [|x l IH]; [done|]. intros [Hx Hl].
  cbn [fmap list_fmap ascending]. split; [|by apply IH].
  rewrite Forall_fmap. eapply Forall_impl; [exact Hx|]. cbn. intros y Hy.
  by rewrite !Hkey.
Qed.

Lemma spaced_valid (ss : list Sector.t) : spaced ss → spaced (valid_sector <$> ss).
Proof.
  induction ss as [|s ss IH]; [done|]. intros [Hs Hss].
  cbn [fmap list_fmap spaced]. split; [|by apply IH].
  rewrite Forall_fmap. eapply Forall_impl; [exact Hs|]. by cbn.
Qed.

(** The cells of the track with the index marks [is_] and the sectors
    [ss], and its filler [tail], decoded as one revolution into empty
    lists: the index marks and the sectors come back, the sectors with
    valid checksums. *)
Lemma decode_laid_out (is_ : list IAM.t) (ss : list Sector.t) (tail : bytes) :
  (length is_ ≤ 1)%nat →
  good 0 ((AreaIAM <$> is_) ++ (AreaSector <$> ss)) →
  Forall is_byte tail →
  let cells := track_cells 0 ((AreaIAM <$> is_) ++ (AreaSector <$> ss)) ++ plain tail in
  IBM_FM_decode_raw ([], []) (bits_of cells) [Z.of_nat (length (bits_of cells))]
  = inr (is_, valid_sector <$> ss).
Proof.
  intros His Hgood Htail cells.
  set (areas := (AreaIAM <$> is_) ++ (AreaSector <$> ss)) in *.
  assert (Hok : Forall ok_cell cells).
  { apply Forall_app. split; [by apply track_cells_ok|by apply plain_ok]. }
  destruct (good_bounds areas 0 ltac:(lia) Hgood) as [Hb Hasc].
  (* the areas of the dump *)
  assert (Hscan : scan_areas (bits_of cells) = valid_area <$> areas).
  { unfold scan_areas, scan_iams, itersearch, bits_of.
    rewrite itersearch_iam, itersearch_sync by done.
    fold iam_hit sync_hit. cbv zeta.
    pose proof (iam_track tail areas [] Hgood) as Hi.
    pose proof (scan_track tail areas Htail [] [] Hgood) as Hs.
    cbn [length app] in Hi, Hs. change (Z.of_nat 0) with 0 in Hi, Hs.
    change (16 * 0) with 0 in Hi, Hs. fold cells in Hi, Hs.
    rewrite Hi.
    assert (∀ acc, foldl (scan_mark (bits_of cells)) (acc, None)
                         (cell_scan sync_hit 0 cells)
                   = (acc ++ read_sectors areas, None)) as Hs'.
    { intros acc. pose proof (scan_track tail areas Htail [] acc Hgood) as Hs2.
      cbn [length app] in Hs2. exact Hs2. }
    unfold bits_of in Hs'. rewrite Hs'.
    unfold areas. rewrite read_split, fmap_app, <- !list_fmap_compose.
    f_equal. }
  assert (Hasc' : ascending Area_start (valid_area <$> areas)).
  { eapply ascending_fmap; [apply Area_start_valid|done]. }
  assert (Hlt : Forall (fun a => Area_start a < Z.of_nat (length (bits_of cells)))
                       (valid_area <$> areas)).
  { rewrite Forall_fmap. eapply Forall_impl; [exact Hb|]. cbn. intros a [_ Ha].
    rewrite Area_start_valid, length_bits_of. unfold cells. rewrite length_app. lia. }
  unfold IBM_FM_decode_raw. rewrite Hscan.
  rewrite (sort_by_ascending Area_start (valid_area <$> areas)) by done.
  rewrite track_offsets_one_revolution by done.
  rewrite (sort_by_ascending Area_start (valid_area <$> areas)) by done.
  unfold ret. f_equal.
  unfold areas. rewrite fmap_app, <- !list_fmap_compose.
  change (valid_area ∘ AreaIAM) with AreaIAM.
  change (valid_area ∘ AreaSector) with (AreaSector ∘ valid_sector).
  rewrite list_fmap_compose.
  assert (Hsp : spaced (valid_sector <$> ss)).
  { apply spaced_valid. destruct is_ as [|i [|]]; [| |simpl in His; lia].
    - by apply (good_spaced ss 0).
    - destruct Hgood as [Hi Hrest].
      apply (good_spaced ss (area_end (AreaIAM i))); [|done].
      by apply (good_nonneg 0 (AreaIAM i)). }
  destruct is_ as [|i [|]]; [| |simpl in His; lia]; cbn [fmap list_fmap app].
  - rewrite dedup_sectors; [done|done|].
    apply Forall_true. intros s. apply Forall_nil. done.
  - rewrite dedup_one_iam, dedup_sectors; [done|done|].
    apply Forall_true. intros s. apply Forall_nil. done.
Qed.

Lemma merge_areas_nil (ss : list Sector.t) : merge_areas [] ss = AreaSector <$> ss.
Proof. by destruct ss. Qed.

Lemma merge_areas_laid_out (is_ : list IAM.t) (ss : list Sector.t) :
  (length is_ ≤ 1)%nat →
  good 0 ((AreaIAM <$> is_) ++ (AreaSector <$> ss)) →
  merge_areas is_ ss = (AreaIAM <$> is_) ++ (AreaSector <$> ss).
Proof.
  intros His Hgood. destruct is_ as [|i [|]]; [| |simpl in His; lia].
  - apply merge_areas_nil.
  - destruct ss as [|s ss]; [done|].
    cbn [fmap list_fmap app] in *. destruct Hgood as [Hi [Hs _]].
    pose proof (area_start_end 0 (AreaIAM i) (conj Hi I)) as H1.
    pose proof (area_start_end _ (AreaSector s) (conj Hs I)) as H2.
    cbn [Area_start] in H1, H2. cbn [merge_areas].
    destruct (Z.ltb_spec (Sector.start s) (IAM.start i)); [lia|].
    f_equal; by destruct ss.
Qed.

(** The filler behind the last area. *)
Definition tail_gap (tlen : Z) (n : nat) : bytes :=
  replicate (Z.to_nat (Z.max (tlen - Z.of_nat n) 0)) gapbyte.

(** What [raw_track] writes for a laid-out track. *)
Lemma raw_track_laid_out (tlen : Z) (t : Track) :
  has_clock t = true →
  (length (iams t) ≤ 1)%nat →
  good 0 ((AreaIAM <$> iams t) ++ (AreaSector <$> sectors t)) →
  let areas := (AreaIAM <$> iams t) ++ (AreaSector <$> sectors t) in
  raw_track tlen t
  = inr (cells_bytes (track_cells 0 areas
                        ++ plain (tail_gap tlen (length (track_cells 0 areas))))).
Proof.
  intros Hclock His Hgood areas. unfold raw_track.
  rewrite merge_areas_laid_out by done. fold areas.
  pose proof (emit_areas_cells areas [] Hgood) as Hemit.
  cbn [cells_bytes mbind list_bind app length] in Hemit.
  change (Z.of_nat 0) with 0 in Hemit.
  unfold_res. change (@nil Z) with (cells_bytes []) at 1.
  unfold cells_bytes at 1. cbn [mbind list_bind]. rewrite Hemit, Hclock.
  f_equal. rewrite cells_bytes_app. f_equal.
  rewrite length_cells_bytes.
  replace (Z.of_nat (2 * length (track_cells 0 areas)) / 2)
    with (Z.of_nat (length (track_cells 0 areas)))
    by (rewrite Nat2Z.inj_mul, Z.mul_comm, Z.div_mul; lia).
  rewrite encode_plain; [done|]. apply replicate_byte. unfold is_byte, gapbyte. lia.
Qed.

(** *** Matching the sectors that were read with those of the track *)

Definition sector_id (s : Sector.t) : Z * Z * Z * Z :=
  let i := Sector.idam s in (IDAM.c i, IDAM.h i, IDAM.r i, IDAM.n i).

Lemma same_id_true (s r : Sector.t) : sector_id s = sector_id r → same_id s r = true.
Proof.
  unfold sector_id, same_id. intros [= -> -> -> ->]. by rewrite !Z.eqb_refl.
Qed.

Lemma same_id_false (s r : Sector.t) : sector_id s ≠ sector_id r → same_id s r = false.
Proof.
  unfold sector_id, same_id. intros Hne.
  destruct (Z.eqb_spec (IDAM.c (Sector.idam s)) (IDAM.c (Sector.idam r))); [|done].
  destruct (Z.eqb_spec (IDAM.h (Sector.idam s)) (IDAM.h (Sector.idam r))); [|done].
  destruct (Z.eqb_spec (IDAM.r (Sector.idam s)) (IDAM.r (Sector.idam r))); [|done].
  destruct (Z.eqb_spec (IDAM.n (Sector.idam s)) (IDAM.n (Sector.idam r))); [|done].
  exfalso. apply Hne. congruence.
Qed.

(** What the raw sectors [raw] do to one sector of the track. *)
Definition match_all (raw : list Sector.t) (s : Sector.t) : Sector.t :=
  foldl (fun x r => if negb (IDAM.crc (Sector.idam r) =? 0) then x
                    else match_sector r x) s raw.

Lemma match_raw_each (raw : list Sector.t) :
  ∀ ss, match_raw raw ss = match_all raw <$> ss.
Proof.
  unfold match_raw, match_all. induction raw as [|r raw IH]; intros ss; cbn [foldl].
  - by rewrite list_fmap_id.
  - rewrite IH. destruct (negb (IDAM.crc (Sector.idam r) =? 0)); [done|].
    by rewrite <- list_fmap_compose.
Qed.

Lemma match_all_app (raw1 raw2 : list Sector.t) (x : Sector.t) :
  match_all (raw1 ++ raw2) x = match_all raw2 (match_all raw1 x).
Proof. apply foldl_app. Qed.

Lemma match_all_cons (r : Sector.t) (raw : list Sector.t) (x : Sector.t) :
  match_all (r :: raw) x
  = match_all raw (if negb (IDAM.crc (Sector.idam r) =? 0) then x
                   else match_sector r x).
Proof. reflexivity. Qed.

(** The copy of a sector that [verify_track] makes. *)
Definition scratch (x : Sector.t) : Sector.t :=
  Sector.make (IDAM.set_crc 65535 (Sector.idam x)) (DAM.set_crc 65535 (Sector.dam x)).

Lemma sector_id_valid (s : Sector.t) : sector_id (valid_sector s) = sector_id s.
Proof. reflexivity. Qed.

Lemma sector_id_scratch (s : Sector.t) : sector_id (scratch s) = sector_id s.
Proof. reflexivity. Qed.

Lemma match_all_other (raw : list Sector.t) (x : Sector.t) :
  sector_id x ∉ sector_id <$> raw → match_all raw x = x.
Proof.
  unfold match_all. induction raw as [|r raw IH]; intros Hnot; [done|].
  cbn [foldl]. rewrite fmap_cons, not_elem_of_cons in Hnot. destruct Hnot as [Hne Hnot].
  assert (match_sector r x = x) as ->.
  { unfold match_sector. by rewrite same_id_false. }
  destruct (negb _); by apply IH.
Qed.

Lemma match_scratch (s : Sector.t) :
  Sector.start s = IDAM.start (Sector.idam s) →
  Sector.end_ s = DAM.end_ (Sector.dam s) →
  match_sector (valid_sector s) (scratch s) = valid_sector s.
Proof.
  intros Hs He. unfold match_sector. rewrite same_id_true by done.
  destruct s as [st en crc [] []]. cbn in Hs, He. subst. reflexivity.
Qed.

(** The sectors that were read back, matched with the scratch copy of a
    track whose IDs are all different: the copy becomes the track, with
    valid checksums. *)
Lemma match_all_scratch (ss : list Sector.t) (s : Sector.t) :
  NoDup (sector_id <$> ss) →
  s ∈ ss →
  Sector.start s = IDAM.start (Sector.idam s) →
  Sector.end_ s = DAM.end_ (Sector.dam s) →
  match_all (valid_sector <$> ss) (scratch s) = valid_sector s.
Proof.
  intros Hnd Hin Hs He.
  apply list_elem_of_split in Hin as (l1 & l2 & ->).
  rewrite fmap_app, fmap_cons in Hnd.
  apply NoDup_app in Hnd as (_ & Hdis & Hnd2).
  apply NoDup_cons in Hnd2 as [Hn2 _].
  rewrite fmap_app, match_all_app, (match_all_other (valid_sector <$> l1)).
  - rewrite fmap_cons, match_all_cons.
    change (negb (IDAM.crc (Sector.idam (valid_sector s)) =? 0)) with false.
    cbv iota. rewrite match_scratch by done.
    apply (match_all_other (valid_sector <$> l2)).
    rewrite <- list_fmap_compose. exact Hn2.
  - rewrite <- list_fmap_compose. intros Hin. apply (Hdis _ Hin). apply list_elem_of_here.
Qed.

Lemma nr_missing_valid (ss : list Sector.t) : nr_missing (valid_sector <$> ss) = 0.
Proof.
  unfold nr_missing. induction ss as [|s ss IH]; [done|].
  cbn [fmap list_fmap]. rewrite filter_cons_False; [done|]. cbn. lia.
Qed.

(** *** What [verify_track] answers *)

Lemma decode_raw_iams (t rb : Track) (bits : bitarray) (revolutions : list Z) :
  decode_raw t bits revolutions = inr rb → iams rb = iams t.
Proof.
  unfold decode_raw. destruct (has_clock t); [|done]. unfold_res.
  destruct (IBM_FM_decode_raw _ _ _) as [e|raw]; [done|]. by intros [= <-].
Qed.

(** A sector [r] that was read stands for the sector [s] of the track:
    its ID field is valid and is the ID of [s], and its data field is
    valid. *)
Definition stands_for (s r : Sector.t) : bool :=
  (IDAM.crc (Sector.idam r) =? 0) && same_id s r && (DAM.crc (Sector.dam r) =? 0).

(** The first of the sectors that were read that stands for [s]. *)
Fixpoint first_for (raw : list Sector.t) (s : Sector.t) : option Sector.t :=
  match raw with
  | [] => None
  | r :: raw' => if stands_for s r then Some r else first_for raw' s
  end.

(** The sector [s] of the track is verified by the sector [r] that was
    read: all its checksums are valid, it starts with its ID field and
    ends with its data field, and its payload is the payload of [r]. *)
Definition verified_by (r s : Sector.t) : Prop :=
  Sector.crc s = 0
  ∧ IDAM.crc (Sector.idam s) = 0
  ∧ DAM.crc (Sector.dam s) = 0
  ∧ Sector.start s = IDAM.start (Sector.idam s)
  ∧ Sector.end_ s = DAM.end_ (Sector.dam s)
  ∧ DAM.data (Sector.dam s) = DAM.data (Sector.dam r).

(** The scratch copy of [s] once [r] has been found for it. *)
Definition found (s r : Sector.t) : Sector.t :=
  Sector.make (IDAM.set_crc 0 (Sector.idam s))
              (DAM.set_data (DAM.data (Sector.dam r)) (DAM.set_crc 0 (Sector.dam s))).

(** The scratch copy of [s] as long as no sector stands for it: as it
    was made, or with a valid ID field. *)
Definition pending (s x : Sector.t) : Prop :=
  x = scratch s
  ∨ x = Sector.set_idam (IDAM.set_crc 0 (Sector.idam (scratch s))) (scratch s).

(** The body of the outer loop of [decode_raw] for one sector of the
    track. *)
Definition match_step (x r : Sector.t) : Sector.t :=
  if negb (IDAM.crc (Sector.idam r) =? 0) then x else match_sector r x.

Lemma found_iff (s r : Sector.t) : s = found s r ↔ verified_by r s.
Proof.
  unfold found, verified_by, Sector.make.
  destruct s as [st en crc [ist ien icrc ic ih ir inn] [dst den dcrc dm dd]].
  cbn. split.
  - intros [= -> -> -> -> -> ->]. by repeat split.
  - intros (-> & -> & -> & -> & -> & ->). reflexivity.
Qed.

Lemma match_step_pending (s x r : Sector.t) :
  pending s x →
  if stands_for s r then match_step x r = found s r
  else pending s (match_step x r).
Proof.
  unfold stands_for, match_step, match_sector.
  intros [-> | ->].
  - change (same_id (scratch s) r) with (same_id s r).
    destruct (IDAM.crc (Sector.idam r) =? 0); cbn [negb andb]; [|by left].
    destruct (same_id s r); cbn [andb]; [|by left].
    destruct (DAM.crc (Sector.dam r) =? 0); cbn [andb]; [reflexivity|by right].
  - change (same_id (Sector.set_idam (IDAM.set_crc 0 (Sector.idam (scratch s)))
                                     (scratch s)) r) with (same_id s r).
    destruct (IDAM.crc (Sector.idam r) =? 0); cbn [negb andb]; [|by right].
    destruct (same_id s r); cbn [andb]; [|by right].
    destruct (DAM.crc (Sector.dam r) =? 0); cbn [andb]; [reflexivity|by right].
Qed.

Lemma match_step_found (s r r' : Sector.t) : match_step (found s r) r' = found s r.
Proof.
  unfold match_step, match_sector.
  destruct (negb _); [done|]. destruct (same_id _ _); [|done].
  change (DAM.crc (Sector.dam (Sector.set_idam _ (found s r)))) with 0.
  by rewrite andb_false_r.
Qed.

Lemma match_all_found (raw : list Sector.t) (s r : Sector.t) :
  match_all raw (found s r) = found s r.
Proof.
  induction raw as [|r' raw IH]; [done|].
  rewrite match_all_cons. fold (match_step (found s r) r').
  by rewrite match_step_found.
Qed.

(** What the sectors that were read make of the scratch copy of [s]. *)
Lemma match_all_first (raw : list Sector.t) (s : Sector.t) :
  ∀ x, pending s x →
       match first_for raw s with
       | Some r => match_all raw x = found s r
       | None => pending s (match_all raw x)
       end.
Proof.
  induction raw as [|r raw IH]; intros x Hx; cbn [first_for]; [done|].
  rewrite match_all_cons. fold (match_step x r).
  pose proof (match_step_pending s x r Hx) as Hstep.
  destruct (stands_for s r).
  - rewrite Hstep. apply match_all_found.
  - by apply IH.
Qed.

Lemma pending_crc (s x : Sector.t) : pending s x → Sector.crc x = 65535.
Proof. by intros [-> | ->]. Qed.

Lemma nr_missing_0 (ss : list Sector.t) :
  nr_missing ss = 0 ↔ Forall (fun s => Sector.crc s = 0) ss.
Proof.
  unfold nr_missing. induction ss as [|s ss IH]; [done|].
  destruct (decide (Sector.crc s = 0)) as [H0|H0].
  - rewrite filter_cons_False by (intros ?; done).
    rewrite Forall_cons. tauto.
  - rewrite filter_cons_True by done. cbn [length]. split; [lia|].
    intros [? _]%Forall_cons. done.
Qed.

Lemma fmap_fixed {A} (f : A → A) (l : list A) :
  l = f <$> l ↔ Forall (fun x => x = f x) l.
Proof.
  induction l as [|x l IH]; [done|]. cbn [fmap list_fmap]. rewrite Forall_cons.
  split.
  - intros [= Hx Hl]. split; [done|]. by apply IH.
  - intros [Hx Hl]. apply IH in Hl. congruence.
Qed.

(** The sectors of the scratch copy behind the decoding. *)
Lemma readback_sectors (t rb : Track) (bits : bitarray) (revolutions : list Z) :
  decode_raw (readback_track t) bits revolutions = inr rb ↔
  has_clock t = true
  ∧ ∃ raw, IBM_FM_decode_raw ([], []) bits revolutions = inr raw
           ∧ rb = set_lists ((fun s => match_all raw.2 (scratch s)) <$> sectors t)
                            (iams t) raw.1 raw.2 (readback_track t).
Proof.
  unfold decode_raw.
  change (has_clock (readback_track t)) with (has_clock t).
  change (raw_iams (readback_track t), raw_sectors (readback_track t))
    with (@nil IAM.t, @nil Sector.t).
  change (iams (readback_track t)) with (iams t).
  change (sectors (readback_track t)) with (scratch <$> sectors t).
  destruct (has_clock t); [|split; [done|by intros [? _]]].
  unfold_res.
  destruct (IBM_FM_decode_raw ([], []) bits revolutions) as [e|raw].
  - split; [done|]. by intros (_ & raw & ? & _).
  - rewrite match_raw_each, <- list_fmap_compose. split.
    + intros [= <-]. split; [done|]. by exists raw.
    + by intros (_ & raw' & [= <-] & ->).
Qed.

(** C5 (amended): the scratch copy has all its checksums at 0xffff and
    copies of the index marks of the track, and the decoding never
    changes these index marks, whatever was read back.  [verify_track]
    answers [True] exactly when the decoding of the readback into the
    copy leaves no sector missing and makes the sectors of the copy
    equal to those of the track; index marks are not compared.  In terms
    of the readback, the answer is [True] exactly when the clock of the
    track is set, the readback can be decoded and every sector of the
    track is verified by the first sector in the readback that stands
    for it: a sector with a valid ID field that carries the ID of the
    sector of the track, and with a valid data field. *)
Theorem verify_track_iff (t : Track) (bits : bitarray) (revolutions : list Z) :
  (Forall (fun s => Sector.crc s = 65535
                    ∧ IDAM.crc (Sector.idam s) = 65535
                    ∧ DAM.crc (Sector.dam s) = 65535)
          (sectors (readback_track t))
   ∧ iams (readback_track t) = iams t)
  ∧ (∀ rb : Track,
       decode_raw (readback_track t) bits revolutions = inr rb → iams rb = iams t)
  ∧ (verify_track t bits revolutions = inr true
     ↔ ∃ rb : Track,
         decode_raw (readback_track t) bits revolutions = inr rb
         ∧ nr_missing (sectors rb) = 0
         ∧ sectors rb = sectors t)
  ∧ (verify_track t bits revolutions = inr true
     ↔ has_clock t = true
       ∧ ∃ raw : list IAM.t * list Sector.t,
           IBM_FM_decode_raw ([], []) bits revolutions = inr raw
           ∧ Forall (fun s => ∃ r, first_for raw.2 s = Some r ∧ verified_by r s)
                    (sectors t)).
Proof.
  assert (Hclaim : verify_track t bits revolutions = inr true
     ↔ ∃ rb : Track,
         decode_raw (readback_track t) bits revolutions = inr rb
         ∧ nr_missing (sectors rb) = 0
         ∧ sectors rb = sectors t).
  { unfold verify_track.
    destruct (has_clock t) eqn:Hclock.
    - unfold_res.
      destruct (decode_raw (readback_track t) bits revolutions) as [e|rb] eqn:Hdec.
      + split; [done|]. by intros (rb & ? & _).
      + destruct (Z.eqb_spec (nr_missing (sectors rb)) 0) as [Hz|Hz]; cbn [negb].
        * split.
          -- intros [= Heq]. apply bool_decide_eq_true in Heq.
             exists rb. repeat split; done.
          -- intros (rb' & [= <-] & _ & Hs). f_equal.
             by apply bool_decide_eq_true.
        * split; [done|]. intros (rb' & [= <-] & ? & _). done.
    - split; [done|]. intros (rb & Hdec & _).
      apply readback_sectors in Hdec as [Hc _]. congruence. }
  split; [|split; [|split; [exact Hclaim|]]].
  - split; [|done]. unfold readback_track, set_lists. cbn [sectors].
    apply Forall_fmap, Forall_true. intros s. done.
  - intros rb Hdec. by rewrite (decode_raw_iams _ _ _ _ Hdec).
  - rewrite Hclaim. split.
    + intros (rb & Hdec & Hmiss & Hss).
      apply readback_sectors in Hdec as (Hclock & raw & Hraw & ->).
      split; [done|]. exists raw. split; [done|].
      cbn [sectors set_lists] in Hmiss, Hss.
      apply nr_missing_0 in Hmiss. rewrite Forall_fmap in Hmiss.
      symmetry in Hss. apply fmap_fixed in Hss.
      rewrite Forall_forall in Hmiss, Hss. apply Forall_forall. intros s Hs.
      specialize (Hmiss s Hs). specialize (Hss s Hs). cbn in Hmiss.
      pose proof (match_all_first raw.2 s (scratch s) (or_introl eq_refl)) as Hfirst.
      destruct (first_for raw.2 s) as [r|].
      * exists r. split; [done|]. apply found_iff. congruence.
      * apply pending_crc in Hfirst. rewrite Hfirst in Hmiss. done.
    + intros (Hclock & raw & Hraw & Hall). eexists.
      split; [apply readback_sectors; split; [done|]; exists raw; by split|].
      cbn [sectors iams set_lists].
      assert (Hfix : Forall (fun s => s = match_all raw.2 (scratch s)) (sectors t)).
      { apply Forall_forall. intros s Hs. rewrite Forall_forall in Hall.
        destruct (Hall s Hs) as (r & Hr & Hv).
        pose proof (match_all_first raw.2 s (scratch s) (or_introl eq_refl)) as Hfirst.
        rewrite Hr in Hfirst. rewrite Hfirst. by apply found_iff. }
      split.
      * apply nr_missing_0. rewrite Forall_fmap. apply Forall_forall. intros s Hs.
        rewrite Forall_forall in Hall, Hfix.
        destruct (Hall s Hs) as (r & _ & Hv & _). cbn. by rewrite <- (Hfix s Hs).
      * symmetry. by apply fmap_fixed.
Qed.

(** [decode_raw] and [verify_track] on the bits of a laid-out track
    whose sectors have different IDs. *)
Lemma verify_laid_out (t : Track) (tail : bytes) :
  has_clock t = true →
  (length (iams t) ≤ 1)%nat →
  good 0 ((AreaIAM <$> iams t) ++ (AreaSector <$> sectors t)) →
  NoDup (sector_id <$> sectors t) →
  Forall is_byte tail →
  let cells := track_cells 0 ((AreaIAM <$> iams t) ++ (AreaSector <$> sectors t))
                 ++ plain tail in
  let revs := [Z.of_nat (length (bits_of cells))] in
  (∃ rb, decode_raw (readback_track t) (bits_of cells) revs = inr rb
         ∧ raw_iams rb = iams t
         ∧ raw_sectors rb = valid_sector <$> sectors t
         ∧ sectors rb = valid_sector <$> sectors t)
  ∧ verify_track t (bits_of cells) revs
    = inr (bool_decide (sectors t = valid_sector <$> sectors t)).
Proof.
  intros Hclock His Hgood Hnd Htail cells revs.
  pose proof (decode_laid_out (iams t) (sectors t) tail His Hgood Htail) as Hdec.
  cbv zeta in Hdec. fold cells revs in Hdec.
  assert (Hmatch : match_raw (valid_sector <$> sectors t) (scratch <$> sectors t)
                   = valid_sector <$> sectors t).
  { rewrite match_raw_each, <- list_fmap_compose. apply list_fmap_ext.
    intros j s Hj. cbn. apply list_elem_of_lookup_2 in Hj.
    assert (good_sector_of : ∃ n, good_sector n s).
    { clear -Hgood Hj. revert Hgood. generalize 0.
      generalize (iams t) as is_. induction is_ as [|i is_ IH]; intros n.
      - cbn [fmap list_fmap app]. revert n.
        induction (sectors t) as [|s' ss IH]; intros n Hgood; [by apply elem_of_nil in Hj|].
        cbn [fmap list_fmap] in Hgood. destruct Hgood as [Hs Hrest].
        apply elem_of_cons in Hj as [->|Hj]; [by exists n|]. by apply (IH Hj _ Hrest).
      - cbn [fmap list_fmap app]. intros [_ Hrest]. by apply (IH _ Hrest). }
    destruct good_sector_of as [n (Hs & He & _)].
    by apply match_all_scratch. }
  assert (Hrb : decode_raw (readback_track t) (bits_of cells) revs
          = inr (set_lists (valid_sector <$> sectors t) (iams t) (iams t)
                           (valid_sector <$> sectors t) (readback_track t))).
  { unfold decode_raw. cbn [raw_iams raw_sectors has_clock readback_track set_lists].
    rewrite Hclock, Hdec. unfold_res. cbn [fst snd]. f_equal.
    cbn [sectors iams readback_track set_lists].
    change (fun x => Sector.make (IDAM.set_crc 65535 (Sector.idam x))
                                 (DAM.set_crc 65535 (Sector.dam x))) with scratch.
    f_equal; exact Hmatch. }
  split.
  - eexists. split; [exact Hrb|]. by cbn.
  - unfold verify_track. rewrite Hclock, Hrb. unfold_res.
    cbn [sectors set_lists]. rewrite nr_missing_valid. reflexivity.
Qed.

(** *** The layout that [construct_sectors] makes *)

Lemma good_le (areas : list Area) (n n' : Z) :
  n' ≤ n → good n areas → good n' areas.
Proof.
  destruct areas as [|a areas]; [done|]. intros Hle [Ha Hrest]. split; [|done].
  destruct a as [i| | |s]; try done.
  - unfold good_iam in *. intuition lia.
  - unfold good_sector in *. cbn zeta in *.
    destruct Ha as (H1 & H2 & H3 & H4 & H5).
    split; [done|]. split; [done|]. split; [done|]. split; [lia|done].
Qed.

Lemma sec_n_ok (sz : list Z) (i : Z) :
  sz ≠ [] → ∃ n, sec_n sz i = inr n ∧ n ∈ sz.
Proof.
  intros Hsz. unfold sec_n.
  assert (0 < length sz)%nat by (destruct sz; [done|cbn; lia]).
  destruct (Z.ltb_spec i (Z.of_nat (length sz))).
  - destruct (lookup_lt_is_Some_2 sz (Z.to_nat i)) as [v Hv]; [lia|].
    rewrite Hv. exists v. split; [done|]. by eapply list_elem_of_lookup_2.
  - destruct (proj2 (last_is_Some sz) Hsz) as [v Hv]. rewrite Hv.
    exists v. split; [done|]. by apply last_Some_elem_of.
Qed.

Lemma bad_sector_bytes : Forall is_byte bad_sector ∧ length bad_sector = 16%nat.
Proof.
  assert (bad_sector = [45; 61; 91; 66; 65; 68; 32; 83; 69; 67; 84; 79; 82; 93; 61; 45])
    as -> by reflexivity.
  split; [|done]. repeat constructor; unfold is_byte; lia.
Qed.

(** The payload of a sector that [construct_sectors] lays out. *)
Lemma bad_payload (n : Z) :
  0 ≤ n →
  let data := mjoin (replicate (Z.to_nat (Z.shiftl 128 n / 16)) bad_sector) in
  Forall is_byte data ∧ Z.of_nat (length data) = Z.shiftl 128 n.
Proof.
  intros Hn. destruct bad_sector_bytes as [Hb Hl].
  assert (Hrep : ∀ k, Forall is_byte (mjoin (replicate k bad_sector))
                      ∧ length (mjoin (replicate k bad_sector)) = (k * 16)%nat).
  { induction k as [|k [IH1 IH2]]; [by split|].
    change (mjoin (replicate (S k) bad_sector))
      with (bad_sector ++ mjoin (replicate k bad_sector)).
    split; [by apply Forall_app|]. rewrite length_app, Hl, IH2. lia. }
  cbv zeta. destruct (Hrep (Z.to_nat (Z.shiftl 128 n / 16))) as [H1 H2].
  split; [done|]. rewrite H2.
  rewrite Z.shiftl_mul_pow2 by done.
  pose proof (Z.pow_pos_nonneg 2 n ltac:(lia) Hn).
  replace (128 * 2 ^ n) with (8 * 2 ^ n * 16) by lia.
  rewrite Z.div_mul by lia. lia.
Qed.

(** The attributes of a track that the layout relies on. *)
Definition attrs_ok (t : Track) : Prop :=
  is_byte (cyl t) ∧ is_byte (h t)
  ∧ 0 ≤ gap_2 t ∧ 0 ≤ gap_3 t ∧ 0 ≤ gap_4a t
  ∧ (∀ g, gap_1 t = Some g → 0 ≤ g)
  ∧ Forall (fun n => 0 ≤ n ≤ 6) (sz t).

(** The sector in slot [sec] of a track, at position [pos] (in cells). *)
Definition laid_sector (t : Track) (sec n pos : Z) : Sector.t :=
  Sector.make
    {| IDAM.start := (pos + 6) * 16; IDAM.end_ := (pos + 6 + 7) * 16;
       IDAM.crc := 65535; IDAM.c := cyl t; IDAM.h := h t;
       IDAM.r := id0 t + sec; IDAM.n := n |}
    {| DAM.start := (pos + 6 + 7 + gap_2 t + 6) * 16;
       DAM.end_ := (pos + 6 + 7 + gap_2 t + 6 + 1 + Z.shiftl 128 n + 2) * 16;
       DAM.crc := 65535; DAM.mark := DAM_mark;
       DAM.data := Some (mjoin (replicate (Z.to_nat (Z.shiftl 128 n / 16))
                                          bad_sector)) |}.

Lemma laid_sector_good (t : Track) (sec n pos m : Z) :
  attrs_ok t → 0 ≤ n ≤ 6 → is_byte (id0 t + sec) → m ≤ pos →
  good_sector m (laid_sector t sec n pos)
  ∧ area_end (AreaSector (laid_sector t sec n pos))
    = pos + 6 + 7 + gap_2 t + 6 + 1 + Z.shiftl 128 n + 2.
Proof.
  intros (Hc & Hh & Hg2 & Hg3 & Hg4 & Hg1 & Hsz) Hn Hr Hm.
  destruct (bad_payload n ltac:(lia)) as [Hb Hl]. cbv zeta in Hb, Hl.
  unfold good_sector, area_end, laid_sector, Sector.make, dam_data, idam_body.
  cbn [Sector.start Sector.end_ Sector.idam Sector.dam IDAM.start IDAM.end_
       IDAM.c IDAM.h IDAM.r IDAM.n DAM.start DAM.end_ DAM.mark DAM.data default].
  unfold id. rewrite !Z.mod_mul, !Z.div_mul, Hl by lia.
  repeat split; try done; try lia; try (by left); try (by eexists).
  repeat (apply Forall_cons; split); try done; try (unfold is_byte; lia).
Qed.

Lemma layout_sectors_good (t : Track) (secs : list Z) :
  attrs_ok t →
  sz t ≠ [] ∨ secs = [] →
  Forall (fun sec => is_byte (id0 t + sec)) secs →
  ∀ ss0 pos,
    ∃ ss, layout_sectors t secs ss0 pos = inr (ss0 ++ ss)
          ∧ (∀ m, m ≤ pos → good m (AreaSector <$> ss))
          ∧ (fun s => IDAM.r (Sector.idam s)) <$> ss = (fun sec => id0 t + sec) <$> secs
          ∧ Forall (fun s => Sector.crc s = 65535) ss.
Proof.
  intros Hattrs Hsz Hsecs. induction Hsecs as [|sec secs Hsec Hsecs IH]; intros ss0 pos.
  - exists []. rewrite app_nil_r. by repeat split.
  - destruct Hsz as [Hsz|?]; [|done].
    cbn [layout_sectors]. destruct (sec_n_ok (sz t) sec Hsz) as (n & -> & Hin).
    unfold_res.
    assert (Hn : 0 ≤ n ≤ 6).
    { destruct Hattrs as (_ & _ & _ & _ & _ & _ & Hall).
      rewrite Forall_forall in Hall. by apply Hall. }
    unfold shl_128. rewrite (proj2 (Z.ltb_ge n 0)) by lia. unfold_res.
    fold (laid_sector t sec n pos). unfold gap_presync.
    change (Sector.make _ _) with (laid_sector t sec n pos).
    destruct (IH (or_introl Hsz) (ss0 ++ [laid_sector t sec n pos])
                 (pos + 6 + 7 + gap_2 t + 6 + 1 + Z.shiftl 128 n + 2 + gap_3 t))
      as (ss & -> & Hgood & Hr & Hcrc).
    exists (laid_sector t sec n pos :: ss). rewrite <- app_assoc.
    split; [done|]. split; [|split].
    + intros m Hm. cbn [fmap list_fmap good].
      destruct (laid_sector_good t sec n pos m Hattrs Hn Hsec Hm) as [Hg ->].
      split; [done|]. apply Hgood.
      destruct Hattrs as (_ & _ & _ & Hg3 & _). lia.
    + cbn [fmap list_fmap]. by rewrite Hr.
    + by apply Forall_cons.
Qed.

(** *** The track that [from_format] makes *)

(** The values of a track configuration are in the ranges that
    [add_param] accepts. *)
Definition in_ranges (c : Formats.IBMTrackConfig) : Prop :=
  0 ≤ Formats.secs c ≤ 256
  ∧ Forall (fun n => 0 ≤ n ≤ 6) (Formats.sz c)
  ∧ 0 ≤ Formats.id c ≤ 255
  ∧ 1 ≤ Formats.interleave c ≤ 255
  ∧ 0 ≤ Formats.cskew c ≤ 255
  ∧ 0 ≤ Formats.hskew c ≤ 255
  ∧ (∀ v, Formats.h c = Some v → 0 ≤ v ≤ 255)
  ∧ (∀ v, Formats.gap1 c = Some v → 0 ≤ v ≤ 255)
  ∧ (∀ v, Formats.gap2 c = Some v → 0 ≤ v ≤ 255)
  ∧ (∀ v, Formats.gap3 c = Some v → 0 ≤ v ≤ 255)
  ∧ (∀ v, Formats.gap4a c = Some v → 0 ≤ v ≤ 255)
  ∧ 1 ≤ Formats.rpm c ≤ 2000
  ∧ 0 ≤ Formats.rate c ≤ 2000.

Lemma sum_sizes_ok (sz : list Z) (is_ : list Z) :
  Forall (fun n => 0 ≤ n ≤ 6) sz →
  sz ≠ [] ∨ is_ = [] → ∀ tl, ∃ v, sum_sizes sz is_ tl = inr v.
Proof.
  intros Hall Hsz. induction is_ as [|i is_ IH]; intros tl; [by eexists|].
  destruct Hsz as [Hsz|?]; [|done]. cbn [sum_sizes].
  destruct (sec_n_ok sz i Hsz) as (n & -> & Hin). unfold_res.
  rewrite Forall_forall in Hall. specialize (Hall n Hin).
  unfold shl_128. rewrite (proj2 (Z.ltb_ge n 0)) by lia. unfold_res.
  apply IH. by left.
Qed.

Lemma select_rate_ok (rate rpm tl : Z) :
  rpm ≠ 0 → 0 ≤ rate → ∃ r, select_rate rate rpm tl = inr r ∧ 1 ≤ r.
Proof.
  intros Hrpm Hrate. unfold select_rate.
  destruct (Z.eqb_spec rate 0); [|eexists; split; [done|lia]].
  change (Formats.range 2) with [0; 1]. cbn [rate_loop]. unfold maxlen, floordiv.
  rewrite (proj2 (Z.eqb_neq rpm 0)) by done. unfold_res.
  destruct (tl <? _); [eexists; split; [done|by vm_compute]|].
  destruct (tl <? _); eexists; (split; [done|by vm_compute]).
Qed.

Lemma GAP_3_ok (n : Z) : 0 ≤ n ≤ 6 → ∃ g, GAP_3 !! Z.to_nat n = Some g ∧ 0 < g.
Proof.
  intros Hn.
  assert (n = 0 ∨ n = 1 ∨ n = 2 ∨ n = 3 ∨ n = 4 ∨ n = 5 ∨ n = 6) as Hc by lia.
  destruct Hc as [->|[->|[->|[->|[->|[->| ->]]]]]]; cbn; eexists; (split; [done|lia]).
Qed.

Lemma default_range (d : Z) (o : option Z) :
  0 ≤ d → (∀ v, o = Some v → 0 ≤ v ≤ 255) → 0 ≤ default d o.
Proof. intros Hd Ho. destruct o as [v|]; [|done]. cbn. by apply Ho. Qed.

(** The attributes that [from_format] gives a track. *)
Lemma from_format_attrs_ok (c : Formats.IBMTrackConfig) (cyl0 head0 : Z) :
  in_ranges c →
  Formats.secs c = 0 ∨ Formats.sz c ≠ [] →
  is_byte cyl0 → is_byte head0 →
  ∃ t, from_format_attrs c cyl0 head0 = inr t
       ∧ attrs_ok t ∧ sectors t = [] ∧ iams t = []
       ∧ nsec t = Formats.secs c ∧ id0 t = Formats.id c ∧ sz t = Formats.sz c
       ∧ gap_1 t = (if Formats.iam c
                    then Some (default GAP_1 (Formats.gap1 c)) else None)
       ∧ has_format t = true ∧ has_clock t = true.
Proof.
  intros (Hsecs & Hsz & Hid & Hil & Hcs & Hhs & Hh & Hg1 & Hg2 & Hg3 & Hg4 & Hrpm & Hrate)
         Hfin Hcyl Hhead.
  unfold from_format_attrs. cbv zeta.
  assert (Hsum : Formats.sz c ≠ [] ∨ Formats.range (Formats.secs c) = []).
  { destruct Hfin as [->|?]; [by right|by left]. }
  match goal with |- context [sum_sizes ?a ?b ?tl0] =>
    destruct (sum_sizes_ok a b Hsz Hsum tl0) as [tl1 ->] end.
  unfold_res.
  destruct (select_rate_ok (Formats.rate c) (Formats.rpm c) (tl1 * 16))
    as (r & -> & Hr); [lia|lia|].
  unfold floordiv. rewrite (proj2 (Z.eqb_neq (Formats.rpm c) 0)) by lia.
  unfold_res. cbv beta iota.
  assert (Hbc : 0 < r * 400 * 300 / Formats.rpm c) by (apply Z.div_str_pos; lia).
  assert (Hhb : is_byte (default head0 (Formats.h c))).
  { destruct (Formats.h c) as [v|]; [|done]. cbn. specialize (Hh v eq_refl).
    unfold is_byte. lia. }
  assert (Hg1' : ∀ g, (if Formats.iam c then Some (default GAP_1 (Formats.gap1 c))
                       else None) = Some g → 0 ≤ g).
  { intros g. destruct (Formats.iam c); [|done]. intros [= <-].
    by apply default_range. }
  assert (Hg2' : 0 ≤ default GAP_2 (Formats.gap2 c)) by by apply default_range.
  assert (Hg4' : 0 ≤ default (if Formats.iam c then 40 else 16) (Formats.gap4a c)).
  { apply default_range; [by destruct (Formats.iam c)|done]. }
  destruct (negb (Formats.secs c =? 0) && Formats.is_None (Formats.gap3 c)) eqn:Hauto.
  - apply andb_prop in Hauto as [Hn0 _].
    apply negb_true_iff, Z.eqb_neq in Hn0.
    destruct Hfin as [?|Hne]; [done|].
    destruct (sec_n_ok _ 0 Hne) as (n & -> & Hin).
    rewrite Forall_forall in Hsz.
    destruct (GAP_3_ok n (Hsz _ Hin)) as (g & -> & Hg).
    cbv beta iota.
    match goal with |- context [Z.max ?a ?b =? 0] =>
      rewrite (proj2 (Z.eqb_neq (Z.max a b) 0)) by lia end.
    eexists. split; [reflexivity|].
    unfold attrs_ok.
    cbn [cyl h gap_2 gap_3 gap_4a gap_1 sz sectors iams nsec id0 has_format has_clock].
    unfold is_byte in *.
    repeat split; try lia; try done; try (by apply Forall_forall).
    apply Z.min_glb; [|lia]. apply Z.div_pos; lia.
  - cbv beta iota.
    match goal with |- context [Z.max ?a ?b =? 0] =>
      rewrite (proj2 (Z.eqb_neq (Z.max a b) 0)) by lia end.
    eexists. split; [reflexivity|].
    unfold attrs_ok.
    cbn [cyl h gap_2 gap_3 gap_4a gap_1 sz sectors iams nsec id0 has_format has_clock].
    unfold is_byte in *.
    repeat split; try lia; try done.
    by apply default_range.
Qed.

(** What the rest of the round trip needs of a track: its clock is
    set, it has at most one index mark, the areas are laid out in cells
    from the start of the track, and no two sectors have the same
    sector number. *)
Definition laid_out (t : Track) : Prop :=
  has_clock t = true
  ∧ (length (iams t) ≤ 1)%nat
  ∧ good 0 ((AreaIAM <$> iams t) ++ (AreaSector <$> sectors t))
  ∧ NoDup ((fun s => IDAM.r (Sector.idam s)) <$> sectors t).

Lemma construct_layout_good (t : Track) (m : list Z) :
  has_clock t = true →
  attrs_ok t → sectors t = [] → iams t = [] →
  sz t ≠ [] ∨ m = [] →
  Forall (fun sec => is_byte (id0 t + sec)) m →
  NoDup m →
  ∃ t', construct_layout t m = inr t'
        ∧ laid_out t'
        ∧ Forall (fun s => Sector.crc s = 65535) (sectors t')
        ∧ length (sectors t') = length m.
Proof.
  intros Hclock Hattrs Hss His Hsz Hm Hnd. unfold construct_layout. rewrite Hss, His.
  pose proof Hattrs as (_ & _ & _ & _ & Hg4 & Hg1 & _).
  assert (Hdup : ∀ ss, (fun s => IDAM.r (Sector.idam s)) <$> ss
                       = (fun sec => id0 t + sec) <$> m →
                       NoDup ((fun s => IDAM.r (Sector.idam s)) <$> ss)
                       ∧ length ss = length m).
  { intros ss Hr. split.
    - rewrite Hr. apply NoDup_fmap_2_strong; [|done]. intros x y _ _ Hxy. lia.
    - apply (f_equal length) in Hr. by rewrite !length_fmap in Hr. }
  destruct (gap_1 t) as [g|] eqn:Hgap.
  - specialize (Hg1 g eq_refl).
    destruct (layout_sectors_good t m Hattrs Hsz Hm []
                (gap_4a t + gap_presync + 1 + g)) as (ss & -> & Hgood & Hr & Hcrc).
    unfold_res. eexists. split; [reflexivity|].
    unfold laid_out. cbn [sectors iams has_clock set_lists app].
    destruct (Hdup ss Hr) as [Hnd' Hlen].
    split; [|by split]. split; [done|]. split; [cbn; lia|]. split; [|done].
    cbn [fmap list_fmap app good]. unfold good_iam, area_end.
    cbn [IAM.start IAM.end_]. unfold gap_presync.
    rewrite Z.mod_mul, Z.div_mul by lia.
    split; [repeat split; lia|]. apply Hgood. unfold gap_presync. lia.
  - destruct (layout_sectors_good t m Hattrs Hsz Hm [] (gap_4a t))
      as (ss & -> & Hgood & Hr & Hcrc).
    unfold_res. eexists. split; [reflexivity|].
    unfold laid_out. cbn [sectors iams has_clock set_lists app].
    destruct (Hdup ss Hr) as [Hnd' Hlen].
    split; [|by split]. split; [done|]. split; [cbn; lia|]. split; [|done].
    cbn [fmap list_fmap app]. by apply Hgood.
Qed.

Lemma sector_map_ok (fuel : nat) (nsec cyl0 head0 cskew0 hskew0 interleave0 : Z) :
  0 ≤ nsec → (Z.to_nat nsec ≤ fuel)%nat →
  ∃ m, sector_map fuel nsec cyl0 head0 cskew0 hskew0 interleave0 = Some m
       ∧ m ≡ₚ Formats.range nsec.
Proof.
  intros Hn Hfuel. destruct (Z.eq_dec nsec 0) as [->|Hne]; [by exists []|].
  unfold sector_map. rewrite (proj2 (Z.eqb_neq nsec 0)) by done.
  apply (fill_map_permutation nsec interleave0 ltac:(lia) fuel (Z.to_nat nsec) 0%nat);
    [lia|done|apply Z.mod_pos_bound; lia|done].
Qed.

(** [from_format] returns a track that is laid out, with placeholder
    sectors, as soon as the sector numbers fit a byte. *)
Lemma from_format_good (fuel : nat) (c : Formats.IBMTrackConfig) (cyl0 head0 : Z) :
  in_ranges c →
  Formats.secs c = 0 ∨ Formats.sz c ≠ [] →
  is_byte cyl0 → is_byte head0 →
  Formats.id c + Formats.secs c ≤ 256 →
  (Z.to_nat (Formats.secs c) ≤ fuel)%nat →
  ∃ t, from_format fuel c cyl0 head0 = Some (inr t)
       ∧ laid_out t
       ∧ Forall (fun s => Sector.crc s = 65535) (sectors t)
       ∧ Z.of_nat (length (sectors t)) = Formats.secs c.
Proof.
  intros Hr Hfin Hcyl Hhead Hfit Hfuel.
  destruct (from_format_attrs_ok c cyl0 head0 Hr Hfin Hcyl Hhead)
    as (t & Hattrs & Hok & Hss & His & Hnsec & Hid & Hsz & Hg1 & Hformat & Hclock).
  unfold from_format, construct_sectors. rewrite Hattrs, Hformat.
  pose proof Hr as (Hsecs & _ & Hidr & _).
  destruct (sector_map_ok fuel (nsec t) (cyl t) (head t) (cskew t) (hskew t)
              (interleave t)) as (m & -> & Hperm); [lia|by rewrite Hnsec|].
  cbn [fmap option_fmap option_map].
  destruct (construct_layout_good t m Hclock Hok Hss His)
    as (t' & -> & Hl & Hcrc & Hlen).
  - rewrite Hsz. destruct Hfin as [H0|?]; [right|by left].
    apply Permutation_nil_r. rewrite Hperm, Hnsec, H0. done.
  - apply Forall_forall. intros sec Hsec. rewrite Hperm in Hsec.
    apply elem_of_range in Hsec. unfold is_byte. lia.
  - rewrite Hperm. unfold Formats.range. apply (NoDup_fmap_2 _), NoDup_seq.
  - exists t'. split; [done|]. split; [done|]. split; [done|].
    rewrite Hlen, Hperm. unfold Formats.range. rewrite length_fmap, length_seq. lia.
Qed.

(** *** The track that [set_img_track] fills *)

Lemma insert_by_perm {A} (key : A → Z) (x : A) (l : list A) :
  insert_by key x l ≡ₚ x :: l.
Proof.
  induction l as [|y l IH]; [done|]. cbn [insert_by].
  destruct (key x <? key y); [done|]. rewrite IH. apply Permutation_swap.
Qed.

Lemma sort_by_perm {A} (key : A → Z) (l : list A) : sort_by key l ≡ₚ l.
Proof.
  unfold sort_by.
  assert (∀ acc, foldl (fun acc x => insert_by key x acc) acc l ≡ₚ acc ++ l) as ->.
  { induction l as [|x l IH]; intros acc; cbn [foldl]; [by rewrite app_nil_r|].
    rewrite IH, insert_by_perm. by rewrite <- Permutation_middle. }
  done.
Qed.

Lemma insert_by_asc {A} (key : A → Z) (x : A) (l : list A) :
  ascending key l → ascending key (insert_by key x l).
Proof.
  induction l as [|y l IH]; intros Hasc; [by split|].
  destruct Hasc as [Hy Hl]. cbn [insert_by].
  destruct (Z.ltb_spec (key x) (key y)).
  - split; [|by split]. apply Forall_cons. split; [lia|].
    eapply Forall_impl; [exact Hy|]. cbn. intros z Hz. lia.
  - split; [|by apply IH]. rewrite insert_by_perm.
    apply Forall_cons. by split.
Qed.

Lemma sort_by_asc {A} (key : A → Z) (l : list A) : ascending key (sort_by key l).
Proof.
  unfold sort_by.
  assert (∀ acc, ascending key acc →
                 ascending key (foldl (fun acc x => insert_by key x acc) acc l)) as H.
  { induction l as [|x l IH]; intros acc Hacc; [done|]. cbn [foldl].
    by apply IH, insert_by_asc. }
  by apply H.
Qed.

(** Two lists in order with the same elements are the same list, when
    different elements have different keys. *)
Lemma ascending_perm_eq {A} (key : A → Z) (l1 : list A) :
  ∀ l2, l1 ≡ₚ l2 → ascending key l1 → ascending key l2 →
        (∀ x y, x ∈ l2 → y ∈ l2 → key x = key y → x = y) →
        l1 = l2.
Proof.
  induction l1 as [|x l1 IH]; intros l2 Hp H1 H2 Hinj.
  - by apply Permutation_nil_l.
  - destruct l2 as [|y l2]; [by apply Permutation_nil_r in Hp|].
    destruct H1 as [Hx H1], H2 as [Hy H2].
    rewrite Forall_forall in Hx, Hy.
    assert (Hxin : x ∈ y :: l2) by (rewrite <- Hp; apply list_elem_of_here).
    assert (Hyin : y ∈ x :: l1) by (rewrite Hp; apply list_elem_of_here).
    assert (x = y) as ->.
    { apply Hinj; [done|apply list_elem_of_here|].
      assert (key x ≤ key y).
      { apply elem_of_cons in Hyin as [->|Hyin]; [lia|by apply Hx]. }
      assert (key y ≤ key x).
      { apply elem_of_cons in Hxin as [->|Hxin]; [lia|by apply Hy]. }
      lia. }
    f_equal. apply Permutation_cons_inv in Hp. apply IH; try done.
    intros a b Ha Hb. apply Hinj; by apply list_elem_of_further.
Qed.

(** A sector without its checksums and its payload. *)
Definition bare (s : Sector.t) : Sector.t :=
  Sector.set_crc 0
    (Sector.set_idam (IDAM.set_crc 0 (Sector.idam s))
       (Sector.set_dam (DAM.set_data None (DAM.set_crc 0 (Sector.dam s))) s)).

Lemma bare_eq (s' s : Sector.t) :
  bare s' = bare s →
  Sector.start s' = Sector.start s ∧ Sector.end_ s' = Sector.end_ s
  ∧ IDAM.start (Sector.idam s') = IDAM.start (Sector.idam s)
  ∧ IDAM.end_ (Sector.idam s') = IDAM.end_ (Sector.idam s)
  ∧ idam_body (Sector.idam s') = idam_body (Sector.idam s)
  ∧ DAM.start (Sector.dam s') = DAM.start (Sector.dam s)
  ∧ DAM.end_ (Sector.dam s') = DAM.end_ (Sector.dam s)
  ∧ DAM.mark (Sector.dam s') = DAM.mark (Sector.dam s).
Proof.
  destruct s' as [? ? ? [] []], s as [? ? ? [] []]. cbn. intros [=]. subst.
  by repeat split.
Qed.

(** What [set_img_track] does to a sector [s]: the result [s'] has the
    geometry of [s], valid checksums and a payload of bytes of the
    length that the size code announces. *)
Definition filled (s' s : Sector.t) : Prop :=
  bare s' = bare s
  ∧ valid_sector s' = s'
  ∧ ∃ d, DAM.data (Sector.dam s') = Some d
         ∧ Forall is_byte d ∧ Z.of_nat (length d) = sector_size s'.

Lemma good_sector_filled (n : Z) (s' s : Sector.t) :
  good_sector n s → filled s' s →
  good_sector n s' ∧ area_end (AreaSector s') = area_end (AreaSector s).
Proof.
  intros (Hs & He & Hm1 & Hle1 & Hiend & Hm2 & Hle2 & Hdend & Hib & Hmark & Hdata
          & Hdb & Hlen) (Hbare & _ & d & Hd & Hb & Hl).
  destruct (bare_eq _ _ Hbare) as (E1 & E2 & E3 & E4 & E5 & E6 & E7 & E8).
  assert (E9 : IDAM.n (Sector.idam s') = IDAM.n (Sector.idam s)).
  { unfold idam_body in E5. by injection E5. }
  unfold sector_size in Hl. rewrite E9 in Hl.
  unfold good_sector, area_end, dam_data in *. cbn zeta.
  rewrite E1, E2, E3, E4, E5, E6, E7, E8, E9, Hd. cbn [default].
  change (id d) with d. split; [|by rewrite Hl, Hlen]. repeat split; try done; try lia. by eexists.
Qed.

Lemma good_filled (ss' ss : list Sector.t) :
  Forall2 filled ss' ss →
  ∀ n, good n (AreaSector <$> ss) → good n (AreaSector <$> ss').
Proof.
  induction 1 as [|s' s ss' ss Hs Hss IH]; intros n Hgood; [done|].
  cbn [fmap list_fmap good] in *. destruct Hgood as [Hg Hrest].
  destruct (good_sector_filled n s' s Hg Hs) as [Hg' He].
  split; [done|]. rewrite He. by apply IH.
Qed.

Definition total_size (ss : list Sector.t) : Z :=
  foldl (fun x y => x + sector_size y) 0 ss.

Lemma foldl_size (ss : list Sector.t) :
  ∀ a, foldl (fun x y => x + sector_size y) a ss = a + total_size ss.
Proof.
  unfold total_size. induction ss as [|s ss IH]; intros a; cbn [foldl]; [lia|].
  rewrite (IH (a + sector_size s)), (IH (0 + sector_size s)). lia.
Qed.

Lemma sector_size_nonneg (s : Sector.t) : 0 ≤ sector_size s.
Proof. unfold sector_size. by apply Z.shiftl_nonneg. Qed.

Lemma total_size_nonneg (ss : list Sector.t) : 0 ≤ total_size ss.
Proof.
  induction ss as [|s ss IH]; [done|]. unfold total_size. cbn [foldl].
  rewrite foldl_size. pose proof (sector_size_nonneg s). lia.
Qed.

Lemma fill_sectors_filled (tdat : bytes) (ss : list Sector.t) :
  Forall is_byte tdat →
  ∀ pos, 0 ≤ pos → pos + total_size ss ≤ Z.of_nat (length tdat) →
         Forall2 filled (fill_sectors tdat pos ss) ss.
Proof.
  intros Hb. induction ss as [|s ss IH]; intros pos Hpos Hlen; [constructor|].
  cbn [fill_sectors]. unfold total_size in Hlen. cbn [foldl] in Hlen.
  rewrite foldl_size in Hlen.
  pose proof (sector_size_nonneg s). pose proof (total_size_nonneg ss).
  constructor; [|apply IH; lia].
  split; [by destruct s as [? ? ? [] []]|]. split; [by destruct s as [? ? ? [] []]|].
  eexists. split; [reflexivity|]. unfold byte_slice. split.
  - by apply Forall_take, Forall_drop.
  - rewrite length_take, length_drop.
    change (sector_size (Sector.set_crc 0 _)) with (sector_size s). lia.
Qed.

Lemma spaced_distinct (ss : list Sector.t) :
  spaced ss →
  ∀ x y, x ∈ ss → y ∈ ss → Sector.start x = Sector.start y → x = y.
Proof.
  induction ss as [|s ss IH]; intros Hsp x y Hx Hy Hxy; [by apply elem_of_nil in Hx|].
  destruct Hsp as [Hs Hsp]. rewrite Forall_forall in Hs.
  apply elem_of_cons in Hx as [->|Hx], Hy as [->|Hy]; [done| | |by apply IH].
  - specialize (Hs _ Hy). lia.
  - specialize (Hs _ Hx). lia.
Qed.

Lemma spaced_bare (ss : list Sector.t) : spaced ss → spaced (bare <$> ss).
Proof.
  induction ss as [|s ss IH]; [done|]. intros [Hs Hss].
  cbn [fmap list_fmap spaced]. split; [|by apply IH].
  rewrite Forall_fmap. eapply Forall_impl; [exact Hs|]. by cbn.
Qed.

Lemma spaced_ascending (ss : list Sector.t) : spaced ss → ascending Sector.start ss.
Proof.
  induction ss as [|s ss IH]; [done|]. intros [Hs Hss]. split; [|by apply IH].
  eapply Forall_impl; [exact Hs|]. cbn. intros y Hy. lia.
Qed.

(** The sectors of [set_img_track], for sectors [ss] in the order of
    the track. *)
Lemma set_img_sectors (ss : list Sector.t) (tdat : bytes) :
  spaced ss →
  Forall is_byte tdat →
  total_size (sort_by (fun x => IDAM.r (Sector.idam x)) ss) ≤ Z.of_nat (length tdat) →
  Forall2 filled
    (sort_by Sector.start
       (fill_sectors tdat 0 (sort_by (fun x => IDAM.r (Sector.idam x)) ss)))
    ss.
Proof.
  intros Hsp Hb Hlen.
  set (ss1 := sort_by (fun x => IDAM.r (Sector.idam x)) ss) in *.
  set (ss2 := fill_sectors tdat 0 ss1).
  set (ss3 := sort_by Sector.start ss2).
  assert (H21 : Forall2 filled ss2 ss1) by (apply fill_sectors_filled; [done|done|lia]).
  assert (Hbare3 : bare <$> ss3 = bare <$> ss).
  { apply (ascending_perm_eq Sector.start).
    - unfold ss3. rewrite sort_by_perm.
      assert (bare <$> ss2 = bare <$> ss1) as ->.
      { clear -H21. induction H21 as [|? ? ? ? [Hbe _] _ IH]; [done|].
        cbn [fmap list_fmap]. by rewrite Hbe, IH. }
      unfold ss1. by rewrite sort_by_perm.
    - apply (ascending_fmap _ Sector.start); [done|]. apply sort_by_asc.
    - by apply spaced_ascending, spaced_bare.
    - by apply spaced_distinct, spaced_bare. }
  assert (Hall : Forall (fun s' => valid_sector s' = s'
                                   ∧ ∃ d, DAM.data (Sector.dam s') = Some d
                                          ∧ Forall is_byte d
                                          ∧ Z.of_nat (length d) = sector_size s') ss3).
  { unfold ss3. rewrite sort_by_perm. clear -H21.
    induction H21 as [|? ? ? ? [_ Hf] _ IH]; [done|]. by apply Forall_cons. }
  clearbody ss3. clear -Hbare3 Hall. revert ss Hbare3.
  induction Hall as [|s' ss' Hs' _ IH]; intros [|s ss] Hbare; try done.
  cbn [fmap list_fmap] in Hbare.
  assert (bare s' = bare s ∧ bare <$> ss' = bare <$> ss) as [Hb1 Hb2]
    by (split; congruence).
  constructor; [by split|by apply IH].
Qed.

Lemma filled_numbers (ss' ss : list Sector.t) :
  Forall2 filled ss' ss →
  (fun s => IDAM.r (Sector.idam s)) <$> ss' = (fun s => IDAM.r (Sector.idam s)) <$> ss.
Proof.
  induction 1 as [|s' s ? ? [Hbe _] _ IH]; [done|].
  cbn [fmap list_fmap]. destruct (bare_eq _ _ Hbe) as (_ & _ & _ & _ & E5 & _).
  unfold idam_body in E5. injection E5 as _ _ -> _. by rewrite IH.
Qed.

Lemma filled_valid (ss' ss : list Sector.t) :
  Forall2 filled ss' ss → Forall (fun s => valid_sector s = s) ss'.
Proof.
  induction 1 as [|s' s ? ? (_ & Hv & _) _ IH]; [done|]. by apply Forall_cons.
Qed.

(** [set_img_track] keeps a laid-out track laid out, and leaves valid
    checksums. *)
Lemma set_img_track_good (t : Track) (tdat : bytes) :
  laid_out t → Forall is_byte tdat →
  laid_out (set_img_track t tdat).1
  ∧ Forall (fun s => valid_sector s = s) (sectors (set_img_track t tdat).1)
  ∧ iams (set_img_track t tdat).1 = iams t.
Proof.
  intros (Hclock & His & Hgood & Hnd) Hb.
  assert (Hn : 0 ≤ default 0 (area_end <$> last (AreaIAM <$> iams t))
               ∧ good (default 0 (area_end <$> last (AreaIAM <$> iams t)))
                      (AreaSector <$> sectors t)).
  { destruct (iams t) as [|i [|]]; [by split| |simpl in His; lia].
    cbn [fmap list_fmap app good] in Hgood. destruct Hgood as [Hi Hrest].
    split; [|done]. exact (good_nonneg 0 (AreaIAM i) ltac:(lia) (conj Hi I)). }
  destruct Hn as [Hn Hgs].
  pose proof (good_spaced _ _ Hn Hgs) as Hsp.
  unfold laid_out, set_img_track. cbv zeta. unfold set_sectors.
  cbn [fst sectors iams has_clock set_lists].
  set (ss1 := sort_by (fun x => IDAM.r (Sector.idam x)) (sectors t)).
  fold (total_size ss1).
  set (tdat' := if Z.of_nat (length tdat) <? total_size ss1
                then tdat ++ replicate (Z.to_nat (total_size ss1 - Z.of_nat (length tdat))) 0
                else tdat).
  assert (Hb' : Forall is_byte tdat').
  { unfold tdat'. destruct (_ <? _); [|done]. apply Forall_app. split; [done|].
    apply replicate_byte. unfold is_byte. lia. }
  assert (Hlen : total_size ss1 ≤ Z.of_nat (length tdat')).
  { unfold tdat'. destruct (Z.ltb_spec (Z.of_nat (length tdat)) (total_size ss1)); [|lia].
    rewrite length_app, length_replicate. lia. }
  pose proof (set_img_sectors (sectors t) tdat' Hsp Hb' Hlen) as Hfill.
  fold ss1 in Hfill.
  set (ss3 := sort_by Sector.start (fill_sectors tdat' 0 ss1)) in *.
  split; [split; [done|split; [done|split]]|split; [|done]].
  - destruct (iams t) as [|i [|]]; [| |simpl in His; lia].
    + cbn [fmap list_fmap app] in *. by apply (good_filled _ _ Hfill).
    + cbn [fmap list_fmap app good] in *. destruct Hgood as [Hi Hrest].
      split; [done|]. by apply (good_filled _ _ Hfill).
  - by rewrite (filled_numbers _ _ Hfill).
  - exact (filled_valid _ _ Hfill).
Qed.

(** The ranges hold for a new configuration, and [add_param] keeps
    them. *)
Lemma init_in_ranges (name : string) : in_ranges (Formats.IBMTrackConfig_init name).
Proof.
  unfold in_ranges. cbn. repeat split; try lia; try done.
Qed.

Lemma size_code_range (fuel : nat) (n : Z) :
  ∀ s v, 0 ≤ s → s + Z.of_nat fuel ≤ 6 →
         Formats.size_code fuel n s = inr v → 0 ≤ v ≤ 6.
Proof.
  induction fuel as [|fuel IH]; intros s v Hs Hle; cbn [Formats.size_code];
    (destruct (n =? Z.shiftl 128 s); [intros [= <-]; lia|]); [done|].
  apply IH; lia.
Qed.

Lemma bps_element_range (x : string) (ss : list Z) :
  Formats.bps_element x = inr ss → Forall (fun n => 0 ≤ n ≤ 6) ss.
Proof.
  unfold Formats.bps_element. unfold_res.
  destruct (match Text.run_match x with Some _ => _ | None => _ end) as [e|nl]; [done|].
  destruct (Formats.size_code 6 nl.1 0) as [e|s] eqn:Hs; [done|]. intros [= <-].
  apply Forall_replicate. by apply (size_code_range 6 nl.1 0 s).
Qed.

Lemma bps_elements_range (xs : list string) :
  ∀ acc ss, Forall (fun n => 0 ≤ n ≤ 6) acc →
            Formats.bps_elements xs acc = inr ss →
            Forall (fun n => 0 ≤ n ≤ 6) ss.
Proof.
  induction xs as [|x xs IH]; intros acc ss Hacc; cbn [Formats.bps_elements].
  - by intros [= <-].
  - unfold_res. destruct (Formats.bps_element x) as [e|s] eqn:Hx; [done|].
    apply IH. apply Forall_app. split; [done|]. by apply bps_element_range in Hx.
Qed.

Ltac in_range_bounds :=
  repeat match goal with
         | H : Formats.in_range _ _ _ = true |- _ =>
             apply andb_prop in H as [?%Z.leb_le ?%Z.leb_le]
         end.

Ltac keep_ranges :=
  unfold in_ranges in *;
  cbn [Formats.secs Formats.sz Formats.id Formats.h Formats.interleave Formats.cskew
       Formats.hskew Formats.rpm Formats.gap1 Formats.gap2 Formats.gap3 Formats.gap4a
       Formats.rate Formats.set_secs Formats.set_sz Formats.set_id Formats.set_h
       Formats.set_interleave Formats.set_cskew Formats.set_hskew Formats.set_rpm
       Formats.set_gap1 Formats.set_gap2 Formats.set_gap3 Formats.set_gap4a
       Formats.set_iam Formats.set_rate];
  intuition (try lia; try done);
  match goal with H : _ = Some _ |- _ => injection H as <-; lia end.

Lemma add_param_in_ranges (c c' : Formats.IBMTrackConfig) (key val : string) :
  in_ranges c →
  Formats.IBMTrackConfig_add_param c key val = inr c' →
  in_ranges c'.
Proof.
  intros Hc. unfold Formats.IBMTrackConfig_add_param. unfold_res.
  destruct (String.eqb key "secs").
  { destruct (Text.int val) as [e|v]; [done|].
    destruct (Formats.in_range 0 v 256) eqn:Hv; [|done]. intros [= <-].
    in_range_bounds. keep_ranges. }
  destruct (String.eqb key "bps").
  { destruct (Formats.bps_elements _ _) as [e|ss] eqn:Hss; [done|]. intros [= <-].
    apply bps_elements_range in Hss; [|done]. keep_ranges. }
  destruct (String.eqb key "interleave").
  { destruct (Text.int val) as [e|v]; [done|].
    destruct (Formats.in_range 1 v 255) eqn:Hv; [|done]. intros [= <-].
    in_range_bounds. keep_ranges. }
  destruct (Formats.key_in key ["id"; "cskew"; "hskew"]).
  { destruct (Text.int val) as [e|v]; [done|].
    destruct (Formats.in_range 0 v 255) eqn:Hv; [|done]. intros [= <-].
    in_range_bounds.
    destruct (String.eqb key "id"); [keep_ranges|].
    destruct (String.eqb key "cskew"); keep_ranges. }
  destruct (Formats.key_in key ["gap1"; "gap2"; "gap3"; "gap4a"; "h"]).
  { destruct (String.eqb val "auto").
    - intros [= <-].
      destruct (String.eqb key "gap1"); [keep_ranges|].
      destruct (String.eqb key "gap2"); [keep_ranges|].
      destruct (String.eqb key "gap3"); [keep_ranges|].
      destruct (String.eqb key "gap4a"); keep_ranges.
    - destruct (Text.int val) as [e|v]; [done|].
      destruct (Formats.in_range 0 v 255) eqn:Hv; [|done]. intros [= <-].
      in_range_bounds.
      destruct (String.eqb key "gap1"); [keep_ranges|].
      destruct (String.eqb key "gap2"); [keep_ranges|].
      destruct (String.eqb key "gap3"); [keep_ranges|].
      destruct (String.eqb key "gap4a"); keep_ranges. }
  destruct (String.eqb key "iam").
  { destruct (Formats.key_in val ["yes"; "no"]); [|done]. intros [= <-]. keep_ranges. }
  destruct (Formats.key_in key ["rate"; "rpm"]); [|done].
  destruct (Text.int val) as [e|v]; [done|].
  destruct (Formats.in_range 1 v 2000) eqn:Hv; [|done]. intros [= <-].
  in_range_bounds.
  destruct (String.eqb key "rate"); keep_ranges.
Qed.

(** [finalise] keeps the ranges; the first time, it makes sure that a
    track with sectors has a sector size. *)
Lemma finalise_in_ranges (c c' : Formats.IBMTrackConfig) :
  in_ranges c →
  Formats.IBMTrackConfig_finalise c = inr c' →
  in_ranges c'
  ∧ (Formats.finalised c = false → Formats.secs c' = 0 ∨ Formats.sz c' ≠ []).
Proof.
  intros Hc. unfold Formats.IBMTrackConfig_finalise. unfold_res.
  destruct (Formats.finalised c); [by intros [= <-]|].
  destruct (Formats.iam c || Formats.is_None (Formats.gap1 c)); [|done].
  destruct ((Formats.secs c =? 0) || negb (length (Formats.sz c) =? 0)%nat) eqn:Hs;
    [|done].
  intros [= <-]. split; [done|]. intros _.
  cbn [Formats.secs Formats.sz Formats.set_finalised].
  apply orb_prop in Hs as [Hs|Hs]; [left; lia|right].
  apply negb_true_iff, Nat.eqb_neq in Hs. by destruct (Formats.sz c).
Qed.

(** *** The round trip *)

Lemma laid_out_ids (t : Track) : laid_out t → NoDup (sector_id <$> sectors t).
Proof.
  intros (_ & _ & _ & Hnd). apply (NoDup_fmap_1 (fun i : Z * Z * Z * Z => i.1.2)).
  rewrite <- list_fmap_compose. exact Hnd.
Qed.

(** Encoding a laid-out track and decoding its bits as one revolution:
    the index marks and the sectors come back with valid checksums,
    into empty lists as well as into the scratch copy of
    [verify_track]. *)
Lemma round_trip_laid_out (t : Track) (tlen : Z) :
  laid_out t →
  ∃ b, raw_track tlen t = inr b
       ∧ IBM_FM_decode_raw ([], []) (frombytes b) [Z.of_nat (length (frombytes b))]
         = inr (iams t, valid_sector <$> sectors t)
       ∧ (∃ rb, decode_raw (readback_track t) (frombytes b)
                           [Z.of_nat (length (frombytes b))] = inr rb
                ∧ raw_iams rb = iams t
                ∧ raw_sectors rb = valid_sector <$> sectors t
                ∧ sectors rb = valid_sector <$> sectors t)
       ∧ verify_track t (frombytes b) [Z.of_nat (length (frombytes b))]
         = inr (bool_decide (sectors t = valid_sector <$> sectors t)).
Proof.
  intros Hl. pose proof (laid_out_ids t Hl) as Hids.
  destruct Hl as (Hclock & His & Hgood & _).
  set (areas := (AreaIAM <$> iams t) ++ (AreaSector <$> sectors t)) in *.
  set (tail := tail_gap tlen (length (track_cells 0 areas))).
  assert (Htail : Forall is_byte tail).
  { apply replicate_byte. unfold is_byte, gapbyte. lia. }
  exists (cells_bytes (track_cells 0 areas ++ plain tail)).
  split; [by apply raw_track_laid_out|].
  fold (bits_of (track_cells 0 areas ++ plain tail)).
  split; [by apply decode_laid_out|].
  by apply verify_laid_out.
Qed.

Lemma valid_sectors_id (ss : list Sector.t) :
  Forall (fun s => valid_sector s = s) ss → valid_sector <$> ss = ss.
Proof.
  induction 1 as [|s ss Hs _ IH]; [done|]. cbn [fmap list_fmap]. by rewrite Hs, IH.
Qed.

(** A track as [from_format] leaves it carries placeholder sectors:
    they are written and read back, but with a sector on the track
    [verify_track] answers [False], since the checksums of the
    placeholders are 0xffff. *)
Lemma placeholder_track_verify (t : Track) (tlen : Z) :
  laid_out t →
  Forall (fun s => Sector.crc s = 65535) (sectors t) →
  ∃ b, raw_track tlen t = inr b
       ∧ IBM_FM_decode_raw ([], []) (frombytes b) [Z.of_nat (length (frombytes b))]
         = inr (iams t, valid_sector <$> sectors t)
       ∧ verify_track t (frombytes b) [Z.of_nat (length (frombytes b))]
         = inr (bool_decide (sectors t = [])).
Proof.
  intros Hl Hcrc.
  destruct (round_trip_laid_out t tlen Hl) as (b & Hraw & Hdec & _ & Hver).
  exists b. split; [done|]. split; [done|]. rewrite Hver. f_equal.
  destruct (sectors t) as [|s ss]; [done|].
  rewrite (bool_decide_eq_false_2 (s :: ss = [])) by done.
  apply bool_decide_eq_false_2. intros Heq.
  apply Forall_cons in Hcrc as [Hs _].
  cbn [fmap list_fmap] in Heq. injection Heq as Heq _.
  apply (f_equal Sector.crc) in Heq. rewrite Hs in Heq. done.
Qed.

(** C1 (amended): for a track that [from_format] builds from a
    configuration with values in the ranges of [add_param], for a
    cylinder and a head that fit a byte and sector numbers
    [id .. id + secs - 1] that fit a byte: [from_format] returns the
    track (the search of the sector map ends with [secs] units of
    fuel).  When [set_img_track] has filled it with bytes, [raw_track]
    returns a byte string, decoding its bits as one revolution gives
    back the index marks and the sectors of the track exactly, IDs and
    payloads, into empty lists as well as into the scratch copy of
    [verify_track], and [verify_track] answers [True].  The track as
    [from_format] has left it is written and read back as well, with
    its IDs and its placeholder payloads and with valid checksums, but
    [verify_track] answers [False] on it, unless it has no sector
    ([secs = 0]). *)
Theorem formatted_round_trip (fuel : nat) (c : Formats.IBMTrackConfig)
        (cyl0 head0 tlen : Z) (tdat : bytes) :
  in_ranges c →
  Formats.secs c = 0 ∨ Formats.sz c ≠ [] →
  is_byte cyl0 → is_byte head0 →
  Formats.id c + Formats.secs c ≤ 256 →
  (Z.to_nat (Formats.secs c) ≤ fuel)%nat →
  Forall is_byte tdat →
  ∃ t0 b,
    from_format fuel c cyl0 head0 = Some (inr t0)
    ∧ raw_track tlen (set_img_track t0 tdat).1 = inr b
    ∧ IBM_FM_decode_raw ([], []) (frombytes b) [Z.of_nat (length (frombytes b))]
      = inr (iams (set_img_track t0 tdat).1, sectors (set_img_track t0 tdat).1)
    ∧ (∃ rb, decode_raw (readback_track (set_img_track t0 tdat).1) (frombytes b)
                        [Z.of_nat (length (frombytes b))] = inr rb
             ∧ raw_sectors rb = sectors (set_img_track t0 tdat).1
             ∧ sectors rb = sectors (set_img_track t0 tdat).1)
    ∧ verify_track (set_img_track t0 tdat).1 (frombytes b)
                   [Z.of_nat (length (frombytes b))] = inr true
    ∧ ∃ b0,
        raw_track tlen t0 = inr b0
        ∧ IBM_FM_decode_raw ([], []) (frombytes b0) [Z.of_nat (length (frombytes b0))]
          = inr (iams t0, valid_sector <$> sectors t0)
        ∧ verify_track t0 (frombytes b0) [Z.of_nat (length (frombytes b0))]
          = inr (bool_decide (Formats.secs c = 0)).
Proof.
  intros Hr Hfin Hcyl Hhead Hfit Hfuel Htdat.
  destruct (from_format_good fuel c cyl0 head0 Hr Hfin Hcyl Hhead Hfit Hfuel)
    as (t0 & Hff & Hl0 & Hcrc & Hlen).
  destruct (set_img_track_good t0 tdat Hl0 Htdat) as (Hl & Hvalid & _).
  destruct (round_trip_laid_out _ tlen Hl) as (b & Hraw & Hdec & Hrb & Hver).
  rewrite (valid_sectors_id _ Hvalid) in Hdec, Hrb, Hver.
  rewrite bool_decide_eq_true_2 in Hver by done.
  exists t0, b. split; [done|]. split; [done|]. split; [done|].
  split; [|split; [done|]].
  - destruct Hrb as (rb & Hrb & _ & Hraws & Hss). by exists rb.
  - destruct (placeholder_track_verify t0 tlen Hl0 Hcrc) as (b0 & Hraw0 & Hdec0 & Hver0).
    exists b0. split; [done|]. split; [done|]. rewrite Hver0. f_equal.
    apply bool_decide_ext. rewrite <- Hlen. destruct (sectors t0); [done|].
    split; [done|]. simpl. lia.
Qed.

(** One sector of 128 bytes with the number 1, on track 0.0. *)
Definition one_sector : Formats.IBMTrackConfig :=
  Formats.set_sz [0] (Formats.set_secs 1 (Formats.IBMTrackConfig_init "ibm.fm")).

(** The track that [from_format] makes of it. *)
Definition one_sector_track : Track :=
  Eval vm_compute in
    match from_format 1 one_sector 0 0 with
    | Some (inr t) => t
    | _ => Track_init 0 0
    end.

Lemma one_sector_track_built : from_format 1 one_sector 0 0 = Some (inr one_sector_track).
Proof. vm_compute. reflexivity. Qed.

Lemma formatted_round_trip_witness :
  in_ranges one_sector
  ∧ (Formats.secs one_sector = 0 ∨ Formats.sz one_sector ≠ [])
  ∧ is_byte 0
  ∧ Formats.id one_sector + Formats.secs one_sector ≤ 256
  ∧ (Z.to_nat (Formats.secs one_sector) ≤ 1)%nat
  ∧ Forall is_byte [1; 2; 3]
  ∧ ∃ t0 b b0,
      from_format 1 one_sector 0 0 = Some (inr t0)
      ∧ raw_track 0 (set_img_track t0 [1; 2; 3]).1 = inr b
      ∧ verify_track (set_img_track t0 [1; 2; 3]).1 (frombytes b)
                     [Z.of_nat (length (frombytes b))] = inr true
      ∧ raw_track 0 t0 = inr b0
      ∧ verify_track t0 (frombytes b0) [Z.of_nat (length (frombytes b0))] = inr false.
Proof.
  assert (H1 : in_ranges one_sector).
  { unfold in_ranges, one_sector. simpl.
    repeat split; try lia; try discriminate.
    constructor; [lia|constructor]. }
  assert (H2 : Formats.secs one_sector = 0 ∨ Formats.sz one_sector ≠ []).
  { right. simpl. discriminate. }
  assert (H3 : is_byte 0) by (unfold is_byte; lia).
  assert (H4 : Formats.id one_sector + Formats.secs one_sector ≤ 256) by (simpl; lia).
  assert (H5 : (Z.to_nat (Formats.secs one_sector) ≤ 1)%nat) by (simpl; lia).
  assert (H6 : Forall is_byte [1; 2; 3]).
  { repeat constructor; unfold is_byte; lia. }
  split; [exact H1|]. split; [exact H2|]. split; [exact H3|]. split; [exact H4|].
  split; [exact H5|]. split; [exact H6|].
  destruct (formatted_round_trip 1 one_sector 0 0 0 [1; 2; 3] H1 H2 H3 H3 H4 H5 H6)
    as (t0 & b & Hff & Hraw & _ & _ & Hver & b0 & Hraw0 & _ & Hver0).
  exists t0, b, b0. split; [exact Hff|]. split; [exact Hraw|]. split; [exact Hver|].
  split; [exact Hraw0|exact Hver0].
Defined.

(** The bits that [raw_track] writes for the track of [one_sector],
    filled with the image [1; 2; 3], on a revolution of exactly the
    length of the track. *)
Definition one_sector_filled : Track := (set_img_track one_sector_track [1; 2; 3]).1.

Definition one_sector_bits : bitarray :=
  Eval vm_compute in
    match raw_track 0 one_sector_filled with
    | inr b => frombytes b
    | inl _ => []
    end.

Lemma one_sector_bits_written :
  frombytes <$> raw_track 0 one_sector_filled = inr one_sector_bits.
Proof. vm_compute. reflexivity. Qed.

(** [verify_track] on the track of [one_sector]: its own bits verify
    it, and the sector that was read stands for its one sector; bits
    that hold no mark do not verify it. *)
Lemma verify_track_iff_witness :
  from_format 1 one_sector 0 0 = Some (inr one_sector_track)
  ∧ frombytes <$> raw_track 0 one_sector_filled = inr one_sector_bits
  ∧ verify_track one_sector_filled one_sector_bits
                 [Z.of_nat (length one_sector_bits)] = inr true
  ∧ (∃ raw, IBM_FM_decode_raw ([], []) one_sector_bits
                              [Z.of_nat (length one_sector_bits)] = inr raw
            ∧ Forall (fun s => ∃ r, first_for raw.2 s = Some r ∧ verified_by r s)
                     (sectors one_sector_filled))
  ∧ verify_track one_sector_filled (frombytes (encode [255; 255])) [32] = inr false
  ∧ ¬ ∃ raw, IBM_FM_decode_raw ([], []) (frombytes (encode [255; 255])) [32] = inr raw
             ∧ Forall (fun s => ∃ r, first_for raw.2 s = Some r ∧ verified_by r s)
                      (sectors one_sector_filled).
Proof.
  assert (Hver : verify_track one_sector_filled one_sector_bits
                              [Z.of_nat (length one_sector_bits)] = inr true)
    by (vm_compute; reflexivity).
  assert (Hblank : verify_track one_sector_filled (frombytes (encode [255; 255])) [32]
                   = inr false) by (vm_compute; reflexivity).
  split; [exact one_sector_track_built|]. split; [exact one_sector_bits_written|].
  split; [exact Hver|].
  pose proof (verify_track_iff one_sector_filled one_sector_bits
                [Z.of_nat (length one_sector_bits)]) as (_ & _ & _ & Hown).
  pose proof (verify_track_iff one_sector_filled (frombytes (encode [255; 255])) [32])
    as (_ & _ & _ & Hno).
  split; [exact (proj2 (proj1 Hown Hver))|]. split; [exact Hblank|].
  intros Hraw. assert (Htrue : inr false = (inr true : res bool)).
  { rewrite <- Hblank. apply (proj2 Hno). split; [reflexivity|exact Hraw]. }
  discriminate Htrue.
Defined.

(** C5 as stated fails for the index marks.  The track of [one_sector]
    has an index mark, at bit-cell 736.  The readback below is what is
    written for the track from bit-cell 1200 on: it holds the sector
    and no index mark, the decoding finds no index mark in it, and
    [verify_track] answers [True]. *)
Lemma readback_without_index_mark_verifies :
  let bits := drop 1200 one_sector_bits in
  from_format 1 one_sector 0 0 = Some (inr one_sector_track)
  ∧ frombytes <$> raw_track 0 one_sector_filled = inr one_sector_bits
  ∧ iams one_sector_filled = [{| IAM.start := 736; IAM.end_ := 752 |}]
  ∧ itersearch iam_sync bits = []
  ∧ (∃ rb, decode_raw (readback_track one_sector_filled) bits [2544] = inr rb
           ∧ raw_iams rb = []
           ∧ iams rb = iams one_sector_filled)
  ∧ verify_track one_sector_filled bits [2544] = inr true.
Proof.
  intros bits.
  split; [exact one_sector_track_built|]. split; [exact one_sector_bits_written|].
  split; [reflexivity|]. split; [vm_compute; reflexivity|].
  split; [|vm_compute; reflexivity].
  eexists. split; [vm_compute; reflexivity|]. split; reflexivity.
Qed.

(** C1 as it stands: [add_param] and [finalise] accept two sectors
    numbered from 255, and [from_format] and [set_img_track] build the
    track; the second sector has the number 256, which is no byte, and
    [raw_track] raises [ValueError] instead of returning a bit stream. *)
Lemma sector_number_beyond_a_byte :
  ∃ c0 c1 c2 c t0,
    Formats.IBMTrackConfig_add_param (Formats.IBMTrackConfig_init "ibm.fm") "secs" "2"
    = inr c0
    ∧ Formats.IBMTrackConfig_add_param c0 "bps" "128" = inr c1
    ∧ Formats.IBMTrackConfig_add_param c1 "id" "255" = inr c2
    ∧ Formats.IBMTrackConfig_finalise c2 = inr c
    ∧ from_format 2 c 0 0 = Some (inr t0)
    ∧ (IDAM.r ∘ Sector.idam <$> sectors (set_img_track t0 []).1) = [255; 256]
    ∧ ∀ tlen, raw_track tlen (set_img_track t0 []).1
              = inl (ValueError "bytes must be in range(0, 256)").
Proof.
  do 5 eexists.
  split; [vm_compute; reflexivity|]. split; [vm_compute; reflexivity|].
  split; [vm_compute; reflexivity|]. split; [vm_compute; reflexivity|].
  split; [vm_compute; reflexivity|]. split; [vm_compute; reflexivity|].
  intros tlen. unfold raw_track.
  match goal with |- context [emit_areas ?a ?b] =>
    assert (emit_areas a b = inl (ValueError "bytes must be in range(0, 256)")) as ->
      by (vm_compute; reflexivity) end.
  reflexivity.
Qed.

End FMProps.

(** * Further properties of formats.py *)

Module ConfigProps.
Import Text Formats FormatsProps.

(** ** Track templates *)

(** The search for the size code of a [bps] value [n], from the code
    [s] on with [fuel] codes still to try. *)
Lemma size_code_from (fuel : nat) (n : Z) :
  ∀ s, 0 ≤ s → s + Z.of_nat fuel = 6 →
       match size_code fuel n s with
       | inr v => s ≤ v ≤ 6 ∧ n = Z.shiftl 128 v
       | inl e => e = Fatal "bps value out of range"
                  ∧ ∀ v, s ≤ v ≤ 6 → n ≠ Z.shiftl 128 v
       end.
Proof.
  induction fuel as [|fuel IH]; intros s Hs Hle; cbn [size_code];
    destruct (Z.eqb_spec n (Z.shiftl 128 s)) as [Heq|Hne].
  - split; [lia|done].
  - split; [done|]. intros v Hv. by replace v with s by lia.
  - split; [lia|done].
  - specialize (IH (s + 1) ltac:(lia) ltac:(lia)).
    destruct (size_code fuel n (s + 1)) as [e|v].
    + destruct IH as [-> IH]. split; [done|]. intros v Hv.
      destruct (Z.eq_dec v s) as [->|Hvs]; [done|]. apply IH. lia.
    + destruct IH as [Hv ->]. split; [lia|done].
Qed.

(** X1: the loop that turns a [bps] value into a size code ends for
    every value [n]: with the code [s] in 0..6 for which [n = 128 << s]
    when there is one, and with the error [bps value out of range] when
    there is none. *)
Theorem size_code_spec (n : Z) :
  match size_code 6 n 0 with
  | inr s => 0 ≤ s ≤ 6 ∧ n = Z.shiftl 128 s
  | inl e => e = Fatal "bps value out of range"
             ∧ ∀ s, 0 ≤ s ≤ 6 → n ≠ Z.shiftl 128 s
  end.
Proof. apply (size_code_from 6 n 0); lia. Qed.

(** The templates that a caller can reach from a new template by
    [add_param] and [finalise]. *)
Inductive reachable (name : string) : IBMTrackConfig → Prop :=
| reach_init : reachable name (IBMTrackConfig_init name)
| reach_add_param (c c' : IBMTrackConfig) (key val : string) :
    reachable name c →
    IBMTrackConfig_add_param c key val = inr c' →
    reachable name c'
| reach_finalise (c c' : IBMTrackConfig) :
    reachable name c →
    IBMTrackConfig_finalise c = inr c' →
    reachable name c'.

(** X2: whatever parameters a template has accepted, its values are
    in the ranges that [add_param] checks: [secs] in 0..256, every size
    code in 0..6, [id], [cskew], [hskew] and the gaps and [h] that are
    set in 0..255, [interleave] in 1..255, [rpm] in 1..2000 and [rate]
    in 0..2000 (0 being the automatic rate); and its format name is the
    one it was created with. *)
Theorem reachable_in_ranges (name : string) (c : IBMTrackConfig) :
  reachable name c → FMProps.in_ranges c ∧ format_name c = name.
Proof.
  induction 1 as [|c c' key val _ [IH1 IH2] Hadd|c c' _ [IH1 IH2] Hfin].
  - split; [apply FMProps.init_in_ranges|done].
  - split; [by apply (FMProps.add_param_in_ranges c c' key val)|].
    revert Hadd. unfold IBMTrackConfig_add_param. unfold_res.
    repeat match goal with
           | |- context [match ?x with inl _ => _ | inr _ => _ end] =>
               destruct x; try done
           | |- context [if ?b then _ else _] => destruct b; try done
           end; by intros [= <-].
  - split; [by apply (FMProps.finalise_in_ranges c c')|].
    revert Hfin. unfold IBMTrackConfig_finalise. unfold_res.
    repeat match goal with
           | |- context [if ?b then _ else _] => destruct b; try done
           end; by intros [= <-].
Qed.

Lemma reachable_in_ranges_witness :
  ∃ c, reachable "ibm.fm" c
       ∧ secs c = 9
       ∧ FMProps.in_ranges c ∧ format_name c = "ibm.fm".
Proof.
  assert (Hr : reachable "ibm.fm"
                 (set_secs 9 (IBMTrackConfig_init "ibm.fm"))).
  { apply (reach_add_param "ibm.fm" (IBMTrackConfig_init "ibm.fm") _ "secs" "9").
    - apply reach_init.
    - reflexivity. }
  eexists. split; [exact Hr|]. split; [reflexivity|].
  exact (reachable_in_ranges "ibm.fm" _ Hr).
Defined.

(** X3: [finalise] only sets the flag, and a template that it has
    accepted is accepted again, unchanged. *)
Theorem finalise_idempotent (c c' : IBMTrackConfig) :
  IBMTrackConfig_finalise c = inr c' →
  c' = set_finalised true c ∧ IBMTrackConfig_finalise c' = inr c'.
Proof.
  unfold IBMTrackConfig_finalise. unfold_res.
  destruct (finalised c) eqn:Hf.
  - intros [= <-]. rewrite Hf. split; [|done]. destruct c. cbn in *. by subst.
  - destruct (iam c || is_None (gap1 c)); [|done].
    destruct ((secs c =? 0) || negb (length (sz c) =? 0)%nat); [|done].
    by intros [= <-].
Qed.

Lemma finalise_idempotent_witness :
  let c := IBMTrackConfig_init "ibm.fm" in
  IBMTrackConfig_finalise c = inr (set_finalised true c)
  ∧ IBMTrackConfig_finalise (set_finalised true c) = inr (set_finalised true c).
Proof.
  intros c.
  assert (H : IBMTrackConfig_finalise c = inr (set_finalised true c)) by reflexivity.
  split; [exact H|]. exact (proj2 (finalise_idempotent c _ H)).
Defined.

Definition size_error : exn := Fatal "sector size not specified".

(** X4: [finalise] raises [sector size not specified] exactly for the
    templates that are not yet finalised, pass the gap1 check, have
    sectors and have no sector size. *)
Theorem finalise_size_error_iff (c : IBMTrackConfig) :
  IBMTrackConfig_finalise c = inl size_error
  ↔ finalised c = false ∧ (iam c = true ∨ gap1 c = None)
    ∧ secs c ≠ 0 ∧ sz c = [].
Proof.
  unfold IBMTrackConfig_finalise, size_error. unfold_res.
  destruct (finalised c); [split; [done|by intros [? _]]|].
  destruct (iam c), (gap1 c) as [g|]; cbn [orb is_None];
    try (split; [done|intros (_ & [?|?] & _); done]).
  all: destruct (Z.eqb_spec (secs c) 0) as [H0|H0]; cbn [orb];
    [split; [done|by intros (_ & _ & ? & _)]|].
  all: destruct (sz c) as [|x l]; cbn [length Nat.eqb negb];
    [split; [intros _; repeat split; auto; done|done]
    |split; [done|by intros (_ & _ & _ & ?)]].
Qed.

(** ** The disk configuration and the parser *)

Section Parsing.
Context `{Externals}.

(** The values of a disk configuration are in the ranges that
    [DiskConfig.add_param] checks. *)
Definition disk_ok (d : DiskConfig) : Prop :=
  (∀ c, cyls d = Some c → 1 ≤ c ≤ 255)
  ∧ (∀ hd, heads d = Some hd → 1 ≤ hd ≤ 2)
  ∧ 1 ≤ step d ≤ 4.

Lemma disk_add_param_ok (d d' : DiskConfig) (key val : string) :
  disk_ok d → DiskConfig_add_param d key val = inr d' → disk_ok d'.
Proof.
  intros (Hc & Hh & Hs). unfold DiskConfig_add_param. unfold_res.
  destruct (String.eqb key "cyls").
  { destruct (int val) as [e|v]; [done|].
    destruct (in_range 1 v 255) eqn:Hv; [|done]. intros [= <-].
    apply andb_prop in Hv as [?%Z.leb_le ?%Z.leb_le].
    split; [|by split]. cbn. intros ? [= <-]. lia. }
  destruct (String.eqb key "heads").
  { destruct (int val) as [e|v]; [done|].
    destruct (in_range 1 v 2) eqn:Hv; [|done]. intros [= <-].
    apply andb_prop in Hv as [?%Z.leb_le ?%Z.leb_le].
    split; [done|]. split; [|done]. cbn. intros ? [= <-]. lia. }
  destruct (String.eqb key "step"); [|done].
  destruct (int val) as [e|v]; [done|].
  destruct (in_range 1 v 4) eqn:Hv; [|done]. intros [= <-].
  apply andb_prop in Hv as [?%Z.leb_le ?%Z.leb_le].
  split; [done|]. split; [done|]. cbn. lia.
Qed.

Definition state_ok (st : State) : Prop :=
  ∀ d, disk_config st = Some d → disk_ok d.

Lemma disk_init_ok : disk_ok DiskConfig_init.
Proof. repeat split; cbn; try done; lia. Qed.

Lemma process_line_ok (name : string) (st st' : State) (l : string) :
  state_ok st → process_line name st l = inr st' → state_ok st'.
Proof.
  intros Hst. unfold process_line. unfold_res.
  destruct (String.eqb (strip_comment l) ""); [by intros [= <-]|].
  destruct (parse_mode st).
  - destruct (disk_match _) as [n|]; [|done]. intros [= <-] d. cbn.
    destruct (String.eqb n name); [|by apply Hst].
    intros [= <-]. apply disk_init_ok.
  - destruct (String.eqb _ "end"); [intros [= <-]; exact Hst|].
    destruct (tracks_match _) as [[spec fmt_name]|].
    + destruct (negb (active st)); [intros [= <-]; exact Hst|].
      destruct (disk_config st) as [d|] eqn:Hd; [|done].
      destruct (negb (is_None (cyls d))); [|done].
      destruct (negb (is_None (heads d))); [|done].
      destruct (mk_track_config fmt_name); [done|].
      destruct (assign_specs _ _ _ _ _); [done|].
      intros [= <-] d'. cbn. intros [= <-]. exact (Hst d Hd).
    + destruct (negb (active st)); [intros [= <-]; exact Hst|].
      destruct (keyval_match _ _) as [[key val]|]; [|done].
      destruct (disk_config st) as [d|] eqn:Hd; [|done].
      destruct (DiskConfig_add_param d key val) as [e|d1] eqn:Hadd; [done|].
      intros [= <-] d'. cbn. intros [= <-].
      exact (disk_add_param_ok d d1 key val (Hst d Hd) Hadd).
  - destruct (String.eqb _ "end").
    + destruct (track_config st); [|intros [= <-]; exact Hst].
      destruct (store st !! _); [|done].
      destruct (TrackConfig_finalise _); [done|]. intros [= <-]. exact Hst.
    + destruct (negb (active st)); [intros [= <-]; exact Hst|].
      destruct (keyval_match _ _) as [[key val]|]; [|done].
      destruct (option_bind _ _ _ _); [|done].
      destruct (TrackConfig_add_param _ _ _); [done|]. intros [= <-]. exact Hst.
Qed.

Lemma parse_lines_ok (name cfg : string) (lines : list string) :
  ∀ k st st', state_ok st → parse_lines name cfg k lines st = inr st' → state_ok st'.
Proof.
  induction lines as [|l lines IH]; intros k st st' Hst; cbn [parse_lines].
  - by intros [= <-].
  - destruct (process_line name st l) as [e|st1] eqn:Hl; [done|].
    apply IH. by apply (process_line_ok name st st1 l).
Qed.

(** X5: a [Format] that [get_format] returns has its cylinder count
    in 1..255, its head count in 1..2 and its step in 1..4, and at least
    one position of its track map has a template. *)
Theorem get_format_geometry (name cfg : string) (lines : list string) (f : Format) :
  get_format name lines cfg = inr (Some f) →
  ∃ c hd, cyls (fmt f) = Some c ∧ heads (fmt f) = Some hd
          ∧ 1 ≤ c ≤ 255 ∧ 1 ≤ hd ≤ 2 ∧ 1 ≤ step (fmt f) ≤ 4
          ∧ track_map (fmt f) ≠ ∅.
Proof.
  unfold get_format. unfold_res.
  destruct (parse_lines name cfg 1 lines State_init) as [e|st] eqn:Hrun; [done|].
  destruct (disk_config st) as [d|] eqn:Hd; [|done].
  assert (Hok : disk_ok d).
  { apply (parse_lines_ok name cfg lines 1 State_init st); [|done|done].
    intros d'. by cbn. }
  unfold DiskConfig_finalise. unfold_res.
  destruct (cyls d) as [c|] eqn:Hc; [|done]. destruct (heads d) as [hd|] eqn:Hh; [|done].
  cbn [is_None negb]. unfold Format_init. unfold_res.
  destruct (DiskConfig_default_revs (store st) d) as [e|revs] eqn:Hrevs; [done|].
  destruct (trackset d) as [e|ts]; [done|]. intros [= <-]. cbn [fmt].
  destruct Hok as (Hc' & Hh' & Hs).
  exists c, hd. repeat split; try done;
    try (by apply Hc'); try (by apply Hh'); try lia.
  intros Hempty. unfold DiskConfig_default_revs in Hrevs.
  by rewrite Hempty, map_to_list_empty in Hrevs.
Qed.

(** The head of an element of a tracks directive is 0 or 1. *)
Lemma t_match_head (x s : string) (e : option string) (hd : string) :
  t_match x = Some (s, e, Some hd) → digits_val hd = 0 ∨ digits_val hd = 1.
Proof.
  unfold t_match. destruct (span1 is_digit x) as [[s0 r]|]; [|done].
  cbn [mbind option_bind].
  destruct (match r with String "-" r' => _ | _ => _ end) as [e0 r0].
  destruct r0 as [|a [|c0 r1]]; [done|by destruct a as [[] [] [] [] [] [] [] []]|].
  destruct (Ascii.eqb_spec a "."); [subst|by destruct a as [[] [] [] [] [] [] [] []]].
  unfold one_of. cbn [list_ascii_of_string existsb]. destruct (Ascii.eqb_spec c0 "0") as [->|?]; cbn.
  - intros [= _ _ <-]. by left.
  - destruct (Ascii.eqb_spec c0 "1") as [->|?]; cbn; [|done].
    intros [= _ _ <-]. by right.
Qed.

Lemma elem_of_range_from (s e i : Z) : i ∈ range_from s e → s ≤ i < e.
Proof.
  unfold range_from. intros (j & -> & Hj)%list_elem_of_fmap.
  apply elem_of_range in Hj. lia.
Qed.

(** The positions that an element names are on the disk. *)
Lemma spec_positions_on_disk (ncyl nhead : Z) (x : string) (ps : list (Z * Z)) :
  spec_positions ncyl nhead x = inr ps → Forall (on_disk ncyl nhead) ps.
Proof.
  unfold spec_positions. destruct (t_match x) as [[[s e] hd]|] eqn:Hm; [|done].
  unfold_res.
  set (sv := digits_val s). set (ev := match e with None => sv | Some e => digits_val e end).
  destruct (match hd with None => _ | Some _ => _ end) as [err|hs] eqn:Hhs; [done|].
  destruct (_ && _) eqn:Hchk; [|done]. intros [= <-].
  repeat (apply andb_prop in Hchk as [Hchk ?]).
  assert (Hheads : Forall (fun h => 0 ≤ h < nhead) hs).
  { destruct hd as [hd|].
    - destruct (Z.ltb_spec (digits_val hd) nhead); [|done]. injection Hhs as <-.
      apply Forall_cons. split; [|by apply Forall_nil].
      destruct (t_match_head _ _ _ _ Hm); lia.
    - injection Hhs as <-. apply Forall_forall. intros h. apply elem_of_range. }
  apply Forall_forall. intros [c h0] Hin.
  apply list_elem_of_bind in Hin as (c' & Hin & Hc').
  apply list_elem_of_bind in Hin as (h' & Hin & Hh').
  apply list_elem_of_singleton in Hin as [= -> ->].
  apply elem_of_range_from in Hc'. rewrite Forall_forall in Hheads.
  specialize (Hheads _ Hh'). split; cbn; lia.
Qed.

(** X6: a tracks directive gives its template to positions of the
    disk only: after the directive a position has the template it had
    before, or it is a position on the disk, cylinder below [ncyl] and
    head below [nhead], and has the template of the directive. *)
Theorem tracks_directive_stays_on_disk
        (ncyl nhead : Z) (tc : nat) (xs : list string)
        (m m' : gmap (Z * Z) nat) (pos : Z * Z) (v : nat) :
  assign_specs ncyl nhead tc m xs = inr m' →
  m' !! pos = Some v →
  m !! pos = Some v ∨ (v = tc ∧ on_disk ncyl nhead pos).
Proof.
  revert m. induction xs as [|x xs IH]; intros m Hrun Hv; cbn [assign_specs] in Hrun.
  - injection Hrun as <-. by left.
  - unfold_res. destruct (assign_spec ncyl nhead tc m x) as [e|m1] eqn:Hx; [done|].
    destruct (IH _ Hrun Hv) as [Hm1|?]; [|by right].
    unfold assign_spec in Hx. destruct (String.eqb x "*").
    + injection Hx as <-. rewrite assign_star_lookup in Hm1.
      destruct (m !! pos); [by left|].
      destruct (decide (on_disk ncyl nhead pos)); [|done].
      injection Hm1 as <-. by right.
    + unfold assign_range in Hx. unfold_res.
      destruct (spec_positions ncyl nhead x) as [e|ps] eqn:Hps; [done|].
      injection Hx as <-. rewrite assign_positions_lookup in Hm1.
      destruct (decide (pos ∈ ps)) as [Hin|]; [|by left].
      injection Hm1 as <-. right. split; [done|].
      apply spec_positions_on_disk in Hps. rewrite Forall_forall in Hps. by apply Hps.
Qed.

(** X9: in the section of a disk that is not the requested one no
    line is validated: in the modes [Disk] and [Track] an inactive
    parser accepts every line, stays inactive and changes neither the
    disk configuration nor the templates. *)
Theorem inactive_section_not_validated (name : string) (st : State) (l : string) :
  active st = false →
  parse_mode st ≠ Outer →
  track_config st = None →
  ∃ st', process_line name st l = inr st'
         ∧ active st' = false
         ∧ track_config st' = None
         ∧ disk_config st' = disk_config st
         ∧ store st' = store st.
Proof.
  intros Hact Hmode Htc. unfold process_line. unfold_res.
  destruct (String.eqb (strip_comment l) ""); [by exists st|].
  rewrite Hact, Htc. cbn [negb].
  destruct (parse_mode st); [done| |].
  - destruct (String.eqb _ "end"); [by eexists|].
    destruct (tracks_match _) as [[spec fmt_name]|]; [|by exists st].
    eexists. split; [reflexivity|]. by cbn.
  - destruct (String.eqb _ "end"); [|by exists st].
    eexists. split; [reflexivity|]. by cbn.
Qed.

End Parsing.

(** ** Lines, comments and the listing of the formats *)

Lemma append_cons (c : ascii) (s r : string) : String c s +:+ r = String c (s +:+ r).
Proof. reflexivity. Qed.

Lemma append_nil_r (s : string) : s +:+ "" = s.
Proof. induction s as [|c s IH]; [done|]. by rewrite append_cons, IH. Qed.

Lemma append_assoc (a b c : string) : (a +:+ b) +:+ c = a +:+ (b +:+ c).
Proof. induction a as [|x a IH]; [done|]. by rewrite !append_cons, IH. Qed.

Lemma span_append (p : ascii → bool) (s : string) : (span p s).1 +:+ (span p s).2 = s.
Proof.
  induction s as [|c s IH]; [done|]. cbn [span].
  destruct (p c); [|done]. destruct (span p s) as [a b]. cbn [fst snd] in *.
  by rewrite append_cons, IH.
Qed.

(** The run ends inside [s]: what follows [s] does not matter. *)
Lemma span_stop (p : ascii → bool) (s rest : string) :
  (span p s).2 ≠ "" →
  span p (s +:+ rest) = ((span p s).1, (span p s).2 +:+ rest).
Proof.
  induction s as [|c s IH]; [done|]. rewrite append_cons. cbn [span].
  destruct (p c); [|done]. destruct (span p s) as [a b]. cbn [fst snd] in *.
  intros Hb. by rewrite (IH Hb).
Qed.

(** The run takes all of [s]: it goes on in what follows. *)
Lemma span_all (p : ascii → bool) (s rest : string) :
  (span p s).2 = "" →
  span p (s +:+ rest) = ((span p s).1 +:+ (span p rest).1, (span p rest).2).
Proof.
  induction s as [|c s IH].
  - intros _. change ("" +:+ rest) with rest. by destruct (span p rest).
  - rewrite append_cons. cbn [span].
    destruct (p c); [|done]. destruct (span p s) as [a b]. cbn [fst snd] in *.
    intros Hb. by rewrite (IH Hb).
Qed.

(** The head of a string satisfies [q]. *)
Definition head_is (q : ascii → bool) (s : string) : Prop :=
  match s with
  | EmptyString => True
  | String c _ => q c = true
  end.

Lemma span_rest_head (p : ascii → bool) (s : string) :
  head_is (fun c => negb (p c)) (span p s).2.
Proof.
  induction s as [|c s IH]; [done|]. cbn [span].
  destruct (p c) eqn:Hc; [by destruct (span p s)|]. cbn. by rewrite Hc.
Qed.

Lemma span_none (p : ascii → bool) (s : string) :
  head_is (fun c => negb (p c)) s → span p s = ("", s).
Proof. destruct s as [|c s]; [done|]. cbn. by destruct (p c). Qed.

Lemma head_is_prefix (q p : ascii → bool) (s : string) :
  head_is q s → head_is q (span p s).1.
Proof.
  destruct s as [|c s]; [done|]. cbn [span]. intros Hq.
  destruct (p c); [by destruct (span p s)|done].
Qed.

Lemma head_is_append (q : ascii → bool) (a b : string) :
  head_is q a → head_is q b → head_is q (a +:+ b).
Proof. by destruct a. Qed.

Lemma head_is_impl (q q' : ascii → bool) (s : string) :
  (∀ c, q c = true → q' c = true) → head_is q s → head_is q' s.
Proof. intros Hq. destruct s; [done|]. cbn. apply Hq. Qed.

(** What [rstrip] removes starts with a blank. *)
Lemma rstrip_if_append (p : ascii → bool) (s : string) :
  ∃ w, s = rstrip_if p s +:+ w ∧ head_is p w.
Proof.
  induction s as [|c s (w & Hs & Hw)]; [by exists ""|]. cbn [rstrip_if].
  destruct (rstrip_if p s) as [|c' r] eqn:Hr.
  - destruct (p c) eqn:Hc.
    + by exists (String c s).
    + exists w. split; [|done]. rewrite append_cons. by rewrite <- Hs.
  - exists w. split; [|done]. rewrite append_cons. by rewrite <- Hs.
Qed.

Lemma literal_append (lit t r rest : string) :
  literal lit t = Some r → literal lit (t +:+ rest) = Some (r +:+ rest).
Proof.
  revert t. induction lit as [|a lit IH]; intros t; cbn [literal].
  - by intros [= ->].
  - destruct t as [|b t]; [done|]. rewrite append_cons. cbn [literal].
    destruct (Ascii.eqb a b); [apply IH|done].
Qed.

(** The disk pattern does not look behind the name: a text that
    follows it and does not start with a name character changes
    nothing. *)
Lemma disk_match_append (t rest n : string) :
  disk_match t = Some n →
  head_is (fun c => negb (is_name_char c)) rest →
  disk_match (t +:+ rest) = Some n.
Proof.
  unfold disk_match. intros Hm Hrest.
  destruct (literal "disk" t) as [r|] eqn:Hlit; [|done].
  rewrite (literal_append _ _ _ rest Hlit). cbn [mbind option_bind] in *.
  unfold span1 in *.
  pose proof (span_append is_space r) as Hr.
  destruct (span is_space r) as [sp r2] eqn:Hsp. cbn [fst snd] in Hr.
  destruct sp as [|c sp]; [done|]. cbn [mbind option_bind] in Hm.
  pose proof (span_append is_name_char r2) as Hr2.
  destruct (span is_name_char r2) as [nm r3] eqn:Hnm. cbn [fst snd] in Hr2.
  destruct nm as [|c' nm]; [done|]. cbn [mbind option_bind] in Hm.
  injection Hm as <-.
  assert (Hne : r2 ≠ "") by (by rewrite <- Hr2).
  pose proof (span_stop is_space r rest) as Hstop. rewrite Hsp in Hstop.
  rewrite (Hstop Hne). cbn [fst snd mbind option_bind].
  destruct (decide (r3 = "")) as [->|Hr3].
  - pose proof (span_all is_name_char r2 rest) as Hall. rewrite Hnm in Hall.
    rewrite (Hall eq_refl), (span_none _ _ Hrest). cbn [fst snd].
    by rewrite append_nil_r.
  - pose proof (span_stop is_name_char r2 rest) as Hst2. rewrite Hnm in Hst2.
    by rewrite (Hst2 Hr3).
Qed.

Lemma space_not_name (c : ascii) : is_space c = true → is_name_char c = false.
Proof. destruct c as [[] [] [] [] [] [] [] []]; by vm_compute. Qed.

Lemma hash_not_name (c : ascii) :
  negb (negb (Ascii.eqb c "#")) = true → is_name_char c = false.
Proof.
  rewrite negb_involutive. intros Hc. apply Ascii.eqb_eq in Hc. by subst.
Qed.

(** A line that the parser takes for the start of a disk section is a
    line that the listing takes for one, with the same name. *)
Lemma disk_match_line (l n : string) :
  disk_match (strip_comment l) = Some n → disk_line_match l = Some n.
Proof.
  unfold strip_comment, strip, disk_line_match.
  set (l0 := (span is_space l).2).
  set (nohash := fun c => negb (Ascii.eqb c "#")).
  set (u := (span nohash l0).1).
  assert (Hl0 : head_is (fun c => negb (is_space c)) l0) by apply span_rest_head.
  assert (Hu : head_is (fun c => negb (is_space c)) u) by by apply head_is_prefix.
  rewrite (span_none _ _ Hu). cbn [snd].
  destruct (rstrip_if_append is_space u) as (w & Hw & Hhead).
  intros Hm.
  assert (l0 = rstrip_if is_space u +:+ (w +:+ (span nohash l0).2)) as ->.
  { rewrite <- append_assoc, <- Hw. symmetry. apply span_append. }
  apply disk_match_append; [done|]. apply head_is_append.
  - eapply head_is_impl; [|exact Hhead]. intros c Hc. cbn.
    by rewrite (space_not_name c Hc).
  - eapply head_is_impl; [|apply span_rest_head]. intros c Hc. cbn.
    by rewrite (hash_not_name c Hc).
Qed.

Lemma insert_str_perm (x : string) (l : list string) : insert_str x l ≡ₚ x :: l.
Proof.
  induction l as [|y l IH]; [done|]. cbn [insert_str].
  destruct (String.ltb x y); [done|]. rewrite IH. apply Permutation_swap.
Qed.

Lemma sort_str_perm (l : list string) : sort_str l ≡ₚ l.
Proof.
  unfold sort_str.
  assert (∀ acc, foldl (fun acc x => insert_str x acc) acc l ≡ₚ acc ++ l) as ->.
  { induction l as [|x l IH]; intros acc; cbn [foldl]; [by rewrite app_nil_r|].
    rewrite IH, insert_str_perm. by rewrite <- Permutation_middle. }
  done.
Qed.

Section Listing.
Context `{Externals}.

(** A line creates the disk configuration only when it starts the
    section of the requested disk. *)
Lemma process_line_creates (name : string) (st st' : State) (l : string) :
  process_line name st l = inr st' →
  disk_config st = None →
  disk_config st' = None ∨ disk_match (strip_comment l) = Some name.
Proof.
  intros Hrun Hnone. revert Hrun. unfold process_line. unfold_res.
  destruct (String.eqb (strip_comment l) ""); [intros [= <-]; by left|].
  rewrite Hnone. destruct (parse_mode st).
  - destruct (disk_match _) as [n|]; [|done]. intros [= <-]. cbn.
    destruct (String.eqb_spec n name) as [->|]; [by right|by left].
  - destruct (String.eqb _ "end"); [intros [= <-]; by left|].
    destruct (tracks_match _) as [[spec fmt_name]|].
    + destruct (negb (active st)); [intros [= <-]; by left|done].
    + destruct (negb (active st)); [intros [= <-]; by left|].
      by destruct (keyval_match _ _) as [[key val]|].
  - destruct (String.eqb _ "end").
    + destruct (track_config st); [|intros [= <-]; by left].
      destruct (store st !! _); [|done].
      destruct (TrackConfig_finalise _); [done|]. intros [= <-]. by left.
    + destruct (negb (active st)); [intros [= <-]; by left|].
      destruct (keyval_match _ _) as [[key val]|]; [|done].
      destruct (option_bind _ _ _ _); [|done].
      destruct (TrackConfig_add_param _ _ _); [done|]. intros [= <-]. by left.
Qed.

Lemma parse_lines_creates (name cfg : string) (lines : list string) :
  ∀ k st st' d,
    parse_lines name cfg k lines st = inr st' →
    disk_config st = None →
    disk_config st' = Some d →
    ∃ l, l ∈ lines ∧ disk_match (strip_comment l) = Some name.
Proof.
  induction lines as [|l lines IH]; intros k st st' d; cbn [parse_lines].
  - intros [= <-] Hn Hs. congruence.
  - destruct (process_line name st l) as [e|st1] eqn:Hl; [done|].
    intros Hrun Hnone Hsome.
    destruct (process_line_creates name st st1 l Hl Hnone) as [Hn1|Hm].
    + destruct (IH _ _ _ _ Hrun Hn1 Hsome) as (l' & Hin & Hm).
      exists l'. split; [by apply list_elem_of_further|done].
    + exists l. split; [apply list_elem_of_here|done].
Qed.

(** X7: a format that [get_format] loads from a document is in the
    listing that [print_formats] makes of the document: the entry of
    two blanks and the name is in the sorted list; and no entry of the
    list is empty, so [print_formats] prints them all. *)
Theorem loaded_format_is_listed (name cfg : string) (lines : list string) (f : Format) :
  get_format name lines cfg = inr (Some f) →
  ("  " +:+ name) ∈ listed_formats lines
  ∧ print_formats lines = join newline (listed_formats lines).
Proof.
  intros Hget. split.
  - revert Hget. unfold get_format. unfold_res.
    destruct (parse_lines name cfg 1 lines State_init) as [e|st] eqn:Hrun; [done|].
    destruct (disk_config st) as [d|] eqn:Hd; [|done]. intros _.
    destruct (parse_lines_creates name cfg lines 1 State_init st d Hrun eq_refl Hd)
      as (l & Hin & Hm).
    unfold listed_formats. rewrite sort_str_perm.
    apply list_elem_of_omap. exists l. split; [done|].
    by rewrite (disk_match_line l name Hm).
  - unfold print_formats. f_equal.
    assert (Hall : Forall (fun s => s ≠ "") (listed_formats lines)).
    { unfold listed_formats. rewrite sort_str_perm. apply Forall_forall.
      intros s (l & _ & Hs)%list_elem_of_omap.
      destruct (disk_line_match l); [|done]. by injection Hs as <-. }
    induction Hall as [|s ss Hs _ IH]; [done|].
    by rewrite filter_cons_True, IH.
Qed.

(** X8: what follows a hash sign is a comment: a line with a comment
    behind a text without hash sign is processed as the text alone, in
    every state of the parser. *)
Theorem trailing_comment_ignored (name : string) (st : State) (body text : string) :
  "#"%char ∉ list_ascii_of_string body →
  process_line name st (body +:+ "#" +:+ text) = process_line name st body.
Proof.
  intros Hfree. set (nohash := fun c => negb (Ascii.eqb c "#")) in *.
  assert (Hbody : (span nohash body).2 = "").
  { clear -Hfree. induction body as [|c body IH]; [done|].
    cbn [list_ascii_of_string] in Hfree. apply not_elem_of_cons in Hfree as [Hc Hfree].
    cbn [span]. unfold nohash at 1.
    destruct (Ascii.eqb_spec c "#") as [->|_]; [done|]. cbn [negb].
    specialize (IH Hfree). by destruct (span nohash body). }
  assert (Heq : strip_comment (body +:+ "#" +:+ text) = strip_comment body).
  { unfold strip_comment. f_equal. fold nohash.
    assert (Hsuffix : (span nohash (span is_space body).2).2 = "").
    { clear -Hbody. induction body as [|c body IH]; [done|].
      cbn [span] in *. destruct (nohash c) eqn:Hc; [|done].
      destruct (span nohash body) as [a b] eqn:Hab. cbn in Hbody. subst b.
      destruct (is_space c).
      - destruct (span is_space body). by apply IH.
      - cbn [snd span]. by rewrite Hc, Hab. }
    destruct (decide ((span is_space body).2 = "")) as [Hsp|Hsp].
    - rewrite (span_all is_space body _ Hsp), Hsp. by cbn.
    - rewrite (span_stop is_space body _ Hsp). cbn [snd].
      rewrite (span_all nohash _ _ Hsuffix). cbn [fst]. by rewrite append_nil_r. }
  unfold process_line. by rewrite Heq.
Qed.

End Listing.

(** The concrete documents below only use the IBM formats. *)
#[local] Existing Instance ibm2.

Definition fm_doc : list string :=
  ["# single density"; "disk ibm.sd"; "  cyls = 40"; "  heads = 1";
   "  tracks * ibm.fm"; "    secs = 9"; "    bps = 256"; "  end"; "end"].

Lemma get_format_geometry_witness :
  ∃ f, get_format "ibm.sd" fm_doc "x.cfg" = inr (Some f)
       ∧ ∃ c hd, cyls (fmt f) = Some c ∧ heads (fmt f) = Some hd
                 ∧ 1 ≤ c ≤ 255 ∧ 1 ≤ hd ≤ 2 ∧ 1 ≤ step (fmt f) ≤ 4
                 ∧ track_map (fmt f) ≠ ∅.
Proof.
  eexists. 
  assert (Hget : get_format "ibm.sd" fm_doc "x.cfg" = inr (Some _))
    by (vm_compute; reflexivity).
  split; [exact Hget|].
  exact (get_format_geometry "ibm.sd" "x.cfg" fm_doc _ Hget).
Defined.

Lemma tracks_directive_stays_on_disk_witness :
  let m : gmap (Z * Z) nat := <[(7, 0) := 0%nat]> ∅ in
  let m' : gmap (Z * Z) nat := <[(0, 0) := 1%nat]> m in
  assign_specs 2 1 1 m ["0"] = inr m'
  ∧ m' !! (0, 0) = Some 1%nat
  ∧ (m !! (0, 0) = Some 1%nat ∨ (1%nat = 1%nat ∧ on_disk 2 1 (0, 0))).
Proof.
  intros m m'.
  assert (Hrun : assign_specs 2 1 1 m ["0"] = inr m') by (vm_compute; reflexivity).
  assert (Hm : m' !! (0, 0) = Some 1%nat) by reflexivity.
  split; [exact Hrun|]. split; [exact Hm|].
  exact (tracks_directive_stays_on_disk 2 1 1 ["0"] m m' (0, 0) 1%nat Hrun Hm).
Defined.

Lemma inactive_section_not_validated_witness :
  let st := {| parse_mode := Disk; active := false; disk_config := None;
               track_config := None; store := [] |} in
  active st = false ∧ parse_mode st ≠ Outer ∧ track_config st = None
  ∧ ∃ st', process_line "ibm.sd" st "cyls = 999" = inr st'
           ∧ active st' = false
           ∧ track_config st' = None
           ∧ disk_config st' = disk_config st
           ∧ store st' = store st.
Proof.
  intros st.
  assert (H1 : active st = false) by reflexivity.
  assert (H2 : parse_mode st ≠ Outer) by discriminate.
  assert (H3 : track_config st = None) by reflexivity.
  split; [exact H1|]. split; [exact H2|]. split; [exact H3|].
  exact (inactive_section_not_validated "ibm.sd" st "cyls = 999" H1 H2 H3).
Defined.

Lemma loaded_format_is_listed_witness :
  ∃ f, get_format "ibm.sd" fm_doc "x.cfg" = inr (Some f)
       ∧ "  ibm.sd" ∈ listed_formats fm_doc
       ∧ print_formats fm_doc = join newline (listed_formats fm_doc).
Proof.
  eexists.
  assert (Hget : get_format "ibm.sd" fm_doc "x.cfg" = inr (Some _))
    by (vm_compute; reflexivity).
  split; [exact Hget|].
  exact (loaded_format_is_listed "ibm.sd" "x.cfg" fm_doc _ Hget).
Defined.

Lemma trailing_comment_ignored_witness :
("#"%char ∉ list_ascii_of_string "cyls = 40 ")
  ∧ process_line "ibm.sd" State_init ("cyls = 40 " +:+ "#" +:+ " forty")
    = process_line "ibm.sd" State_init "cyls = 40 ".
Proof.
  assert (H1 : "#"%char ∉ list_ascii_of_string "cyls = 40 ").
  { intros Hin. vm_compute in Hin. repeat (apply elem_of_cons in Hin as [Hin|Hin]; [discriminate Hin|]).
    by apply elem_of_nil in Hin. }
  split; [exact H1|].
  exact (trailing_comment_ignored "ibm.sd" State_init "cyls = 40 " " forty" H1).
Defined.


(** ** The templates of a loaded format *)

(** [add_param] changes neither the format name nor the flag
    [finalised]. *)
Lemma add_param_frame (c c' : IBMTrackConfig) (key val : string) :
  IBMTrackConfig_add_param c key val = inr c' →
  format_name c' = format_name c ∧ finalised c' = finalised c.
Proof.
  unfold IBMTrackConfig_add_param. unfold_res.
  destruct (String.eqb key "secs").
  { destruct (int val) as [e|v]; [done|].
    destruct (in_range 0 v 256); [|done]. by intros [= <-]. }
  destruct (String.eqb key "bps").
  { destruct (bps_elements _ _) as [e|ss]; [done|]. by intros [= <-]. }
  destruct (String.eqb key "interleave").
  { destruct (int val) as [e|v]; [done|].
    destruct (in_range 1 v 255); [|done]. by intros [= <-]. }
  destruct (key_in key ["id"; "cskew"; "hskew"]).
  { destruct (int val) as [e|v]; [done|].
    destruct (in_range 0 v 255); [|done]. intros [= <-].
    destruct (String.eqb key "id"); [done|]. by destruct (String.eqb key "cskew"). }
  destruct (key_in key ["gap1"; "gap2"; "gap3"; "gap4a"; "h"]).
  { destruct (String.eqb val "auto").
    - intros [= <-].
      destruct (String.eqb key "gap1"); [done|]. destruct (String.eqb key "gap2"); [done|].
      destruct (String.eqb key "gap3"); [done|]. by destruct (String.eqb key "gap4a").
    - destruct (int val) as [e|v]; [done|].
      destruct (in_range 0 v 255); [|done]. intros [= <-].
      destruct (String.eqb key "gap1"); [done|]. destruct (String.eqb key "gap2"); [done|].
      destruct (String.eqb key "gap3"); [done|]. by destruct (String.eqb key "gap4a"). }
  destruct (String.eqb key "iam").
  { destruct (key_in val ["yes"; "no"]); [|done]. by intros [= <-]. }
  destruct (key_in key ["rate"; "rpm"]); [|done].
  destruct (int val) as [e|v]; [done|].
  destruct (in_range 1 v 2000); [|done]. intros [= <-].
  by destruct (String.eqb key "rate").
Qed.

Section Templates.
Context `{Externals}.

(** What [finalise] checks. *)
Definition checked (c : IBMTrackConfig) : Prop :=
  (iam c = true ∨ gap1 c = None) ∧ (secs c = 0 ∨ sz c ≠ []).

(** A template of the store: its values are in the ranges, and when
    it is finalised it passes the checks of [finalise]. *)
Definition template_ok (tc : TrackConfig) : Prop :=
  match tc with
  | IBM c => FMProps.in_ranges c ∧ (finalised c = true → checked c)
  | Amiga _ => True
  end.

Definition template_open (tc : TrackConfig) : Prop :=
  match tc with
  | IBM c => finalised c = false
  | Amiga _ => True
  end.

(** The templates of the store are in order, and the template that
    the track section in progress fills is not yet finalised. *)
Definition store_ok (st : State) : Prop :=
  Forall template_ok (store st)
  ∧ ∀ hnd, track_config st = Some hnd →
           ∃ tc, store st !! hnd = Some tc ∧ template_open tc.

Lemma finalise_checked (c c' : IBMTrackConfig) :
  finalised c = false → IBMTrackConfig_finalise c = inr c' →
  finalised c' = true ∧ checked c'.
Proof.
  intros Hf. unfold IBMTrackConfig_finalise. unfold_res. rewrite Hf.
  destruct (iam c) eqn:Hiam, (gap1 c) as [g|] eqn:Hg; cbn [orb is_None]; try done.
  all: destruct (Z.eqb_spec (secs c) 0) as [H0|H0]; cbn [orb].
  all: try (destruct (sz c) as [|x l] eqn:Hsz; cbn [length Nat.eqb negb]; [done|]).
  all: intros [= <-]; unfold checked; cbn; rewrite ?Hiam, ?Hg, ?Hsz; split; [done|];
    split; auto.
Qed.

Lemma process_line_store_ok (name : string) (st st' : State) (l : string) :
  store_ok st → process_line name st l = inr st' → store_ok st'.
Proof.
  intros [Hall Hcur]. unfold process_line. unfold_res.
  destruct (String.eqb (strip_comment l) ""); [by intros [= <-]|].
  destruct (parse_mode st).
  - destruct (disk_match _) as [n|]; [|done]. by intros [= <-].
  - destruct (String.eqb _ "end"); [by intros [= <-]|].
    destruct (tracks_match _) as [[spec fmt_name]|].
    + destruct (negb (active st)); [by intros [= <-]|].
      destruct (disk_config st) as [d|]; [|done].
      destruct (negb (is_None (cyls d))); [|done].
      destruct (negb (is_None (heads d))); [|done].
      destruct (mk_track_config fmt_name) as [e|tc] eqn:Hmk; [done|].
      destruct (assign_specs _ _ _ _ _); [done|].
      intros [= <-].
      assert (Htc : template_ok tc ∧ template_open tc).
      { revert Hmk. unfold mk_track_config. unfold_res.
        destruct (key_in fmt_name ["amiga.amigados"]); [by intros [= <-]|].
        destruct (key_in fmt_name ["ibm.mfm"; "ibm.fm"]); [|done]. intros [= <-].
        split; [|done]. split; [apply FMProps.init_in_ranges|done]. }
      destruct Htc as [Hok Hopen]. split; cbn [store track_config].
      * apply Forall_app. split; [done|]. by apply Forall_singleton.
      * intros hnd [= <-]. exists tc. split; [|done].
        by rewrite lookup_app_r, Nat.sub_diag.
    + destruct (negb (active st)); [by intros [= <-]|].
      destruct (keyval_match _ _) as [[key val]|]; [|done].
      destruct (disk_config st) as [d|]; [|done].
      destruct (DiskConfig_add_param d key val); [done|]. by intros [= <-].
  - destruct (String.eqb _ "end").
    + destruct (track_config st) as [hnd|] eqn:Htc;
        [|intros [= <-]; split; [done|]; intros hnd; cbn; by rewrite Htc].
      destruct (Hcur hnd eq_refl) as (tc & Hlook & Hopen). rewrite Hlook.
      destruct (TrackConfig_finalise tc) as [e|tc'] eqn:Hfin; [done|]. intros [= <-].
      split; cbn [store track_config]; [|done].
      apply Forall_insert; [done|].
      destruct tc as [c|a]; cbn [TrackConfig_finalise] in Hfin; unfold_res.
      * destruct (IBMTrackConfig_finalise c) as [e|c'] eqn:Hc; [done|].
        injection Hfin as <-. cbn [template_open] in Hopen.
        rewrite Forall_forall in Hall.
        destruct (Hall _ (list_elem_of_lookup_2 _ _ _ Hlook)) as [Hr _].
        split; [by apply (FMProps.finalise_in_ranges c c' Hr Hc)|].
        intros _. by apply (finalise_checked c c' Hopen Hc).
      * destruct (amiga_finalise a); [done|]. by injection Hfin as <-.
    + destruct (negb (active st)); [by intros [= <-]|].
      destruct (keyval_match _ _) as [[key val]|]; [|done].
      destruct (track_config st) as [hnd|] eqn:Htc; [|done].
      cbn [option_bind default].
      destruct (Hcur hnd eq_refl) as (tc & Hlook & Hopen). rewrite Hlook.
      destruct (TrackConfig_add_param tc key val) as [e|tc'] eqn:Hadd; [done|].
      intros [= <-].
      assert (Htc' : template_ok tc' ∧ template_open tc').
      { destruct tc as [c|a]; cbn [TrackConfig_add_param] in Hadd; unfold_res.
        - destruct (IBMTrackConfig_add_param c key val) as [e|c'] eqn:Hc; [done|].
          injection Hadd as <-. cbn [template_open] in Hopen.
          rewrite Forall_forall in Hall.
          destruct (Hall _ (list_elem_of_lookup_2 _ _ _ Hlook)) as [Hr _].
          destruct (add_param_frame c c' key val Hc) as [_ Hf].
          cbn [template_ok template_open]. rewrite Hf, Hopen.
          split; [|done]. split; [|done].
          by apply (FMProps.add_param_in_ranges c c' key val).
        - destruct (amiga_add_param a key val); [done|]. by injection Hadd as <-. }
      destruct Htc' as [Hok Hopen']. split; cbn [store track_config].
      * rewrite Forall_forall. intros x Hx.
        apply list_elem_of_lookup in Hx as [i Hi].
        destruct (decide (i = hnd)) as [->|Hne].
        -- rewrite list_lookup_alter_eq, Hlook in Hi. by injection Hi as <-.
        -- rewrite list_lookup_alter_ne in Hi by done.
           rewrite Forall_forall in Hall. apply Hall.
           by eapply list_elem_of_lookup_2.
      * intros hnd' [= <-]. exists tc'.
        split; [|done]. by rewrite list_lookup_alter_eq, Hlook.
Qed.

Lemma parse_lines_store_ok (name cfg : string) (lines : list string) :
  ∀ k st st', store_ok st → parse_lines name cfg k lines st = inr st' → store_ok st'.
Proof.
  induction lines as [|l lines IH]; intros k st st' Hst; cbn [parse_lines].
  - by intros [= <-].
  - destruct (process_line name st l) as [e|st1] eqn:Hl; [done|].
    apply IH. by apply (process_line_store_ok name st st1 l).
Qed.

Lemma get_format_templates_ok (name cfg : string) (lines : list string) (f : Format) :
  get_format name lines cfg = inr (Some f) → Forall template_ok (templates f).
Proof.
  unfold get_format. unfold_res.
  destruct (parse_lines name cfg 1 lines State_init) as [e|st] eqn:Hrun; [done|].
  destruct (disk_config st) as [d|]; [|done].
  destruct (DiskConfig_finalise d); [done|].
  unfold Format_init. unfold_res.
  destruct (DiskConfig_default_revs (store st) d); [done|].
  destruct (trackset d); [done|]. intros [= <-]. cbn [templates].
  apply (parse_lines_store_ok name cfg lines 1 State_init st); [|done].
  split; [by apply Forall_nil|]. by cbn.
Qed.

(** X26: every IBM track template of a format that [get_format]
    returns has its values in the ranges that [add_param] checks, and
    when it is finalised it passes the two checks of [finalise]: within
    [get_format] no parameter reaches a template behind its
    [finalise]. *)
Theorem loaded_templates_checked (name cfg : string) (lines : list string)
        (f : Format) (i : nat) (c : IBMTrackConfig) :
  get_format name lines cfg = inr (Some f) →
  templates f !! i = Some (IBM c) →
  FMProps.in_ranges c
  ∧ (finalised c = true →
     (iam c = true ∨ gap1 c = None) ∧ (secs c = 0 ∨ sz c ≠ [])).
Proof.
  intros Hget Hi.
  pose proof (get_format_templates_ok name cfg lines f Hget) as Hall.
  rewrite Forall_forall in Hall.
  exact (Hall _ (list_elem_of_lookup_2 _ _ _ Hi)).
Qed.

End Templates.

Lemma loaded_templates_checked_witness :
  ∃ f c, get_format "ibm.sd" fm_doc "x.cfg" = inr (Some f)
         ∧ templates f !! 0%nat = Some (IBM c)
         ∧ finalised c = true
         ∧ FMProps.in_ranges c
         ∧ (finalised c = true →
            (iam c = true ∨ gap1 c = None) ∧ (secs c = 0 ∨ sz c ≠ [])).
Proof.
  do 2 eexists.
  assert (Hget : get_format "ibm.sd" fm_doc "x.cfg" = inr (Some _))
    by (vm_compute; reflexivity).
  split; [exact Hget|].
  match goal with |- ?A ∧ _ => assert (Ht : A) by reflexivity end.
  split; [exact Ht|]. split; [reflexivity|].
  exact (loaded_templates_checked "ibm.sd" "x.cfg" fm_doc _ 0%nat _ Hget Ht).
Defined.

End ConfigProps.

(** * Further properties of fm.py *)

Module TrackProps.
Import FM FormatsProps FMProps.

(** ** The bit codec *)

Lemma sync_bits_clock (clk : Z) :
  is_byte clk →
  forallb (fun dat => bool_decide (frombytes (sync dat clk)
                                   = inter (byte_bits clk) (byte_bits dat)))
          (Formats.range 256) = true.
Proof.
  revert clk.
  apply (byte_cases (fun clk =>
    forallb (fun dat => bool_decide (frombytes (sync dat clk)
                                     = inter (byte_bits clk) (byte_bits dat)))
            (Formats.range 256))).
  vm_compute. reflexivity.
Qed.

(** X10: the sixteen bits that [sync] makes of a data byte and a
    clock byte are the bits of the two bytes in turn, a clock bit in
    front of every data bit, from the most significant bits down. *)
Theorem sync_interleaves (dat clk : Z) :
  is_byte dat → is_byte clk →
  frombytes (sync dat clk) = inter (byte_bits clk) (byte_bits dat)
  ∧ length (sync dat clk) = 2%nat.
Proof.
  intros Hdat Hclk. split; [|done].
  apply (bool_decide_eq_true_1 _).
  apply (byte_cases _ (sync_bits_clock clk Hclk) dat Hdat).
Qed.

Lemma sync_interleaves_witness :
  is_byte 248 ∧ is_byte 199
  ∧ frombytes (sync 248 199) = inter (byte_bits 199) (byte_bits 248)
  ∧ length (sync 248 199) = 2%nat.
Proof.
  assert (H1 : is_byte 248) by (unfold is_byte; lia).
  assert (H2 : is_byte 199) by (unfold is_byte; lia).
  split; [exact H1|]. split; [exact H2|]. exact (sync_interleaves 248 199 H1 H2).
Defined.

(** X11: [encode] writes every byte as [sync] does with the clock
    0xff, two bytes for each byte, and decoding what [encode] has written
    gives the bytes back. *)
Theorem decode_encode (bs : bytes) :
  Forall is_byte bs →
  decode (encode bs) = bs
  ∧ length (encode bs) = (2 * length bs)%nat
  ∧ encode bs = bs ≫= fun x => sync x 255.
Proof.
  intros Hbs. split; [|split].
  - rewrite encode_plain by done.
    rewrite decode_cells by by apply plain_ok. apply plain_snd.
  - rewrite encode_plain by done. by rewrite length_cells_bytes, length_plain.
  - clear Hbs. induction bs as [|x bs IH]; [done|].
    unfold encode in *. by rewrite !bind_cons, IH.
Qed.

Lemma decode_encode_witness :
  Forall is_byte [0; 78; 255]
  ∧ decode (encode [0; 78; 255]) = [0; 78; 255]
  ∧ length (encode [0; 78; 255]) = (2 * length [0; 78; 255])%nat
  ∧ encode [0; 78; 255] = [0; 78; 255] ≫= fun x => sync x 255.
Proof.
  assert (H : Forall is_byte [0; 78; 255]).
  { repeat constructor; unfold is_byte; lia. }
  split; [exact H|]. exact (decode_encode [0; 78; 255] H).
Defined.

(** ** Reading a stream without marks *)

Lemma no_marks (bs : bytes) :
  Forall is_byte bs →
  itersearch sync_prefix (frombytes (encode bs)) = []
  ∧ itersearch iam_sync (frombytes (encode bs)) = [].
Proof.
  intros Hbs. rewrite encode_plain by done. unfold itersearch.
  rewrite itersearch_sync, itersearch_iam by by apply plain_ok.
  rewrite <- (app_nil_r (plain bs)).
  rewrite !cell_scan_plain by (done || lia || apply plain_is_plain).
  done.
Qed.

Lemma decode_no_marks (bs : bytes) (st : list IAM.t * list Sector.t)
      (n : Z) (index : list Z) :
  Forall is_byte bs →
  IBM_FM_decode_raw st (frombytes (encode bs)) (n :: index) = inr st.
Proof.
  intros Hbs. destruct (no_marks bs Hbs) as [Hs Hi].
  unfold IBM_FM_decode_raw, scan_areas, scan_iams. by rewrite Hs, Hi.
Qed.

(** X12: what [encode] writes holds no address mark, whatever the
    bytes are: neither sync pattern occurs in it, and decoding it as a
    capture leaves the lists of index marks and sectors as they are. *)
Theorem encoded_data_has_no_marks (bs : bytes) (st : list IAM.t * list Sector.t)
        (n : Z) (index : list Z) :
  Forall is_byte bs →
  itersearch sync_prefix (frombytes (encode bs)) = []
  ∧ itersearch iam_sync (frombytes (encode bs)) = []
  ∧ IBM_FM_decode_raw st (frombytes (encode bs)) (n :: index) = inr st.
Proof.
  intros Hbs. destruct (no_marks bs Hbs) as [Hs Hi].
  split; [done|]. split; [done|]. by apply decode_no_marks.
Qed.

Lemma encoded_data_has_no_marks_witness :
  Forall is_byte [0; 254; 251; 0; 252]
  ∧ IBM_FM_decode_raw ([], []) (frombytes (encode [0; 254; 251; 0; 252])) [80]
    = inr ([], []).
Proof.
  assert (H : Forall is_byte [0; 254; 251; 0; 252]).
  { repeat constructor; unfold is_byte; lia. }
  split; [exact H|].
  exact (proj2 (proj2 (encoded_data_has_no_marks [0; 254; 251; 0; 252] ([], []) 80 [] H))).
Defined.

(** X13: a readback without address marks verifies a track whose
    clock is set exactly when the track has no sectors: with a sector on
    the track the answer is [False].  On an object without clock, as
    [__init__] leaves it, [verify_track] raises [AttributeError]. *)
Theorem blank_readback_verifies_no_sector (t : Track) (bs : bytes)
        (n : Z) (index : list Z) :
  Forall is_byte bs →
  verify_track t (frombytes (encode bs)) (n :: index)
  = if has_clock t then inr (bool_decide (sectors t = []))
    else inl (no_attr "clock").
Proof.
  intros Hbs. unfold verify_track, decode_raw.
  change (has_clock (readback_track t)) with (has_clock t).
  destruct (has_clock t); [|done].
  change (raw_iams (readback_track t), raw_sectors (readback_track t))
    with (@nil IAM.t, @nil Sector.t).
  rewrite (decode_no_marks bs ([], []) n index Hbs).
  unfold_res. cbn [fst snd match_raw foldl sectors readback_track set_lists].
  destruct (sectors t) as [|s ss]; [done|].
  cbn [fmap list_fmap]. unfold nr_missing.
  rewrite filter_cons_True by (by vm_compute).
  cbn [length]. rewrite (bool_decide_eq_false_2 (s :: ss = [])) by done.
  match goal with
  | |- context [Z.of_nat (S ?k) =? 0] =>
      destruct (Z.eqb_spec (Z.of_nat (S k)) 0); [lia|done]
  end.
Qed.

(** The track that [from_format] makes of [one_sector], and the object
    that [__init__] alone makes. *)
Lemma blank_readback_verifies_no_sector_witness :
  Forall is_byte [255; 255]
  ∧ from_format 1 one_sector 0 0 = Some (inr one_sector_track)
  ∧ length (sectors one_sector_track) = 1%nat
  ∧ verify_track one_sector_track (frombytes (encode [255; 255])) [32] = inr false
  ∧ verify_track (Track_init 0 0) (frombytes (encode [255; 255])) [32]
    = inl (no_attr "clock").
Proof.
  assert (H : Forall is_byte [255; 255]).
  { repeat constructor; unfold is_byte; lia. }
  split; [exact H|]. split; [exact one_sector_track_built|]. split; [reflexivity|].
  split.
  - exact (blank_readback_verifies_no_sector one_sector_track [255; 255] 32 [] H).
  - exact (blank_readback_verifies_no_sector (Track_init 0 0) [255; 255] 32 [] H).
Defined.

(** ** The lists of a track *)

(** X14: [nr_missing] counts the sectors for which [has_sec] is
    false: it is between 0 and the number of sectors, and it is 0
    exactly when [has_sec] holds at every index of the list; beyond the
    list [has_sec] raises [IndexError]. *)
Theorem nr_missing_has_sec (ss : list Sector.t) :
  0 ≤ nr_missing ss ≤ Z.of_nat (length ss)
  ∧ (nr_missing ss = 0
     ↔ ∀ i, (i < length ss)%nat → has_sec ss i = inr true)
  ∧ ∀ i, (length ss ≤ i)%nat
         → has_sec ss i = inl (IndexError "list index out of range").
Proof.
  unfold nr_missing, has_sec. split; [|split].
  - pose proof (length_filter (fun x => Sector.crc x ≠ 0) ss). lia.
  - induction ss as [|s ss IH].
    + split; [|done]. intros _ i Hi. simpl in Hi. lia.
    + destruct (decide (Sector.crc s = 0)) as [Hs|Hs].
      * rewrite filter_cons_False by (intros ?; done). rewrite IH. split.
        -- intros Hall [|i] Hi; cbn [lookup list_lookup].
           ++ unfold_res. by rewrite Hs.
           ++ apply Hall. simpl in Hi. lia.
        -- intros Hall i Hi. apply (Hall (S i)). simpl. lia.
      * rewrite filter_cons_True by done. split; [simpl; lia|].
        intros Hall. specialize (Hall 0%nat ltac:(simpl; lia)).
        cbn [lookup list_lookup] in Hall. unfold_res.
        injection Hall as Hall. apply Z.eqb_eq in Hall. done.
  - intros i Hi. by rewrite lookup_ge_None_2.
Qed.

(** ** The deduped lists *)

Lemma find_near_near {A} (start_of : A → Z) (start : Z) (l : list A) :
  ∀ i j s, find_near start_of start i l = Some (j, s) →
           Z.abs (start_of s - start) < 1000.
Proof.
  induction l as [|x l IH]; intros i j s; cbn [find_near]; [done|].
  destruct (Z.ltb_spec (Z.abs (start_of x - start)) 1000).
  - by intros [= _ <-].
  - apply IH.
Qed.

(** An entry of the sector list and what the list holds at its index
    later on: the entry itself, or a valid detection fewer than 1000
    bit-cells away that has replaced the entry, which was not valid. *)
Definition kept_or_improved (s s' : Sector.t) : Prop :=
  s' = s
  ∨ (Sector.crc s ≠ 0 ∧ Sector.crc s' = 0
     ∧ Z.abs (Sector.start s - Sector.start s') < 1000).

Lemma add_sector_step (ss : list Sector.t) (a : Sector.t) (i : nat) (s : Sector.t) :
  ss !! i = Some s →
  ∃ s', add_sector ss a !! i = Some s' ∧ kept_or_improved s s'.
Proof.
  intros Hi. unfold add_sector.
  destruct (find_near Sector.start (Sector.start a) 0 ss) as [[j s0]|] eqn:Hf.
  - destruct (negb (Sector.crc s0 =? 0) && (Sector.crc a =? 0)) eqn:Hc;
      [|exists s; split; [done|by left]].
    pose proof (find_near_near _ _ _ _ _ _ Hf) as Hnear.
    apply find_near_lookup in Hf as [_ Hj]. rewrite Nat.sub_0_r in Hj.
    apply andb_prop in Hc as [Hs0 Ha].
    apply negb_true_iff, Z.eqb_neq in Hs0. apply Z.eqb_eq in Ha.
    destruct (decide (i = j)) as [->|Hne].
    + rewrite Hi in Hj. injection Hj as <-. exists a. split.
      * apply list_lookup_insert_eq. by eapply lookup_lt_Some.
      * right. done.
    + exists s. split; [by rewrite list_lookup_insert_ne|by left].
  - exists s. split; [by apply lookup_app_l_Some|by left].
Qed.

(** X15: the third loop of [decode_raw] only adds to the lists: the
    index marks that a track has stay, in their places, in front of the
    new ones; every sector of the list stays at its index, unless a
    valid detection fewer than 1000 bit-cells away replaces a sector
    that is not valid; so no list gets shorter. *)
Theorem dedup_only_adds (areas : list Area) (st : list IAM.t * list Sector.t) :
  (∃ new, (dedup st areas).1 = st.1 ++ new)
  ∧ (∀ i s, st.2 !! i = Some s →
            ∃ s', (dedup st areas).2 !! i = Some s' ∧ kept_or_improved s s')
  ∧ (length st.2 ≤ length (dedup st areas).2)%nat.
Proof.
  assert (Hfirst :
    (∃ new, (dedup st areas).1 = st.1 ++ new)
    ∧ (∀ i s, st.2 !! i = Some s →
              ∃ s', (dedup st areas).2 !! i = Some s' ∧ kept_or_improved s s')).
  { unfold dedup. revert st. induction areas as [|a areas IH]; intros st; cbn [foldl].
    - split; [exists []; by rewrite app_nil_r|]. intros i s Hi. exists s. split; [done|by left].
    - destruct (IH (dedup_area st a)) as [[new Hnew] Hsec]. split.
      + rewrite Hnew. destruct a as [a| | |a]; cbn [dedup_area fst];
          try (by exists new).
        unfold add_iam. destruct (find_near _ _ _ _); [by exists new|].
        exists (a :: new). by rewrite <- app_assoc.
      + intros i s Hi.
        assert (∃ s1, (dedup_area st a).2 !! i = Some s1 ∧ kept_or_improved s s1)
          as (s1 & Hs1 & Hk1).
        { destruct a as [a| | |a]; cbn [dedup_area snd];
            try (exists s; split; [done|by left]).
          by apply add_sector_step. }
        destruct (Hsec i s1 Hs1) as (s2 & Hs2 & Hk2). exists s2. split; [done|].
        destruct Hk1 as [->|(Hbad & Hgood & Hnear)]; [done|].
        destruct Hk2 as [->|(Hbad2 & _)]; [right; done|done]. }
  destruct Hfirst as [Hiams Hsec]. split; [done|]. split; [done|].
  destruct (decide (length st.2 ≤ length (dedup st areas).2)%nat) as [|Hlt]; [done|].
  destruct (lookup_lt_is_Some_2 st.2 (length (dedup st areas).2)) as [s Hs]; [lia|].
  destruct (Hsec _ _ Hs) as (s' & Hs' & _).
  apply lookup_lt_Some in Hs'. lia.
Qed.

(** ** Decoding into a formatted track *)

Lemma match_sector_bare (r s : Sector.t) : bare (match_sector r s) = bare s.
Proof.
  unfold match_sector. destruct (same_id s r); [|done].
  destruct ((DAM.crc (Sector.dam r) =? 0) && _); by destruct s as [? ? ? [] []].
Qed.

Lemma match_sector_crc (r s : Sector.t) :
  Sector.crc (match_sector r s) ≠ 0 → Sector.crc s ≠ 0.
Proof.
  unfold match_sector. destruct (same_id s r); [|done].
  destruct ((DAM.crc (Sector.dam r) =? 0) && _); [by cbn|done].
Qed.

Lemma match_all_bare (raw : list Sector.t) :
  ∀ s, bare (match_all raw s) = bare s
       ∧ (Sector.crc (match_all raw s) ≠ 0 → Sector.crc s ≠ 0).
Proof.
  induction raw as [|r raw IH]; intros s; [done|]. rewrite match_all_cons.
  destruct (negb (IDAM.crc (Sector.idam r) =? 0)); [apply IH|].
  destruct (IH (match_sector r s)) as [Hb Hc]. split.
  - by rewrite Hb, match_sector_bare.
  - intros Hne. by apply (match_sector_crc r), Hc.
Qed.

(** X16: decoding a capture into a formatted track leaves the index
    marks and the layout of the track as they are: each sector keeps
    its offsets, its ID and its mark, only checksums and payloads
    change; and no sector that was valid becomes missing. *)
Theorem formatted_decode_keeps_layout (t t' : Track) (bits : bitarray)
        (revolutions : list Z) :
  decode_raw t bits revolutions = inr t' →
  iams t' = iams t
  ∧ bare <$> sectors t' = bare <$> sectors t
  ∧ nr_missing (sectors t') ≤ nr_missing (sectors t).
Proof.
  unfold decode_raw. destruct (has_clock t); [|done]. unfold_res.
  destruct (IBM_FM_decode_raw _ bits revolutions) as [e|raw]; [done|].
  intros [= <-]. cbn [iams sectors set_lists]. split; [done|].
  rewrite match_raw_each. generalize (sectors t) as ss. intros ss.
  induction ss as [|s ss [IH1 IH2]]; [done|].
  destruct (match_all_bare raw.2 s) as [Hb Hc].
  cbn [fmap list_fmap]. split; [by rewrite Hb, IH1|].
  unfold nr_missing in *.
  destruct (decide (Sector.crc (match_all raw.2 s) = 0)) as [H0|H0].
  - rewrite filter_cons_False by (intros ?; done).
    destruct (decide (Sector.crc s = 0)).
    + by rewrite filter_cons_False by (intros ?; done).
    + rewrite filter_cons_True by done. cbn [length]. lia.
  - rewrite filter_cons_True by done. rewrite filter_cons_True by by apply Hc.
    cbn [length]. lia.
Qed.

(** The track that [from_format] makes of [one_sector] decodes the bits
    that were written for the same track with the image [1; 2; 3]: its
    placeholder sector, which was missing, is found, and it takes the
    payload that was read. *)
Lemma formatted_decode_keeps_layout_witness :
  ∃ t', from_format 1 one_sector 0 0 = Some (inr one_sector_track)
        ∧ frombytes <$> raw_track 0 one_sector_filled = inr one_sector_bits
        ∧ decode_raw one_sector_track one_sector_bits
                     [Z.of_nat (length one_sector_bits)] = inr t'
        ∧ nr_missing (sectors one_sector_track) = 1
        ∧ nr_missing (sectors t') = 0
        ∧ (DAM.data ∘ Sector.dam <$> sectors t')
          = (DAM.data ∘ Sector.dam <$> sectors one_sector_filled)
        ∧ iams t' = iams one_sector_track
        ∧ bare <$> sectors t' = bare <$> sectors one_sector_track
        ∧ nr_missing (sectors t') ≤ nr_missing (sectors one_sector_track).
Proof.
  eexists.
  assert (H : decode_raw one_sector_track one_sector_bits
                         [Z.of_nat (length one_sector_bits)] = inr _)
    by (vm_compute; reflexivity).
  split; [exact one_sector_track_built|]. split; [exact one_sector_bits_written|].
  split; [exact H|]. split; [reflexivity|]. split; [reflexivity|].
  split; [reflexivity|].
  exact (formatted_decode_keeps_layout one_sector_track _ one_sector_bits
           [Z.of_nat (length one_sector_bits)] H).
Defined.

(** ** Offsets within the track *)

Lemma Area_start_delta (p : Z) (a : Area) : Area_start (Area_delta p a) = Area_start a - p.
Proof. by destruct a. Qed.

(** X17: the offsets within the track are never negative: for areas
    in the order of their starts, none of them in front of the start of
    the first revolution, every start that the conversion gives is 0 or
    more, whatever the lengths of the revolutions; and the conversion
    keeps the number of areas. *)
Theorem track_offsets_nonneg (areas : list Area) (p : Z) (n : option Z)
        (index : list Z) :
  ascending Area_start areas →
  Forall (fun a => p ≤ Area_start a) areas →
  Forall (fun a => 0 ≤ Area_start a) (track_offsets p n index areas)
  ∧ length (track_offsets p n index areas) = length areas.
Proof.
  revert p n index. induction areas as [|a areas IH]; intros p n index Hasc Hp; [done|].
  destruct Hasc as [Ha Hasc]. apply Forall_cons in Hp as [Hpa Hp].
  assert (Hnext : ∀ q m idx, q ≤ Area_start a →
            Forall (fun b => 0 ≤ Area_start b) (Area_delta q a :: track_offsets q m idx areas)
            ∧ length (Area_delta q a :: track_offsets q m idx areas) = S (length areas)).
  { intros q m idx Hq.
    destruct (IH q m idx Hasc) as [IH1 IH2].
    - eapply Forall_impl; [exact Ha|]. cbn. intros b Hb. lia.
    - split; [|by cbn; rewrite IH2].
      apply Forall_cons. split; [|done]. rewrite Area_start_delta. lia. }
  cbn [track_offsets length]. destruct n as [nv|]; [|by apply Hnext].
  destruct (Z.leb_spec nv (Area_start a)); [|by apply Hnext].
  destruct index as [|r index]; by apply Hnext.
Qed.

Lemma track_offsets_nonneg_witness :
  let areas := [iam_at 50; iam_at 250] in
  ascending Area_start areas
  ∧ Forall (fun a => 0 ≤ Area_start a) areas
  ∧ Forall (fun a => 0 ≤ Area_start a) (track_offsets 0 (Some 100) [100; 100] areas)
  ∧ length (track_offsets 0 (Some 100) [100; 100] areas) = length areas.
Proof.
  intros areas.
  assert (H1 : ascending Area_start areas).
  { split; [|split; [constructor|exact I]]. constructor; [simpl; lia|constructor]. }
  assert (H2 : Forall (fun a => 0 ≤ Area_start a) areas).
  { constructor; [simpl; lia|]. constructor; [simpl; lia|constructor]. }
  split; [exact H1|]. split; [exact H2|].
  exact (track_offsets_nonneg areas 0 (Some 100) [100; 100] H1 H2).
Defined.

(** ** Image data *)

Definition sector_number (s : Sector.t) : Z := IDAM.r (Sector.idam s).

Lemma fill_sectors_numbers (tdat : bytes) (ss : list Sector.t) :
  ∀ pos, sector_number <$> fill_sectors tdat pos ss = sector_number <$> ss.
Proof.
  induction ss as [|s ss IH]; intros pos; [done|].
  cbn [fill_sectors fmap list_fmap]. f_equal. apply IH.
Qed.

Lemma fill_sectors_valid (tdat : bytes) (ss : list Sector.t) :
  ∀ pos, Forall (fun s => Sector.crc s = 0) (fill_sectors tdat pos ss)
         ∧ length (fill_sectors tdat pos ss) = length ss.
Proof.
  induction ss as [|s ss IH]; intros pos; [done|].
  destruct (IH (pos + sector_size s)) as [IH1 IH2].
  cbn [fill_sectors length]. split; [by apply Forall_cons|by rewrite IH2].
Qed.

Lemma ascending_keys {A} (key : A → Z) (l : list A) :
  ascending key l ↔ ascending (fun x => x) (key <$> l).
Proof.
  induction l as [|x l IH]; [done|]. cbn [ascending fmap list_fmap].
  by rewrite IH, Forall_fmap.
Qed.

Lemma NoDup_fmap_inj {A B} (f : A → B) (l : list A) (x y : A) :
  NoDup (f <$> l) → x ∈ l → y ∈ l → f x = f y → x = y.
Proof.
  induction l as [|a l IH]; intros Hnd Hx Hy Hxy; [by apply elem_of_nil in Hx|].
  cbn [fmap list_fmap] in Hnd. apply NoDup_cons in Hnd as [Ha Hnd].
  apply elem_of_cons in Hx as [->|Hx], Hy as [->|Hy]; [done| | |by apply IH].
  - exfalso. apply Ha. rewrite Hxy. by apply list_elem_of_fmap_2.
  - exfalso. apply Ha. rewrite <- Hxy. by apply list_elem_of_fmap_2.
Qed.

Lemma total_size_cons (s : Sector.t) (ss : list Sector.t) :
  total_size (s :: ss) = sector_size s + total_size ss.
Proof. unfold total_size. cbn [foldl]. rewrite foldl_size. fold (total_size ss). lia. Qed.

(** The payloads that [set_img_track] hands out are consecutive
    pieces of the image. *)
Lemma fill_sectors_data (tdat : bytes) (ss : list Sector.t) :
  ∀ pos, 0 ≤ pos →
         fill_sectors tdat pos ss ≫= (fun s => default [] (DAM.data (Sector.dam s)))
         = byte_slice tdat pos (pos + total_size ss).
Proof.
  induction ss as [|s ss IH]; intros pos Hpos.
  - unfold byte_slice, total_size. cbn [foldl fill_sectors mbind list_bind].
    by replace (pos + 0 - pos) with 0 by lia.
  - pose proof (sector_size_nonneg s). pose proof (total_size_nonneg ss).
    cbn [fill_sectors]. rewrite bind_cons, IH by lia.
    cbn [Sector.dam Sector.set_crc Sector.set_idam Sector.set_dam DAM.data DAM.set_data
         default].
    change (id (byte_slice tdat pos (pos + sector_size s)))
      with (byte_slice tdat pos (pos + sector_size s)).
    rewrite total_size_cons. unfold byte_slice.
    replace (Z.to_nat (pos + sector_size s))
      with (Z.to_nat pos + Z.to_nat (sector_size s))%nat by lia.
    rewrite <- drop_drop.
    replace (Z.to_nat (pos + sector_size s - pos)) with (Z.to_nat (sector_size s)) by lia.
    replace (Z.to_nat (pos + sector_size s + total_size ss - (pos + sector_size s)))
      with (Z.to_nat (total_size ss)) by lia.
    replace (Z.to_nat (pos + (sector_size s + total_size ss) - pos))
      with (Z.to_nat (sector_size s) + Z.to_nat (total_size ss))%nat by lia.
    apply take_take_drop.
Qed.

Lemma total_size_perm (l1 l2 : list Sector.t) :
  l1 ≡ₚ l2 → total_size l1 = total_size l2.
Proof.
  induction 1 as [|x l1 l2 _ IH|x y l|l1 l2 l3 _ IH1 _ IH2]; [done| | |congruence].
  - by rewrite !total_size_cons, IH.
  - rewrite !total_size_cons. lia.
Qed.

(** Sectors that all have a payload are joined without an error. *)
Lemma join_data_some (ss : list Sector.t) :
  Forall (fun s => is_Some (DAM.data (Sector.dam s))) ss →
  ∀ acc, join_data acc ss
         = inr (acc ++ (ss ≫= fun s => default [] (DAM.data (Sector.dam s)))).
Proof.
  induction 1 as [|s ss [d Hd] _ IH]; intros acc; cbn [join_data].
  - by rewrite app_nil_r.
  - rewrite Hd, IH, bind_cons, Hd. by rewrite <- app_assoc.
Qed.

Lemma fill_sectors_some (tdat : bytes) (ss : list Sector.t) :
  ∀ pos, Forall (fun s => is_Some (DAM.data (Sector.dam s))) (fill_sectors tdat pos ss).
Proof.
  induction ss as [|s ss IH]; intros pos; [done|].
  cbn [fill_sectors]. apply Forall_cons. split; [by eexists|apply IH].
Qed.

(** X18: what [set_img_track] has taken from an image,
    [get_img_track] gives back: on a track whose sectors have different
    numbers, the image data cut or padded with zero bytes to the size
    that [set_img_track] returns; so an image of just that size comes
    back as it is. *)
Theorem img_round_trip (t : Track) (tdat : bytes) :
  NoDup (sector_number <$> sectors t) →
  get_img_track (set_img_track t tdat).1
  = inr (take (Z.to_nat (set_img_track t tdat).2)
              (tdat ++ replicate (Z.to_nat ((set_img_track t tdat).2
                                            - Z.of_nat (length tdat))) 0))
  ∧ (Z.of_nat (length tdat) = (set_img_track t tdat).2 →
     get_img_track (set_img_track t tdat).1 = inr tdat).
Proof.
  intros Hnd.
  assert (Hmain : get_img_track (set_img_track t tdat).1
    = inr (take (Z.to_nat (set_img_track t tdat).2)
                (tdat ++ replicate (Z.to_nat ((set_img_track t tdat).2
                                              - Z.of_nat (length tdat))) 0))).
  { unfold get_img_track, set_img_track. cbv zeta. unfold set_sectors.
    cbn [fst snd sectors set_lists].
    fold sector_number.
    set (ss1 := sort_by sector_number (sectors t)). fold (total_size ss1).
    set (tdat' := if Z.of_nat (length tdat) <? total_size ss1
                  then tdat ++ replicate (Z.to_nat (total_size ss1 - Z.of_nat (length tdat))) 0
                  else tdat).
    assert (tdat' = tdat ++ replicate (Z.to_nat (total_size ss1 - Z.of_nat (length tdat))) 0)
      as Htdat.
    { unfold tdat'. destruct (Z.ltb_spec (Z.of_nat (length tdat)) (total_size ss1)); [done|].
      replace (Z.to_nat (total_size ss1 - Z.of_nat (length tdat))) with 0%nat by lia.
      by rewrite app_nil_r. }
    set (ss2 := fill_sectors tdat' 0 ss1).
    assert (Hnum : sector_number <$> ss2 = sector_number <$> ss1)
      by apply fill_sectors_numbers.
    assert (sort_by sector_number (sort_by Sector.start ss2) = ss2) as ->.
    { apply (ascending_perm_eq sector_number).
      - by rewrite !sort_by_perm.
      - apply sort_by_asc.
      - apply (proj2 (ascending_keys sector_number ss2)). rewrite Hnum.
        apply (proj1 (ascending_keys sector_number ss1)), sort_by_asc.
      - intros x y. apply NoDup_fmap_inj. rewrite Hnum. unfold ss1.
        by rewrite sort_by_perm. }
    unfold ss2. rewrite join_data_some by apply fill_sectors_some.
    cbn [app]. rewrite fill_sectors_data by done. rewrite <- Htdat.
    unfold byte_slice. cbn [Z.to_nat drop]. do 3 f_equal. lia. }
  split; [exact Hmain|]. intros Hlen. rewrite Hmain, <- Hlen.
  replace (Z.to_nat (Z.of_nat (length tdat) - Z.of_nat (length tdat))) with 0%nat by lia.
  rewrite app_nil_r, Nat2Z.id. f_equal. apply firstn_all.
Qed.

Definition two_sectors : list Sector.t :=
  [Sector.make
     {| IDAM.start := 736; IDAM.end_ := 848; IDAM.crc := 65535;
        IDAM.c := 0; IDAM.h := 0; IDAM.r := 2; IDAM.n := 0 |}
     {| DAM.start := 1120; DAM.end_ := 3216; DAM.crc := 65535; DAM.mark := 251;
        DAM.data := Some [] |};
   Sector.make
     {| IDAM.start := 3744; IDAM.end_ := 3856; IDAM.crc := 65535;
        IDAM.c := 0; IDAM.h := 0; IDAM.r := 1; IDAM.n := 0 |}
     {| DAM.start := 4128; DAM.end_ := 6224; DAM.crc := 65535; DAM.mark := 251;
        DAM.data := Some [] |}].

Lemma img_round_trip_witness :
  let t := set_sectors two_sectors (Track_init 0 0) in
  NoDup (sector_number <$> sectors t)
  ∧ get_img_track (set_img_track t [1; 2; 3]).1
    = inr (take (Z.to_nat (set_img_track t [1; 2; 3]).2)
                ([1; 2; 3] ++ replicate (Z.to_nat ((set_img_track t [1; 2; 3]).2
                                                   - Z.of_nat (length [1; 2; 3]))) 0)).
Proof.
  intros t.
  assert (H : NoDup (sector_number <$> sectors t)).
  { apply (bool_decide_unpack _). reflexivity. }
  split; [exact H|]. exact (proj1 (img_round_trip t [1; 2; 3] H)).
Defined.

Lemma valid_not_missing (ss : list Sector.t) :
  Forall (fun s => Sector.crc s = 0) ss → filter (fun x => Sector.crc x ≠ 0) ss = [].
Proof.
  induction 1 as [|s ss Hs _ IH]; [done|].
  rewrite filter_cons_False; [done|]. intros Hne. by apply Hne.
Qed.

(** X19: after [set_img_track] no sector of the track is missing; the
    track has the sectors it had, as many and with the same numbers; and
    the size that comes back is the sum of the sizes [128 << n] of its
    sectors. *)
Theorem set_img_track_fills (t : Track) (tdat : bytes) :
  nr_missing (sectors (set_img_track t tdat).1) = 0
  ∧ sector_number <$> sectors (set_img_track t tdat).1
    ≡ₚ sector_number <$> sectors t
  ∧ length (sectors (set_img_track t tdat).1) = length (sectors t)
  ∧ (set_img_track t tdat).2 = total_size (sectors t)
  ∧ iams (set_img_track t tdat).1 = iams t.
Proof.
  unfold set_img_track. cbv zeta. unfold set_sectors.
  cbn [fst snd sectors iams set_lists]. fold sector_number.
  set (ss1 := sort_by sector_number (sectors t)). fold (total_size ss1).
  match goal with |- context [fill_sectors ?d 0 ss1] => set (tdat' := d) end.
  destruct (fill_sectors_valid tdat' ss1 0) as [Hvalid Hlen].
  assert (Hperm : sort_by Sector.start (fill_sectors tdat' 0 ss1)
                  ≡ₚ fill_sectors tdat' 0 ss1) by apply sort_by_perm.
  split; [|split; [|split; [|split]]].
  - unfold nr_missing. rewrite Hperm.
    by rewrite (valid_not_missing _ Hvalid).
  - rewrite Hperm, fill_sectors_numbers. unfold ss1. by rewrite sort_by_perm.
  - rewrite Hperm, Hlen. unfold ss1. by rewrite sort_by_perm.
  - apply total_size_perm, sort_by_perm.
  - done.
Qed.

(** ** The length of the track that [raw_track] writes *)

Lemma length_encode (bs : bytes) : length (encode bs) = (2 * length bs)%nat.
Proof.
  unfold encode. induction bs as [|x bs IH]; [done|].
  rewrite bind_cons, length_app, IH. simpl. lia.
Qed.

Definition whole_cells (b : bytes) : Prop := ∃ k : nat, length b = (2 * k)%nat.

Lemma whole_cells_app (a b : bytes) : whole_cells a → whole_cells b → whole_cells (a ++ b).
Proof. intros [k Hk] [j Hj]. exists (k + j)%nat. rewrite length_app. lia. Qed.

Lemma whole_cells_encode (bs : bytes) : whole_cells (encode bs).
Proof. exists (length bs). apply length_encode. Qed.

Lemma whole_cells_sync (dat clk : Z) : whole_cells (sync dat clk).
Proof. by exists 1%nat. Qed.

Lemma whole_cells_pre_mark (t : bytes) (start : Z) :
  whole_cells t → whole_cells (pre_mark t start).
Proof.
  intros Ht. unfold pre_mark.
  apply whole_cells_app; [done|]. apply whole_cells_app; apply whole_cells_encode.
Qed.

Lemma whole_cells_emit_field (t field : bytes) :
  whole_cells t → whole_cells (emit_field t field).
Proof.
  intros Ht. unfold emit_field. apply whole_cells_app; [done|].
  apply whole_cells_app; [apply whole_cells_sync|apply whole_cells_encode].
Qed.

Lemma whole_cells_emit_areas (areas : list Area) :
  ∀ t b, whole_cells t → emit_areas t areas = inr b → whole_cells b.
Proof.
  induction areas as [|a areas IH]; intros t b Ht; cbn [emit_areas].
  - by intros [= <-].
  - unfold_res. destruct (emit_area t a) as [e|t1] eqn:Ha; [done|].
    apply IH. revert Ha. unfold emit_area. unfold_res.
    destruct a as [a| | |a]; try (by intros [= <-]).
    + intros [= <-]. apply whole_cells_app; [by apply whole_cells_pre_mark|].
      apply whole_cells_sync.
    + destruct (mk_bytes [IDAM_mark; _; _; _; _]) as [e|i]; [done|].
      destruct (mk_bytes [DAM.mark _]) as [e|m]; [done|].
      destruct (DAM.data _) as [data|]; [|done]. intros [= <-].
      by apply whole_cells_emit_field, whole_cells_pre_mark,
               whole_cells_emit_field, whole_cells_pre_mark.
Qed.

(** X20: the byte string that [raw_track] returns holds whole cells
    of two bytes, and at least [tlen] of them: a track too short is
    filled up with gap bytes to the length of the revolution. *)
Theorem raw_track_length (tlen : Z) (t : Track) (b : bytes) :
  raw_track tlen t = inr b →
  ∃ k : nat, length b = (2 * k)%nat ∧ tlen ≤ Z.of_nat k.
Proof.
  unfold raw_track. unfold_res.
  destruct (emit_areas [] _) as [e|b0] eqn:Hb0; [done|].
  destruct (has_clock t); [|done]. intros [= <-].
  destruct (whole_cells_emit_areas _ [] b0 ltac:(by exists 0%nat) Hb0) as [k Hk].
  rewrite Hk. replace (Z.of_nat (2 * k) / 2) with (Z.of_nat k)
    by (rewrite Nat2Z.inj_mul, Z.mul_comm, Z.div_mul; lia).
  exists (k + Z.to_nat (Z.max (tlen - Z.of_nat k) 0))%nat.
  rewrite length_app, length_encode, length_replicate, Hk. split; lia.
Qed.

(** The track that [from_format] makes of [one_sector] holds 234 cells;
    on a revolution of 300 cells [raw_track] writes 300 cells. *)
Lemma raw_track_length_witness :
  ∃ b0 b, from_format 1 one_sector 0 0 = Some (inr one_sector_track)
          ∧ raw_track 0 one_sector_track = inr b0
          ∧ raw_track 300 one_sector_track = inr b
          ∧ (length b0 < length b)%nat
          ∧ ∃ k : nat, length b = (2 * k)%nat ∧ 300 ≤ Z.of_nat k.
Proof.
  do 2 eexists.
  assert (H0 : raw_track 0 one_sector_track = inr _) by (vm_compute; reflexivity).
  assert (H : raw_track 300 one_sector_track = inr _) by (vm_compute; reflexivity).
  split; [exact one_sector_track_built|]. split; [exact H0|]. split; [exact H|].
  split; [vm_compute; lia|].
  exact (raw_track_length 300 one_sector_track _ H).
Defined.

(** ** The sector map *)

Section Interleave.
Variables (nsec il k : Z).
Hypothesis nsec_pos : 0 < nsec.
Hypothesis coprime : Z.gcd nsec il = 1.

(** The slot of sector [j]: [j] steps of [il] slots from slot [k],
    around the track. *)
Definition slot (j : Z) : nat := Z.to_nat ((k + j * il) mod nsec).

Lemma slot_lt (j : Z) : (slot j < Z.to_nat nsec)%nat.
Proof. unfold slot. pose proof (Z.mod_pos_bound (k + j * il) nsec nsec_pos). lia. Qed.

Lemma slot_inj (j j' : Z) :
  0 ≤ j < nsec → 0 ≤ j' < nsec → slot j = slot j' → j = j'.
Proof.
  intros Hj Hj' Heq. unfold slot in Heq.
  pose proof (Z.mod_pos_bound (k + j * il) nsec nsec_pos).
  pose proof (Z.mod_pos_bound (k + j' * il) nsec nsec_pos).
  assert (Hmod : (k + j * il) mod nsec = (k + j' * il) mod nsec) by lia.
  assert (Hdiv : (nsec | il * (j - j'))).
  { apply Z.mod_divide; [lia|].
    replace (il * (j - j')) with ((k + j * il) - (k + j' * il)) by lia.
    rewrite Zminus_mod, Hmod, Z.sub_diag. by apply Z.mod_0_l; lia. }
  apply Z.gauss in Hdiv; [|done]. destruct Hdiv as [q Hq].
  assert (q = 0) by nia. lia.
Qed.

(** With an interleave that has no common divisor with the number of
    sectors, the slot of every sector is free when the loop comes to it. *)
Lemma fill_map_coprime (fuel : nat) (cnt : nat) :
  ∀ (i : nat) (sec_map : list Z),
    (1 ≤ fuel)%nat →
    (i + cnt)%nat = Z.to_nat nsec →
    length sec_map = Z.to_nat nsec →
    (∀ j, 0 ≤ j < Z.of_nat i → sec_map !! slot j = Some j) →
    (∀ j, Z.of_nat i ≤ j < nsec → sec_map !! slot j = Some (-1)) →
    ∃ m, fill_map fuel nsec il (Z.of_nat <$> seq i cnt) sec_map
                  ((k + Z.of_nat i * il) mod nsec) = Some m
         ∧ length m = Z.to_nat nsec
         ∧ ∀ j, 0 ≤ j < nsec → m !! slot j = Some j.
Proof.
  induction cnt as [|cnt IH]; intros i sec_map Hfuel Hi Hlen Hdone Hfree.
  - exists sec_map. split; [done|]. split; [done|]. intros j Hj. apply Hdone. lia.
  - cbn [seq fmap list_fmap fill_map].
    destruct fuel as [|fuel]; [lia|]. cbn [next_free].
    assert (Hslot : sec_map !! slot (Z.of_nat i) = Some (-1)) by (apply Hfree; lia).
    unfold slot in Hslot at 1. rewrite bool_decide_eq_true_2 by done.
    cbn [mbind option_bind].
    replace (((k + Z.of_nat i * il) mod nsec + il) mod nsec)
      with ((k + Z.of_nat (S i) * il) mod nsec)
      by (rewrite Zplus_mod_idemp_l; f_equal; lia).
    apply (IH (S i)); [lia|lia|by rewrite length_insert| |].
    + intros j Hj. fold (slot (Z.of_nat i)).
      destruct (decide (j = Z.of_nat i)) as [->|Hne].
      * apply list_lookup_insert_eq. rewrite Hlen. apply slot_lt.
      * rewrite list_lookup_insert_ne; [apply Hdone; lia|].
        intros Heq. apply Hne. symmetry. apply slot_inj; [lia|lia|done].
    + intros j Hj. fold (slot (Z.of_nat i)).
      rewrite list_lookup_insert_ne; [apply Hfree; lia|].
      intros Heq. apply slot_inj in Heq; lia.
Qed.
End Interleave.

(** X21: when the interleave and the number of sectors have no
    common divisor, no slot is ever taken when the loop comes to it:
    sector [i] lies [i] times [interleave] slots behind the slot
    [cyl * cskew + head * hskew] of sector 0, around the track, and one
    test of a slot is enough for every sector. *)
Theorem sector_map_interleave (fuel : nat) (nsec cyl0 head0 cskew0 hskew0 il : Z) :
  1 ≤ nsec →
  Z.gcd nsec il = 1 →
  (1 ≤ fuel)%nat →
  ∃ m, sector_map fuel nsec cyl0 head0 cskew0 hskew0 il = Some m
       ∧ length m = Z.to_nat nsec
       ∧ ∀ i, 0 ≤ i < nsec →
              m !! Z.to_nat ((cyl0 * cskew0 + head0 * hskew0 + i * il) mod nsec)
              = Some i.
Proof.
  intros Hn Hgcd Hfuel. unfold sector_map.
  rewrite (proj2 (Z.eqb_neq nsec 0)) by lia.
  set (k := cyl0 * cskew0 + head0 * hskew0).
  destruct (fill_map_coprime nsec il k ltac:(lia) Hgcd fuel (Z.to_nat nsec) 0%nat
              (replicate (Z.to_nat nsec) (-1)))
    as (m & Hm & Hlen & Hslots); [done|lia|by rewrite length_replicate|intros j; lia| |].
  - intros j Hj. apply lookup_replicate_2. apply slot_lt. lia.
  - exists m. split; [|done]. unfold Formats.range.
    by replace (k mod nsec) with ((k + Z.of_nat 0 * il) mod nsec) by (f_equal; lia).
Qed.

Lemma sector_map_interleave_witness :
  1 ≤ 9 ∧ Z.gcd 9 2 = 1 ∧ (1 ≤ 1)%nat
  ∧ ∃ m, sector_map 1 9 3 0 2 0 2 = Some m
         ∧ length m = Z.to_nat 9
         ∧ ∀ i, 0 ≤ i < 9 →
                m !! Z.to_nat ((3 * 2 + 0 * 0 + i * 2) mod 9) = Some i.
Proof.
  assert (H1 : 1 ≤ 9) by lia.
  assert (H2 : Z.gcd 9 2 = 1) by reflexivity.
  assert (H3 : (1 ≤ 1)%nat) by lia.
  split; [exact H1|]. split; [exact H2|]. split; [exact H3|].
  exact (sector_map_interleave 1 9 3 0 2 0 2 H1 H2 H3).
Defined.

(** ** The track that [from_format] makes *)

Lemma shl_128_inr (n size : Z) :
  shl_128 n = inr size → 0 ≤ n ∧ size = Z.shiftl 128 n ∧ 0 ≤ size.
Proof.
  unfold shl_128. destruct (Z.ltb_spec n 0); [done|]. intros [= <-].
  split; [done|]. split; [done|]. by apply Z.shiftl_nonneg.
Qed.

(** [sec_n] does not depend on the data rate or on the gaps, and a
    sum of sector sizes starts from any length. *)
Lemma sum_sizes_shift (sz : list Z) (is_ : list Z) :
  ∀ tl v tl', sum_sizes sz is_ tl = inr v → sum_sizes sz is_ tl' = inr (v - tl + tl').
Proof.
  induction is_ as [|i is_ IH]; intros tl v tl'; cbn [sum_sizes].
  - intros [= <-]. f_equal. lia.
  - unfold_res. destruct (sec_n sz i) as [e|n]; [done|].
    destruct (shl_128 n) as [e|size]; [done|]. intros Hv.
    rewrite (IH _ _ (tl' + size) Hv). f_equal. lia.
Qed.

Lemma sum_sizes_ge (sz : list Z) (is_ : list Z) :
  ∀ tl v, sum_sizes sz is_ tl = inr v → tl ≤ v.
Proof.
  induction is_ as [|i is_ IH]; intros tl v; cbn [sum_sizes].
  - intros [= <-]. lia.
  - unfold_res. destruct (sec_n sz i) as [e|n]; [done|].
    destruct (shl_128 n) as [e|size] eqn:Hsize; [done|]. intros Hv%IH.
    apply shl_128_inr in Hsize as (_ & _ & Hsize). lia.
Qed.

Lemma sum_sizes_perm (sz : list Z) (l1 l2 : list Z) :
  l1 ≡ₚ l2 → ∀ tl v, sum_sizes sz l1 tl = inr v → sum_sizes sz l2 tl = inr v.
Proof.
  induction 1 as [|x l1 l2 _ IH|x y l|l1 l2 l3 _ IH1 _ IH2]; intros tl v; [done| | |].
  - cbn [sum_sizes]. unfold_res. destruct (sec_n sz x) as [e|n]; [done|].
    destruct (shl_128 n); [done|]. apply IH.
  - cbn [sum_sizes]. unfold_res.
    destruct (sec_n sz y) as [e|ny]; [done|].
    destruct (shl_128 ny) as [e|sy]; [done|].
    destruct (sec_n sz x) as [e|nx]; [done|].
    destruct (shl_128 nx) as [e|sx]; [done|].
    intros <-. f_equal. lia.
  - intros Hv. by apply IH2, IH1.
Qed.

(** The attributes of the track that do not depend on the length
    computation. *)
Lemma from_format_attrs_fields (c : Formats.IBMTrackConfig) (cyl0 head0 : Z) (t : Track) :
  from_format_attrs c cyl0 head0 = inr t →
  cyl t = cyl0 ∧ head t = head0 ∧ sectors t = [] ∧ iams t = []
  ∧ nsec t = Formats.secs c ∧ id0 t = Formats.id c ∧ sz t = Formats.sz c
  ∧ interleave t = Formats.interleave c
  ∧ cskew t = Formats.cskew c ∧ hskew t = Formats.hskew c
  ∧ h t = default head0 (Formats.h c)
  ∧ gap_1 t = (if Formats.iam c then Some (default GAP_1 (Formats.gap1 c)) else None)
  ∧ gap_2 t = default GAP_2 (Formats.gap2 c)
  ∧ gap_4a t = default (if Formats.iam c then 40 else 16) (Formats.gap4a c)
  ∧ has_format t = true ∧ has_clock t = true.
Proof.
  unfold from_format_attrs. cbv zeta. unfold_res.
  destruct (sum_sizes _ _ _) as [e|tl]; [done|].
  destruct (select_rate _ _ _) as [e|rate]; [done|].
  destruct (floordiv _ _) as [e|bc]; [done|].
  match goal with |- context [match ?x with inl _ => _ | inr _ => _ end] =>
    destruct x as [e|[g3 tl']] end; [done|].
  destruct (Z.max _ _ =? 0); [done|].
  intros [= <-]. by repeat split.
Qed.

(** The sectors that the second loop of [construct_sectors] appends,
    one for each slot. *)
Lemma layout_sectors_fields (t : Track) (secs : list Z) :
  ∀ ss0 pos ss,
    layout_sectors t secs ss0 pos = inr ss →
    ∃ new, ss = ss0 ++ new
           ∧ Forall2 (fun s sec =>
                        sector_number s = id0 t + sec
                        ∧ IDAM.c (Sector.idam s) = cyl t
                        ∧ IDAM.h (Sector.idam s) = h t
                        ∧ sec_n (sz t) sec = inr (IDAM.n (Sector.idam s))
                        ∧ Sector.crc s = 65535) new secs.
Proof.
  induction secs as [|sec secs IH]; intros ss0 pos ss; cbn [layout_sectors].
  - intros [= <-]. exists []. by rewrite app_nil_r.
  - unfold_res. destruct (sec_n (sz t) sec) as [e|n] eqn:Hn; [done|].
    destruct (shl_128 n) as [e|size]; [done|].
    intros (new & -> & Hnew)%IH. eexists (_ :: new). rewrite <- app_assoc.
    split; [reflexivity|]. constructor; [|done]. by repeat split.
Qed.

(** X22: [from_format] lays out as many sectors as the configuration
    has; their numbers are [id], [id + 1], ... each once; every sector
    has the cylinder of the track, the head byte [h] (the head of the
    track unless the configuration gives one), a size code of the
    configuration and the checksum 0xffff of a sector that is not read
    yet; and the track has an index mark exactly when [iam] is set. *)
Theorem from_format_sectors (fuel : nat) (c : Formats.IBMTrackConfig)
        (cyl0 head0 : Z) (t : Track) :
  0 ≤ Formats.secs c →
  (Z.to_nat (Formats.secs c) ≤ fuel)%nat →
  from_format fuel c cyl0 head0 = Some (inr t) →
  Z.of_nat (length (sectors t)) = Formats.secs c
  ∧ sector_number <$> sectors t
    ≡ₚ (fun i => Formats.id c + i) <$> Formats.range (Formats.secs c)
  ∧ Forall (fun s => IDAM.c (Sector.idam s) = cyl0
                     ∧ IDAM.h (Sector.idam s) = default head0 (Formats.h c)
                     ∧ IDAM.n (Sector.idam s) ∈ Formats.sz c
                     ∧ Sector.crc s = 65535) (sectors t)
  ∧ length (iams t) = (if Formats.iam c then 1 else 0)%nat.
Proof.
  intros Hsecs Hfuel. unfold from_format.
  destruct (from_format_attrs c cyl0 head0) as [e|t0] eqn:Hattrs; [by intros [= ?]|].
  destruct (from_format_attrs_fields c cyl0 head0 t0 Hattrs)
    as (Hcyl & Hhead & Hss & His & Hnsec & Hid & Hsz & _ & _ & _ & Hh & Hg1
        & _ & _ & Hformat & _).
  unfold construct_sectors. rewrite Hformat.
  destruct (sector_map_ok fuel (nsec t0) (cyl t0) (head t0) (cskew t0) (hskew t0)
              (interleave t0)) as (m & -> & Hperm); [lia|by rewrite Hnsec|].
  cbn [fmap option_fmap option_map]. intros [= Hlay]. revert Hlay.
  unfold construct_layout. rewrite Hss, His, Hg1.
  assert (Hmain : ∀ pos ss, layout_sectors t0 m [] pos = inr ss →
    Z.of_nat (length ss) = Formats.secs c
    ∧ sector_number <$> ss ≡ₚ (fun i => Formats.id c + i) <$> Formats.range (Formats.secs c)
    ∧ Forall (fun s => IDAM.c (Sector.idam s) = cyl0
                       ∧ IDAM.h (Sector.idam s) = default head0 (Formats.h c)
                       ∧ IDAM.n (Sector.idam s) ∈ Formats.sz c
                       ∧ Sector.crc s = 65535) ss).
  { intros pos ss (new & -> & Hnew)%layout_sectors_fields. cbn [app].
    rewrite Hnsec in Hperm. split; [|split].
    - rewrite (Forall2_length _ _ _ Hnew), Hperm. unfold Formats.range.
      rewrite length_fmap, length_seq. lia.
    - rewrite <- Hperm. clear -Hnew Hid.
      induction Hnew as [|s sec new secs (Hr & _) _ IH]; [done|].
      cbn [fmap list_fmap]. by rewrite Hr, Hid, IH.
    - clear -Hnew Hcyl Hh Hsz. induction Hnew as [|s sec new secs Hs _ IH]; [done|].
      destruct Hs as (_ & Hc' & Hh' & Hn' & Hcrc). apply Forall_cons. split; [|done].
      rewrite Hc', Hh', Hcyl, Hh. repeat split; try done.
      unfold sec_n in Hn'. unfold_res. rewrite Hsz in Hn'.
      destruct (sec <? _).
      + destruct (Formats.sz c !! _) as [v|] eqn:Hv; [|done]. injection Hn' as <-.
        by eapply list_elem_of_lookup_2.
      + destruct (last (Formats.sz c)) as [v|] eqn:Hv; [|done]. injection Hn' as <-.
        by apply last_Some_elem_of. }
  unfold_res. destruct (Formats.iam c).
  - destruct (layout_sectors t0 m [] _) as [e|ss] eqn:Hl; [done|]. intros [= <-].
    cbn [sectors iams set_lists length]. destruct (Hmain _ _ Hl) as (? & ? & ?). done.
  - destruct (layout_sectors t0 m [] _) as [e|ss] eqn:Hl; [done|]. intros [= <-].
    cbn [sectors iams set_lists length]. destruct (Hmain _ _ Hl) as (? & ? & ?). done.
Qed.

Definition nine_sectors : Formats.IBMTrackConfig :=
  Formats.set_interleave 2
    (Formats.set_sz [1] (Formats.set_secs 9 (Formats.IBMTrackConfig_init "ibm.fm"))).

Lemma from_format_sectors_witness :
  0 ≤ Formats.secs nine_sectors
  ∧ (Z.to_nat (Formats.secs nine_sectors) ≤ 9)%nat
  ∧ ∃ t, from_format 9 nine_sectors 3 0 = Some (inr t)
         ∧ Z.of_nat (length (sectors t)) = Formats.secs nine_sectors
         ∧ sector_number <$> sectors t
           ≡ₚ (fun i => Formats.id nine_sectors + i)
                <$> Formats.range (Formats.secs nine_sectors)
         ∧ length (iams t) = 1%nat.
Proof.
  assert (H1 : 0 ≤ Formats.secs nine_sectors) by (simpl; lia).
  assert (H2 : (Z.to_nat (Formats.secs nine_sectors) ≤ 9)%nat) by (simpl; lia).
  split; [exact H1|]. split; [exact H2|].
  eexists.
  assert (H3 : from_format 9 nine_sectors 3 0 = Some (inr _))
    by (vm_compute; reflexivity).
  split; [exact H3|].
  destruct (from_format_sectors 9 nine_sectors 3 0 _ H1 H2 H3) as (Ha & Hb & _ & Hd).
  split; [exact Ha|]. split; [exact Hb|exact Hd].
Defined.

Lemma sector_area_end (n : Z) (s : Sector.t) :
  good_sector n s → 16 * area_end (AreaSector s) = Sector.end_ s.
Proof.
  intros (_ & He & _ & _ & _ & Hm2 & _ & Hdend & _ & _ & _ & _ & Hlen).
  cbn [area_end]. rewrite Hlen, He, Hdend.
  pose proof (div16 _ _ Hm2 eq_refl). lia.
Qed.

(** The room between the areas of a track that is laid out in cells. *)
Lemma good_separated (ss : list Sector.t) :
  ∀ n, good n (AreaSector <$> ss) →
       (∀ s, ss !! 0%nat = Some s → 16 * n + 96 ≤ Sector.start s)
       ∧ (∀ i a b, ss !! i = Some a → ss !! S i = Some b →
                   Sector.end_ a + 96 ≤ Sector.start b)
       ∧ Forall (fun s => IDAM.end_ (Sector.idam s) + 96 ≤ DAM.start (Sector.dam s)) ss.
Proof.
  induction ss as [|s ss IH]; intros n Hgood.
  - split; [done|]. split; [|done]. intros i a b Ha. by rewrite lookup_nil in Ha.
  - cbn [fmap list_fmap good] in Hgood. destruct Hgood as [Hs Hrest].
    pose proof (sector_area_end n s Hs) as Hend.
    destruct (IH _ Hrest) as (Hfirst & Hnext & Hin).
    destruct Hs as (Hst & He & Hm1 & Hle1 & Hiend & Hm2 & Hle2 & _).
    pose proof (div16 _ _ Hm1 eq_refl). pose proof (div16 _ _ Hm2 eq_refl).
    split; [|split].
    + intros s' [= <-]. lia.
    + intros [|i] a b; cbn [lookup list_lookup].
      * intros [= <-] Hb. specialize (Hfirst b Hb). lia.
      * apply Hnext.
    + apply Forall_cons. split; [lia|done].
Qed.

(** X23: the areas that [from_format] lays out do not overlap and
    leave room for the six presync bytes in front of every mark: a data
    field starts at least 96 bit-cells behind the end of its ID field, a
    sector at least 96 bit-cells behind the end of the sector in front of
    it, and the first sector at least 96 bit-cells behind the index
    mark. *)
Theorem from_format_layout_separated (fuel : nat) (c : Formats.IBMTrackConfig)
        (cyl0 head0 : Z) :
  in_ranges c →
  Formats.secs c = 0 ∨ Formats.sz c ≠ [] →
  is_byte cyl0 → is_byte head0 →
  Formats.id c + Formats.secs c ≤ 256 →
  (Z.to_nat (Formats.secs c) ≤ fuel)%nat →
  ∃ t, from_format fuel c cyl0 head0 = Some (inr t)
       ∧ (∀ i a b, sectors t !! i = Some a → sectors t !! S i = Some b →
                   Sector.end_ a + 96 ≤ Sector.start b)
       ∧ Forall (fun s => IDAM.end_ (Sector.idam s) + 96 ≤ DAM.start (Sector.dam s))
                (sectors t)
       ∧ (∀ i s, iams t = [i] → sectors t !! 0%nat = Some s →
                 96 ≤ IAM.start i ∧ IAM.end_ i + 96 ≤ Sector.start s)
       ∧ (∀ s, iams t = [] → sectors t !! 0%nat = Some s → 96 ≤ Sector.start s).
Proof.
  intros Hr Hfin Hcyl Hhead Hfit Hfuel.
  destruct (from_format_good fuel c cyl0 head0 Hr Hfin Hcyl Hhead Hfit Hfuel)
    as (t & Hff & (_ & His & Hgood & _) & _ & _).
  exists t. split; [done|].
  destruct (iams t) as [|i [|]]; [| |simpl in His; lia].
  - cbn [fmap list_fmap app] in Hgood.
    destruct (good_separated _ _ Hgood) as (Hfirst & Hnext & Hin).
    split; [done|]. split; [done|]. split; [done|].
    intros s _ Hs. specialize (Hfirst s Hs). lia.
  - cbn [fmap list_fmap app good] in Hgood. destruct Hgood as [Hi Hrest].
    destruct (good_separated _ _ Hrest) as (Hfirst & Hnext & Hin).
    split; [done|]. split; [done|]. split; [|done].
    intros i' s [= <-] Hs. specialize (Hfirst s Hs).
    destruct Hi as (Hmod & Hle & Hend). cbn [area_end] in Hfirst.
    pose proof (div16 _ _ Hmod eq_refl). lia.
Qed.

Lemma from_format_layout_separated_witness :
  in_ranges nine_sectors
  ∧ (Formats.secs nine_sectors = 0 ∨ Formats.sz nine_sectors ≠ [])
  ∧ is_byte 3 ∧ is_byte 0
  ∧ Formats.id nine_sectors + Formats.secs nine_sectors ≤ 256
  ∧ (Z.to_nat (Formats.secs nine_sectors) ≤ 9)%nat
  ∧ ∃ t, from_format 9 nine_sectors 3 0 = Some (inr t)
         ∧ length (sectors t) = 9%nat
         ∧ (∀ i a b, sectors t !! i = Some a → sectors t !! S i = Some b →
                     Sector.end_ a + 96 ≤ Sector.start b)
         ∧ Forall (fun s => IDAM.end_ (Sector.idam s) + 96 ≤ DAM.start (Sector.dam s))
                  (sectors t)
         ∧ (∀ i s, iams t = [i] → sectors t !! 0%nat = Some s →
                   96 ≤ IAM.start i ∧ IAM.end_ i + 96 ≤ Sector.start s).
Proof.
  assert (H1 : in_ranges nine_sectors).
  { unfold in_ranges, nine_sectors. simpl.
    repeat split; try lia; try discriminate.
    constructor; [lia|constructor]. }
  assert (H2 : Formats.secs nine_sectors = 0 ∨ Formats.sz nine_sectors ≠ []).
  { right. simpl. discriminate. }
  assert (H3 : is_byte 3) by (unfold is_byte; lia).
  assert (H0 : is_byte 0) by (unfold is_byte; lia).
  assert (H4 : Formats.id nine_sectors + Formats.secs nine_sectors ≤ 256) by (simpl; lia).
  assert (H5 : (Z.to_nat (Formats.secs nine_sectors) ≤ 9)%nat) by (simpl; lia).
  split; [exact H1|]. split; [exact H2|]. split; [exact H3|]. split; [exact H0|].
  split; [exact H4|]. split; [exact H5|].
  destruct (from_format_layout_separated 9 nine_sectors 3 0 H1 H2 H3 H0 H4 H5)
    as (t & Hff & Hnext & Hin & Hiam & _).
  exists t. split; [exact Hff|]. split; [|split; [exact Hnext|split; [exact Hin|exact Hiam]]].
  assert (Hc : ∃ t', from_format 9 nine_sectors 3 0 = Some (inr t')
                     ∧ length (sectors t') = 9%nat)
    by (eexists; split; [vm_compute; reflexivity|reflexivity]).
  destruct Hc as (t' & Hff' & Hlen). rewrite Hff in Hff'. by injection Hff' as <-.
Defined.

(** The end of every sector that the second loop appends, given the
    sum [v] of the sizes of the sectors. *)
Lemma layout_sectors_end (t : Track) (secs : list Z) :
  0 ≤ gap_2 t → 0 ≤ gap_3 t →
  ∀ ss0 pos ss v,
    layout_sectors t secs ss0 pos = inr ss →
    sum_sizes (sz t) secs 0 = inr v →
    ∃ new, ss = ss0 ++ new
           ∧ Forall (fun s =>
                       Sector.end_ s + 16 * gap_3 t
                       ≤ 16 * (pos + v + Z.of_nat (length secs)
                                         * (22 + gap_2 t + gap_3 t))) new.
Proof.
  intros Hg2 Hg3. induction secs as [|sec secs IH]; intros ss0 pos ss v;
    cbn [layout_sectors sum_sizes].
  - intros [= <-] _. exists []. by rewrite app_nil_r.
  - unfold_res. destruct (sec_n (sz t) sec) as [e|n] eqn:Hn; [done|].
    destruct (shl_128 n) as [e|size] eqn:Hshl; [done|].
    intros Hlay Hsum.
    pose proof (sum_sizes_shift _ _ _ _ 0 Hsum) as Hsum0.
    pose proof (sum_sizes_ge _ _ _ _ Hsum0) as Hge.
    apply shl_128_inr in Hshl as (_ & _ & Hsize).
    destruct (IH _ _ _ _ Hlay Hsum0) as (new & -> & Hnew).
    eexists (_ :: new). rewrite <- app_assoc. split; [reflexivity|].
    unfold gap_presync in *. cbn [length]. rewrite Nat2Z.inj_succ.
    set (k := Z.of_nat (length secs)) in *.
    assert (0 ≤ k * (22 + gap_2 t + gap_3 t)) by (apply Z.mul_nonneg_nonneg; lia).
    apply Forall_cons. split.
    + cbn [Sector.end_ Sector.make DAM.end_]. lia.
    + eapply Forall_impl; [exact Hnew|]. cbn. intros s Hs. lia.
Qed.

(** The length of the track in bit-cells covers the layout. *)
Lemma from_format_attrs_length (c : Formats.IBMTrackConfig) (cyl0 head0 : Z) (t : Track) :
  in_ranges c →
  from_format_attrs c cyl0 head0 = inr t →
  0 ≤ gap_2 t ∧ 0 ≤ gap_3 t
  ∧ ∃ v, sum_sizes (Formats.sz c) (Formats.range (Formats.secs c)) 0 = inr v
         ∧ 16 * (gap_4a t + match gap_1 t with Some g => 6 + 1 + g | None => 0 end
                 + v + Formats.secs c * (22 + gap_2 t + gap_3 t))
           ≤ tracklen_bc t.
Proof.
  intros (Hsecs & Hsz & Hid & Hil & Hcs & Hhs & Hh & Hg1 & Hg2 & Hg3 & Hg4 & Hrpm & Hrate).
  unfold from_format_attrs. cbv zeta. unfold_res.
  destruct (sum_sizes _ _ _) as [e|tl] eqn:Hsum; [done|].
  pose proof (sum_sizes_shift _ _ _ _ 0 Hsum) as Hsum0.
  destruct (select_rate _ _ _) as [e|rate]; [done|].
  destruct (floordiv _ _) as [e|bc]; [done|].
  assert (Hg2' : 0 ≤ default GAP_2 (Formats.gap2 c)) by by apply default_range.
  assert (Hg3' : 0 ≤ default 0 (Formats.gap3 c)) by by apply default_range.
  unfold gap_presync in *.
  destruct (negb (Formats.secs c =? 0) && Formats.is_None (Formats.gap3 c)) eqn:Hauto.
  - apply andb_prop in Hauto as [Hn0 Hnone].
    apply negb_true_iff, Z.eqb_neq in Hn0.
    destruct (Formats.gap3 c); [done|]. cbn [default] in *.
    destruct (sec_n _ 0) as [e|no]; [done|].
    destruct (GAP_3 !! _) as [g|] eqn:Hg; [|done].
    assert (0 < g).
    { apply list_elem_of_lookup_2 in Hg. unfold GAP_3 in Hg.
      repeat (apply elem_of_cons in Hg as [->|Hg]; [lia|]). by apply elem_of_nil in Hg. }
    destruct (Z.max _ _ =? 0); [done|].
    intros [= <-]. cbn [gap_2 gap_3 gap_4a gap_1 tracklen_bc].
    set (space := Z.max 0 (bc - tl * 16)).
    assert (0 ≤ space `div` (16 * Formats.secs c)) by (apply Z.div_pos; lia).
    split; [done|]. split; [lia|]. eexists. split; [exact Hsum0|].
    destruct (Formats.iam c); lia.
  - destruct (Z.max _ _ =? 0); [done|].
    intros [= <-]. cbn [gap_2 gap_3 gap_4a gap_1 tracklen_bc].
    split; [done|]. split; [done|]. eexists. split; [exact Hsum0|].
    destruct (Formats.iam c); lia.
Qed.

(** X24: the track length in bit-cells that [from_format] computes
    covers the layout: every sector, with the gap 3 behind it, ends
    within [tracklen_bc]. *)
Theorem from_format_fits_track (fuel : nat) (c : Formats.IBMTrackConfig)
        (cyl0 head0 : Z) (t : Track) :
  in_ranges c →
  (Z.to_nat (Formats.secs c) ≤ fuel)%nat →
  from_format fuel c cyl0 head0 = Some (inr t) →
  0 ≤ gap_3 t
  ∧ Forall (fun s => Sector.end_ s + 16 * gap_3 t ≤ tracklen_bc t) (sectors t).
Proof.
  intros Hr Hfuel. unfold from_format.
  destruct (from_format_attrs c cyl0 head0) as [e|t0] eqn:Hattrs; [by intros [= ?]|].
  destruct (from_format_attrs_fields c cyl0 head0 t0 Hattrs)
    as (_ & _ & Hss & His & Hnsec & _ & Hsz & _ & _ & _ & _ & _ & _ & _ & Hformat & _).
  destruct (from_format_attrs_length c cyl0 head0 t0 Hr Hattrs)
    as (Hg2 & Hg3 & v & Hsum & Hlen).
  pose proof Hr as (Hsecs & _).
  unfold construct_sectors. rewrite Hformat.
  destruct (sector_map_ok fuel (nsec t0) (cyl t0) (head t0) (cskew t0) (hskew t0)
              (interleave t0)) as (m & -> & Hperm); [lia|by rewrite Hnsec|].
  cbn [fmap option_fmap option_map]. intros [= Hlay]. revert Hlay.
  rewrite Hnsec in Hperm. symmetry in Hperm.
  pose proof (sum_sizes_perm _ _ _ Hperm _ _ Hsum) as Hsum'. rewrite <- Hsz in Hsum'.
  assert (Hm : Z.of_nat (length m) = Formats.secs c).
  { rewrite <- Hperm. unfold Formats.range. rewrite length_fmap, length_seq. lia. }
  unfold construct_layout. rewrite Hss. unfold_res. unfold gap_presync in *.
  destruct (gap_1 t0) as [g|].
  - destruct (layout_sectors t0 m [] _) as [e|ss] eqn:Hl; [done|]. intros [= <-].
    cbn [sectors gap_3 tracklen_bc set_lists]. split; [done|].
    destruct (layout_sectors_end t0 m Hg2 Hg3 _ _ _ _ Hl Hsum') as (new & -> & Hnew).
    cbn [app]. eapply Forall_impl; [exact Hnew|]. cbn. intros s Hs.
    rewrite Hm in Hs. lia.
  - destruct (layout_sectors t0 m [] _) as [e|ss] eqn:Hl; [done|]. intros [= <-].
    cbn [sectors gap_3 tracklen_bc set_lists]. split; [done|].
    destruct (layout_sectors_end t0 m Hg2 Hg3 _ _ _ _ Hl Hsum') as (new & -> & Hnew).
    cbn [app]. eapply Forall_impl; [exact Hnew|]. cbn. intros s Hs.
    rewrite Hm in Hs. lia.
Qed.

Lemma from_format_fits_track_witness :
  in_ranges one_sector
  ∧ (Z.to_nat (Formats.secs one_sector) ≤ 1)%nat
  ∧ ∃ t, from_format 1 one_sector 0 0 = Some (inr t)
         ∧ 0 ≤ gap_3 t
         ∧ Forall (fun s => Sector.end_ s + 16 * gap_3 t ≤ tracklen_bc t) (sectors t).
Proof.
  assert (H1 : in_ranges one_sector).
  { unfold in_ranges, one_sector. simpl.
    repeat split; try lia; try discriminate.
    constructor; [lia|constructor]. }
  assert (H2 : (Z.to_nat (Formats.secs one_sector) ≤ 1)%nat) by (simpl; lia).
  split; [exact H1|]. split; [exact H2|].
  eexists.
  assert (H3 : from_format 1 one_sector 0 0 = Some (inr _)) by (vm_compute; reflexivity).
  split; [exact H3|].
  exact (from_format_fits_track 1 one_sector 0 0 _ H1 H2 H3).
Defined.

(** X25: the automatic gap 3 only uses the room that the data rate
    leaves: it is not negative, and the track is as long, in bit-cells,
    as with a gap 3 of no bytes. *)
Theorem auto_gap3_keeps_length (c : Formats.IBMTrackConfig) (cyl0 head0 : Z) (t : Track) :
  0 ≤ Formats.secs c →
  Formats.gap3 c = None →
  from_format_attrs c cyl0 head0 = inr t →
  ∃ t', from_format_attrs (Formats.set_gap3 (Some 0) c) cyl0 head0 = inr t'
        ∧ tracklen_bc t = tracklen_bc t'
        ∧ 0 ≤ gap_3 t.
Proof.
  intros Hsecs Hgap. unfold from_format_attrs. cbv zeta.
  cbn [Formats.secs Formats.sz Formats.h Formats.iam Formats.gap1 Formats.gap2
       Formats.gap3 Formats.gap4a Formats.rpm Formats.rate Formats.id
       Formats.interleave Formats.cskew Formats.hskew Formats.set_gap3].
  rewrite Hgap. cbn [default Formats.is_None]. rewrite andb_true_r, andb_false_r.
  unfold_res.
  destruct (sum_sizes _ _ _) as [e|tl]; [done|].
  destruct (select_rate _ _ _) as [e|rate]; [done|].
  destruct (floordiv _ _) as [e|bc]; [done|].
  destruct (Z.eqb_spec (Formats.secs c) 0) as [H0|H0]; cbn [negb].
  - destruct (Z.max _ _ =? 0); [done|].
    intros [= <-]. eexists. split; [reflexivity|]. by cbn.
  - destruct (sec_n _ 0) as [e|no]; [done|].
    destruct (GAP_3 !! _) as [g|] eqn:Hg; [|done].
    assert (0 < g).
    { apply list_elem_of_lookup_2 in Hg. unfold GAP_3 in Hg.
      repeat (apply elem_of_cons in Hg as [->|Hg]; [lia|]). by apply elem_of_nil in Hg. }
    set (space := Z.max 0 (bc - tl * 16)).
    assert (0 ≤ space `div` (16 * Formats.secs c)) by (apply Z.div_pos; lia).
    assert (16 * Formats.secs c * (space `div` (16 * Formats.secs c)) ≤ space)
      by (apply Z.mul_div_le; lia).
    assert (0 ≤ 16 * Formats.secs c * Z.min (space `div` (16 * Formats.secs c)) g
            ≤ space) by nia.
    assert (Hmax : Z.max bc (tl * 16 + 16 * Formats.secs c
                                       * Z.min (space `div` (16 * Formats.secs c)) g)
                   = Z.max bc (tl * 16)) by lia.
    rewrite Hmax. destruct (Z.max bc (tl * 16) =? 0); [done|].
    intros [= <-]. eexists. split; [reflexivity|]. cbn [tracklen_bc gap_3].
    split; [done|lia].
Qed.

Lemma auto_gap3_keeps_length_witness :
  0 ≤ Formats.secs one_sector
  ∧ Formats.gap3 one_sector = None
  ∧ ∃ t t', from_format_attrs one_sector 0 0 = inr t
            ∧ from_format_attrs (Formats.set_gap3 (Some 0) one_sector) 0 0 = inr t'
            ∧ tracklen_bc t = tracklen_bc t'
            ∧ 0 ≤ gap_3 t.
Proof.
  assert (H1 : 0 ≤ Formats.secs one_sector) by (simpl; lia).
  assert (H2 : Formats.gap3 one_sector = None) by reflexivity.
  split; [exact H1|]. split; [exact H2|].
  eexists.
  assert (H3 : from_format_attrs one_sector 0 0 = inr _) by (vm_compute; reflexivity).
  destruct (auto_gap3_keeps_length one_sector 0 0 _ H1 H2 H3) as (t' & Ha & Hb & Hc).
  exists t'. split; [exact H3|]. split; [exact Ha|]. split; [exact Hb|exact Hc].
Defined.


(** ** The shape of the sectors read from a capture *)

Lemma itersearch_from_ge (pat : bitarray) (bs : bitarray) :
  ∀ o x, x ∈ itersearch_from pat o bs → o ≤ x.
Proof.
  induction bs as [|b bs IH]; intros o x; cbn [itersearch_from].
  - by intros ?%elem_of_nil.
  - rewrite elem_of_app. intros [Hx|Hx].
    + destruct (is_prefix pat (b :: bs)); [|by apply elem_of_nil in Hx].
      apply list_elem_of_singleton in Hx. lia.
    + apply IH in Hx. lia.
Qed.

Lemma length_tobytes_aux (k : nat) :
  ∀ (fuel : nat) (bs : bitarray),
    length bs = (8 * k)%nat → (length bs ≤ fuel)%nat →
    length (tobytes_aux fuel bs) = k.
Proof.
  induction k as [|k IH]; intros fuel bs Hlen Hfuel.
  - destruct bs; [|done]. by destruct fuel.
  - destruct bs as [|b bs]; [done|]. destruct fuel as [|fuel]; [simpl in Hfuel; lia|].
    cbn [tobytes_aux length]. f_equal. apply IH.
    + rewrite length_drop, Hlen. lia.
    + rewrite length_drop. lia.
Qed.

Lemma length_decode (k : nat) :
  ∀ dat : bytes, length dat = (2 * k)%nat → length (decode dat) = k.
Proof.
  induction k as [|k IH]; intros dat Hlen.
  - by destruct dat.
  - destruct dat as [|x [|y dat]]; [done|simpl in Hlen; lia|].
    cbn [decode length]. f_equal. apply IH. simpl in Hlen. lia.
Qed.

(** A slice of whole cells inside the bits decodes to a byte a cell. *)
Lemma length_decode_bits (bits : bitarray) (a k : Z) :
  0 ≤ a → 0 ≤ k → a + k * 16 ≤ Z.of_nat (length bits) →
  length (decode_bits bits a (a + k * 16)) = Z.to_nat k.
Proof.
  intros Ha Hk Hfit. unfold decode_bits, tobytes.
  assert (Hs : length (slice bits a (a + k * 16)) = (8 * (2 * Z.to_nat k))%nat).
  { unfold slice. rewrite length_take, length_drop. lia. }
  apply length_decode. by apply length_tobytes_aux.
Qed.

(** A sector as [decode_raw] builds it: an ID field of seven cells, a
    data field of a mark, the payload and two checksum bytes, and a
    payload of as many bytes as the size code of the ID field tells. *)
Definition sector_shape (s : Sector.t) : Prop :=
  let size := Z.shiftl 128 (IDAM.n (Sector.idam s)) in
  Sector.start s = IDAM.start (Sector.idam s)
  ∧ Sector.end_ s = DAM.end_ (Sector.dam s)
  ∧ Sector.crc s = Z.lor (IDAM.crc (Sector.idam s)) (DAM.crc (Sector.dam s))
  ∧ IDAM.end_ (Sector.idam s) = IDAM.start (Sector.idam s) + 7 * 16
  ∧ DAM.end_ (Sector.dam s) = DAM.start (Sector.dam s) + (1 + size + 2) * 16
  ∧ (DAM.mark (Sector.dam s) = DAM_mark ∨ DAM.mark (Sector.dam s) = DDAM_mark)
  ∧ ∃ dat, DAM.data (Sector.dam s) = Some dat ∧ Z.of_nat (length dat) = size.

Definition area_shape (a : Area) : Prop :=
  match a with
  | AreaIAM i => IAM.end_ i = IAM.start i + 1 * 16
  | AreaSector s => sector_shape s
  | _ => True
  end.

Lemma sector_shape_delta (p : Z) (s : Sector.t) :
  sector_shape s → sector_shape (Sector.delta p s).
Proof.
  unfold sector_shape. cbn. intros (H1 & H2 & H3 & H4 & H5 & H6 & H7).
  repeat split; try done; lia.
Qed.

Lemma area_shape_delta (p : Z) (a : Area) : area_shape a → area_shape (Area_delta p a).
Proof.
  destruct a as [i| | |s]; cbn [Area_delta area_shape]; try done.
  - cbn. lia.
  - apply sector_shape_delta.
Qed.

Lemma shiftl_128_nonneg (n : Z) : 0 ≤ Z.shiftl 128 n.
Proof. by apply Z.shiftl_nonneg. Qed.

Lemma scan_mark_shape (bits : bitarray) (st : list Area * option IDAM.t) (offs : Z) :
  0 ≤ offs →
  Forall area_shape st.1 →
  (∀ i, st.2 = Some i → IDAM.end_ i = IDAM.start i + 7 * 16) →
  Forall area_shape (scan_mark bits st offs).1
  ∧ ∀ i, (scan_mark bits st offs).2 = Some i → IDAM.end_ i = IDAM.start i + 7 * 16.
Proof.
  intros Hoffs Hall Hpend. destruct st as [areas idam]. cbn [fst snd] in *.
  unfold scan_mark.
  destruct (Z.ltb_spec (Z.of_nat (length bits)) (offs + 16 + 1 * 16)); [done|].
  destruct (negb _); [done|].
  destruct (_ =? IDAM_mark).
  { destruct (Z.ltb_spec (Z.of_nat (length bits)) (offs + 16 + 7 * 16)); [done|].
    cbn [fst snd]. split.
    - destruct idam; [|done]. apply Forall_app. split; [done|]. by apply Forall_singleton.
    - by intros i [= <-]. }
  destruct (_ || _) eqn:Hmark; [|done].
  assert (Hlone : ∀ d, Forall area_shape (areas ++ [AreaDAM d])).
  { intros d. apply Forall_app. split; [done|]. by apply Forall_singleton. }
  destruct idam as [i|]; [|split; [apply Hlone|done]].
  destruct (1000 <? _); [split; [apply Hlone|done]|].
  pose proof (shiftl_128_nonneg (IDAM.n i)) as Hsz.
  destruct (Z.ltb_spec (Z.of_nat (length bits))
                       (offs + 16 + (1 + Z.shiftl 128 (IDAM.n i) + 2) * 16)); [done|].
  cbn [fst snd]. split; [|done].
  apply Forall_app. split; [done|]. apply Forall_singleton.
  cbn [area_shape]. unfold sector_shape. cbn.
  split; [done|]. split; [done|]. split; [done|].
  split; [by apply Hpend|]. split; [done|].
  split; [apply orb_prop in Hmark as [?%Z.eqb_eq|?%Z.eqb_eq]; auto|].
  eexists. split; [done|].
  rewrite length_take, length_drop.
  rewrite (length_decode_bits bits (offs + 16) (1 + Z.shiftl 128 (IDAM.n i) + 2))
    by lia.
  lia.
Qed.

Lemma scan_areas_shape (bits : bitarray) : Forall area_shape (scan_areas bits).
Proof.
  unfold scan_areas.
  assert (Hinv : ∀ offs st,
    Forall (fun x => 0 ≤ x) offs →
    Forall area_shape st.1 →
    (∀ i, st.2 = Some i → IDAM.end_ i = IDAM.start i + 7 * 16) →
    Forall area_shape (foldl (scan_mark bits) st offs).1
    ∧ ∀ i, (foldl (scan_mark bits) st offs).2 = Some i
           → IDAM.end_ i = IDAM.start i + 7 * 16).
  { induction offs as [|o offs IH]; intros st Hoffs Hall Hpend; cbn [foldl]; [done|].
    apply Forall_cons in Hoffs as [Ho Hoffs].
    destruct (scan_mark_shape bits st o Ho Hall Hpend) as [Hall' Hpend'].
    by apply IH. }
  destruct (Hinv (itersearch sync_prefix bits) (scan_iams bits, None)) as [Hall Hpend].
  - rewrite Forall_forall. intros x Hx.
    by apply (itersearch_from_ge sync_prefix bits 0 x).
  - unfold scan_iams. cbn [fst]. rewrite Forall_fmap. rewrite Forall_forall. by intros.
  - done.
  - destruct (foldl _ _ _) as [areas [i|]]; cbn [fst snd] in *; [|done].
    apply Forall_app. split; [done|]. by apply Forall_singleton.
Qed.

Lemma track_offsets_shape (areas : list Area) :
  ∀ p n index, Forall area_shape areas →
               Forall area_shape (track_offsets p n index areas).
Proof.
  induction areas as [|a areas IH]; intros p n index Hall; cbn [track_offsets]; [done|].
  apply Forall_cons in Hall as [Ha Hall].
  destruct n as [nv|]; [destruct (nv <=? Area_start a); [destruct index|]|];
    (apply Forall_cons; split; [by apply area_shape_delta|by apply IH]).
Qed.

Lemma dedup_shape (areas : list Area) :
  ∀ st, Forall area_shape areas →
        Forall (fun i => IAM.end_ i = IAM.start i + 1 * 16) st.1 →
        Forall sector_shape st.2 →
        Forall (fun i => IAM.end_ i = IAM.start i + 1 * 16) (dedup st areas).1
        ∧ Forall sector_shape (dedup st areas).2.
Proof.
  unfold dedup.
  induction areas as [|a areas IH]; intros st Hall Hi Hs; cbn [foldl]; [done|].
  apply Forall_cons in Hall as [Ha Hall]. apply IH; [done| |].
  - destruct a as [i| | |s]; cbn [dedup_area fst]; try done.
    unfold add_iam. destruct (find_near _ _ _ _); [done|].
    apply Forall_app. split; [done|]. by apply Forall_singleton.
  - destruct a as [i| | |s]; cbn [dedup_area snd]; try done.
    unfold add_sector. destruct (find_near _ _ _ _) as [[j s0]|].
    + destruct (_ && _); [|done]. by apply Forall_insert.
    + apply Forall_app. split; [done|]. by apply Forall_singleton.
Qed.

(** X28: the index marks and the sectors that [decode_raw] adds to the
    lists of a track have the shape that the scan gives them, whatever
    the captured bits are: an index mark spans one cell; a sector starts
    with its ID field and ends with its data field, has their two
    checksums combined, an ID field of 7 cells, a DAM or DDAM mark, a
    data field of [1 + size + 2] cells for [size = 128 << n], and a
    payload of exactly [size] bytes. *)
Theorem decoded_sectors_shape (st : list IAM.t * list Sector.t)
        (bits : bitarray) (revolutions : list Z)
        (is_ : list IAM.t) (ss : list Sector.t) :
  Forall (fun i => IAM.end_ i = IAM.start i + 1 * 16) st.1 →
  Forall sector_shape st.2 →
  IBM_FM_decode_raw st bits revolutions = inr (is_, ss) →
  Forall (fun i => IAM.end_ i = IAM.start i + 1 * 16) is_
  ∧ Forall sector_shape ss.
Proof.
  intros Hi Hs. unfold IBM_FM_decode_raw.
  destruct revolutions as [|n index]; [done|]. unfold_res. intros [= Hrun].
  pose proof (dedup_shape
    (sort_by Area_start
       (track_offsets 0 (Some n) index (sort_by Area_start (scan_areas bits))))
    st) as Hd.
  rewrite Hrun in Hd. apply Hd; [|done|done].
  rewrite sort_by_perm. apply track_offsets_shape.
  rewrite sort_by_perm. apply scan_areas_shape.
Qed.

(** A capture of one sector of 128 bytes: ID field 0.0.1, size code 0,
    a gap of 11 bytes and the data field. *)
Definition short_capture : bitarray :=
  let data := replicate 128 229 in
  frombytes (encode [0] ++ sync IDAM_mark 199
             ++ encode ([0; 0; 1; 0] ++ pack_H (crc16 [IDAM_mark; 0; 0; 1; 0]))
             ++ encode (replicate 11 255 ++ [0]) ++ sync DAM_mark 199
             ++ encode (data ++ pack_H (crc16 (DAM_mark :: data)))
             ++ encode [255]).

Lemma decoded_sectors_shape_witness :
  ∃ s, IBM_FM_decode_raw ([], []) short_capture [5000] = inr ([], [s])
       ∧ Sector.crc s = 0
       ∧ Forall (fun i => IAM.end_ i = IAM.start i + 1 * 16) []
       ∧ Forall sector_shape [s].
Proof.
  eexists.
  assert (Hrun : IBM_FM_decode_raw ([], []) short_capture [5000] = inr ([], [_]))
    by (vm_compute; reflexivity).
  split; [exact Hrun|]. split; [reflexivity|].
  exact (decoded_sectors_shape ([], []) short_capture [5000] [] _
           (Forall_nil_2 _) (Forall_nil_2 _) Hrun).
Defined.

(** ** From a loaded format to a verified track *)

Section Loaded.
Context `{Formats.Externals}.

(** X27: a finalised IBM template of a format that [get_format] has
    loaded, with sector numbers [id .. id + secs - 1] that fit a byte,
    gives on every cylinder and head that fit a byte a track that
    [from_format] builds, [set_img_track] fills, [raw_track] encodes and
    [verify_track] accepts when the encoded bits are read back. *)
Theorem loaded_template_track_verifies (name cfg : string) (lines : list string)
        (f : Formats.Format) (i : nat) (c : Formats.IBMTrackConfig)
        (cyl0 head0 tlen : Z) (tdat : bytes) :
  Formats.get_format name lines cfg = inr (Some f) →
  Formats.templates f !! i = Some (Formats.IBM c) →
  Formats.finalised c = true →
  is_byte cyl0 → is_byte head0 →
  Formats.id c + Formats.secs c ≤ 256 →
  Forall is_byte tdat →
  ∃ t0 b,
    from_format (Z.to_nat (Formats.secs c)) c cyl0 head0 = Some (inr t0)
    ∧ raw_track tlen (set_img_track t0 tdat).1 = inr b
    ∧ verify_track (set_img_track t0 tdat).1 (frombytes b)
                   [Z.of_nat (length (frombytes b))] = inr true.
Proof.
  intros Hget Hi Hfin Hcyl Hhead Hfit Htdat.
  pose proof (ConfigProps.get_format_templates_ok name cfg lines f Hget) as Hall.
  rewrite Forall_forall in Hall.
  destruct (Hall _ (list_elem_of_lookup_2 _ _ _ Hi)) as [Hr Hchk].
  destruct (Hchk Hfin) as [_ Hsz].
  destruct (from_format_good (Z.to_nat (Formats.secs c)) c cyl0 head0
              Hr Hsz Hcyl Hhead Hfit (le_n _)) as (t0 & Hff & Hl0 & _ & _).
  destruct (set_img_track_good t0 tdat Hl0 Htdat) as (Hl & Hvalid & _).
  destruct (round_trip_laid_out _ tlen Hl) as (b & Hraw & _ & _ & Hver).
  rewrite (valid_sectors_id _ Hvalid) in Hver.
  rewrite bool_decide_eq_true_2 in Hver by done.
  by exists t0, b.
Qed.

End Loaded.

Lemma loaded_template_track_verifies_witness :
  ∃ f c, @Formats.get_format ibm2 "ibm.sd" ConfigProps.fm_doc "x.cfg"
         = inr (Some f)
         ∧ Formats.templates f !! 0%nat = Some (Formats.IBM c)
         ∧ Formats.finalised c = true
         ∧ is_byte 39 ∧ is_byte 0
         ∧ Formats.id c + Formats.secs c ≤ 256
         ∧ Forall is_byte [1; 2; 3]
         ∧ ∃ t0 b,
             from_format (Z.to_nat (Formats.secs c)) c 39 0 = Some (inr t0)
             ∧ raw_track 0 (set_img_track t0 [1; 2; 3]).1 = inr b
             ∧ verify_track (set_img_track t0 [1; 2; 3]).1 (frombytes b)
                            [Z.of_nat (length (frombytes b))] = inr true.
Proof.
  do 2 eexists.
  assert (Hget : @Formats.get_format ibm2 "ibm.sd"
                   ConfigProps.fm_doc "x.cfg" = inr (Some _))
    by (vm_compute; reflexivity).
  split; [exact Hget|].
  match goal with |- ?A ∧ _ => assert (Ht : A) by reflexivity end.
  split; [exact Ht|].
  assert (H39 : is_byte 39) by (unfold is_byte; lia).
  assert (H0 : is_byte 0) by (unfold is_byte; lia).
  assert (Hd : Forall is_byte [1; 2; 3]) by (repeat constructor; unfold is_byte; lia).
  split; [reflexivity|]. split; [exact H39|]. split; [exact H0|].
  split; [simpl; lia|]. split; [exact Hd|].
  exact (@loaded_template_track_verifies ibm2 "ibm.sd" "x.cfg"
           ConfigProps.fm_doc _ 0%nat _ 39 0 0 [1; 2; 3]
           Hget Ht eq_refl H39 H0 ltac:(simpl; lia) Hd).
Defined.

End TrackProps.
